(** * Model-based optimization for linear real arithmetic

    A shallow embedding of [src/math/simplex/model_based_opt.cpp]: the
    constraint tableau (rows, variable index, model), the sparse linear
    combination [mul_add], the coefficient lookup, the bound search, the
    maximization loop with its back-substitution, and model-based
    projection.  Rationals are the canonical rationals [Qc]; the vectors
    of the source are lists read with [nth] and written with [upd]. *)

From Stdlib Require Import List Arith Lia QArith Qcanon Lqa Bool.
Import ListNotations.

Open Scope Qc_scope.

(** ** Rationals: the queries the source uses *)

Definition is_zero (a : Qc) : bool := Qc_eq_bool a 0.

Definition is_pos (a : Qc) : bool :=
  match 0 ?= a with Lt => true | _ => false end.

Definition is_neg (a : Qc) : bool :=
  match a ?= 0 with Lt => true | _ => false end.

Definition rat_lt (a b : Qc) : bool :=
  match a ?= b with Lt => true | _ => false end.

Definition rat_eq (a b : Qc) : bool := Qc_eq_bool a b.

(** [abs] and [std::min] on rationals. *)
Definition rat_abs (a : Qc) : Qc := if is_neg a then - a else a.

Definition rat_min (a b : Qc) : Qc := if rat_lt b a then b else a.

(** ** Vectors *)

(** [v[i] = x]; writing out of range has no defined meaning in the source
    and leaves the list as it is here. *)
Fixpoint upd {A : Type} (i : nat) (x : A) (l : list A) : list A :=
  match l, i with
  | [], _ => []
  | _ :: t, O => x :: t
  | h :: t, S i' => h :: upd i' x t
  end.

(** [uint_set::contains] on the visited set. *)
Definition contains (visited : list nat) (i : nat) : bool :=
  existsb (Nat.eqb i) visited.

(** ** Data model *)

Inductive ineq_type : Type := t_eq | t_lt | t_le.

Definition is_eq (t : ineq_type) : bool :=
  match t with t_eq => true | _ => false end.

Definition is_lt (t : ineq_type) : bool :=
  match t with t_lt => true | _ => false end.

Definition is_le (t : ineq_type) : bool :=
  match t with t_le => true | _ => false end.

Record var : Type := mk_var { m_id : nat; m_coeff : Qc }.

(** A row.  [m_const] is the field the source calls [m_coeff] (the
    constant of the inequality); [var] already has a field of that name. *)
Record row : Type := mk_row {
  m_vars : list var;
  m_const : Qc;
  m_type : ineq_type;
  m_value : Qc;
  m_alive : bool
}.

Record model_based_opt : Type := mk_opt {
  m_rows : list row;
  m_var2row_ids : list (list nat);
  m_var2value : list Qc
}.

(** Modelled from the spec: the default constructor [row()] of the header,
    which is not part of this file.  A fresh row has no variables, constant
    and value zero, is not alive, and (row 0 being "always a Le relation")
    has relation [t_le]. *)
Definition default_row : row := mk_row [] 0 t_le 0 false.

(** Modelled from the spec: [m_objective_id], declared in the header; "row 0
    is reserved as the objective row". *)
Definition m_objective_id : nat := 0%nat.

(** Modelled from the spec: the extended value [inf_eps] that [maximize]
    returns, "either a finite value (with a strict/non-strict marker) or
    positive infinity"; a finite value carries the coefficient of the
    infinitesimal, [-1] for "infinitesimally below" and [0] for exact. *)
Inductive inf_eps : Type :=
| infinity : inf_eps
| finite (value : Qc) (eps : Qc) : inf_eps.

Definition dummy_var : var := mk_var 0 0.

(** [m_rows[i]]; an index out of range reads as a dead empty row. *)
Definition get_row (s : model_based_opt) (i : nat) : row :=
  nth i (m_rows s) default_row.

Definition objective (s : model_based_opt) : row := get_row s m_objective_id.

Definition get_value (s : model_based_opt) (x : nat) : Qc :=
  nth x (m_var2value s) 0.

Definition row_ids_of (s : model_based_opt) (x : nat) : list nat :=
  nth x (m_var2row_ids s) [].

Definition set_value (r : row) (v : Qc) : row :=
  mk_row (m_vars r) (m_const r) (m_type r) v (m_alive r).

Definition set_alive (r : row) (b : bool) : row :=
  mk_row (m_vars r) (m_const r) (m_type r) (m_value r) b.

(** [m_rows[i].m_alive = false] *)
Definition kill (i : nat) (s : model_based_opt) : model_based_opt :=
  mk_opt (upd i (set_alive (get_row s i) false) (m_rows s))
         (m_var2row_ids s) (m_var2value s).

(** [m_var2row_ids[v].push_back(row_id)] *)
Definition push_row_id (idx : list (list nat)) (v row_id : nat) : list (list nat) :=
  upd v (nth v idx [] ++ [row_id]) idx.

(** ** [get_row_value] *)

Definition row_value (vals : list Qc) (r : row) : Qc :=
  fold_left (fun val v => val + m_coeff v * nth (m_id v) vals 0)
            (m_vars r) (m_const r).

Definition get_row_value (s : model_based_opt) (r : row) : Qc :=
  row_value (m_var2value s) r.

(** ** [get_coefficient]: binary search in the sorted variable list *)

(** The [while (lo < hi)] loop; it returns the final [lo].  Each round
    shrinks [hi - lo], so [fuel] = the length of the list is enough. *)
Fixpoint search (fuel : nat) (vars : list var) (var_id lo hi : nat) : nat :=
  match fuel with
  | O => lo
  | S fuel' =>
      if lo <? hi then
        let mid := (lo + (hi - lo) / 2)%nat in
        let id := m_id (nth mid vars dummy_var) in
        if id =? var_id then mid
        else if id <? var_id then search fuel' vars var_id (mid + 1) hi
        else search fuel' vars var_id lo mid
      else lo
  end.

Definition coefficient_in (vars : list var) (var_id : nat) : Qc :=
  match vars with
  | [] => 0
  | _ =>
      let lo := search (length vars) vars var_id 0 (length vars) in
      if lo =? length vars then 0
      else
        let v := nth lo vars dummy_var in
        if m_id v =? var_id then m_coeff v else 0
  end.

Definition get_coefficient (s : model_based_opt) (row_id var_id : nat) : Qc :=
  coefficient_in (m_vars (get_row s row_id)) var_id.

(** ** [mul_add]: row1 <- row1 + c * row2 *)

Definition scale (c : Qc) (v : var) : var := mk_var (m_id v) (m_coeff v * c).

(** The merge loop of [mul_add].  The result is the new variable list
    ([m_new_vars]) and, in order, the ids taken from row2 alone, for which
    the source pushes [row_id1] on the variable index. *)
Fixpoint merge (c : Qc) (l1 l2 : list var) {struct l1} : list var * list nat :=
  let fix merge_right (l2 : list var) {struct l2} : list var * list nat :=
    match l2 with
    | [] => (l1, [])
    | v2 :: l2' =>
        match l1 with
        | [] =>
            let (vs, ids) := merge_right l2' in
            (scale c v2 :: vs, m_id v2 :: ids)
        | v1 :: l1' =>
            if m_id v1 =? m_id v2 then
              let (vs, ids) := merge c l1' l2' in
              let a := m_coeff v1 + c * m_coeff v2 in
              if is_zero a then (vs, ids) else (mk_var (m_id v1) a :: vs, ids)
            else if m_id v1 <? m_id v2 then
              let (vs, ids) := merge c l1' l2 in
              (v1 :: vs, ids)
            else
              let (vs, ids) := merge_right l2' in
              (scale c v2 :: vs, m_id v2 :: ids)
        end
    end
  in merge_right l2.

(** The relation of row1 after [mul_add]. *)
Definition combine_type (same_sign : bool) (t1 t2 : ineq_type) : ineq_type :=
  if negb same_sign && is_lt t2 then t_lt
  else if same_sign && is_lt t1 && is_lt t2 then t_le
  else t1.

Definition mul_add (same_sign : bool) (row_id1 : nat) (c : Qc) (row_id2 : nat)
    (s : model_based_opt) : model_based_opt :=
  if is_zero c then s
  else
    let r1 := get_row s row_id1 in
    let r2 := get_row s row_id2 in
    let (new_vars, added) := merge c (m_vars r1) (m_vars r2) in
    let idx :=
      if row_id1 =? m_objective_id then m_var2row_ids s
      else fold_left (fun idx v => push_row_id idx v row_id1) added
                     (m_var2row_ids s) in
    let r1' :=
      mk_row new_vars (m_const r1 + c * m_const r2)
             (combine_type same_sign (m_type r1) (m_type r2))
             (m_value r1 + c * m_value r2) (m_alive r1) in
    mk_opt (upd row_id1 r1' (m_rows s)) idx (m_var2value s).

(** ** [resolve] *)

Definition resolve (row_src : nat) (a1 : Qc) (row_dst x : nat)
    (s : model_based_opt) : model_based_opt :=
  if m_alive (get_row s row_dst) then
    let a2 := get_coefficient s row_dst x in
    mul_add (negb (row_dst =? m_objective_id) && Bool.eqb (is_pos a1) (is_pos a2))
            row_dst (- a2 / a1) row_src s
  else s.

Definition resolve_all (row_src : nat) (a1 : Qc) (x : nat) (dsts : list nat)
    (s : model_based_opt) : model_based_opt :=
  fold_left (fun s' row_dst => resolve row_src a1 row_dst x s') dsts s.

(** ** [find_bound] *)

(** The locals of the loop of [find_bound]: the visited set, the pivot
    ([bound_row_index], [None] standing for [UINT_MAX], which no row id
    equals), its coefficient and bound value, and the scratch lists. *)
Record bound_search : Type := mk_bs {
  bs_visited : list nat;
  bs_index : option nat;
  bs_coeff : Qc;
  bs_lub_val : Qc;
  bs_above : list nat;
  bs_below : list nat
}.

Definition bs_init : bound_search := mk_bs [] None 0 0 [] [].

(** The implied bound [x_val - r.m_value / a] of a row on [x]. *)
Definition bound_value (s : model_based_opt) (x row_id : nat) : Qc :=
  get_value s x - m_value (get_row s row_id) / get_coefficient s row_id x.

Definition find_bound_step (s : model_based_opt) (x : nat) (pos : bool)
    (st : bound_search) (row_id : nat) : bound_search :=
  if contains (bs_visited st) row_id then st
  else
    let visited := row_id :: bs_visited st in
    let r := get_row s row_id in
    if m_alive r then
      let a := get_coefficient s row_id x in
      if is_zero a then
        mk_bs visited (bs_index st) (bs_coeff st) (bs_lub_val st)
              (bs_above st) (bs_below st)
      else if Bool.eqb (is_pos a) pos || is_eq (m_type r) then
        let value := get_value s x - m_value r / a in
        match bs_index st with
        | None =>
            mk_bs visited (Some row_id) a value (bs_above st) (bs_below st)
        | Some bound_row_index =>
            if (rat_eq value (bs_lub_val st) && is_lt (m_type r))
               || (pos && rat_lt value (bs_lub_val st))
               || (negb pos && rat_lt (bs_lub_val st) value)
            then
              mk_bs visited (Some row_id) a value
                    (bs_above st ++ [bound_row_index]) (bs_below st)
            else
              mk_bs visited (bs_index st) (bs_coeff st) (bs_lub_val st)
                    (bs_above st ++ [row_id]) (bs_below st)
        end
      else
        mk_bs visited (bs_index st) (bs_coeff st) (bs_lub_val st)
              (bs_above st) (bs_below st ++ [row_id])
    else
      mk_bs visited (bs_index st) (bs_coeff st) (bs_lub_val st)
            (bs_above st) (bs_below st).

(** [find_bound] returns [true] when [bs_index] is not [None]; the other
    fields are its out-parameters and [m_above], [m_below]. *)
Definition find_bound (s : model_based_opt) (x : nat) (pos : bool) : bound_search :=
  fold_left (find_bound_step s x pos) (row_ids_of s x) bs_init.

(** ** [update_values] *)

(** The inner loop over the variables of the bound row: the residual [val]
    and the coefficient of [x]. *)
Definition residual (vals : list Qc) (x : nat) (r : row) : Qc * Qc :=
  fold_left
    (fun (acc : Qc * Qc) v =>
       if x =? m_id v then (fst acc, m_coeff v)
       else (fst acc + nth (m_id v) vals 0 * m_coeff v, snd acc))
    (m_vars r) (m_const r, 0).

(** The perturbation of a strict row. *)
Definition strict_eps (old_x_val new_x_val : Qc) : Qc :=
  rat_min 1 (rat_abs (old_x_val - new_x_val) / Q2Qc 2).

(** The value [update_values] gives to [x] from its bound row. *)
Definition new_value (vals : list Qc) (x : nat) (r : row) : Qc :=
  let old_x_val := nth x vals 0 in
  let (val, x_coeff) := residual vals x r in
  let new_x_val := - val / x_coeff in
  if is_lt (m_type r) then
    let eps := strict_eps old_x_val new_x_val in
    if is_pos x_coeff then new_x_val - eps else new_x_val + eps
  else new_x_val.

(** One round of the first loop: fix [x] from its bound row and recompute
    the cached value of that row. *)
Definition fix_value (s : model_based_opt) (xr : nat * nat) : model_based_opt :=
  let (x, row_id) := xr in
  let r := get_row s row_id in
  let vals := upd x (new_value (m_var2value s) x r) (m_var2value s) in
  mk_opt (upd row_id (set_value r (row_value vals r)) (m_rows s))
         (m_var2row_ids s) vals.

(** [r.m_value = get_row_value(r)] for the row [row_id]. *)
Definition recompute (s : model_based_opt) (row_id : nat) : model_based_opt :=
  let r := get_row s row_id in
  mk_opt (upd row_id (set_value r (get_row_value s r)) (m_rows s))
         (m_var2row_ids s) (m_var2value s).

(** One round of the second loop: recompute every row listed for [x]. *)
Definition recompute_var (s : model_based_opt) (x : nat) : model_based_opt :=
  fold_left recompute (row_ids_of s x) s.

(** Both loops run over the trail from its last entry to its first. *)
Definition update_values (bound_vars bound_trail : list nat)
    (s : model_based_opt) : model_based_opt :=
  let s1 := fold_left fix_value (rev (combine bound_vars bound_trail)) s in
  fold_left recompute_var (rev (firstn (length bound_trail) bound_vars)) s1.

(** [update_value] *)
Definition update_value (x : nat) (val : Qc) (s : model_based_opt) : model_based_opt :=
  let old_val := get_value s x in
  let s0 := mk_opt (m_rows s) (m_var2row_ids s) (upd x val (m_var2value s)) in
  fold_left
    (fun s' row_id =>
       let coeff := get_coefficient s' row_id x in
       if is_zero coeff then s'
       else
         let r := get_row s' row_id in
         mk_opt (upd row_id (set_value r (m_value r + coeff * (val - old_val)))
                     (m_rows s'))
                (m_var2row_ids s') (m_var2value s'))
    (row_ids_of s x) s0.

(** ** [maximize] *)

(** The body of the [while] loop when a bound was found: resolve the rows
    of [m_above] and [m_below] against the bound row, fold the bound row
    into the objective and retire it. *)
Definition eliminate (x : nat) (coeff : Qc) (fb : bound_search)
    (bound_row_index : nat) (s : model_based_opt) : model_based_opt :=
  let bound_coeff := bs_coeff fb in
  let s1 := resolve_all bound_row_index bound_coeff x (bs_above fb) s in
  let s2 := resolve_all bound_row_index bound_coeff x (bs_below fb) s1 in
  let s3 := mul_add false m_objective_id (- coeff / bound_coeff) bound_row_index s2 in
  kill bound_row_index s3.

(** What one test of the loop condition leads to. *)
Inductive step_result : Type :=
| Done : step_result
| Unbounded : step_result
| Next (x bound_row_index : nat) (s' : model_based_opt) : step_result.

Definition maximize_step (s : model_based_opt) : step_result :=
  match m_vars (objective s) with
  | [] => Done
  | _ =>
      let v := last (m_vars (objective s)) dummy_var in
      let x := m_id v in
      let coeff := m_coeff v in
      let fb := find_bound s x (is_pos coeff) in
      match bs_index fb with
      | Some bound_row_index => Next x bound_row_index (eliminate x coeff fb bound_row_index s)
      | None => Unbounded
      end
  end.

(** The value returned after the loop. *)
Definition result_of (s : model_based_opt) : inf_eps :=
  let value := m_value (objective s) in
  if is_lt (m_type (objective s)) then finite value (- (1)) else finite value 0.

(** The loop of [maximize] with its two trails; [fuel] bounds the number
    of rounds and [None] means it ran out. *)
Fixpoint maximize_loop (fuel : nat) (s : model_based_opt)
    (bound_vars bound_trail : list nat) : option (inf_eps * model_based_opt) :=
  match fuel with
  | O => None
  | S fuel' =>
      match maximize_step s with
      | Done =>
          let s' := update_values bound_vars bound_trail s in
          Some (result_of s', s')
      | Unbounded => Some (infinity, update_values bound_vars bound_trail s)
      | Next x bound_row_index s' =>
          maximize_loop fuel' s' (bound_vars ++ [x]) (bound_trail ++ [bound_row_index])
      end
  end.

Definition live_rows (s : model_based_opt) : nat :=
  length (filter m_alive (m_rows s)).

(** Every round retires a live row, so one more round than there are live
    rows is enough. *)
Definition maximize (s : model_based_opt) : option (inf_eps * model_based_opt) :=
  maximize_loop (S (live_rows s)) s [] [].

(** ** [solve_for] and [project] *)

Definition solve_for (row_id1 x : nat) (s : model_based_opt) : model_based_opt :=
  let a := get_coefficient s row_id1 x in
  let loop :=
    fold_left
      (fun (acc : model_based_opt * list nat) row_id2 =>
         if contains (snd acc) row_id2 then acc
         else (resolve row_id1 a row_id2 x (fst acc), row_id2 :: snd acc))
      (row_ids_of s x) (s, [row_id1]) in
  kill row_id1 (fst loop).

(** The locals of the selection loop of [project]. *)
Record selection : Type := mk_sel {
  sel_visited : list nat;
  lub_rows : list nat;
  glb_rows : list nat;
  lub_index : option nat;
  glb_index : option nat;
  lub_strict : bool;
  glb_strict : bool;
  lub_val : Qc;
  glb_val : Qc
}.

Definition sel_init : selection := mk_sel [] [] [] None None false false 0 0.

Definition is_nil {A : Type} (l : list A) : bool :=
  match l with [] => true | _ => false end.

(** The selection loop; [inl row_id] when it meets a live equality on [x]
    and leaves for [solve_for], [inr] with the final locals otherwise. *)
Fixpoint select (s : model_based_opt) (x : nat) (row_ids : list nat)
    (st : selection) : nat + selection :=
  match row_ids with
  | [] => inr st
  | row_id :: rest =>
      if contains (sel_visited st) row_id then select s x rest st
      else
        let visited := row_id :: sel_visited st in
        let st0 := mk_sel visited (lub_rows st) (glb_rows st) (lub_index st)
                          (glb_index st) (lub_strict st) (glb_strict st)
                          (lub_val st) (glb_val st) in
        let r := get_row s row_id in
        if negb (m_alive r) then select s x rest st0
        else
          let a := get_coefficient s row_id x in
          if is_zero a then select s x rest st0
          else if is_eq (m_type r) then inl row_id
          else if is_pos a then
            let lub_value := get_value s x - m_value r / a in
            let st1 :=
              if is_nil (lub_rows st)
                 || rat_lt lub_value (lub_val st)
                 || (rat_eq lub_value (lub_val st) && is_lt (m_type r)
                     && negb (lub_strict st))
              then mk_sel visited (lub_rows st ++ [row_id]) (glb_rows st)
                          (Some row_id) (glb_index st) (is_lt (m_type r))
                          (glb_strict st) lub_value (glb_val st)
              else mk_sel visited (lub_rows st ++ [row_id]) (glb_rows st)
                          (lub_index st) (glb_index st) (lub_strict st)
                          (glb_strict st) (lub_val st) (glb_val st) in
            select s x rest st1
          else
            let glb_value := get_value s x - m_value r / a in
            let st1 :=
              if is_nil (glb_rows st)
                 || rat_lt (glb_val st) glb_value
                 || (rat_eq glb_value (glb_val st) && is_lt (m_type r)
                     && negb (glb_strict st))
              then mk_sel visited (lub_rows st) (glb_rows st ++ [row_id])
                          (lub_index st) (Some row_id) (lub_strict st)
                          (is_lt (m_type r)) (lub_val st) glb_value
              else mk_sel visited (lub_rows st) (glb_rows st ++ [row_id])
                          (lub_index st) (glb_index st) (lub_strict st)
                          (glb_strict st) (lub_val st) (glb_val st) in
            select s x rest st1
  end.

(** The pivot chosen after the selection loop. *)
Definition pivot_of (st : selection) : option nat :=
  if length (lub_rows st) <=? length (glb_rows st) then lub_index st
  else glb_index st.

Definition kill_all (rows : list nat) (s : model_based_opt) : model_based_opt :=
  fold_left (fun s' row_id => kill row_id s') rows s.

Definition resolve_others (row_index : nat) (coeff : Qc) (x : nat)
    (rows : list nat) (s : model_based_opt) : model_based_opt :=
  fold_left
    (fun s' row_id =>
       if row_id =? row_index then s' else resolve row_index coeff row_id x s')
    rows s.

Definition project (x : nat) (s : model_based_opt) : model_based_opt :=
  match select s x (row_ids_of s x) sel_init with
  | inl row_id => solve_for row_id x s
  | inr st =>
      let rows := glb_rows st ++ lub_rows st in
      match pivot_of st with
      | None => kill_all rows s
      | Some row_index =>
          let coeff := get_coefficient s row_index x in
          kill row_index (resolve_others row_index coeff x rows s)
      end
  end.

(** [project(num_vars, vars)] *)
Definition project_vars (vars : list nat) (s : model_based_opt) : model_based_opt :=
  fold_left (fun s' x => project x s') vars s.

(** ** Building the tableau *)

(** The constructor: one row, the objective. *)
Definition empty_opt : model_based_opt := mk_opt [default_row] [] [].

Definition add_var (value : Qc) (s : model_based_opt) : nat * model_based_opt :=
  (length (m_var2value s),
   mk_opt (m_rows s) (m_var2row_ids s ++ [[]]) (m_var2value s ++ [value])).

(** [std::sort] by [var::compare], as an insertion sort on the ids. *)
Fixpoint insert_var (v : var) (l : list var) : list var :=
  match l with
  | [] => [v]
  | h :: t => if m_id v <? m_id h then v :: l else h :: insert_var v t
  end.

Definition sort_vars (l : list var) : list var := fold_right insert_var [] l.

Definition set_row (row_id : nat) (coeffs : list var) (c : Qc) (rel : ineq_type)
    (s : model_based_opt) : model_based_opt :=
  let r := get_row s row_id in
  let val :=
    fold_left (fun val v => val + nth (m_id v) (m_var2value s) 0 * m_coeff v)
              coeffs c in
  mk_opt (upd row_id (mk_row (sort_vars (m_vars r ++ coeffs)) c rel val true)
              (m_rows s))
         (m_var2row_ids s) (m_var2value s).

Definition add_constraint (coeffs : list var) (c : Qc) (rel : ineq_type)
    (s : model_based_opt) : model_based_opt :=
  let row_id := length (m_rows s) in
  let s1 := mk_opt (m_rows s ++ [default_row]) (m_var2row_ids s) (m_var2value s) in
  let s2 := set_row row_id coeffs c rel s1 in
  mk_opt (m_rows s2)
         (fold_left (fun idx v => push_row_id idx (m_id v) row_id) coeffs
                    (m_var2row_ids s2))
         (m_var2value s2).

Definition set_objective (coeffs : list var) (c : Qc) (s : model_based_opt) : model_based_opt :=
  set_row m_objective_id coeffs c t_le s.

Definition get_live_rows (s : model_based_opt) : list row :=
  filter m_alive (m_rows s).

(** ** [invariant] *)

Fixpoint sorted_ids (vars : list var) : bool :=
  match vars with
  | [] => true
  | v :: rest =>
      match rest with
      | [] => true
      | w :: _ => (m_id v <? m_id w) && sorted_ids rest
      end
  end.

Definition nonzero_coeffs (vars : list var) : bool :=
  forallb (fun v => negb (is_zero (m_coeff v))) vars.

(** The row invariant: sorted ids, no zero coefficient, and the cached
    value is the value of the row under the model. *)
Definition row_invariant (vals : list Qc) (r : row) : bool :=
  sorted_ids (m_vars r) && nonzero_coeffs (m_vars r)
  && rat_eq (m_value r) (row_value vals r).

(** The satisfaction invariant of a row that is not the objective. *)
Definition satisfied (r : row) : bool :=
  match m_type r with
  | t_eq => is_zero (m_value r)
  | t_lt => is_neg (m_value r)
  | t_le => negb (is_pos (m_value r))
  end.

(** [invariant(index, r)]: the conjunction of the conditions it asserts. *)
Definition invariant_row (s : model_based_opt) (index : nat) (r : row) : bool :=
  row_invariant (m_var2value s) r
  && (negb (is_eq (m_type r)) || is_zero (m_value r))
  && ((index =? 0) || negb (is_lt (m_type r)) || is_neg (m_value r))
  && ((index =? 0) || negb (is_le (m_type r)) || negb (is_pos (m_value r))).

(** [invariant()] *)
Definition invariant (s : model_based_opt) : bool :=
  forallb (fun i => invariant_row s i (get_row s i)) (seq 0 (length (m_rows s))).

(** ** Specification-level views of a row *)

(** The coefficient of [x] in a variable list, by linear search. *)
Fixpoint coeff_of (vars : list var) (x : nat) : Qc :=
  match vars with
  | [] => 0
  | v :: rest => if m_id v =? x then m_coeff v else coeff_of rest x
  end.

(** The linear term of a row under a model. *)
Fixpoint dot (vals : list Qc) (vars : list var) : Qc :=
  match vars with
  | [] => 0
  | v :: rest => m_coeff v * nth (m_id v) vals 0 + dot vals rest
  end.

Definition ids (vars : list var) : list nat := map m_id vars.

(** ** What [find_bound] and [project] look for *)

(** A row counts for [x] when it is alive and its coefficient on [x] is not
    zero. *)
Definition live_on (s : model_based_opt) (x i : nat) : bool :=
  m_alive (get_row s i) && negb (is_zero (get_coefficient s i x)).

(** The rows [find_bound] takes as candidates for the bound: the sign of
    the coefficient is the wanted one, or the row is an equality. *)
Definition candidate (s : model_based_opt) (x : nat) (pos : bool) (i : nat) : bool :=
  live_on s x i
  && (Bool.eqb (is_pos (get_coefficient s i x)) pos || is_eq (m_type (get_row s i))).

Definition pivot_list (o : option nat) : list nat :=
  match o with Some b => [b] | None => [] end.

(** [b] is at least as tight as [i]: the least bound value when [pos], the
    greatest otherwise. *)
Definition tighter (s : model_based_opt) (x : nat) (pos : bool) (b i : nat) : Prop :=
  if pos then bound_value s x b <= bound_value s x i
  else bound_value s x i <= bound_value s x b.

(** On a tie a strict row is not passed over for a row that is not strict. *)
Definition strict_kept (s : model_based_opt) (x b i : nat) : Prop :=
  bound_value s x i = bound_value s x b ->
  m_type (get_row s i) = t_lt -> m_type (get_row s b) = t_lt.

(** ** Rows after a linear combination *)

(** Row1 after [mul_add] with a scalar that is not zero. *)
Definition mul_add_row (same_sign : bool) (c : Qc) (r1 r2 : row) : row :=
  mk_row (fst (merge c (m_vars r1) (m_vars r2)))
         (m_const r1 + c * m_const r2)
         (combine_type same_sign (m_type r1) (m_type r2))
         (m_value r1 + c * m_value r2) (m_alive r1).

(** The destination row after [resolve] against [src], whose coefficient
    on [x] is [a1]. *)
Definition resolve_row (src : row) (a1 : Qc) (dst : row) (is_objective : bool)
    (x : nat) : row :=
  if m_alive dst then
    let a2 := coefficient_in (m_vars dst) x in
    if is_zero (- a2 / a1) then dst
    else mul_add_row (negb is_objective && Bool.eqb (is_pos a1) (is_pos a2))
                     (- a2 / a1) dst src
  else dst.

Definition resolved (s : model_based_opt) (row_src : nat) (a1 : Qc)
    (row_dst x : nat) : row :=
  resolve_row (get_row s row_src) a1 (get_row s row_dst)
              (row_dst =? m_objective_id) x.

(** The row ids a loop with a visited set acts on: those of [l] not in
    [visited], each at its first occurrence. *)
Fixpoint fresh_ids (visited l : list nat) : list nat :=
  match l with
  | [] => []
  | r :: rest =>
      if contains visited r then fresh_ids visited rest
      else r :: fresh_ids (r :: visited) rest
  end.

(** ** Invariants of the tableau *)

(** The variable index lists only constraint rows that exist. *)
Definition index_in_range (s : model_based_opt) : bool :=
  forallb (forallb (fun i => (0 <? i) && (i <? length (m_rows s))))
          (m_var2row_ids s).

(** Every variable of row [i] exists and, for a constraint row, lists the
    row in its index. *)
Definition row_indexed (s : model_based_opt) (i : nat) : bool :=
  forallb (fun v => (m_id v <? length (m_var2value s))
                    && ((i =? m_objective_id) || contains (row_ids_of s (m_id v)) i))
          (m_vars (get_row s i)).

Definition well_formed (s : model_based_opt) : bool :=
  (0 <? length (m_rows s))
  && (length (m_var2row_ids s) =? length (m_var2value s))
  && index_in_range s
  && forallb (row_indexed s) (seq 0 (length (m_rows s))).

(** The invariants of row [i]: the row invariant when the row is alive (or
    for every row when [all] is set), and the satisfaction invariant when
    the row is alive and not the objective. *)
Definition row_ok (all : bool) (s : model_based_opt) (i : nat) : bool :=
  let r := get_row s i in
  (negb (all || m_alive r) || row_invariant (m_var2value s) r)
  && ((i =? m_objective_id) || negb (m_alive r) || satisfied r).

Definition rows_ok (all : bool) (s : model_based_opt) : bool :=
  forallb (row_ok all s) (seq 0 (length (m_rows s))).

(** A tableau in good order: [tableau_ok false] asks the row invariant of
    the live rows, [tableau_ok true] of every row. *)
Definition tableau_ok (all : bool) (s : model_based_opt) : bool :=
  well_formed s && rows_ok all s.

(** The same, as propositions over every row id. *)
Record wf (s : model_based_opt) : Prop := {
  wf_rows : (0 < length (m_rows s))%nat;
  wf_len : length (m_var2row_ids s) = length (m_var2value s);
  wf_range : forall x i, In i (row_ids_of s x) ->
                         (0 < i)%nat /\ (i < length (m_rows s))%nat;
  wf_vars : forall i y, In y (ids (m_vars (get_row s i))) ->
                        (y < length (m_var2value s))%nat;
  wf_index : forall i y, i <> m_objective_id ->
                         In y (ids (m_vars (get_row s i))) ->
                         In i (row_ids_of s y)
}.

Definition in_scope (all : bool) (r : row) : bool := all || m_alive r.

Record ok (all : bool) (s : model_based_opt) : Prop := {
  ok_wf : wf s;
  ok_inv : forall i, in_scope all (get_row s i) = true ->
                     row_invariant (m_var2value s) (get_row s i) = true;
  ok_sat : forall i, i <> m_objective_id -> m_alive (get_row s i) = true ->
                     satisfied (get_row s i) = true
}.

(** What a relation asks of the value of its row. *)
Definition holds (t : ineq_type) (v : Qc) : Prop :=
  match t with
  | t_eq => v = 0
  | t_lt => v < 0
  | t_le => v <= 0
  end.

(** The variables already eliminated by [maximize] occur in no live row,
    nor in the objective when its row invariant is asked. *)
Definition eliminated (all : bool) (s : model_based_opt) (done : list nat) : Prop :=
  forall y k, In y done ->
    m_alive (get_row s k) = true
    \/ (k = m_objective_id /\ in_scope all (get_row s k) = true) ->
    ~ In y (ids (m_vars (get_row s k))).

(** Two models that differ at most on the variables of [done]. *)
Definition agree_off (done : list nat) (vals vals' : list Qc) : Prop :=
  forall y, ~ In y done -> nth y vals 0 = nth y vals' 0.

(** Two rows that differ at most in the cached value. *)
Definition same_shape (r r' : row) : Prop :=
  m_vars r' = m_vars r /\ m_const r' = m_const r /\ m_type r' = m_type r
  /\ m_alive r' = m_alive r.

(** The cached value of row [k] is its value under the model. *)
Definition fresh (s : model_based_opt) (k : nat) : Prop :=
  m_value (get_row s k) = get_row_value s (get_row s k).

(** [n] rounds of the loop of [maximize], each of which finds a bound. *)
Fixpoint rounds (n : nat) (s : model_based_opt) (bound_vars bound_trail : list nat)
    : option (model_based_opt * list nat * list nat) :=
  match n with
  | O => Some (s, bound_vars, bound_trail)
  | S n' =>
      match maximize_step s with
      | Next x bound_row_index s' =>
          rounds n' s' (bound_vars ++ [x]) (bound_trail ++ [bound_row_index])
      | _ => None
      end
  end.

(** A live equality on [x]: what sends [project] to [solve_for]. *)
Definition live_equality (s : model_based_opt) (x i : nat) : bool :=
  live_on s x i && is_eq (m_type (get_row s i)).

(** One side of the selection of [project]: the rows collected, and their
    representative with its bound value and strictness. *)
Definition side_inv (s : model_based_opt) (x : nat) (pos : bool)
    (rows : list nat) (index : option nat) (val : Qc) (strict : bool) : Prop :=
  NoDup rows /\
  match index with
  | None => rows = []
  | Some l =>
      In l rows /\ val = bound_value s x l
      /\ strict = is_lt (m_type (get_row s l))
      /\ forall i, In i rows -> tighter s x pos l i /\ strict_kept s x l i
  end.

(** Rows [l] that can be resolved against the pivot [b] of [x]: they are
    listed for [x], they and the pivot cover every row that counts for
    [x], and each live one stays satisfied. *)
Record resolvable (s : model_based_opt) (x b : nat) (l : list nat) : Prop := {
  rs_pivot : In b (row_ids_of s x) /\ live_on s x b = true;
  rs_nodup : NoDup l /\ ~ In b l;
  rs_rows : forall i, In i l ->
      In i (row_ids_of s x)
      /\ (m_alive (get_row s i) = true ->
          satisfied (resolved s b (get_coefficient s b x) i x) = true);
  rs_all : forall i, In i (row_ids_of s x) -> live_on s x i = true ->
      i = b \/ In i l
}.

(** ** What the caller owes when it adds a row *)

Fixpoint distinct (l : list nat) : bool :=
  match l with
  | [] => true
  | x :: rest => negb (contains rest x) && distinct rest
  end.

(** The terms of a new row: variables that exist, no id twice, no zero
    coefficient. *)
Definition valid_terms (s : model_based_opt) (coeffs : list var) : bool :=
  distinct (ids coeffs) && nonzero_coeffs coeffs
  && forallb (fun v => m_id v <? length (m_var2value s)) coeffs.

(** The relation [t] holds of the value [v]. *)
Definition holds_b (t : ineq_type) (v : Qc) : bool :=
  match t with
  | t_eq => is_zero v
  | t_lt => is_neg v
  | t_le => negb (is_pos v)
  end.

(** The value of the terms [coeffs] with constant [c] under the model. *)
Definition terms_value (s : model_based_opt) (coeffs : list var) (c : Qc) : Qc :=
  c + dot (m_var2value s) coeffs.

(** ** The linear program of a tableau *)

(** A model of the live constraint rows. *)
Definition feasible (s : model_based_opt) (vals : list Qc) : Prop :=
  length vals = length (m_var2value s) /\
  forall i, i <> m_objective_id -> m_alive (get_row s i) = true ->
            holds (m_type (get_row s i)) (row_value vals (get_row s i)).

Definition objective_at (s : model_based_opt) (vals : list Qc) : Qc :=
  row_value vals (objective s).

Definition bounded_above (s : model_based_opt) : Prop :=
  exists u, forall vals, feasible s vals -> objective_at s vals <= u.

(** [r] is the optimum of the objective over the constraints: a maximum
    that some model attains when the infinitesimal is zero, a supremum that
    no model attains otherwise. *)
Definition is_optimum (s : model_based_opt) (r : inf_eps) : Prop :=
  match r with
  | infinity => ~ bounded_above s
  | finite v eps =>
      if is_zero eps then
        (exists vals, feasible s vals /\ objective_at s vals = v)
        /\ (forall vals, feasible s vals -> objective_at s vals <= v)
      else
        (forall vals, feasible s vals -> objective_at s vals < v)
        /\ (forall d, 0 < d ->
              exists vals, feasible s vals /\ v - d < objective_at s vals)
  end.

(** What a run of [maximize] shows of its result: the value and the
    infinitesimal, as fractions. *)
Definition observe (r : option (inf_eps * model_based_opt)) : option (option (Q * Q)) :=
  match r with
  | None => None
  | Some (infinity, _) => Some None
  | Some (finite v eps, _) => Some (Some (this v, this eps))
  end.

Definition selection_of (s : model_based_opt) (x : nat) : selection :=
  match select s x (row_ids_of s x) sel_init with
  | inr st => st
  | inl _ => sel_init
  end.

Definition objective_ids (s : model_based_opt) : list nat :=
  ids (m_vars (objective s)).

(** ** Tableaux built through the interface *)

Definition rat (n : Z) : Qc := Q2Qc (n # 1).

(** maximize [x] subject to [x <= 2y], [x <= y], [y <= 10], from the model
    [y = -1], [x = -2]; the variables are [y] (id 0) and [x] (id 1). *)
Definition tableau_lub : model_based_opt :=
  let (y, s) := add_var (rat (-1)) empty_opt in
  let (x, s) := add_var (rat (-2)) s in
  let s := add_constraint [mk_var x (rat 1); mk_var y (rat (-2))] (rat 0) t_le s in
  let s := add_constraint [mk_var x (rat 1); mk_var y (rat (-1))] (rat 0) t_le s in
  let s := add_constraint [mk_var y (rat 1)] (rat (-10)) t_le s in
  set_objective [mk_var x (rat 1)] (rat 0) s.

(** maximize [3u - 2w] subject to [u - w < 0], [u <= 1], from the model
    [u = 0], [w = 1]; the variables are [u] (id 0) and [w] (id 1). *)
Definition tableau_strict : model_based_opt :=
  let (u, s) := add_var (rat 0) empty_opt in
  let (w, s) := add_var (rat 1) s in
  let s := add_constraint [mk_var u (rat 1); mk_var w (rat (-1))] (rat 0) t_lt s in
  let s := add_constraint [mk_var u (rat 1)] (rat (-1)) t_le s in
  set_objective [mk_var u (rat 3); mk_var w (rat (-2))] (rat 0) s.

(** [x <= 1], [x <= 2], [x >= -1], [x >= -2] over [x] (id 0), with a second
    variable (id 1) that no row mentions; the model is [x = 0]. *)
Definition tableau_two_sided : model_based_opt :=
  let (x, s) := add_var (rat 0) empty_opt in
  let (y, s) := add_var (rat 0) s in
  let s := add_constraint [mk_var x (rat 1)] (rat (-1)) t_le s in
  let s := add_constraint [mk_var x (rat 1)] (rat (-2)) t_le s in
  let s := add_constraint [mk_var x (rat (-1))] (rat (-1)) t_le s in
  add_constraint [mk_var x (rat (-1))] (rat (-2)) t_le s.

(** maximize [x] subject to [x - y - z <= 0], from the model at zero; the
    variables are [y] (id 0), [x] (id 1) and [z] (id 2). *)
Definition tableau_chain : model_based_opt :=
  let (y, s) := add_var (rat 0) empty_opt in
  let (x, s) := add_var (rat 0) s in
  let (z, s) := add_var (rat 0) s in
  let s := add_constraint [mk_var x (rat 1); mk_var y (rat (-1)); mk_var z (rat (-1))]
                          (rat 0) t_le s in
  set_objective [mk_var x (rat 1)] (rat 0) s.

(** [x + y = 3], [x <= 5], [x >= 0] over [x] (id 0) and [y] (id 1), from
    the model [x = 1], [y = 2]. *)
Definition tableau_equality : model_based_opt :=
  let (x, s) := add_var (rat 1) empty_opt in
  let (y, s) := add_var (rat 2) s in
  let s := add_constraint [mk_var x (rat 1)] (rat (-5)) t_le s in
  let s := add_constraint [mk_var x (rat 1); mk_var y (rat 1)] (rat (-3)) t_eq s in
  add_constraint [mk_var x (rat (-1))] (rat 0) t_le s.

(** The state after [n] rounds of [maximize] on [s] ([s] itself when they
    do not all find a bound). *)
Definition after_rounds (n : nat) (s : model_based_opt) : model_based_opt :=
  match rounds n s [] [] with
  | Some (sk, _, _) => sk
  | None => s
  end.

(** The tableau [maximize] leaves behind ([s] itself if the loop ran out
    of fuel). *)
Definition state_after_maximize (s : model_based_opt) : model_based_opt :=
  match maximize s with
  | Some (_, s') => s'
  | None => s
  end.

(** maximize [z + 3u - 2w] subject to [u - w < 0], [u <= 1], from the model
    [z = 0], [u = 0], [w = 1]; the variables are [z] (id 0), [u] (id 1) and
    [w] (id 2), and no row bounds [z]. *)
Definition tableau_strict_unbounded : model_based_opt :=
  let (z, s) := add_var (rat 0) empty_opt in
  let (u, s) := add_var (rat 0) s in
  let (w, s) := add_var (rat 1) s in
  let s := add_constraint [mk_var u (rat 1); mk_var w (rat (-1))] (rat 0) t_lt s in
  let s := add_constraint [mk_var u (rat 1)] (rat (-1)) t_le s in
  set_objective [mk_var z (rat 1); mk_var u (rat 3); mk_var w (rat (-2))] (rat 0) s.

(** * Properties *)

(** ** Rationals *)

Lemma this_plus (a b : Qc) : (this (a + b) == this a + this b)%Q.
Proof. unfold Qcplus, Q2Qc, this. apply Qred_correct. Qed.

Lemma this_mult (a b : Qc) : (this (a * b) == this a * this b)%Q.
Proof. unfold Qcmult, Q2Qc, this. apply Qred_correct. Qed.

Lemma this_opp (a : Qc) : (this (- a) == - this a)%Q.
Proof. unfold Qcopp, Q2Qc, this. apply Qred_correct. Qed.

Lemma is_zero_true (a : Qc) : is_zero a = true <-> a = 0.
Proof.
  unfold is_zero. split.
  - apply Qc_eq_bool_correct.
  - intros ->. unfold Qc_eq_bool. destruct (Qc_eq_dec 0 0); congruence.
Qed.

Lemma is_zero_false (a : Qc) : is_zero a = false <-> a <> 0.
Proof.
  rewrite <- is_zero_true. destruct (is_zero a); split; congruence.
Qed.

Lemma rat_eq_true (a b : Qc) : rat_eq a b = true <-> a = b.
Proof.
  unfold rat_eq. split.
  - apply Qc_eq_bool_correct.
  - intros ->. unfold Qc_eq_bool. destruct (Qc_eq_dec b b); congruence.
Qed.

Lemma rat_lt_true (a b : Qc) : rat_lt a b = true <-> a < b.
Proof.
  unfold rat_lt. rewrite Qclt_alt. destruct (a ?= b); split; congruence.
Qed.

Lemma rat_lt_false (a b : Qc) : rat_lt a b = false <-> b <= a.
Proof.
  split; intros H.
  - apply Qcnot_lt_le. intros L. apply rat_lt_true in L. congruence.
  - destruct (rat_lt a b) eqn:E; trivial.
    apply rat_lt_true in E. elim (Qcle_not_lt _ _ H E).
Qed.

Lemma is_pos_true (a : Qc) : is_pos a = true <-> 0 < a.
Proof. apply (rat_lt_true 0 a). Qed.

Lemma is_pos_false (a : Qc) : is_pos a = false <-> a <= 0.
Proof. apply (rat_lt_false 0 a). Qed.

Lemma is_neg_true (a : Qc) : is_neg a = true <-> a < 0.
Proof. apply (rat_lt_true a 0). Qed.

Lemma is_neg_false (a : Qc) : is_neg a = false <-> 0 <= a.
Proof. apply (rat_lt_false a 0). Qed.

Lemma Qc_neq_lt (a : Qc) : a <> 0 -> a <= 0 -> a < 0.
Proof.
  intros Hn Hle. destruct (Qcle_lt_or_eq _ _ Hle); [assumption | contradiction].
Qed.

Lemma mul_pos_nonpos (a b : Qc) : 0 < a -> b <= 0 -> a * b <= 0.
Proof.
  unfold Qcle, Qclt. rewrite this_mult. simpl (this 0). intros. nra.
Qed.

Lemma mul_pos_neg (a b : Qc) : 0 < a -> b < 0 -> a * b < 0.
Proof.
  unfold Qcle, Qclt. rewrite this_mult. simpl (this 0). intros. nra.
Qed.

Lemma mul_neg_nonneg (a b : Qc) : a < 0 -> 0 <= b -> a * b <= 0.
Proof.
  unfold Qcle, Qclt. rewrite this_mult. simpl (this 0). intros. nra.
Qed.

Lemma mul_neg_pos (a b : Qc) : a < 0 -> 0 < b -> a * b < 0.
Proof.
  unfold Qcle, Qclt. rewrite this_mult. simpl (this 0). intros. nra.
Qed.

Lemma sub_nonpos (a b : Qc) : a <= b <-> a - b <= 0.
Proof.
  unfold Qcle, Qcminus. rewrite this_plus, this_opp. simpl (this 0).
  split; intros; lra.
Qed.

Lemma sub_neg (a b : Qc) : a < b <-> a - b < 0.
Proof.
  unfold Qclt, Qcminus. rewrite this_plus, this_opp. simpl (this 0).
  split; intros; lra.
Qed.

Lemma add_nonpos (a b : Qc) : a <= 0 -> b <= 0 -> a + b <= 0.
Proof.
  unfold Qcle. rewrite this_plus. simpl (this 0). intros; lra.
Qed.

Lemma add_neg_nonpos (a b : Qc) : a < 0 -> b <= 0 -> a + b < 0.
Proof.
  unfold Qcle, Qclt. rewrite this_plus. simpl (this 0). intros; lra.
Qed.

Lemma add_nonpos_neg (a b : Qc) : a <= 0 -> b < 0 -> a + b < 0.
Proof.
  unfold Qcle, Qclt. rewrite this_plus. simpl (this 0). intros; lra.
Qed.

(** The ratio [- a2 / a1] has the sign opposite to that of [a2 / a1]. *)
Lemma ratio_pos (a1 a2 : Qc) :
  a1 <> 0 -> a2 <> 0 -> is_pos a1 <> is_pos a2 -> 0 < - a2 / a1.
Proof.
  intros H1 H2 Hs.
  assert (E : (- a2 / a1) * a1 = - a2) by (field; assumption).
  revert E. generalize (- a2 / a1). intros d E.
  assert (E' : (this d * this a1 == - this a2)%Q)
    by (rewrite <- this_mult, <- this_opp, E; reflexivity).
  destruct (is_pos a1) eqn:P1, (is_pos a2) eqn:P2; try congruence.
  - apply is_pos_true in P1. apply is_pos_false in P2.
    apply Qc_neq_lt in P2; trivial.
    unfold Qclt in *. simpl (this 0) in *. nra.
  - apply is_pos_true in P2. apply is_pos_false in P1.
    apply Qc_neq_lt in P1; trivial.
    unfold Qclt in *. simpl (this 0) in *. nra.
Qed.

(** The value of a resolvent, in terms of the two implied bounds. *)
Lemma resolvent_value (a1 a2 v1 v2 x : Qc) :
  a1 <> 0 -> a2 <> 0 ->
  v2 + (- a2 / a1) * v1 = a2 * ((x - v1 / a1) - (x - v2 / a2)).
Proof. intros. field. split; assumption. Qed.

(** ** Vectors *)

Lemma upd_length {A : Type} (i : nat) (x : A) (l : list A) :
  length (upd i x l) = length l.
Proof.
  revert i. induction l as [|h t IH]; intros [|i]; simpl; auto.
Qed.

Lemma nth_upd_eq {A : Type} (i : nat) (x d : A) (l : list A) :
  (i < length l)%nat -> nth i (upd i x l) d = x.
Proof.
  revert i. induction l as [|h t IH]; intros [|i] H; simpl in *; try lia; auto.
  apply IH. lia.
Qed.

Lemma nth_upd_neq {A : Type} (i j : nat) (x d : A) (l : list A) :
  i <> j -> nth j (upd i x l) d = nth j l d.
Proof.
  revert i j. induction l as [|h t IH]; intros [|i] [|j] H; simpl; auto; try lia.
Qed.

Lemma upd_out {A : Type} (i : nat) (x : A) (l : list A) :
  (length l <= i)%nat -> upd i x l = l.
Proof.
  revert i. induction l as [|h t IH]; intros [|i] H; simpl in *; auto; try lia.
  f_equal. apply IH. lia.
Qed.

Lemma nth_upd {A : Type} (i j : nat) (x d : A) (l : list A) :
  nth j (upd i x l) d = if (i =? j) && (i <? length l) then x else nth j l d.
Proof.
  destruct (Nat.eqb_spec i j) as [->|Hn]; simpl.
  - destruct (Nat.ltb_spec j (length l)).
    + apply nth_upd_eq; assumption.
    + rewrite upd_out; trivial.
  - apply nth_upd_neq; assumption.
Qed.

Lemma contains_In (l : list nat) (i : nat) : contains l i = true <-> In i l.
Proof.
  unfold contains. rewrite existsb_exists. split.
  - intros [y [Hy E]]. apply Nat.eqb_eq in E. subst. assumption.
  - intros H. exists i. split; trivial. apply Nat.eqb_refl.
Qed.

Lemma contains_not_In (l : list nat) (i : nat) : contains l i = false <-> ~ In i l.
Proof.
  rewrite <- contains_In. destruct (contains l i); split; congruence.
Qed.

(** ** Sorted variable lists and the coefficient lookup *)

Lemma sorted_ids_cons (v : var) (rest : list var) :
  sorted_ids (v :: rest) = true ->
  sorted_ids rest = true /\ Forall (fun w => (m_id v < m_id w)%nat) rest.
Proof.
  revert v. induction rest as [|w rest IH]; intros v H.
  - split; [reflexivity | constructor].
  - cbn [sorted_ids] in H. apply andb_true_iff in H. destruct H as [H1 H2].
    apply Nat.ltb_lt in H1. split; [exact H2|].
    constructor; [exact H1|].
    destruct (IH w H2) as [_ F].
    eapply Forall_impl; [|exact F]. intros u Hu. simpl in Hu. lia.
Qed.

Lemma sorted_ids_intro (v : var) (rest : list var) :
  sorted_ids rest = true -> Forall (fun w => (m_id v < m_id w)%nat) rest ->
  sorted_ids (v :: rest) = true.
Proof.
  intros Hs F. destruct rest as [|w rest]; [reflexivity|].
  cbn [sorted_ids]. apply andb_true_iff. split; [|exact Hs].
  apply Nat.ltb_lt. inversion F; assumption.
Qed.

Lemma sorted_ids_nth (vars : list var) (i j : nat) :
  sorted_ids vars = true -> (i < j)%nat -> (j < length vars)%nat ->
  (m_id (nth i vars dummy_var) < m_id (nth j vars dummy_var))%nat.
Proof.
  revert i j. induction vars as [|v rest IH]; intros i j Hs Hij Hj; simpl in Hj; [lia|].
  destruct (sorted_ids_cons _ _ Hs) as [Hr F].
  destruct j as [|j]; [lia|]. destruct i as [|i].
  - simpl. rewrite Forall_forall in F. apply F. apply nth_In. lia.
  - simpl. apply IH; trivial; lia.
Qed.

Lemma coeff_of_not_in (vars : list var) (x : nat) :
  ~ In x (ids vars) -> coeff_of vars x = 0.
Proof.
  induction vars as [|v rest IH]; intros H; simpl in *; trivial.
  destruct (Nat.eqb_spec (m_id v) x) as [E|E].
  - elim H. left. exact E.
  - apply IH. intros K. apply H. right. exact K.
Qed.

Lemma coeff_of_nth (vars : list var) (p : nat) :
  sorted_ids vars = true -> (p < length vars)%nat ->
  coeff_of vars (m_id (nth p vars dummy_var)) = m_coeff (nth p vars dummy_var).
Proof.
  revert p. induction vars as [|v rest IH]; intros p Hs Hp; simpl in Hp; [lia|].
  destruct (sorted_ids_cons _ _ Hs) as [Hr F].
  destruct p as [|p]; simpl.
  - rewrite Nat.eqb_refl. reflexivity.
  - destruct (Nat.eqb_spec (m_id v) (m_id (nth p rest dummy_var))) as [E|E].
    + rewrite Forall_forall in F.
      assert (m_id v < m_id (nth p rest dummy_var))%nat by (apply F, nth_In; lia).
      lia.
    + apply IH; trivial. lia.
Qed.

Lemma In_ids_nth (vars : list var) (x : nat) :
  In x (ids vars) ->
  exists p, (p < length vars)%nat /\ m_id (nth p vars dummy_var) = x.
Proof.
  unfold ids. intros H. apply in_map_iff in H. destruct H as [v [E Hv]].
  destruct (In_nth _ _ dummy_var Hv) as [p [Hp Hn]].
  exists p. split; trivial. rewrite Hn. exact E.
Qed.

(** The loop of the binary search keeps every position of [var_id] inside
    its window, and so ends on that position when there is one. *)
Lemma search_finds (vars : list var) (x : nat) :
  sorted_ids vars = true ->
  forall fuel lo hi p,
    (hi - lo <= fuel)%nat -> (hi <= length vars)%nat ->
    (lo <= p)%nat -> (p < hi)%nat ->
    m_id (nth p vars dummy_var) = x ->
    search fuel vars x lo hi = p.
Proof.
  intros Hs. induction fuel as [|fuel IH]; intros lo hi p Hf Hh Hlo Hhi Hp.
  - lia.
  - cbn [search]. destruct (Nat.ltb_spec lo hi) as [L|L]; [|lia].
    set (mid := (lo + (hi - lo) / 2)%nat).
    assert (Hm : (lo <= mid /\ mid < hi)%nat).
    { unfold mid. split; [lia|].
      assert ((hi - lo) / 2 < hi - lo)%nat by (apply Nat.div_lt; lia). lia. }
    destruct (Nat.eqb_spec (m_id (nth mid vars dummy_var)) x) as [E|E].
    + destruct (Nat.lt_trichotomy mid p) as [K|[K|K]]; trivial.
      * pose proof (sorted_ids_nth vars mid p Hs K ltac:(lia)). lia.
      * pose proof (sorted_ids_nth vars p mid Hs K ltac:(lia)). lia.
    + destruct (Nat.ltb_spec (m_id (nth mid vars dummy_var)) x) as [K|K].
      * apply IH; try lia.
        destruct (Nat.le_gt_cases p mid) as [Q|Q]; [|lia].
        destruct (Nat.eq_dec p mid) as [->|Ne]; [lia|].
        pose proof (sorted_ids_nth vars p mid Hs ltac:(lia) ltac:(lia)). lia.
      * apply IH; try lia.
        destruct (Nat.le_gt_cases mid p) as [Q|Q]; [|lia].
        destruct (Nat.eq_dec p mid) as [->|Ne]; [lia|].
        pose proof (sorted_ids_nth vars mid p Hs ltac:(lia) ltac:(lia)). lia.
Qed.

(** On a sorted list the binary search agrees with the linear search. *)
Lemma coefficient_in_sorted (vars : list var) (x : nat) :
  sorted_ids vars = true -> coefficient_in vars x = coeff_of vars x.
Proof.
  intros Hs. destruct vars as [|v0 rest] eqn:Ev; [reflexivity|].
  rewrite <- Ev in *. unfold coefficient_in.
  replace (match vars with [] => 0 | _ :: _ =>
             if search (length vars) vars x 0 (length vars) =? length vars then 0
             else if m_id (nth (search (length vars) vars x 0 (length vars)) vars dummy_var) =? x
                  then m_coeff (nth (search (length vars) vars x 0 (length vars)) vars dummy_var)
                  else 0 end)
    with (if search (length vars) vars x 0 (length vars) =? length vars then 0
          else if m_id (nth (search (length vars) vars x 0 (length vars)) vars dummy_var) =? x
               then m_coeff (nth (search (length vars) vars x 0 (length vars)) vars dummy_var)
               else 0) by (rewrite Ev; reflexivity).
  clear Ev v0 rest.
  set (lo := search (length vars) vars x 0 (length vars)).
  destruct (in_dec Nat.eq_dec x (ids vars)) as [Hin|Hnin].
  - destruct (In_ids_nth _ _ Hin) as [p [Hp Ep]].
    assert (El : lo = p)
      by (apply search_finds; trivial; lia).
    rewrite El. destruct (Nat.eqb_spec p (length vars)); [lia|].
    rewrite Ep, Nat.eqb_refl. subst x. symmetry. apply coeff_of_nth; trivial.
  - rewrite (coeff_of_not_in _ _ Hnin).
    destruct (lo =? length vars) eqn:E1; trivial.
    destruct (Nat.eqb_spec (m_id (nth lo vars dummy_var)) x) as [E|E]; trivial.
    elim Hnin. rewrite <- E. unfold ids. apply in_map. apply nth_In.
    apply Nat.eqb_neq in E1.
    assert (lo <= length vars)%nat; [|lia].
    clear -vars. unfold lo. generalize (length vars) at 1 as fuel.
    assert (G : forall fuel l h, (l <= h)%nat -> (h <= length vars)%nat ->
                (search fuel vars x l h <= length vars)%nat).
    { induction fuel as [|fuel IH]; intros l h Hl Hh; cbn [search]; [lia|].
      destruct (Nat.ltb_spec l h); [|lia].
      assert ((h - l) / 2 < h - l)%nat by (apply Nat.div_lt; lia).
      destruct (_ =? x); [lia|].
      destruct (_ <? x); apply IH; lia. }
    intros fuel. apply G; lia.
Qed.

(** ** The value of a row *)

Lemma row_value_dot (vals : list Qc) (r : row) :
  row_value vals r = m_const r + dot vals (m_vars r).
Proof.
  unfold row_value. generalize (m_const r) as c.
  induction (m_vars r) as [|v rest IH]; intros c; simpl.
  - ring.
  - rewrite IH. ring.
Qed.

(** Two models that agree on the variables of a list give it one value. *)
Lemma dot_agree (vals vals' : list Qc) (vars : list var) :
  (forall x, In x (ids vars) -> nth x vals 0 = nth x vals' 0) ->
  dot vals vars = dot vals' vars.
Proof.
  induction vars as [|v rest IH]; intros H; simpl; trivial.
  rewrite IH, (H (m_id v)); trivial.
  - left. reflexivity.
  - intros x Hx. apply H. right. exact Hx.
Qed.

(** ** The merge of [mul_add] *)

Lemma merge_nil_r (c : Qc) (l1 : list var) : merge c l1 [] = (l1, []).
Proof. destruct l1; reflexivity. Qed.

Lemma merge_nil_l (c : Qc) (v2 : var) (l2 : list var) :
  merge c [] (v2 :: l2) =
  (scale c v2 :: fst (merge c [] l2), m_id v2 :: snd (merge c [] l2)).
Proof.
  simpl. destruct ((fix merge_right (l3 : list var) : list var * list nat :=
    match l3 with
    | [] => ([], [])
    | v3 :: l2' => let (vs, ids) := merge_right l2' in (scale c v3 :: vs, m_id v3 :: ids)
    end) l2); reflexivity.
Qed.

Lemma merge_cons (c : Qc) (v1 v2 : var) (l1 l2 : list var) :
  merge c (v1 :: l1) (v2 :: l2) =
  if m_id v1 =? m_id v2 then
    if is_zero (m_coeff v1 + c * m_coeff v2) then merge c l1 l2
    else (mk_var (m_id v1) (m_coeff v1 + c * m_coeff v2) :: fst (merge c l1 l2),
          snd (merge c l1 l2))
  else if m_id v1 <? m_id v2 then
    (v1 :: fst (merge c l1 (v2 :: l2)), snd (merge c l1 (v2 :: l2)))
  else
    (scale c v2 :: fst (merge c (v1 :: l1) l2),
     m_id v2 :: snd (merge c (v1 :: l1) l2)).
Proof.
  cbn [merge].
  destruct (m_id v1 =? m_id v2).
  - destruct (merge c l1 l2). destruct (is_zero _); reflexivity.
  - destruct (m_id v1 <? m_id v2).
    + destruct (merge c l1 (v2 :: l2)); reflexivity.
    + match goal with |- (let (_, _) := ?t in _) = _ => destruct t end.
      reflexivity.
Qed.

Arguments merge : simpl never.

(** An induction principle that follows the three moves of the merge. *)
Lemma merge_ind (c : Qc) (P : list var -> list var -> Prop) :
  (forall l1, P l1 []) ->
  (forall v2 l2, P [] l2 -> P [] (v2 :: l2)) ->
  (forall v1 v2 l1 l2,
      (m_id v1 = m_id v2 -> P l1 l2) ->
      ((m_id v1 < m_id v2)%nat -> P l1 (v2 :: l2)) ->
      ((m_id v2 < m_id v1)%nat -> P (v1 :: l1) l2) ->
      P (v1 :: l1) (v2 :: l2)) ->
  forall l1 l2, P l1 l2.
Proof.
  intros Hr Hl Hc. induction l1 as [|v1 l1 IH1]; induction l2 as [|v2 l2 IH2]; auto.
Qed.

Ltac merge_induction c l1 l2 :=
  revert l1 l2;
  match goal with |- forall a b, @?P a b => apply (merge_ind c P) end;
  intros.

Lemma dot_merge (vals : list Qc) (c : Qc) (l1 l2 : list var) :
  dot vals (fst (merge c l1 l2)) = dot vals l1 + c * dot vals l2.
Proof.
  merge_induction c l1 l2.
  - rewrite merge_nil_r. simpl. ring.
  - rewrite merge_nil_l. simpl. rewrite H. simpl. ring.
  - rewrite merge_cons.
    destruct (Nat.eqb_spec (m_id v1) (m_id v2)) as [E|E].
    + destruct (is_zero (m_coeff v1 + c * m_coeff v2)) eqn:Z.
      * apply is_zero_true in Z. rewrite (H E). simpl. rewrite <- E.
        transitivity ((m_coeff v1 + c * m_coeff v2) * nth (m_id v1) vals 0
                      + (dot vals l1 + c * dot vals l2)); [rewrite Z|]; ring.
      * simpl. rewrite (H E), <- E. ring.
    + destruct (Nat.ltb_spec (m_id v1) (m_id v2)) as [L|L].
      * simpl. rewrite (H0 L). simpl. ring.
      * simpl. rewrite H1 by lia. simpl. ring.
Qed.

Lemma merge_ids (c : Qc) (l1 l2 : list var) (y : nat) :
  In y (ids (fst (merge c l1 l2))) ->
  In y (ids l1) \/ In y (snd (merge c l1 l2)).
Proof.
  merge_induction c l1 l2.
  - rewrite merge_nil_r in *. left. assumption.
  - rewrite merge_nil_l in *. simpl in *. destruct H0 as [E|K]; [right; left; exact E|].
    destruct (H K) as [G|G]; [left; exact G | right; right; exact G].
  - rewrite merge_cons in *.
    destruct (Nat.eqb_spec (m_id v1) (m_id v2)) as [E|E].
    + destruct (is_zero (m_coeff v1 + c * m_coeff v2)).
      * destruct (H E H2); [left; right|right]; assumption.
      * simpl in *. destruct H2 as [K|K]; [left; left; exact K|].
        destruct (H E K); [left; right|right]; assumption.
    + destruct (Nat.ltb_spec (m_id v1) (m_id v2)) as [L|L]; simpl in *.
      * destruct H2 as [K|K]; [left; left; exact K|].
        destruct (H0 L K); [left; right|right]; assumption.
      * destruct H2 as [K|K]; [right; left; exact K|].
        destruct (H1 ltac:(lia) K) as [G|G]; [left; exact G | right; right; exact G].
Qed.

Lemma merge_added (c : Qc) (l1 l2 : list var) (y : nat) :
  In y (snd (merge c l1 l2)) -> In y (ids l2).
Proof.
  merge_induction c l1 l2.
  - rewrite merge_nil_r in *. simpl in *. contradiction.
  - rewrite merge_nil_l in *. simpl in *. destruct H0 as [E|K]; [left; exact E|].
    right. apply H. exact K.
  - rewrite merge_cons in *.
    destruct (Nat.eqb_spec (m_id v1) (m_id v2)) as [E|E].
    + destruct (is_zero (m_coeff v1 + c * m_coeff v2)); simpl in *; right; apply (H E); assumption.
    + destruct (Nat.ltb_spec (m_id v1) (m_id v2)) as [L|L]; simpl in *.
      * apply (H0 L). assumption.
      * destruct H2 as [K|K]; [left; exact K|]. right. apply H1; [lia|exact K].
Qed.

Lemma merge_ids_sub (c : Qc) (l1 l2 : list var) (y : nat) :
  In y (ids (fst (merge c l1 l2))) -> In y (ids l1) \/ In y (ids l2).
Proof.
  intros H. destruct (merge_ids _ _ _ _ H) as [K|K]; [left; exact K|].
  right. eapply merge_added. exact K.
Qed.

Lemma merge_nonzero (c : Qc) (l1 l2 : list var) :
  c <> 0 -> nonzero_coeffs l1 = true -> nonzero_coeffs l2 = true ->
  nonzero_coeffs (fst (merge c l1 l2)) = true.
Proof.
  intros Hc. merge_induction c l1 l2.
  - rewrite merge_nil_r. assumption.
  - rewrite merge_nil_l. simpl in *.
    apply andb_true_iff in H1. destruct H1 as [A B].
    rewrite (H H0 B), andb_true_r.
    apply negb_true_iff, is_zero_false. apply negb_true_iff, is_zero_false in A.
    intros K. apply Qcmult_integral in K. tauto.
  - rewrite merge_cons. simpl in H2, H3.
    apply andb_true_iff in H2, H3. destruct H2 as [A1 B1], H3 as [A2 B2].
    destruct (Nat.eqb_spec (m_id v1) (m_id v2)) as [E|E].
    + destruct (is_zero (m_coeff v1 + c * m_coeff v2)) eqn:Z; [auto|].
      simpl. rewrite Z. simpl. auto.
    + destruct (Nat.ltb_spec (m_id v1) (m_id v2)) as [L|L]; simpl.
      * rewrite A1. simpl. apply H0; trivial. simpl. rewrite A2, B2. reflexivity.
      * rewrite H1; try lia; trivial; [|simpl; rewrite A1, B1; reflexivity].
        rewrite andb_true_r.
        apply negb_true_iff, is_zero_false. apply negb_true_iff, is_zero_false in A2.
        intros K. apply Qcmult_integral in K. tauto.
Qed.

Lemma merge_lower (c : Qc) (k : nat) (l1 l2 : list var) :
  Forall (fun w => (k < m_id w)%nat) l1 -> Forall (fun w => (k < m_id w)%nat) l2 ->
  Forall (fun w => (k < m_id w)%nat) (fst (merge c l1 l2)).
Proof.
  intros F1 F2. rewrite Forall_forall in *. intros w Hw.
  assert (Hi : In (m_id w) (ids (fst (merge c l1 l2)))) by (apply in_map; exact Hw).
  destruct (merge_ids_sub _ _ _ _ Hi) as [K|K];
    unfold ids in K; apply in_map_iff in K; destruct K as [u [E Hu]];
    rewrite <- E; auto.
Qed.

Lemma merge_sorted (c : Qc) (l1 l2 : list var) :
  sorted_ids l1 = true -> sorted_ids l2 = true ->
  sorted_ids (fst (merge c l1 l2)) = true.
Proof.
  merge_induction c l1 l2.
  - rewrite merge_nil_r. assumption.
  - rewrite merge_nil_l. simpl fst.
    destruct (sorted_ids_cons _ _ H1) as [S2 F2].
    apply sorted_ids_intro; [auto|].
    apply (merge_lower c (m_id v2) [] l2); [constructor | exact F2].
  - rewrite merge_cons.
    destruct (sorted_ids_cons _ _ H2) as [S1 F1].
    destruct (sorted_ids_cons _ _ H3) as [S2 F2].
    destruct (Nat.eqb_spec (m_id v1) (m_id v2)) as [E|E].
    + destruct (is_zero (m_coeff v1 + c * m_coeff v2)); [auto|]. simpl fst.
      apply sorted_ids_intro; [auto|]. simpl.
      apply merge_lower; [exact F1 | rewrite E; exact F2].
    + destruct (Nat.ltb_spec (m_id v1) (m_id v2)) as [L|L]; simpl fst.
      * apply sorted_ids_intro; [auto|].
        apply merge_lower; [exact F1|].
        constructor; [exact L|]. eapply Forall_impl; [|exact F2]. simpl. intros; lia.
      * apply sorted_ids_intro; [apply H1; trivial; lia|]. simpl.
        apply merge_lower; [|exact F2].
        constructor; [lia|]. eapply Forall_impl; [|exact F1]. simpl. intros; lia.
Qed.

Lemma coeff_of_lower (k : nat) (l : list var) (x : nat) :
  Forall (fun w => (k < m_id w)%nat) l -> (x <= k)%nat -> coeff_of l x = 0.
Proof.
  intros F Hx. apply coeff_of_not_in. intros H. unfold ids in H.
  apply in_map_iff in H. destruct H as [w [E Hw]].
  rewrite Forall_forall in F. specialize (F w Hw). lia.
Qed.

(** The coefficients of the merged list: the sum, variable by variable. *)
Lemma coeff_of_merge (c : Qc) (l1 l2 : list var) (x : nat) :
  sorted_ids l1 = true -> sorted_ids l2 = true ->
  coeff_of (fst (merge c l1 l2)) x = coeff_of l1 x + c * coeff_of l2 x.
Proof.
  merge_induction c l1 l2.
  - rewrite merge_nil_r. simpl. ring.
  - rewrite merge_nil_l. simpl.
    destruct (sorted_ids_cons _ _ H1) as [S2 F2].
    destruct (Nat.eqb_spec (m_id v2) x); [ring|].
    rewrite H; trivial.
  - rewrite merge_cons.
    destruct (sorted_ids_cons _ _ H2) as [S1 F1].
    destruct (sorted_ids_cons _ _ H3) as [S2 F2].
    destruct (Nat.eqb_spec (m_id v1) (m_id v2)) as [E|E].
    + destruct (is_zero (m_coeff v1 + c * m_coeff v2)) eqn:Z.
      * rewrite H; trivial. simpl. rewrite <- E.
        destruct (Nat.eqb_spec (m_id v1) x) as [Ex|Ex]; trivial.
        apply is_zero_true in Z. rewrite Z.
        rewrite (coeff_of_lower (m_id v1) l1), (coeff_of_lower (m_id v1) l2);
          trivial; try lia; [ring | rewrite E; exact F2].
      * simpl. rewrite <- E.
        destruct (Nat.eqb_spec (m_id v1) x) as [Ex|Ex]; trivial.
        apply H; trivial.
    + destruct (Nat.ltb_spec (m_id v1) (m_id v2)) as [L|L]; simpl.
      * destruct (Nat.eqb_spec (m_id v1) x) as [Ex|Ex].
        -- destruct (Nat.eqb_spec (m_id v2) x); [lia|].
           rewrite (coeff_of_lower (m_id v2) l2); trivial; [ring|lia].
        -- rewrite H0; trivial.
      * destruct (Nat.eqb_spec (m_id v2) x) as [Ex|Ex].
        -- destruct (Nat.eqb_spec (m_id v1) x); [lia|].
           rewrite (coeff_of_lower (m_id v1) l1); trivial; [ring|lia].
        -- rewrite H1; trivial; lia.
Qed.

(** ** [find_bound] *)

Lemma NoDup_snoc (l : list nat) (r : nat) :
  NoDup l -> ~ In r l -> NoDup (l ++ [r]).
Proof.
  intros Hl Hr. apply NoDup_app; trivial.
  - constructor; [intros []|constructor].
  - intros a Ha [E|[]]. subst. contradiction.
Qed.

(** The state of the loop of [find_bound] after the row ids [done]. *)
Record bound_inv (s : model_based_opt) (x : nat) (pos : bool)
    (done : list nat) (st : bound_search) : Prop := {
  bi_visited : forall i, In i (bs_visited st) <-> In i done;
  bi_nodup_above : NoDup (pivot_list (bs_index st) ++ bs_above st);
  bi_nodup_below : NoDup (bs_below st);
  bi_above : forall i, In i (pivot_list (bs_index st) ++ bs_above st)
                       <-> In i done /\ candidate s x pos i = true;
  bi_below : forall i, In i (bs_below st)
                       <-> In i done /\ live_on s x i = true
                           /\ candidate s x pos i = false;
  bi_none : bs_index st = None -> bs_above st = [];
  bi_pivot : forall b, bs_index st = Some b ->
      bs_coeff st = get_coefficient s b x /\
      bs_lub_val st = bound_value s x b /\
      forall i, In i done -> candidate s x pos i = true ->
                tighter s x pos b i /\ strict_kept s x b i
}.

Lemma bound_inv_init (s : model_based_opt) (x : nat) (pos : bool) :
  bound_inv s x pos [] bs_init.
Proof.
  constructor; simpl; try tauto; try constructor; try discriminate.
  all: intros; tauto.
Qed.

Lemma tighter_refl (s : model_based_opt) (x : nat) (pos : bool) (b : nat) :
  tighter s x pos b b.
Proof. unfold tighter. destruct pos; apply Qcle_refl. Qed.

Lemma tighter_trans (s : model_based_opt) (x : nat) (pos : bool) (a b c : nat) :
  tighter s x pos a b -> tighter s x pos b c -> tighter s x pos a c.
Proof.
  unfold tighter. destruct pos; intros; eapply Qcle_trans; eassumption.
Qed.

Lemma bound_inv_step (s : model_based_opt) (x : nat) (pos : bool)
    (done : list nat) (st : bound_search) (row_id : nat) :
  bound_inv s x pos done st ->
  bound_inv s x pos (done ++ [row_id]) (find_bound_step s x pos st row_id).
Proof.
  intros I. unfold find_bound_step.
  destruct (contains (bs_visited st) row_id) eqn:V.
  { (* already visited: nothing changes *)
    apply contains_In in V. apply (bi_visited _ _ _ _ _ I) in V.
    destruct I as [I1 I2 I3 I4 I5 I6 I7].
    constructor; trivial.
    - intros i. rewrite I1, in_app_iff. simpl. intuition. subst. trivial.
    - intros i. rewrite I4, in_app_iff. simpl. intuition. subst. trivial.
    - intros i. rewrite I5, in_app_iff. simpl. intuition. subst. trivial.
    - intros b Hb. destruct (I7 b Hb) as [A [B C]]. repeat split; trivial.
      all: apply in_app_iff in H; destruct H as [H|[H|[]]]; subst; apply C; trivial. }
  apply contains_not_In in V.
  assert (Fresh : ~ In row_id done)
    by (intros K; apply V; apply (bi_visited _ _ _ _ _ I); exact K).
  assert (Cand : candidate s x pos row_id =
                 m_alive (get_row s row_id)
                 && negb (is_zero (get_coefficient s row_id x))
                 && (Bool.eqb (is_pos (get_coefficient s row_id x)) pos
                     || is_eq (m_type (get_row s row_id)))) by reflexivity.
  assert (Live : live_on s x row_id =
                 m_alive (get_row s row_id)
                 && negb (is_zero (get_coefficient s row_id x))) by reflexivity.
  destruct I as [I1 I2 I3 I4 I5 I6 I7].
  assert (Vis : forall i, In i (row_id :: bs_visited st) <-> In i (done ++ [row_id])).
  { intros i. rewrite in_app_iff. simpl. rewrite I1. tauto. }
  assert (Skip : live_on s x row_id = false ->
     bound_inv s x pos (done ++ [row_id])
       (mk_bs (row_id :: bs_visited st) (bs_index st) (bs_coeff st)
              (bs_lub_val st) (bs_above st) (bs_below st))).
  { intros Z. assert (Zc : candidate s x pos row_id = false)
      by (unfold candidate; rewrite Z; reflexivity).
    constructor; simpl; trivial.
    - intros i. rewrite I4, in_app_iff. simpl. intuition. subst. congruence.
    - intros i. rewrite I5, in_app_iff. simpl. intuition. subst. congruence.
    - intros b Hb. destruct (I7 b Hb) as [A [B C]]. repeat split; trivial.
      all: apply in_app_iff in H; destruct H as [H|[H|[]]]; subst;
        try congruence; apply C; trivial. }
  destruct (m_alive (get_row s row_id)) eqn:Al;
    [|apply Skip; rewrite Live; reflexivity].
  destruct (is_zero (get_coefficient s row_id x)) eqn:Z;
    [apply Skip; rewrite Live; reflexivity|].
  simpl in Cand, Live.
  destruct (Bool.eqb (is_pos (get_coefficient s row_id x)) pos
            || is_eq (m_type (get_row s row_id))) eqn:C.
  - (* a candidate *)
    assert (NotAbove : ~ In row_id (pivot_list (bs_index st) ++ bs_above st))
      by (rewrite I4; tauto).
    destruct (bs_index st) as [b|] eqn:Eb.
    + destruct (I7 b eq_refl) as [P1 [P2 P3]].
      assert (Hb : In b done /\ candidate s x pos b = true)
        by (apply I4; left; reflexivity).
      fold (bound_value s x row_id).
      match goal with |- context [if ?c then _ else _] => destruct c eqn:Cond end.
      * (* the row becomes the pivot *)
        assert (T : tighter s x pos row_id b /\
                    (bound_value s x b = bound_value s x row_id ->
                     m_type (get_row s row_id) = t_lt)).
        { rewrite P2 in Cond. unfold tighter.
          apply orb_true_iff in Cond. destruct Cond as [Cond|Cond].
          - apply orb_true_iff in Cond. destruct Cond as [Cond|Cond].
            + apply andb_true_iff in Cond. destruct Cond as [E L].
              apply rat_eq_true in E. rewrite E.
              split; [destruct pos; apply Qcle_refl|].
              intros _. destruct (m_type (get_row s row_id)); trivial; discriminate.
            + apply andb_true_iff in Cond. destruct Cond as [Ep L]. subst pos.
              apply rat_lt_true in L. split; [apply Qclt_le_weak; exact L|].
              intros E. rewrite E in L. elim (Qclt_not_eq _ _ L). reflexivity.
          - apply andb_true_iff in Cond. destruct Cond as [Ep L].
            apply negb_true_iff in Ep. subst pos.
            apply rat_lt_true in L. split; [apply Qclt_le_weak; exact L|].
            intros E. rewrite E in L. elim (Qclt_not_eq _ _ L). reflexivity. }
        destruct T as [T1 T2].
        constructor; simpl; trivial.
        -- simpl in I2, NotAbove. inversion I2; subst.
           constructor.
           ++ rewrite in_app_iff. simpl. intros [K|[K|[]]]; [tauto|].
              subst. tauto.
           ++ apply NoDup_snoc; trivial.
        -- intros i. specialize (I4 i). simpl in I4.
           rewrite !in_app_iff. simpl. split.
           ++ intros [K|[K|[K|[]]]]; subst; try tauto.
           ++ intros [[K|[K|[]]] Q]; subst; try tauto.
        -- intros i. rewrite I5, in_app_iff. simpl. intuition. subst. congruence.
        -- discriminate.
        -- intros b' Hb'. inversion Hb'; subst b'. repeat split; trivial.
           ++ apply in_app_iff in H. destruct H as [H|[H|[]]].
              ** eapply tighter_trans; [exact T1|]. apply P3; trivial.
              ** subst. apply tighter_refl.
           ++ apply in_app_iff in H.
              destruct H as [H|[H|[]]]; [|subst; intros _ K; exact K].
              intros E Lt'. apply T2.
              destruct (P3 i H H0) as [Q1 Q2].
              unfold tighter in *. destruct pos.
              ** apply Qcle_antisym; trivial. rewrite <- E. exact Q1.
              ** apply Qcle_antisym; trivial. rewrite <- E. exact Q1.
      * (* the pivot stays *)
        assert (T : tighter s x pos b row_id /\ strict_kept s x b row_id).
        { rewrite P2 in Cond. unfold tighter, strict_kept.
          apply orb_false_iff in Cond. destruct Cond as [Cond C3].
          apply orb_false_iff in Cond. destruct Cond as [C1 C2].
          split.
          - destruct pos; simpl in *.
            + apply rat_lt_false in C2. exact C2.
            + apply rat_lt_false in C3. exact C3.
          - intros E Lt'. rewrite E, Lt' in C1. simpl in C1.
            assert (rat_eq (bound_value s x b) (bound_value s x b) = true)
              by (apply rat_eq_true; reflexivity).
            rewrite H in C1. discriminate. }
        destruct T as [T1 T2].
        constructor; simpl; trivial.
        -- simpl in I2, NotAbove. inversion I2; subst.
           constructor.
           ++ rewrite in_app_iff. simpl. intros [K|[K|[]]]; [tauto|].
              subst. tauto.
           ++ apply NoDup_snoc; trivial. tauto.
        -- intros i. specialize (I4 i). simpl in I4.
           rewrite !in_app_iff. simpl. split.
           ++ intros [K|[K|[K|[]]]]; subst; try tauto.
           ++ intros [[K|[K|[]]] Q]; subst; try tauto.
        -- intros i. rewrite I5, in_app_iff. simpl. intuition. subst. congruence.
        -- discriminate.
        -- intros b' Hb'. inversion Hb'; subst b'. repeat split; trivial.
           ++ apply in_app_iff in H. destruct H as [H|[H|[]]].
              ** apply P3; trivial.
              ** subst. exact T1.
           ++ apply in_app_iff in H. destruct H as [H|[H|[]]].
              ** apply P3; trivial.
              ** subst. exact T2.
    + (* the first candidate *)
      pose proof (I6 eq_refl) as Ab. rewrite Ab in *. simpl in I4.
      constructor; simpl; trivial.
      * constructor; [intros []|constructor].
      * intros i. rewrite in_app_iff. simpl. specialize (I4 i). split.
        -- intros [K|[]]. subst. tauto.
        -- intros [[K|[K|[]]] Q]; subst; tauto.
      * intros i. rewrite I5, in_app_iff. simpl. intuition. subst. congruence.
      * intros b' Hb'. inversion Hb'; subst b'. repeat split; trivial.
        -- apply in_app_iff in H. destruct H as [H|[H|[]]].
           ++ exfalso. apply (I4 i). tauto.
           ++ subst. apply tighter_refl.
        -- apply in_app_iff in H. destruct H as [H|[H|[]]].
           ++ exfalso. apply (I4 i). tauto.
           ++ subst. intros _ K. exact K.
  - (* on the wrong side *)
    constructor; simpl; trivial.
    + apply NoDup_snoc; trivial. rewrite I5. tauto.
    + intros i. rewrite I4, in_app_iff. simpl. intuition. subst. congruence.
    + intros i. rewrite !in_app_iff, I5. simpl. intuition; subst; tauto.
    + intros b Hb. destruct (I7 b Hb) as [A [B D]]. repeat split; trivial.
      all: apply in_app_iff in H; destruct H as [H|[H|[]]]; subst;
        try congruence; apply D; trivial.
Qed.

Lemma bound_inv_fold (s : model_based_opt) (x : nat) (pos : bool)
    (l done : list nat) (st : bound_search) :
  bound_inv s x pos done st ->
  bound_inv s x pos (done ++ l) (fold_left (find_bound_step s x pos) l st).
Proof.
  revert done st. induction l as [|r l IH]; intros done st I; simpl.
  - rewrite app_nil_r. exact I.
  - replace (done ++ r :: l) with ((done ++ [r]) ++ l)
      by (rewrite <- app_assoc; reflexivity).
    apply IH. apply bound_inv_step. exact I.
Qed.

Lemma find_bound_inv (s : model_based_opt) (x : nat) (pos : bool) :
  bound_inv s x pos (row_ids_of s x) (find_bound s x pos).
Proof.
  unfold find_bound. apply (bound_inv_fold s x pos (row_ids_of s x) []).
  apply bound_inv_init.
Qed.

(** ** The invariants as propositions *)

Lemma forallb_seq (f : nat -> bool) (n : nat) :
  forallb f (seq 0 n) = true <-> forall i, (i < n)%nat -> f i = true.
Proof.
  rewrite forallb_forall. split; intros H i Hi.
  - apply H. apply in_seq. lia.
  - apply H. apply in_seq in Hi. lia.
Qed.

Lemma get_row_out (s : model_based_opt) (i : nat) :
  (length (m_rows s) <= i)%nat -> get_row s i = default_row.
Proof. intros H. unfold get_row. apply nth_overflow. exact H. Qed.

Lemma alive_in_range (s : model_based_opt) (i : nat) :
  m_alive (get_row s i) = true -> (i < length (m_rows s))%nat.
Proof.
  intros H. destruct (Nat.lt_ge_cases i (length (m_rows s))) as [L|L]; trivial.
  rewrite (get_row_out _ _ L) in H. discriminate.
Qed.

Lemma vars_in_range (s : model_based_opt) (i y : nat) :
  In y (ids (m_vars (get_row s i))) -> (i < length (m_rows s))%nat.
Proof.
  intros H. destruct (Nat.lt_ge_cases i (length (m_rows s))) as [L|L]; trivial.
  rewrite (get_row_out _ _ L) in H. destruct H.
Qed.

Lemma well_formed_wf (s : model_based_opt) : well_formed s = true <-> wf s.
Proof.
  unfold well_formed. rewrite !andb_true_iff, Nat.ltb_lt, Nat.eqb_eq, forallb_seq.
  unfold index_in_range. rewrite forallb_forall. split.
  - intros [[[H1 H2] H3] H4]. constructor; trivial.
    + intros x i Hi. unfold row_ids_of in Hi.
      destruct (Nat.lt_ge_cases x (length (m_var2row_ids s))) as [L|L].
      * specialize (H3 _ (nth_In _ [] L)). rewrite forallb_forall in H3.
        specialize (H3 _ Hi). apply andb_true_iff in H3.
        rewrite !Nat.ltb_lt in H3. exact H3.
      * rewrite nth_overflow in Hi by exact L. destruct Hi.
    + intros i y Hy. pose proof (vars_in_range _ _ _ Hy) as L.
      specialize (H4 i L). unfold row_indexed in H4. rewrite forallb_forall in H4.
      unfold ids in Hy. apply in_map_iff in Hy. destruct Hy as [v [E Hv]].
      specialize (H4 v Hv). apply andb_true_iff in H4. destruct H4 as [K _].
      apply Nat.ltb_lt in K. subst. exact K.
    + intros i y Hi Hy. pose proof (vars_in_range _ _ _ Hy) as L.
      specialize (H4 i L). unfold row_indexed in H4. rewrite forallb_forall in H4.
      unfold ids in Hy. apply in_map_iff in Hy. destruct Hy as [v [E Hv]].
      specialize (H4 v Hv). apply andb_true_iff in H4. destruct H4 as [_ K].
      apply orb_true_iff in K. destruct K as [K|K].
      * apply Nat.eqb_eq in K. contradiction.
      * apply contains_In in K. subst. exact K.
  - intros [H1 H2 H3 H4 H5]. repeat split; trivial.
    + intros l Hl. rewrite forallb_forall. intros i Hi.
      destruct (In_nth _ _ [] Hl) as [x [Hx E]].
      assert (K : In i (row_ids_of s x)) by (unfold row_ids_of; rewrite E; exact Hi).
      apply H3 in K. apply andb_true_iff. rewrite !Nat.ltb_lt. exact K.
    + intros i Hi. unfold row_indexed. rewrite forallb_forall. intros v Hv.
      assert (Hy : In (m_id v) (ids (m_vars (get_row s i)))) by (apply in_map; exact Hv).
      apply andb_true_iff. split.
      * apply Nat.ltb_lt. eapply H4. exact Hy.
      * destruct (Nat.eqb_spec i m_objective_id) as [E|E]; trivial. simpl.
        apply contains_In. apply H5; trivial.
Qed.

Lemma default_row_invariant (vals : list Qc) : row_invariant vals default_row = true.
Proof. reflexivity. Qed.

Lemma tableau_ok_ok (all : bool) (s : model_based_opt) :
  tableau_ok all s = true <-> ok all s.
Proof.
  unfold tableau_ok, rows_ok. rewrite andb_true_iff, well_formed_wf, forallb_seq.
  split.
  - intros [W R]. constructor; trivial.
    + intros i Hi.
      destruct (Nat.lt_ge_cases i (length (m_rows s))) as [L|L].
      * specialize (R i L). unfold row_ok in R. apply andb_true_iff in R.
        destruct R as [R _]. unfold in_scope in Hi. rewrite Hi in R. exact R.
      * rewrite (get_row_out _ _ L). apply default_row_invariant.
    + intros i Hi Al. specialize (R i (alive_in_range _ _ Al)).
      unfold row_ok in R. apply andb_true_iff in R. destruct R as [_ R].
      rewrite Al in R. apply Nat.eqb_neq in Hi. rewrite Hi in R. exact R.
  - intros [W I S]. split; trivial. intros i Hi. unfold row_ok.
    apply andb_true_iff. split.
    + destruct (all || m_alive (get_row s i)) eqn:E; trivial. simpl.
      apply I. exact E.
    + destruct (Nat.eqb_spec i m_objective_id) as [E|E]; trivial.
      destruct (m_alive (get_row s i)) eqn:Al; trivial. simpl.
      apply S; trivial.
Qed.

Lemma row_invariant_parts (vals : list Qc) (r : row) :
  row_invariant vals r = true <->
  sorted_ids (m_vars r) = true /\ nonzero_coeffs (m_vars r) = true
  /\ m_value r = row_value vals r.
Proof.
  unfold row_invariant. rewrite !andb_true_iff, rat_eq_true. tauto.
Qed.

(** ** Reading the state after a step *)

Lemma get_row_upd (s : model_based_opt) (i j : nat) (r : row)
    (idx : list (list nat)) (vals : list Qc) :
  get_row (mk_opt (upd i r (m_rows s)) idx vals) j =
  if (i =? j) && (i <? length (m_rows s)) then r else get_row s j.
Proof. unfold get_row. simpl. apply nth_upd. Qed.

Lemma upd_same {A : Type} (i : nat) (d : A) (l : list A) :
  upd i (nth i l d) l = l.
Proof.
  revert i. induction l as [|h t IH]; intros [|i]; simpl; trivial.
  f_equal. apply IH.
Qed.

Lemma nonzero_not_in (vars : list var) (x : nat) :
  nonzero_coeffs vars = true -> sorted_ids vars = true ->
  coeff_of vars x = 0 -> ~ In x (ids vars).
Proof.
  induction vars as [|v rest IH]; intros Hn Hs Hc; simpl; [tauto|].
  simpl in Hn, Hc. apply andb_true_iff in Hn. destruct Hn as [N1 N2].
  destruct (sorted_ids_cons _ _ Hs) as [S1 _].
  destruct (Nat.eqb_spec (m_id v) x) as [E|E].
  - apply negb_true_iff, is_zero_false in N1. contradiction.
  - intros [K|K]; [contradiction|]. revert K. apply IH; trivial.
Qed.

Lemma in_nonzero (vars : list var) (x : nat) :
  nonzero_coeffs vars = true -> sorted_ids vars = true ->
  In x (ids vars) -> coeff_of vars x <> 0.
Proof.
  intros Hn Hs Hi Hc. revert Hi. apply nonzero_not_in; trivial.
Qed.

(** *** Pushing on the variable index *)

Lemma push_length (idx : list (list nat)) (v i : nat) :
  length (push_row_id idx v i) = length idx.
Proof. unfold push_row_id. apply upd_length. Qed.

Lemma push_nth (idx : list (list nat)) (v i y : nat) :
  nth y (push_row_id idx v i) [] =
  if (v =? y) && (v <? length idx) then nth y idx [] ++ [i] else nth y idx [].
Proof.
  unfold push_row_id. rewrite nth_upd.
  destruct (Nat.eqb_spec v y) as [->|]; reflexivity.
Qed.

Lemma push_all_length (added : list nat) (idx : list (list nat)) (i : nat) :
  length (fold_left (fun idx v => push_row_id idx v i) added idx) = length idx.
Proof.
  revert idx. induction added as [|v rest IH]; intros idx; simpl; trivial.
  rewrite IH. apply push_length.
Qed.

Lemma push_all_In (added : list nat) (idx : list (list nat)) (i y j : nat) :
  In j (nth y (fold_left (fun idx v => push_row_id idx v i) added idx) []) <->
  In j (nth y idx []) \/ (j = i /\ In y added /\ (y < length idx)%nat).
Proof.
  revert idx. induction added as [|v rest IH]; intros idx; simpl.
  - tauto.
  - rewrite IH, push_nth, push_length.
    destruct (Nat.eqb_spec v y) as [->|Ne]; simpl.
    + destruct (Nat.ltb_spec y (length idx)) as [L|L].
      * rewrite in_app_iff. simpl. intuition.
      * intuition; lia.
    + intuition.
Qed.

(** *** [mul_add], [resolve] and [kill] on the state *)

Lemma mul_add_zero (same_sign : bool) (i j : nat) (c : Qc) (s : model_based_opt) :
  is_zero c = true -> mul_add same_sign i c j s = s.
Proof. intros H. unfold mul_add. rewrite H. reflexivity. Qed.

Lemma mul_add_unfold (same_sign : bool) (i j : nat) (c : Qc) (s : model_based_opt) :
  is_zero c = false ->
  mul_add same_sign i c j s =
  mk_opt (upd i (mul_add_row same_sign c (get_row s i) (get_row s j)) (m_rows s))
         (if i =? m_objective_id then m_var2row_ids s
          else fold_left (fun idx v => push_row_id idx v i)
                 (snd (merge c (m_vars (get_row s i)) (m_vars (get_row s j))))
                 (m_var2row_ids s))
         (m_var2value s).
Proof.
  intros H. unfold mul_add, mul_add_row. rewrite H.
  destruct (merge c (m_vars (get_row s i)) (m_vars (get_row s j))). reflexivity.
Qed.

Lemma mul_add_vals (same_sign : bool) (i j : nat) (c : Qc) (s : model_based_opt) :
  m_var2value (mul_add same_sign i c j s) = m_var2value s.
Proof.
  destruct (is_zero c) eqn:Z.
  - rewrite mul_add_zero; trivial.
  - rewrite mul_add_unfold; trivial.
Qed.

Lemma mul_add_rows_length (same_sign : bool) (i j : nat) (c : Qc) (s : model_based_opt) :
  length (m_rows (mul_add same_sign i c j s)) = length (m_rows s).
Proof.
  destruct (is_zero c) eqn:Z.
  - rewrite mul_add_zero; trivial.
  - rewrite mul_add_unfold; trivial. simpl. apply upd_length.
Qed.

Lemma mul_add_get_row (same_sign : bool) (i j k : nat) (c : Qc) (s : model_based_opt) :
  is_zero c = false -> (i < length (m_rows s))%nat ->
  get_row (mul_add same_sign i c j s) k =
  if i =? k then mul_add_row same_sign c (get_row s i) (get_row s j)
  else get_row s k.
Proof.
  intros Z L. rewrite mul_add_unfold; trivial. rewrite get_row_upd.
  apply Nat.ltb_lt in L. rewrite L, andb_true_r. reflexivity.
Qed.

Lemma mul_add_get_row_other (same_sign : bool) (i j k : nat) (c : Qc)
    (s : model_based_opt) :
  i <> k -> get_row (mul_add same_sign i c j s) k = get_row s k.
Proof.
  intros Ne. destruct (is_zero c) eqn:Z.
  - rewrite mul_add_zero; trivial.
  - rewrite mul_add_unfold; trivial. rewrite get_row_upd.
    apply Nat.eqb_neq in Ne. rewrite Ne. reflexivity.
Qed.

(** The index after [mul_add] keeps what it had, and the only id it gains
    is [i], on variables new to row [i]. *)
Lemma mul_add_index (same_sign : bool) (i j : nat) (c : Qc) (s : model_based_opt)
    (y k : nat) :
  In k (row_ids_of (mul_add same_sign i c j s) y) <->
  In k (row_ids_of s y) \/
  (k = i /\ i <> m_objective_id /\ is_zero c = false /\
   In y (snd (merge c (m_vars (get_row s i)) (m_vars (get_row s j)))) /\
   (y < length (m_var2row_ids s))%nat).
Proof.
  destruct (is_zero c) eqn:Z.
  - rewrite mul_add_zero; trivial. intuition. discriminate.
  - rewrite mul_add_unfold; trivial. unfold row_ids_of. simpl.
    destruct (Nat.eqb_spec i m_objective_id) as [E|E].
    + intuition.
    + rewrite push_all_In. intuition.
Qed.

Lemma mul_add_index_length (same_sign : bool) (i j : nat) (c : Qc)
    (s : model_based_opt) :
  length (m_var2row_ids (mul_add same_sign i c j s)) = length (m_var2row_ids s).
Proof.
  destruct (is_zero c) eqn:Z.
  - rewrite mul_add_zero; trivial.
  - rewrite mul_add_unfold; trivial. simpl.
    destruct (i =? m_objective_id); trivial. apply push_all_length.
Qed.

Lemma mul_add_row_ids (same_sign : bool) (c : Qc) (r1 r2 : row) (y : nat) :
  In y (ids (m_vars (mul_add_row same_sign c r1 r2))) ->
  In y (ids (m_vars r1)) \/ In y (snd (merge c (m_vars r1) (m_vars r2))).
Proof. simpl. apply merge_ids. Qed.

Lemma mul_add_wf (same_sign : bool) (i j : nat) (c : Qc) (s : model_based_opt) :
  wf s -> (i < length (m_rows s))%nat -> wf (mul_add same_sign i c j s).
Proof.
  intros W L. destruct (is_zero c) eqn:Z; [rewrite mul_add_zero; trivial|].
  destruct W as [W1 W2 W3 W4 W5].
  assert (V : forall k y, In y (ids (m_vars (get_row (mul_add same_sign i c j s) k))) ->
              In y (ids (m_vars (get_row s k))) \/
              (k = i /\ In y (snd (merge c (m_vars (get_row s i)) (m_vars (get_row s j)))))).
  { intros k y. rewrite mul_add_get_row; trivial.
    destruct (Nat.eqb_spec i k) as [<-|Ne]; [|tauto].
    intros H. destruct (mul_add_row_ids _ _ _ _ _ H); tauto. }
  constructor.
  - rewrite mul_add_rows_length. exact W1.
  - rewrite mul_add_index_length, mul_add_vals. exact W2.
  - intros x k Hk. rewrite mul_add_rows_length. apply mul_add_index in Hk.
    destruct Hk as [Hk|[-> [Hi _]]]; [eapply W3; exact Hk|].
    unfold m_objective_id in Hi. lia.
  - intros k y Hy. rewrite mul_add_vals. destruct (V k y Hy) as [K|[_ K]].
    + eapply W4. exact K.
    + apply merge_added in K. eapply W4. exact K.
  - intros k y Hk Hy. apply mul_add_index. destruct (V k y Hy) as [K|[-> K]].
    + left. apply W5; trivial.
    + right. repeat split; trivial. rewrite W2. apply merge_added in K.
      eapply W4. exact K.
Qed.

Lemma resolve_get_row (b i k x : nat) (a : Qc) (s : model_based_opt) :
  get_row (resolve b a i x s) k =
  if i =? k then resolved s b a i x else get_row s k.
Proof.
  unfold resolve, resolved, resolve_row, get_coefficient.
  destruct (m_alive (get_row s i)) eqn:Al.
  - destruct (is_zero (- coefficient_in (m_vars (get_row s i)) x / a)) eqn:Z.
    + rewrite mul_add_zero; trivial.
      destruct (Nat.eqb_spec i k) as [->|]; reflexivity.
    + apply mul_add_get_row; trivial. apply alive_in_range. exact Al.
  - destruct (Nat.eqb_spec i k) as [->|]; reflexivity.
Qed.

Lemma resolve_vals (b i x : nat) (a : Qc) (s : model_based_opt) :
  m_var2value (resolve b a i x s) = m_var2value s.
Proof.
  unfold resolve. destruct (m_alive (get_row s i)); trivial. apply mul_add_vals.
Qed.

Lemma resolve_rows_length (b i x : nat) (a : Qc) (s : model_based_opt) :
  length (m_rows (resolve b a i x s)) = length (m_rows s).
Proof.
  unfold resolve. destruct (m_alive (get_row s i)); trivial.
  apply mul_add_rows_length.
Qed.

Lemma resolve_wf (b i x : nat) (a : Qc) (s : model_based_opt) :
  wf s -> wf (resolve b a i x s).
Proof.
  intros W. unfold resolve. destruct (m_alive (get_row s i)) eqn:Al; trivial.
  apply mul_add_wf; trivial. apply alive_in_range. exact Al.
Qed.

Lemma kill_get_row (i k : nat) (s : model_based_opt) :
  get_row (kill i s) k =
  if i =? k then set_alive (get_row s i) false else get_row s k.
Proof.
  unfold kill. rewrite get_row_upd.
  destruct (Nat.eqb_spec i k) as [->|]; trivial. simpl.
  destruct (Nat.ltb_spec k (length (m_rows s))) as [L|L]; trivial.
  rewrite (get_row_out _ _ L). reflexivity.
Qed.

Lemma kill_vars (i k : nat) (s : model_based_opt) :
  m_vars (get_row (kill i s) k) = m_vars (get_row s k).
Proof.
  rewrite kill_get_row. destruct (Nat.eqb_spec i k) as [->|]; reflexivity.
Qed.

Lemma kill_wf (i : nat) (s : model_based_opt) : wf s -> wf (kill i s).
Proof.
  intros [W1 W2 W3 W4 W5]. constructor; simpl.
  - rewrite upd_length. exact W1.
  - exact W2.
  - intros x k Hk. rewrite upd_length. apply (W3 x k Hk).
  - intros k y. rewrite kill_vars. apply W4.
  - intros k y Hk. rewrite kill_vars. apply (W5 k y Hk).
Qed.

(** *** Rows after a linear combination *)

Lemma mul_add_row_invariant (same_sign : bool) (c : Qc) (vals : list Qc) (r1 r2 : row) :
  c <> 0 -> row_invariant vals r1 = true -> row_invariant vals r2 = true ->
  row_invariant vals (mul_add_row same_sign c r1 r2) = true.
Proof.
  rewrite !row_invariant_parts. intros Hc [S1 [N1 V1]] [S2 [N2 V2]]. simpl.
  repeat split.
  - apply merge_sorted; trivial.
  - apply merge_nonzero; trivial.
  - rewrite V1, V2, !row_value_dot. simpl. rewrite dot_merge. ring.
Qed.

Lemma resolve_row_invariant (vals : list Qc) (src dst : row) (a1 : Qc) (o : bool) (x : nat) :
  row_invariant vals src = true -> row_invariant vals dst = true ->
  row_invariant vals (resolve_row src a1 dst o x) = true.
Proof.
  intros Hs Hd. unfold resolve_row. destruct (m_alive dst); trivial.
  destruct (is_zero _) eqn:Z; trivial.
  apply mul_add_row_invariant; trivial. apply is_zero_false. exact Z.
Qed.

Lemma resolve_row_alive (src dst : row) (a1 : Qc) (o : bool) (x : nat) :
  m_alive (resolve_row src a1 dst o x) = m_alive dst.
Proof.
  unfold resolve_row. destruct (m_alive dst) eqn:A; trivial.
  destruct (is_zero _); trivial.
Qed.

Lemma resolve_row_ids (src dst : row) (a1 : Qc) (o : bool) (x y : nat) :
  In y (ids (m_vars (resolve_row src a1 dst o x))) ->
  In y (ids (m_vars dst)) \/ In y (ids (m_vars src)).
Proof.
  unfold resolve_row. destruct (m_alive dst); [|tauto].
  destruct (is_zero _); [tauto|]. simpl. apply merge_ids_sub.
Qed.

(** [resolve] cancels [x] in a live destination row. *)
Lemma resolve_row_cancel (src dst : row) (a1 : Qc) (o : bool) (x : nat) :
  sorted_ids (m_vars src) = true -> sorted_ids (m_vars dst) = true ->
  a1 = coeff_of (m_vars src) x -> a1 <> 0 -> m_alive dst = true ->
  coeff_of (m_vars (resolve_row src a1 dst o x)) x = 0.
Proof.
  intros Ss Sd Ea Ha Al. unfold resolve_row. rewrite Al.
  rewrite (coefficient_in_sorted _ _ Sd).
  destruct (is_zero _) eqn:Z.
  - apply is_zero_true in Z.
    assert (E : coeff_of (m_vars dst) x = - (- coeff_of (m_vars dst) x / a1) * a1)
      by (field; exact Ha).
    rewrite E, Z. ring.
  - simpl. rewrite coeff_of_merge; trivial. rewrite <- Ea. field. exact Ha.
Qed.

Lemma resolve_row_coeff (src dst : row) (a1 : Qc) (o : bool) (x y : nat) :
  sorted_ids (m_vars src) = true -> sorted_ids (m_vars dst) = true ->
  m_alive dst = true ->
  coeff_of (m_vars (resolve_row src a1 dst o x)) y =
  coeff_of (m_vars dst) y + (- coeff_of (m_vars dst) x / a1) * coeff_of (m_vars src) y.
Proof.
  intros Ss Sd Al. unfold resolve_row. rewrite Al.
  rewrite (coefficient_in_sorted _ _ Sd).
  destruct (is_zero _) eqn:Z.
  - apply is_zero_true in Z. rewrite Z. ring.
  - simpl. apply coeff_of_merge; trivial.
Qed.

(** *** A run of [resolve] against one source row *)

Lemma resolved_frame (b i x k : nat) (a a' : Qc) (k' : nat) (s : model_based_opt) :
  k <> b -> k <> i ->
  resolved (resolve b a' k k' s) b a i x = resolved s b a i x.
Proof.
  intros Hb Hi. unfold resolved. rewrite !resolve_get_row.
  apply Nat.eqb_neq in Hb, Hi. rewrite Hb, Hi. reflexivity.
Qed.

Lemma resolve_all_get_row (b x : nat) (a : Qc) (l : list nat) (s : model_based_opt)
    (k : nat) :
  NoDup l -> ~ In b l ->
  get_row (resolve_all b a x l s) k =
  if contains l k then resolved s b a k x else get_row s k.
Proof.
  revert s. induction l as [|r l IH]; intros s Hn Hb; simpl; trivial.
  inversion Hn as [|? ? Hr Hl]; subst.
  unfold resolve_all in *. simpl.
  rewrite IH; trivial; [|intros K; apply Hb; right; exact K].
  destruct (Nat.eqb_spec k r) as [->|Ne]; simpl.
  - apply contains_not_In in Hr. rewrite Hr.
    rewrite resolve_get_row, Nat.eqb_refl. reflexivity.
  - destruct (contains l k) eqn:C.
    + apply resolved_frame; [|congruence]. intros E. apply Hb. left. exact E.
    + rewrite resolve_get_row. apply not_eq_sym, Nat.eqb_neq in Ne.
      rewrite Ne. reflexivity.
Qed.

Lemma resolve_all_vals (b x : nat) (a : Qc) (l : list nat) (s : model_based_opt) :
  m_var2value (resolve_all b a x l s) = m_var2value s.
Proof.
  revert s. induction l as [|r l IH]; intros s; simpl; trivial.
  unfold resolve_all in *. simpl. rewrite IH. apply resolve_vals.
Qed.

Lemma resolve_all_rows_length (b x : nat) (a : Qc) (l : list nat) (s : model_based_opt) :
  length (m_rows (resolve_all b a x l s)) = length (m_rows s).
Proof.
  revert s. induction l as [|r l IH]; intros s; simpl; trivial.
  unfold resolve_all in *. simpl. rewrite IH. apply resolve_rows_length.
Qed.

Lemma resolve_all_wf (b x : nat) (a : Qc) (l : list nat) (s : model_based_opt) :
  wf s -> wf (resolve_all b a x l s).
Proof.
  revert s. induction l as [|r l IH]; intros s W; simpl; trivial.
  unfold resolve_all in *. simpl. apply IH. apply resolve_wf. exact W.
Qed.

Lemma resolve_all_app (b x : nat) (a : Qc) (l1 l2 : list nat) (s : model_based_opt) :
  resolve_all b a x l2 (resolve_all b a x l1 s) = resolve_all b a x (l1 ++ l2) s.
Proof. unfold resolve_all. rewrite fold_left_app. reflexivity. Qed.

Lemma mul_add_alive (same_sign : bool) (i j k : nat) (c : Qc) (s : model_based_opt) :
  m_alive (get_row (mul_add same_sign i c j s) k) = m_alive (get_row s k).
Proof.
  destruct (is_zero c) eqn:Z; [rewrite mul_add_zero; trivial|].
  rewrite mul_add_unfold; trivial. rewrite get_row_upd.
  destruct ((i =? k) && (i <? length (m_rows s))) eqn:C; trivial.
  apply andb_true_iff in C. destruct C as [C _]. apply Nat.eqb_eq in C. subst.
  reflexivity.
Qed.

Lemma resolve_alive (b i x k : nat) (a : Qc) (s : model_based_opt) :
  m_alive (get_row (resolve b a i x s) k) = m_alive (get_row s k).
Proof.
  rewrite resolve_get_row. destruct (Nat.eqb_spec i k) as [->|]; trivial.
  apply resolve_row_alive.
Qed.

Lemma resolve_all_alive (b x k : nat) (a : Qc) (l : list nat) (s : model_based_opt) :
  m_alive (get_row (resolve_all b a x l s) k) = m_alive (get_row s k).
Proof.
  revert s. induction l as [|r l IH]; intros s; trivial.
  unfold resolve_all in *. simpl. rewrite IH. apply resolve_alive.
Qed.

(** ** Satisfaction of a resolvent *)

Lemma satisfied_eq (r : row) :
  m_type r = t_eq -> satisfied r = true -> m_value r = 0.
Proof. unfold satisfied. intros ->. apply is_zero_true. Qed.

Lemma satisfied_lt (r : row) :
  m_type r = t_lt -> satisfied r = true -> m_value r < 0.
Proof. unfold satisfied. intros ->. apply is_neg_true. Qed.

Lemma satisfied_nonpos (r : row) : satisfied r = true -> m_value r <= 0.
Proof.
  unfold satisfied. destruct (m_type r); intros H.
  - apply is_zero_true in H. rewrite H. apply Qcle_refl.
  - apply is_neg_true in H. apply Qclt_le_weak. exact H.
  - apply negb_true_iff, is_pos_false in H. exact H.
Qed.

Lemma satisfied_intro (r : row) :
  (m_type r = t_eq -> m_value r = 0) ->
  (m_type r = t_lt -> m_value r < 0) ->
  (m_type r = t_le -> m_value r <= 0) ->
  satisfied r = true.
Proof.
  unfold satisfied. destruct (m_type r); intros H1 H2 H3.
  - apply is_zero_true. auto.
  - apply is_neg_true. auto.
  - apply negb_true_iff, is_pos_false. auto.
Qed.

(** A coefficient with the wanted sign. *)
Lemma sign_pos (a : Qc) : a <> 0 -> is_pos a = true -> 0 < a.
Proof. intros _. apply is_pos_true. Qed.

Lemma sign_neg (a : Qc) : a <> 0 -> is_pos a = false -> a < 0.
Proof. intros H P. apply Qc_neq_lt; trivial. apply is_pos_false. exact P. Qed.

Lemma div_zero (a : Qc) : 0 / a = 0.
Proof. unfold Qcdiv. ring. Qed.

Ltac to_Q :=
  unfold Qcle, Qclt, Qcminus in *;
  repeat (rewrite this_plus in * || rewrite this_mult in *
          || rewrite this_opp in * );
  simpl (this 0) in *.

Lemma lt_of_le_neq (a b : Qc) : a <= b -> a <> b -> a < b.
Proof.
  intros H N. destruct (Qcle_lt_or_eq _ _ H); [assumption | contradiction].
Qed.

(** The arithmetic of a resolvent of two rows on the same side: its value
    is not positive when the source is the tighter bound, and negative when
    the bounds differ. *)
Lemma same_side_value (pos : bool) (a1 a2 v1 v2 X : Qc) :
  a1 <> 0 -> a2 <> 0 -> is_pos a2 = pos ->
  (if pos then X - v1 / a1 <= X - v2 / a2 else X - v2 / a2 <= X - v1 / a1) ->
  v2 + (- a2 / a1) * v1 <= 0 /\
  (X - v2 / a2 <> X - v1 / a1 -> v2 + (- a2 / a1) * v1 < 0).
Proof.
  intros H1 H2 Hp Ht. rewrite (resolvent_value a1 a2 v1 v2 X); trivial.
  revert Ht. generalize (X - v1 / a1) as d1. generalize (X - v2 / a2) as d2.
  intros d2 d1 Ht. destruct pos.
  - pose proof (sign_pos _ H2 Hp) as P. split.
    + to_Q. nra.
    + intros Ne. assert (K : d1 < d2) by (apply lt_of_le_neq; auto).
      to_Q. nra.
  - pose proof (sign_neg _ H2 Hp) as P. split.
    + to_Q. nra.
    + intros Ne. assert (K : d2 < d1) by (apply lt_of_le_neq; auto).
      to_Q. nra.
Qed.

(** A bound that is at least as tight as an equality is tight itself. *)
Lemma tight_against_equality (pos : bool) (a1 v1 X : Qc) :
  a1 <> 0 -> is_pos a1 = pos -> v1 <= 0 ->
  (if pos then X - v1 / a1 <= X else X <= X - v1 / a1) ->
  v1 = 0.
Proof.
  intros H1 Hp Hv Ht.
  assert (E : v1 = a1 * (X - (X - v1 / a1))) by (field; exact H1).
  apply Qcle_antisym; trivial. rewrite E. clear E.
  revert Ht. generalize (X - v1 / a1) as d1. intros d1 Ht. destruct pos.
  - pose proof (sign_pos _ H1 Hp) as P. to_Q. nra.
  - pose proof (sign_neg _ H1 Hp) as P. to_Q. nra.
Qed.

Lemma satisfied_holds (r : row) :
  satisfied r = true <-> holds (m_type r) (m_value r).
Proof.
  unfold satisfied, holds. destruct (m_type r).
  - apply is_zero_true.
  - apply is_neg_true.
  - rewrite negb_true_iff. apply is_pos_false.
Qed.

Lemma holds_nonpos (t : ineq_type) (v : Qc) : holds t v -> v <= 0.
Proof.
  destruct t; simpl; intros H.
  - rewrite H. apply Qcle_refl.
  - apply Qclt_le_weak. exact H.
  - exact H.
Qed.

(** Resolving a candidate row against the tightest candidate keeps it
    satisfied. *)
Lemma combine_holds_above (pos : bool) (a1 a2 v1 v2 X : Qc) (T1 T2 : ineq_type) :
  a1 <> 0 -> a2 <> 0 ->
  (is_pos a1 = pos \/ T1 = t_eq) -> (is_pos a2 = pos \/ T2 = t_eq) ->
  (if pos then X - v1 / a1 <= X - v2 / a2 else X - v2 / a2 <= X - v1 / a1) ->
  (X - v2 / a2 = X - v1 / a1 -> T2 = t_lt -> T1 = t_lt) ->
  holds T1 v1 -> holds T2 v2 ->
  holds (combine_type (Bool.eqb (is_pos a1) (is_pos a2)) T2 T1)
        (v2 + (- a2 / a1) * v1).
Proof.
  intros H1 H2 S1 S2 Ht Hs V1 V2.
  destruct T1.
  - (* the source is an equality *)
    simpl in V1. subst v1.
    replace (v2 + - a2 / a1 * 0) with v2 by ring.
    unfold combine_type. simpl. rewrite !andb_false_r. exact V2.
  - destruct S1 as [S1|S1]; [|discriminate].
    destruct T2.
    + simpl in V2. subst v2. rewrite div_zero in Ht.
      replace (X - 0) with X in Ht by ring.
      pose proof (tight_against_equality pos a1 v1 X H1 S1
                    (Qclt_le_weak _ _ V1) Ht) as E.
      simpl in V1. rewrite E in V1. discriminate V1.
    + destruct S2 as [S2|S2]; [|discriminate].
      rewrite S1, S2, Bool.eqb_reflx. unfold combine_type. simpl.
      apply (same_side_value pos a1 a2 v1 v2 X); trivial.
    + destruct S2 as [S2|S2]; [|discriminate].
      rewrite S1, S2, Bool.eqb_reflx. unfold combine_type. simpl.
      apply (same_side_value pos a1 a2 v1 v2 X); trivial.
  - destruct S1 as [S1|S1]; [|discriminate].
    destruct T2.
    + simpl in V2. subst v2. rewrite div_zero in Ht.
      replace (X - 0) with X in Ht by ring.
      pose proof (tight_against_equality pos a1 v1 X H1 S1 V1 Ht) as E.
      subst v1. unfold combine_type. simpl. rewrite !andb_false_r. simpl. ring.
    + destruct S2 as [S2|S2]; [|discriminate].
      rewrite S1, S2, Bool.eqb_reflx. unfold combine_type. simpl.
      apply (same_side_value pos a1 a2 v1 v2 X); trivial.
      intros E. specialize (Hs E eq_refl). discriminate.
    + destruct S2 as [S2|S2]; [|discriminate].
      rewrite S1, S2, Bool.eqb_reflx. unfold combine_type. simpl.
      apply (same_side_value pos a1 a2 v1 v2 X); trivial.
Qed.

(** Resolving a row of the other side against a candidate keeps it
    satisfied. *)
Lemma combine_holds_below (pos : bool) (a1 a2 v1 v2 : Qc) (T1 T2 : ineq_type) :
  a1 <> 0 -> a2 <> 0 ->
  (is_pos a1 = pos \/ T1 = t_eq) -> is_pos a2 <> pos -> T2 <> t_eq ->
  holds T1 v1 -> holds T2 v2 ->
  holds (combine_type (Bool.eqb (is_pos a1) (is_pos a2)) T2 T1)
        (v2 + (- a2 / a1) * v1).
Proof.
  intros H1 H2 S1 S2 N2 V1 V2.
  destruct T1.
  - simpl in V1. subst v1.
    replace (v2 + - a2 / a1 * 0) with v2 by ring.
    unfold combine_type. simpl. rewrite !andb_false_r. exact V2.
  - destruct S1 as [S1|S1]; [|discriminate].
    assert (Ne : is_pos a1 <> is_pos a2) by congruence.
    pose proof (ratio_pos a1 a2 H1 H2 Ne) as R.
    replace (Bool.eqb (is_pos a1) (is_pos a2)) with false
      by (destruct (is_pos a1), (is_pos a2); simpl; congruence).
    unfold combine_type. simpl.
    apply holds_nonpos in V2. simpl in V1.
    revert R. generalize (- a2 / a1) as d. intros d R. to_Q. nra.
  - destruct S1 as [S1|S1]; [|discriminate].
    assert (Ne : is_pos a1 <> is_pos a2) by congruence.
    pose proof (ratio_pos a1 a2 H1 H2 Ne) as R.
    replace (Bool.eqb (is_pos a1) (is_pos a2)) with false
      by (destruct (is_pos a1), (is_pos a2); simpl; congruence).
    unfold combine_type. simpl. simpl in V1.
    revert R. generalize (- a2 / a1) as d. intros d R.
    destruct T2; [congruence| |]; simpl in *; to_Q; nra.
Qed.

Lemma candidate_parts (s : model_based_opt) (x : nat) (pos : bool) (i : nat) :
  candidate s x pos i = true ->
  m_alive (get_row s i) = true /\ get_coefficient s i x <> 0 /\
  (is_pos (get_coefficient s i x) = pos \/ m_type (get_row s i) = t_eq).
Proof.
  unfold candidate, live_on. rewrite !andb_true_iff, orb_true_iff, negb_true_iff.
  intros [[A Z] C]. repeat split; trivial.
  - apply is_zero_false. exact Z.
  - destruct C as [C|C].
    + left. apply Bool.eqb_prop. exact C.
    + right. destruct (m_type (get_row s i)); trivial; discriminate.
Qed.

Lemma below_parts (s : model_based_opt) (x : nat) (pos : bool) (i : nat) :
  live_on s x i = true -> candidate s x pos i = false ->
  m_alive (get_row s i) = true /\ get_coefficient s i x <> 0 /\
  is_pos (get_coefficient s i x) <> pos /\ m_type (get_row s i) <> t_eq.
Proof.
  unfold candidate. intros L. rewrite L. simpl. rewrite orb_false_iff.
  unfold live_on in L. apply andb_true_iff in L. destruct L as [A Z].
  apply negb_true_iff, is_zero_false in Z.
  intros [C1 C2]. repeat split; trivial.
  - intros E. rewrite E, Bool.eqb_reflx in C1. discriminate.
  - intros E. rewrite E in C2. discriminate.
Qed.

Lemma resolved_satisfied_above (s : model_based_opt) (x : nat) (pos : bool) (b i : nat) :
  i <> m_objective_id ->
  candidate s x pos b = true -> candidate s x pos i = true ->
  tighter s x pos b i -> strict_kept s x b i ->
  satisfied (get_row s b) = true -> satisfied (get_row s i) = true ->
  satisfied (resolved s b (get_coefficient s b x) i x) = true.
Proof.
  intros Hi Cb Ci Ht Hs Sb Si.
  destruct (candidate_parts _ _ _ _ Cb) as [Ab [Nb Pb]].
  destruct (candidate_parts _ _ _ _ Ci) as [Ai [Ni Pi]].
  unfold resolved, resolve_row. rewrite Ai.
  fold (get_coefficient s i x).
  destruct (is_zero _) eqn:Z; trivial.
  apply satisfied_holds. simpl.
  apply Nat.eqb_neq in Hi. rewrite Hi. simpl.
  apply satisfied_holds in Sb, Si.
  apply (combine_holds_above pos _ _ _ _ (get_value s x)); trivial.
Qed.

Lemma resolved_satisfied_below (s : model_based_opt) (x : nat) (pos : bool) (b i : nat) :
  i <> m_objective_id ->
  candidate s x pos b = true ->
  live_on s x i = true -> candidate s x pos i = false ->
  satisfied (get_row s b) = true -> satisfied (get_row s i) = true ->
  satisfied (resolved s b (get_coefficient s b x) i x) = true.
Proof.
  intros Hi Cb Li Ci Sb Si.
  destruct (candidate_parts _ _ _ _ Cb) as [Ab [Nb Pb]].
  destruct (below_parts _ _ _ _ Li Ci) as [Ai [Ni [Pi Ti]]].
  unfold resolved, resolve_row. rewrite Ai.
  fold (get_coefficient s i x).
  destruct (is_zero _) eqn:Z; trivial.
  apply satisfied_holds. simpl.
  apply Nat.eqb_neq in Hi. rewrite Hi. simpl.
  apply satisfied_holds in Sb, Si.
  apply (combine_holds_below pos); trivial.
Qed.

(** ** One round of [maximize] *)

Lemma last_nth (vars : list var) :
  last vars dummy_var = nth (length vars - 1) vars dummy_var.
Proof.
  induction vars as [|v rest IH]; trivial.
  destruct rest as [|w rest]; trivial.
  change (last (v :: w :: rest) dummy_var) with (last (w :: rest) dummy_var).
  rewrite IH. simpl. rewrite Nat.sub_0_r. reflexivity.
Qed.

Lemma coeff_of_last (vars : list var) :
  sorted_ids vars = true -> vars <> [] ->
  coeff_of vars (m_id (last vars dummy_var)) = m_coeff (last vars dummy_var).
Proof.
  intros Hs Hn. rewrite last_nth. apply coeff_of_nth; trivial.
  destruct vars; [congruence|simpl; lia].
Qed.

Lemma last_nonzero (vars : list var) :
  nonzero_coeffs vars = true -> vars <> [] ->
  m_coeff (last vars dummy_var) <> 0.
Proof.
  intros Hn He. unfold nonzero_coeffs in Hn. rewrite forallb_forall in Hn.
  apply is_zero_false, negb_true_iff, Hn.
  rewrite last_nth. apply nth_In. destruct vars; [congruence|simpl; lia].
Qed.

Lemma ratio_nonzero (a b : Qc) : a <> 0 -> b <> 0 -> - a / b <> 0.
Proof.
  intros Ha Hb E. apply Ha.
  replace a with (- (- a / b) * b) by (field; exact Hb). rewrite E. ring.
Qed.

(** What the bound search hands to the elimination. *)
Record pivot_facts (s : model_based_opt) (x : nat) (pos : bool) (b : nat)
    (above below : list nat) : Prop := {
  pf_pivot : In b (row_ids_of s x) /\ candidate s x pos b = true;
  pf_nodup : NoDup (above ++ below) /\ ~ In b (above ++ below);
  pf_above : forall i, In i above ->
      In i (row_ids_of s x) /\ candidate s x pos i = true
      /\ tighter s x pos b i /\ strict_kept s x b i;
  pf_below : forall i, In i below ->
      In i (row_ids_of s x) /\ live_on s x i = true
      /\ candidate s x pos i = false;
  pf_all : forall i, In i (row_ids_of s x) -> live_on s x i = true ->
      i = b \/ In i (above ++ below)
}.

Lemma candidate_live (s : model_based_opt) (x : nat) (pos : bool) (i : nat) :
  candidate s x pos i = true -> live_on s x i = true.
Proof. unfold candidate. intros H. apply andb_true_iff in H. tauto. Qed.

Lemma find_bound_facts (s : model_based_opt) (x : nat) (pos : bool) (b : nat) :
  bs_index (find_bound s x pos) = Some b ->
  bs_coeff (find_bound s x pos) = get_coefficient s b x /\
  pivot_facts s x pos b (bs_above (find_bound s x pos))
              (bs_below (find_bound s x pos)).
Proof.
  intros Hb. destruct (find_bound_inv s x pos) as [I1 I2 I3 I4 I5 I6 I7].
  rewrite Hb in *. simpl in *.
  destruct (I7 b eq_refl) as [P1 [P2 P3]]. split; trivial.
  inversion I2 as [|? ? Nb Na]; subst.
  constructor.
  - apply I4. left. reflexivity.
  - split.
    + apply NoDup_app; trivial. intros i Ha Hbl.
      apply I5 in Hbl. assert (K : b = i \/ In i (bs_above (find_bound s x pos)))
        by (right; exact Ha).
      apply I4 in K. destruct K as [_ K]. destruct Hbl as [_ [_ K']]. congruence.
    + rewrite in_app_iff. intros [K|K]; [contradiction|].
      apply I5 in K. assert (K' : b = b \/ In b (bs_above (find_bound s x pos)))
        by (left; reflexivity).
      apply I4 in K'. destruct K as [_ [_ K]]. destruct K' as [_ K']. congruence.
  - intros i Hi. assert (K : b = i \/ In i (bs_above (find_bound s x pos)))
      by (right; exact Hi).
    apply I4 in K. destruct K as [K1 K2]. destruct (P3 i K1 K2). tauto.
  - intros i Hi. apply I5. exact Hi.
  - intros i Hi L. destruct (candidate s x pos i) eqn:C.
    + assert (K : b = i \/ In i (bs_above (find_bound s x pos)))
        by (apply I4; tauto).
      rewrite in_app_iff. destruct K; [left; congruence|tauto].
    + right. rewrite in_app_iff. right. apply I5. tauto.
Qed.

Lemma in_scope_alive (all : bool) (r : row) :
  m_alive r = true -> in_scope all r = true.
Proof. unfold in_scope. intros ->. apply orb_true_r. Qed.

Lemma live_row_invariant (all : bool) (s : model_based_opt) (k : nat) :
  ok all s -> m_alive (get_row s k) = true ->
  row_invariant (m_var2value s) (get_row s k) = true.
Proof. intros O A. apply (ok_inv _ _ O). apply in_scope_alive. exact A. Qed.

Lemma get_coefficient_sorted (all : bool) (s : model_based_opt) (k x : nat) :
  ok all s -> in_scope all (get_row s k) = true ->
  get_coefficient s k x = coeff_of (m_vars (get_row s k)) x.
Proof.
  intros O A. unfold get_coefficient. apply coefficient_in_sorted.
  apply (ok_inv _ _ O) in A. apply row_invariant_parts in A. tauto.
Qed.

Lemma row_not_in (vals : list Qc) (r : row) (x : nat) :
  row_invariant vals r = true -> coeff_of (m_vars r) x = 0 ->
  ~ In x (ids (m_vars r)).
Proof.
  intros I. apply row_invariant_parts in I. destruct I as [S [N _]].
  apply nonzero_not_in; trivial.
Qed.

(** A live row that mentions [x] is listed for [x] and counts for it. *)
Lemma mentions_live_on (all : bool) (s : model_based_opt) (k x : nat) :
  ok all s -> k <> m_objective_id -> m_alive (get_row s k) = true ->
  In x (ids (m_vars (get_row s k))) ->
  In k (row_ids_of s x) /\ live_on s x k = true.
Proof.
  intros O Hk A Hx. split.
  - apply (wf_index _ (ok_wf _ _ O)); trivial.
  - unfold live_on. rewrite A. simpl. apply negb_true_iff, is_zero_false.
    rewrite (get_coefficient_sorted all); trivial; [|apply in_scope_alive; trivial].
    pose proof (live_row_invariant _ _ _ O A) as I.
    apply row_invariant_parts in I. destruct I as [S [N _]].
    apply in_nonzero; trivial.
Qed.

Lemma live_on_parts (s : model_based_opt) (x i : nat) :
  live_on s x i = true ->
  m_alive (get_row s i) = true /\ get_coefficient s i x <> 0.
Proof.
  unfold live_on. rewrite andb_true_iff, negb_true_iff, is_zero_false. tauto.
Qed.

Lemma pivot_resolvable (all : bool) (s : model_based_opt) (x : nat) (pos : bool)
    (b : nat) (above below l : list nat) :
  ok all s -> pivot_facts s x pos b above below ->
  NoDup l -> (forall i, In i l <-> In i (above ++ below)) ->
  resolvable s x b l.
Proof.
  intros O [[Pb Cb] [Nd Nb] Pa Pl Pall] Nl Hl.
  pose proof (wf_range _ (ok_wf _ _ O) _ _ Pb) as [Bpos _].
  assert (Sb : satisfied (get_row s b) = true).
  { destruct (candidate_parts _ _ _ _ Cb) as [Ab _].
    apply (ok_sat _ _ O); trivial. unfold m_objective_id. lia. }
  constructor.
  - split; trivial. apply (candidate_live _ _ _ _ Cb).
  - split; trivial. rewrite Hl. exact Nb.
  - intros k Hk. apply Hl in Hk. apply in_app_iff in Hk. destruct Hk as [Hk|Hk].
    + destruct (Pa k Hk) as [K1 [K2 [K3 K4]]]. split; trivial. intros Ak.
      pose proof (wf_range _ (ok_wf _ _ O) _ _ K1) as [Kpos _].
      assert (Hk0 : k <> m_objective_id) by (unfold m_objective_id; lia).
      apply (resolved_satisfied_above s x pos); trivial.
      apply (ok_sat _ _ O); trivial.
    + destruct (Pl k Hk) as [K1 [K2 K3]]. split; trivial. intros Ak.
      pose proof (wf_range _ (ok_wf _ _ O) _ _ K1) as [Kpos _].
      assert (Hk0 : k <> m_objective_id) by (unfold m_objective_id; lia).
      apply (resolved_satisfied_below s x pos); trivial.
      apply (ok_sat _ _ O); trivial.
  - intros i Hi Li. destruct (Pall i Hi Li) as [K|K]; [left; exact K|].
    right. apply Hl. exact K.
Qed.

(** The resolution phase: every row of [l] is resolved against the pivot
    [b]; the tableau stays in order and [x] is gone from every live
    constraint row but the pivot. *)
Lemma resolve_phase (all : bool) (s : model_based_opt) (x b : nat)
    (l done : list nat) :
  ok all s -> eliminated all s done -> resolvable s x b l ->
  let s2 := resolve_all b (get_coefficient s b x) x l s in
  ok all s2 /\ eliminated all s2 done
  /\ (forall k, get_row s2 k =
                if contains l k then resolved s b (get_coefficient s b x) k x
                else get_row s k)
  /\ (forall k, m_alive (get_row s2 k) = m_alive (get_row s k))
  /\ m_var2value s2 = m_var2value s
  /\ (forall k, k <> m_objective_id -> k <> b ->
                m_alive (get_row s2 k) = true ->
                ~ In x (ids (m_vars (get_row s2 k)))).
Proof.
  intros O E [[Pb Lb] [Nl Nbl] Pr Pall] s2.
  set (a := get_coefficient s b x) in *.
  assert (R : forall k, get_row s2 k =
                        if contains l k then resolved s b a k x else get_row s k)
    by (intros k; apply resolve_all_get_row; trivial).
  assert (V : m_var2value s2 = m_var2value s) by apply resolve_all_vals.
  destruct (live_on_parts _ _ _ Lb) as [Ab Na].
  assert (Ib : row_invariant (m_var2value s) (get_row s b) = true)
    by (eapply live_row_invariant; eauto).
  assert (Al : forall k, m_alive (get_row s2 k) = m_alive (get_row s k))
    by (intros k; apply resolve_all_alive).
  split; [constructor | split; [| split; [| split; [| split]]]].
  - apply resolve_all_wf. apply (ok_wf _ _ O).
  - intros k Hk. rewrite V. unfold in_scope in Hk. rewrite Al in Hk.
    rewrite R. destruct (contains l k) eqn:C.
    + apply resolve_row_invariant; trivial. apply (ok_inv _ _ O). exact Hk.
    + apply (ok_inv _ _ O). exact Hk.
  - intros k Hk Ak. rewrite Al in Ak. rewrite R.
    destruct (contains l k) eqn:C.
    + apply contains_In in C. apply (Pr k C). exact Ak.
    + apply (ok_sat _ _ O); trivial.
  - intros y k Hy Hk Hin. unfold in_scope in Hk. rewrite Al in Hk.
    rewrite R in Hin. destruct (contains l k) eqn:C.
    + apply resolve_row_ids in Hin. destruct Hin as [Hin|Hin].
      * revert Hin. apply E; trivial.
      * revert Hin. apply E; trivial. left. exact Ab.
    + revert Hin. apply E; trivial.
  - exact R.
  - exact Al.
  - exact V.
  - intros k Hk0 Hkb Ak Hin. rewrite Al in Ak. rewrite R in Hin.
    destruct (contains l k) eqn:C.
    + revert Hin.
      assert (Ik : row_invariant (m_var2value s) (get_row s k) = true)
        by (eapply live_row_invariant; eauto).
      apply (row_not_in (m_var2value s)).
      * apply resolve_row_invariant; trivial.
      * apply row_invariant_parts in Ib, Ik.
        apply resolve_row_cancel; try tauto.
        unfold a. apply (get_coefficient_sorted all); trivial.
        apply in_scope_alive. exact Ab.
    + destruct (mentions_live_on all s k x O Hk0 Ak Hin) as [K1 K2].
      destruct (Pall k K1 K2) as [K|K]; [contradiction|].
      apply contains_In in K. congruence.
Qed.

Lemma kill_alive (b k : nat) (s : model_based_opt) :
  m_alive (get_row (kill b s) k) = if b =? k then false else m_alive (get_row s k).
Proof. rewrite kill_get_row. destruct (b =? k); reflexivity. Qed.

Lemma kill_ok (all : bool) (b : nat) (s : model_based_opt) :
  ok all s -> ok all (kill b s).
Proof.
  intros O. constructor.
  - apply kill_wf. apply (ok_wf _ _ O).
  - intros k Hk. rewrite kill_get_row in *. simpl.
    destruct (Nat.eqb_spec b k) as [->|Ne].
    + unfold in_scope in Hk. simpl in Hk. rewrite orb_false_r in Hk.
      assert (I : row_invariant (m_var2value s) (get_row s k) = true)
        by (apply (ok_inv _ _ O); unfold in_scope; rewrite Hk; reflexivity).
      exact I.
    + apply (ok_inv _ _ O). exact Hk.
  - intros k Hk Ak. rewrite kill_get_row in *.
    destruct (Nat.eqb_spec b k) as [->|Ne]; [discriminate|].
    apply (ok_sat _ _ O); trivial.
Qed.

Lemma kill_eliminated (all : bool) (b : nat) (s : model_based_opt) (done : list nat) :
  eliminated all s done -> eliminated all (kill b s) done.
Proof.
  intros E y k Hy Hk. rewrite kill_vars. apply E; trivial.
  rewrite kill_get_row in Hk. destruct (Nat.eqb_spec b k) as [->|Ne]; trivial.
  unfold in_scope in *. simpl in Hk. rewrite orb_false_r in Hk.
  destruct Hk as [Hk|[Hk1 Hk2]]; [discriminate|].
  right. split; trivial. rewrite Hk2. reflexivity.
Qed.

(** Folding the bound row into the objective. *)
Lemma fold_objective (all : bool) (s : model_based_opt) (c : Qc) (b : nat)
    (done : list nat) :
  ok all s -> eliminated all s done ->
  m_alive (get_row s b) = true -> b <> m_objective_id ->
  let s3 := mul_add false m_objective_id c b s in
  ok all s3 /\ eliminated all s3 done
  /\ (forall k, k <> m_objective_id -> get_row s3 k = get_row s k)
  /\ (forall k, m_alive (get_row s3 k) = m_alive (get_row s k))
  /\ m_var2value s3 = m_var2value s.
Proof.
  intros O E Ab Hb s3.
  assert (V : m_var2value s3 = m_var2value s) by apply mul_add_vals.
  assert (F : forall k, k <> m_objective_id -> get_row s3 k = get_row s k)
    by (intros k Hk; apply mul_add_get_row_other; congruence).
  pose proof (wf_rows _ (ok_wf _ _ O)) as L.
  destruct (is_zero c) eqn:Z.
  { unfold s3 in *. rewrite mul_add_zero in *; trivial. tauto. }
  assert (R0 : get_row s3 m_objective_id =
               mul_add_row false c (get_row s m_objective_id) (get_row s b)).
  { unfold s3. rewrite mul_add_get_row; trivial. }
  assert (Al : forall k, m_alive (get_row s3 k) = m_alive (get_row s k)).
  { intros k. destruct (Nat.eq_dec k m_objective_id) as [->|Ne].
    - rewrite R0. reflexivity.
    - rewrite F; trivial. }
  split; [constructor | split; [| split; [| split]]]; trivial.
  - apply mul_add_wf; trivial. apply (ok_wf _ _ O).
  - intros k Hk. rewrite V. unfold in_scope in Hk. rewrite Al in Hk.
    destruct (Nat.eq_dec k m_objective_id) as [->|Ne].
    + rewrite R0. apply mul_add_row_invariant.
      * apply is_zero_false. exact Z.
      * apply (ok_inv _ _ O). exact Hk.
      * eapply live_row_invariant; eauto.
    + rewrite F; trivial. apply (ok_inv _ _ O). exact Hk.
  - intros k Hk Ak. rewrite Al in Ak. rewrite F; trivial.
    apply (ok_sat _ _ O); trivial.
  - intros y k Hy Hk Hin. unfold in_scope in Hk. rewrite Al in Hk.
    destruct (Nat.eq_dec k m_objective_id) as [->|Ne].
    + rewrite R0 in Hin. simpl in Hin. apply merge_ids_sub in Hin.
      destruct Hin as [Hin|Hin]; revert Hin; apply E; trivial.
      left. exact Ab.
    + rewrite F in Hin; trivial. revert Hin. apply E; trivial.
Qed.

(** ... which cancels the variable taken from the back of the objective. *)
Lemma fold_objective_cancel (all : bool) (s : model_based_opt) (b : nat) :
  ok all s -> in_scope all (objective s) = true ->
  m_alive (get_row s b) = true ->
  m_vars (objective s) <> [] ->
  let v := last (m_vars (objective s)) dummy_var in
  get_coefficient s b (m_id v) <> 0 ->
  ~ In (m_id v)
       (ids (m_vars (objective
          (mul_add false m_objective_id
                   (- m_coeff v / get_coefficient s b (m_id v)) b s)))).
Proof.
  intros O Sc Ab Hne v Ha.
  pose proof (ok_inv _ _ O _ Sc) as I0.
  pose proof (live_row_invariant _ _ _ O Ab) as Ib.
  pose proof (wf_rows _ (ok_wf _ _ O)) as L.
  assert (P0 := I0). assert (Pb := Ib).
  apply row_invariant_parts in P0, Pb.
  destruct P0 as [S0 [N0 _]], Pb as [Sb [Nb _]].
  assert (Hc : m_coeff v <> 0) by (apply last_nonzero; trivial).
  assert (Z : is_zero (- m_coeff v / get_coefficient s b (m_id v)) = false)
    by (apply is_zero_false, ratio_nonzero; trivial).
  unfold objective at 1. rewrite mul_add_get_row; trivial. simpl (_ =? _).
  cbv iota.
  apply (row_not_in (m_var2value s)).
  - apply mul_add_row_invariant; trivial. apply is_zero_false. exact Z.
  - simpl. rewrite coeff_of_merge; trivial.
    fold (objective s). unfold v at 1. rewrite coeff_of_last; trivial. fold v.
    assert (Eg : get_coefficient s b (m_id v) =
                 coeff_of (m_vars (get_row s b)) (m_id v))
      by (apply (get_coefficient_sorted all); trivial; apply in_scope_alive; trivial).
    rewrite <- Eg. field. exact Ha.
Qed.

Lemma maximize_step_next (all : bool) (s s' : model_based_opt) (x b : nat)
    (done : list nat) :
  ok all s -> eliminated all s done ->
  maximize_step s = Next x b s' ->
  ok all s' /\ eliminated all s' (done ++ [x])
  /\ m_var2value s' = m_var2value s
  /\ m_alive (get_row s b) = true
  /\ (forall k, m_alive (get_row s' k) =
                if b =? k then false else m_alive (get_row s k)).
Proof.
  intros O E. unfold maximize_step.
  destruct (m_vars (objective s)) as [|v0 rest] eqn:Ev; [discriminate|].
  rewrite <- Ev. set (v := last (m_vars (objective s)) dummy_var).
  destruct (bs_index (find_bound s (m_id v) (is_pos (m_coeff v)))) as [b'|] eqn:Eb;
    [|discriminate].
  intros H. inversion H; subst x b' s'. clear H.
  destruct (find_bound_facts _ _ _ _ Eb) as [Ec F].
  set (fb := find_bound s (m_id v) (is_pos (m_coeff v))) in *.
  unfold eliminate. rewrite Ec, resolve_all_app.
  assert (Rs : resolvable s (m_id v) b (bs_above fb ++ bs_below fb)).
  { apply (pivot_resolvable all s (m_id v) (is_pos (m_coeff v)) b
             (bs_above fb) (bs_below fb)); trivial.
    - exact (proj1 (pf_nodup _ _ _ _ _ _ F)).
    - intros i. apply iff_refl. }
  pose proof (resolve_phase all s (m_id v) b (bs_above fb ++ bs_below fb) done
                O E Rs) as R.
  set (a := get_coefficient s b (m_id v)) in *.
  set (s2 := resolve_all b a (m_id v) (bs_above fb ++ bs_below fb) s) in *.
  destruct R as [O2 [E2 [Fr [Al2 [V2 X2]]]]].
  destruct (pf_pivot _ _ _ _ _ _ F) as [Pb Cb].
  destruct (candidate_parts _ _ _ _ Cb) as [Ab [Na _]].
  pose proof (wf_range _ (ok_wf _ _ O) _ _ Pb) as [Bpos _].
  pose proof (proj2 (pf_nodup _ _ _ _ _ _ F)) as Nbl.
  assert (Hb0 : b <> m_objective_id) by (unfold m_objective_id; lia).
  assert (Ab2 : m_alive (get_row s2 b) = true) by (rewrite Al2; exact Ab).
  assert (N0 : ~ In m_objective_id (bs_above fb ++ bs_below fb)).
  { intros K. apply in_app_iff in K.
    assert (In m_objective_id (row_ids_of s (m_id v))) as K'.
    { destruct K as [K|K].
      - destruct (pf_above _ _ _ _ _ _ F _ K). tauto.
      - destruct (pf_below _ _ _ _ _ _ F _ K). tauto. }
    apply (wf_range _ (ok_wf _ _ O)) in K'. unfold m_objective_id in K'. lia. }
  assert (Rb : get_row s2 b = get_row s b).
  { rewrite Fr. apply contains_not_In in Nbl. rewrite Nbl. reflexivity. }
  assert (R0 : get_row s2 m_objective_id = get_row s m_objective_id).
  { rewrite Fr. apply contains_not_In in N0. rewrite N0. reflexivity. }
  set (c := - m_coeff v / a).
  pose proof (fold_objective all s2 c b done O2 E2 Ab2 Hb0) as R3.
  set (s3 := mul_add false m_objective_id c b s2) in *.
  destruct R3 as [O3 [E3 [F3 [Al3 V3]]]].
  split; [apply kill_ok; exact O3|].
  split; [|split; [|split]].
  - intros y k Hy Hk. apply in_app_iff in Hy. destruct Hy as [Hy|[<-|[]]].
    + apply (kill_eliminated all b s3 done E3 y k); trivial.
    + rewrite kill_vars.
      assert (Sc : m_alive (get_row s k) = true /\ k <> b
                   \/ (k = m_objective_id /\ in_scope all (get_row s k) = true)).
      { rewrite kill_get_row in Hk.
        destruct (Nat.eqb_spec b k) as [->|Ne].
        - unfold in_scope in Hk. simpl in Hk. destruct Hk as [Hk|[Hk _]]; congruence.
        - unfold in_scope in *. rewrite Al3, Al2 in Hk. destruct Hk as [Hk|Hk].
          + left. split; congruence.
          + right. exact Hk. }
      destruct (Nat.eq_dec k m_objective_id) as [->|Ne].
      * assert (Sc0 : in_scope all (objective s) = true).
        { destruct Sc as [[Sc _]|[_ Sc]]; trivial. apply in_scope_alive. exact Sc. }
        assert (E0 : objective s2 = objective s) by exact R0.
        assert (Eg : get_coefficient s2 b (m_id v) = a)
          by (unfold a, get_coefficient; rewrite Rb; reflexivity).
        pose proof (fold_objective_cancel all s2 b O2) as K. cbv zeta in K.
        rewrite E0 in K. fold v in K. rewrite Eg in K.
        apply K; trivial. rewrite Ev. discriminate.
      * rewrite F3; trivial. apply X2; trivial.
        -- destruct Sc as [[_ Sc]|[Sc _]]; congruence.
        -- rewrite Al2. destruct Sc as [[Sc _]|[Sc _]]; congruence.
  - simpl. rewrite V3. exact V2.
  - exact Ab.
  - intros k. rewrite kill_alive, Al3, Al2. reflexivity.
Qed.

(** ** [update_values] *)

Lemma same_shape_refl (r : row) : same_shape r r.
Proof. unfold same_shape. tauto. Qed.

Lemma same_shape_trans (r1 r2 r3 : row) :
  same_shape r1 r2 -> same_shape r2 r3 -> same_shape r1 r3.
Proof. unfold same_shape. intuition congruence. Qed.

Lemma same_shape_set_value (r : row) (v : Qc) : same_shape r (set_value r v).
Proof. unfold same_shape. simpl. tauto. Qed.

Lemma row_value_shape (vals : list Qc) (r r' : row) :
  same_shape r r' -> row_value vals r' = row_value vals r.
Proof.
  intros [E1 [E2 _]]. rewrite !row_value_dot, E1, E2. reflexivity.
Qed.

Lemma row_value_agree (done : list nat) (vals vals' : list Qc) (r : row) :
  agree_off done vals vals' ->
  (forall y, In y done -> ~ In y (ids (m_vars r))) ->
  row_value vals r = row_value vals' r.
Proof.
  intros A H. rewrite !row_value_dot. f_equal. apply dot_agree.
  intros x Hx. apply A. intros K. apply (H x K Hx).
Qed.

Lemma agree_off_upd (done : list nat) (vals vals' : list Qc) (x : nat) (v : Qc) :
  In x done -> agree_off done vals vals' -> agree_off done vals (upd x v vals').
Proof.
  intros Hx A y Hy. rewrite nth_upd.
  destruct (Nat.eqb_spec x y) as [->|Ne]; [contradiction|]. apply A. exact Hy.
Qed.

(** The first loop changes the values of the trail variables and the
    cached values of the bound rows, nothing else. *)
Record fixed (done : list nat) (s0 s1 : model_based_opt) : Prop := {
  fx_shape : forall k, same_shape (get_row s0 k) (get_row s1 k);
  fx_index : m_var2row_ids s1 = m_var2row_ids s0;
  fx_vals_length : length (m_var2value s1) = length (m_var2value s0);
  fx_rows_length : length (m_rows s1) = length (m_rows s0);
  fx_agree : agree_off done (m_var2value s0) (m_var2value s1);
  fx_value : forall k, fresh s0 k ->
      exists m, agree_off done (m_var2value s0) m
                /\ m_value (get_row s1 k) = row_value m (get_row s1 k)
}.

Lemma fixed_refl (done : list nat) (s : model_based_opt) : fixed done s s.
Proof.
  constructor; trivial.
  - intros k. apply same_shape_refl.
  - intros y _. reflexivity.
  - intros k F. exists (m_var2value s). split; [intros y _; reflexivity|exact F].
Qed.

Lemma fix_value_fixed (done : list nat) (s0 s1 : model_based_opt) (x row_id : nat) :
  In x done -> fixed done s0 s1 -> fixed done s0 (fix_value s1 (x, row_id)).
Proof.
  intros Hx [F1 F2 F3 F4 F5 F6]. unfold fix_value.
  set (r := get_row s1 row_id).
  set (vals := upd x (new_value (m_var2value s1) x r) (m_var2value s1)).
  assert (A : agree_off done (m_var2value s0) vals)
    by (apply agree_off_upd; trivial).
  constructor; simpl.
  - intros k. rewrite get_row_upd.
    destruct ((row_id =? k) && (row_id <? length (m_rows s1))) eqn:C; trivial.
    apply andb_true_iff in C. destruct C as [C _]. apply Nat.eqb_eq in C. subst k.
    eapply same_shape_trans; [apply F1|]. apply same_shape_set_value.
  - exact F2.
  - unfold vals. rewrite upd_length. exact F3.
  - rewrite upd_length. exact F4.
  - exact A.
  - intros k Fk. rewrite get_row_upd.
    destruct ((row_id =? k) && (row_id <? length (m_rows s1))) eqn:C.
    + exists vals. split; trivial.
    + apply F6. exact Fk.
Qed.

Lemma fix_values_fixed (done : list nat) (l : list (nat * nat))
    (s0 s1 : model_based_opt) :
  (forall p, In p l -> In (fst p) done) ->
  fixed done s0 s1 -> fixed done s0 (fold_left fix_value l s1).
Proof.
  revert s1. induction l as [|[x r] l IH]; intros s1 H F; simpl; trivial.
  apply IH.
  - intros p Hp. apply H. right. exact Hp.
  - apply fix_value_fixed; trivial. apply (H (x, r)). left. reflexivity.
Qed.

(** The second loop only recomputes cached values. *)
Record recomputed (s1 s2 : model_based_opt) : Prop := {
  rc_shape : forall k, same_shape (get_row s1 k) (get_row s2 k);
  rc_index : m_var2row_ids s2 = m_var2row_ids s1;
  rc_vals : m_var2value s2 = m_var2value s1;
  rc_rows_length : length (m_rows s2) = length (m_rows s1);
  rc_fresh : forall k, fresh s1 k -> fresh s2 k;
  rc_value : forall k, fresh s2 k
                       \/ m_value (get_row s2 k) = m_value (get_row s1 k)
}.

Lemma recomputed_refl (s : model_based_opt) : recomputed s s.
Proof.
  constructor; trivial.
  - intros k. apply same_shape_refl.
  - intros k. right. reflexivity.
Qed.

Lemma fresh_default (s : model_based_opt) (k : nat) :
  (length (m_rows s) <= k)%nat -> fresh s k.
Proof. intros L. unfold fresh. rewrite (get_row_out _ _ L). reflexivity. Qed.

Lemma recompute_step (s1 s2 : model_based_opt) (i : nat) :
  recomputed s1 s2 ->
  recomputed s1 (recompute s2 i) /\ fresh (recompute s2 i) i.
Proof.
  intros [R1 R2 R3 R4 R5 R6]. unfold recompute.
  assert (G : forall k,
    get_row (mk_opt (upd i (set_value (get_row s2 i) (get_row_value s2 (get_row s2 i)))
                         (m_rows s2)) (m_var2row_ids s2) (m_var2value s2)) k =
    if (i =? k) && (i <? length (m_rows s2))
    then set_value (get_row s2 i) (get_row_value s2 (get_row s2 i))
    else get_row s2 k) by (intros k; apply get_row_upd).
  assert (Fr : forall k, (i =? k) && (i <? length (m_rows s2)) = true ->
    fresh (mk_opt (upd i (set_value (get_row s2 i) (get_row_value s2 (get_row s2 i)))
                       (m_rows s2)) (m_var2row_ids s2) (m_var2value s2)) k).
  { intros k C. unfold fresh. rewrite G, C. unfold get_row_value. simpl.
    symmetry. apply row_value_shape. apply same_shape_set_value. }
  split.
  - constructor; simpl; trivial.
    + intros k. rewrite G.
      destruct ((i =? k) && (i <? length (m_rows s2))) eqn:C; trivial.
      apply andb_true_iff in C. destruct C as [C _]. apply Nat.eqb_eq in C. subst k.
      eapply same_shape_trans; [apply R1|]. apply same_shape_set_value.
    + rewrite upd_length. exact R4.
    + intros k Fk.
      destruct ((i =? k) && (i <? length (m_rows s2))) eqn:C; [apply Fr; exact C|].
      unfold fresh. rewrite G, C. apply (R5 k Fk).
    + intros k.
      destruct ((i =? k) && (i <? length (m_rows s2))) eqn:C; [left; apply Fr; exact C|].
      destruct (R6 k) as [K|K].
      * left. unfold fresh. rewrite G, C. exact K.
      * right. rewrite G, C. exact K.
  - destruct ((i =? i) && (i <? length (m_rows s2))) eqn:C; [apply Fr; exact C|].
    rewrite Nat.eqb_refl in C. simpl in C. apply Nat.ltb_ge in C.
    unfold fresh. rewrite G. rewrite Nat.eqb_refl. simpl.
    destruct (i <? length (m_rows s2)) eqn:D; [apply Nat.ltb_lt in D; lia|].
    apply (fresh_default s2). exact C.
Qed.

Lemma recompute_list_rec (l : list nat) (s1 s2 : model_based_opt) :
  recomputed s1 s2 -> recomputed s1 (fold_left recompute l s2).
Proof.
  revert s2. induction l as [|i l IH]; intros s2 R; simpl; trivial.
  apply IH. apply recompute_step. exact R.
Qed.

Lemma recompute_list (s1 s2 : model_based_opt) (l : list nat) :
  recomputed s1 s2 ->
  recomputed s1 (fold_left recompute l s2)
  /\ (forall k, In k l -> fresh (fold_left recompute l s2) k).
Proof.
  intros R. split; [apply recompute_list_rec; exact R|].
  revert s2 R. induction l as [|i l IH]; intros s2 R k Hk; simpl; [destruct Hk|].
  destruct (recompute_step s1 s2 i R) as [R' F'].
  destruct Hk as [<-|Hk]; [|apply IH; trivial].
  assert (T : recomputed (recompute s2 i) (fold_left recompute l (recompute s2 i)))
    by (apply recompute_list_rec, recomputed_refl).
  apply (rc_fresh _ _ T). exact F'.
Qed.

Lemma recomputed_trans (s1 s2 s3 : model_based_opt) :
  recomputed s1 s2 -> recomputed s2 s3 -> recomputed s1 s3.
Proof.
  intros [A1 A2 A3 A4 A5 A6] [B1 B2 B3 B4 B5 B6]. constructor.
  - intros k. eapply same_shape_trans; [apply A1|apply B1].
  - congruence.
  - congruence.
  - congruence.
  - auto.
  - intros k. destruct (B6 k) as [K|K]; [left; exact K|].
    destruct (A6 k) as [K'|K'].
    + left. apply B5. exact K'.
    + right. congruence.
Qed.

Lemma recompute_vars (s1 : model_based_opt) (xs : list nat) :
  recomputed s1 (fold_left recompute_var xs s1)
  /\ (forall x k, In x xs -> In k (row_ids_of s1 x) ->
                  fresh (fold_left recompute_var xs s1) k).
Proof.
  assert (G : forall s2, recomputed s1 s2 ->
    recomputed s1 (fold_left recompute_var xs s2)
    /\ (forall x k, In x xs -> In k (row_ids_of s1 x) ->
                    fresh (fold_left recompute_var xs s2) k)).
  { induction xs as [|x xs IH]; intros s2 R; simpl.
    - split; trivial. intros x k [].
    - unfold recompute_var at 2 4.
      destruct (recompute_list s1 s2 (row_ids_of s2 x) R) as [R' F'].
      destruct (IH _ R') as [R'' F'']. split; trivial.
      intros y k [<-|Hy] Hk; [|apply (F'' y k); trivial].
      assert (T : recomputed (fold_left recompute (row_ids_of s2 x) s2)
                    (fold_left recompute_var xs
                       (fold_left recompute (row_ids_of s2 x) s2))).
      { clear. generalize (fold_left recompute (row_ids_of s2 x) s2) as t.
        induction xs as [|y ys IHy]; intros t; simpl; [apply recomputed_refl|].
        eapply recomputed_trans; [|apply IHy].
        apply recompute_list. apply recomputed_refl. }
      apply (rc_fresh _ _ T). apply F'.
      unfold row_ids_of in *. rewrite (rc_index _ _ R). exact Hk. }
  apply G. apply recomputed_refl.
Qed.

Lemma map_fst_combine (l1 l2 : list nat) :
  map fst (combine l1 l2) = firstn (length l2) l1.
Proof.
  revert l2. induction l1 as [|a l1 IH]; intros [|b l2]; simpl; trivial.
  f_equal. apply IH.
Qed.

Lemma meet_dec (l1 l2 : list nat) :
  (exists y, In y l1 /\ In y l2) \/ (forall y, In y l1 -> ~ In y l2).
Proof.
  induction l1 as [|a l1 IH].
  - right. intros y [].
  - destruct (in_dec Nat.eq_dec a l2) as [K|K].
    + left. exists a. split; [left; reflexivity|exact K].
    + destruct IH as [[y [H1 H2]]|H].
      * left. exists y. split; [right; exact H1|exact H2].
      * right. intros y [<-|Hy]; auto.
Qed.

Lemma agree_off_trans (done : list nat) (m1 m2 m3 : list Qc) :
  agree_off done m1 m2 -> agree_off done m2 m3 -> agree_off done m1 m3.
Proof. intros A B y Hy. rewrite (A y Hy). apply B. exact Hy. Qed.

Lemma agree_off_sym (done : list nat) (m1 m2 : list Qc) :
  agree_off done m1 m2 -> agree_off done m2 m1.
Proof. intros A y Hy. symmetry. apply A. exact Hy. Qed.

Lemma satisfied_ext (r r' : row) :
  m_type r' = m_type r -> m_value r' = m_value r -> satisfied r' = satisfied r.
Proof. unfold satisfied. intros -> ->. reflexivity. Qed.

(** Back-substitution keeps the tableau in order: the rows keep their
    shape, and every row whose invariant is asked has its cached value
    right under the new model. *)
Lemma update_values_ok (all : bool) (bound_vars bound_trail : list nat)
    (s : model_based_opt) :
  ok all s ->
  eliminated all s (firstn (length bound_trail) bound_vars) ->
  ok all (update_values bound_vars bound_trail s)
  /\ (forall k, same_shape (get_row s k)
                           (get_row (update_values bound_vars bound_trail s) k)).
Proof.
  intros O E. unfold update_values.
  set (U := firstn (length bound_trail) bound_vars) in *.
  set (s1 := fold_left fix_value (rev (combine bound_vars bound_trail)) s).
  assert (F : fixed U s s1).
  { apply fix_values_fixed; [|apply fixed_refl].
    intros p Hp. apply in_rev in Hp. unfold U. rewrite <- map_fst_combine.
    apply in_map. exact Hp. }
  destruct (recompute_vars s1 (rev U)) as [R Fr].
  set (s2 := fold_left recompute_var (rev U) s1) in *.
  destruct F as [F1 F2 F3 F4 F5 F6]. destruct R as [R1 R2 R3 R4 R5 R6].
  assert (Sh : forall k, same_shape (get_row s k) (get_row s2 k))
    by (intros k; eapply same_shape_trans; [apply F1|apply R1]).
  assert (Ids : forall x, row_ids_of s2 x = row_ids_of s x)
    by (intros x; unfold row_ids_of; rewrite R2, F2; reflexivity).
  assert (A2 : agree_off U (m_var2value s) (m_var2value s2))
    by (rewrite R3; exact F5).
  assert (Fresh : forall k, in_scope all (get_row s k) = true -> fresh s2 k).
  { intros k Sc.
    assert (F0 : fresh s k).
    { pose proof (ok_inv _ _ O k Sc) as I. apply row_invariant_parts in I.
      unfold fresh, get_row_value. tauto. }
    destruct (R6 k) as [K|K]; trivial.
    destruct (meet_dec U (ids (m_vars (get_row s k)))) as [[y [Hy1 Hy2]]|None].
    - destruct (Nat.eq_dec k m_objective_id) as [->|Ne].
      + exfalso. revert Hy2. apply E; trivial. right. split; trivial.
      + apply (Fr y k).
        * apply in_rev. rewrite rev_involutive. exact Hy1.
        * unfold row_ids_of. rewrite F2. apply (wf_index _ (ok_wf _ _ O)); trivial.
    - destruct (F6 k F0) as [m [Am Vm]].
      unfold fresh, get_row_value. rewrite K, Vm.
      rewrite (row_value_shape _ _ _ (F1 k)), (row_value_shape _ _ _ (Sh k)).
      apply (row_value_agree U); trivial.
      eapply agree_off_trans; [apply agree_off_sym; exact Am|exact A2]. }
  split; trivial.
  pose proof (ok_wf _ _ O) as [W1 W2 W3 W4 W5].
  constructor; [constructor|..].
  - rewrite R4, F4. exact W1.
  - rewrite R2, R3, F2, F3. exact W2.
  - intros x i. rewrite Ids, R4, F4. apply W3.
  - intros i y. destruct (Sh i) as [Ev _]. rewrite Ev, R3, F3. apply W4.
  - intros i y. destruct (Sh i) as [Ev _]. rewrite Ev, Ids. apply W5.
  - intros k Sc. destruct (Sh k) as [Ev [Ec [Et Ea]]].
    unfold in_scope in Sc. rewrite Ea in Sc.
    pose proof (ok_inv _ _ O k Sc) as I.
    apply row_invariant_parts in I. apply row_invariant_parts.
    rewrite Ev. repeat split; try tauto.
    apply (Fresh k Sc).
  - intros k Hk Ak. destruct (Sh k) as [Ev [Ec [Et Ea]]]. rewrite Ea in Ak.
    rewrite (satisfied_ext (get_row s k)); trivial; [apply (ok_sat _ _ O); trivial|].
    pose proof (Fresh k (in_scope_alive all _ Ak)) as K.
    unfold fresh, get_row_value in K. rewrite K.
    rewrite (row_value_shape _ _ _ (Sh k)).
    pose proof (ok_inv _ _ O k (in_scope_alive all _ Ak)) as I.
    apply row_invariant_parts in I. destruct I as [_ [_ I]]. rewrite I.
    symmetry. apply (row_value_agree U); trivial.
    intros y Hy. apply E; trivial. left. exact Ak.
Qed.

(** ** Live rows and termination *)

Lemma live_le (l l' : list row) :
  length l' = length l ->
  (forall k, m_alive (nth k l' default_row) = true ->
             m_alive (nth k l default_row) = true) ->
  (length (filter m_alive l') <= length (filter m_alive l))%nat.
Proof.
  revert l'. induction l as [|h t IH]; intros [|h' t'] Hl H; simpl in *; try lia.
  assert (Ht : (length (filter m_alive t') <= length (filter m_alive t))%nat).
  { apply IH; [lia|]. intros k. apply (H (S k)). }
  specialize (H 0%nat). simpl in H.
  destruct (m_alive h'), (m_alive h); simpl;
    first [lia | specialize (H eq_refl); discriminate].
Qed.

Lemma live_lt (l l' : list row) (b : nat) :
  length l' = length l ->
  (forall k, m_alive (nth k l' default_row) = true ->
             m_alive (nth k l default_row) = true) ->
  m_alive (nth b l default_row) = true ->
  m_alive (nth b l' default_row) = false ->
  (length (filter m_alive l') < length (filter m_alive l))%nat.
Proof.
  revert l' b. induction l as [|h t IH]; intros [|h' t'] b Hl H Hb Hb'; simpl in *;
    try lia.
  - destruct b; discriminate.
  - destruct b as [|b].
    + rewrite Hb, Hb'. simpl.
      assert (length (filter m_alive t') <= length (filter m_alive t))%nat; [|lia].
      apply live_le; [lia|]. intros k. apply (H (S k)).
    + assert (Ht : (length (filter m_alive t') < length (filter m_alive t))%nat).
      { apply (IH t' b); trivial; [lia|]. intros k. apply (H (S k)). }
      specialize (H 0%nat). simpl in H.
      destruct (m_alive h'), (m_alive h); simpl;
        first [lia | specialize (H eq_refl); discriminate].
Qed.

Lemma kill_rows_length (b : nat) (s : model_based_opt) :
  length (m_rows (kill b s)) = length (m_rows s).
Proof. unfold kill. simpl. apply upd_length. Qed.

(** A state in which the row [b], alive before, is dead and no row has
    come alive has fewer live rows. *)
Lemma fewer_live (s s' : model_based_opt) (b : nat) :
  length (m_rows s') = length (m_rows s) ->
  (forall k, m_alive (get_row s' k) = true -> m_alive (get_row s k) = true) ->
  m_alive (get_row s b) = true -> m_alive (get_row s' b) = false ->
  (live_rows s' < live_rows s)%nat.
Proof. intros. unfold live_rows. eapply live_lt; eauto. Qed.

(** A round of [maximize] that finds a bound retires a live row. *)
Lemma maximize_step_kills (s s' : model_based_opt) (x b : nat) :
  maximize_step s = Next x b s' ->
  m_alive (get_row s b) = true
  /\ length (m_rows s') = length (m_rows s)
  /\ forall k, m_alive (get_row s' k) =
               if b =? k then false else m_alive (get_row s k).
Proof.
  unfold maximize_step.
  destruct (m_vars (objective s)) as [|v0 rest] eqn:Ev; [discriminate|].
  rewrite <- Ev. set (v := last (m_vars (objective s)) dummy_var).
  destruct (bs_index (find_bound s (m_id v) (is_pos (m_coeff v)))) as [b'|] eqn:Eb;
    [|discriminate].
  intros H. inversion H; subst x b' s'. clear H.
  destruct (find_bound_facts _ _ _ _ Eb) as [_ F].
  destruct (pf_pivot _ _ _ _ _ _ F) as [_ Cb].
  destruct (candidate_parts _ _ _ _ Cb) as [Ab _].
  unfold eliminate. repeat split; trivial.
  - rewrite kill_rows_length, mul_add_rows_length, !resolve_all_rows_length.
    reflexivity.
  - intros k. rewrite kill_alive, mul_add_alive, !resolve_all_alive. reflexivity.
Qed.

Lemma maximize_step_fewer (s s' : model_based_opt) (x b : nat) :
  maximize_step s = Next x b s' -> (live_rows s' < live_rows s)%nat.
Proof.
  intros H. destruct (maximize_step_kills _ _ _ _ H) as [A [L K]].
  apply (fewer_live s s' b); trivial.
  - intros k. rewrite K. destruct (b =? k); [discriminate|trivial].
  - rewrite K, Nat.eqb_refl. reflexivity.
Qed.

(** With more fuel than live rows the loop of [maximize] ends. *)
Lemma maximize_loop_total (fuel : nat) (s : model_based_opt)
    (bound_vars bound_trail : list nat) :
  (live_rows s < fuel)%nat ->
  exists r, maximize_loop fuel s bound_vars bound_trail = Some r.
Proof.
  revert s bound_vars bound_trail.
  induction fuel as [|fuel IH]; intros s vs ts H; [lia|].
  simpl. destruct (maximize_step s) as [| |x b s'] eqn:E; eauto.
  apply IH. pose proof (maximize_step_fewer _ _ _ _ E). lia.
Qed.

Lemma rounds_fewer (n : nat) (s sk : model_based_opt) (vs ts vk tk : list nat) :
  rounds n s vs ts = Some (sk, vk, tk) -> (live_rows sk + n <= live_rows s)%nat.
Proof.
  revert s vs ts. induction n as [|n IH]; intros s vs ts H; simpl in H.
  - inversion H; subst. lia.
  - destruct (maximize_step s) as [| |x b s'] eqn:E; try discriminate.
    apply IH in H. pose proof (maximize_step_fewer _ _ _ _ E). lia.
Qed.

Lemma rounds_loop (n fuel : nat) (s sk : model_based_opt) (vs ts vk tk : list nat) :
  rounds n s vs ts = Some (sk, vk, tk) ->
  maximize_loop (n + fuel) s vs ts = maximize_loop fuel sk vk tk.
Proof.
  revert s vs ts. induction n as [|n IH]; intros s vs ts H; simpl in H.
  - inversion H; subst. reflexivity.
  - destruct (maximize_step s) as [| |x b s'] eqn:E; try discriminate.
    simpl. rewrite E. apply IH. exact H.
Qed.

(** The rounds keep the tableau in order and the model as it was. *)
Lemma rounds_ok (all : bool) (n : nat) (s sk : model_based_opt)
    (vs ts vk tk : list nat) :
  ok all s -> eliminated all s vs -> length vs = length ts ->
  rounds n s vs ts = Some (sk, vk, tk) ->
  ok all sk /\ eliminated all sk vk /\ length vk = length tk
  /\ m_var2value sk = m_var2value s.
Proof.
  revert s vs ts. induction n as [|n IH]; intros s vs ts O E L H; cbn [rounds] in H.
  - inversion H; subst. auto.
  - destruct (maximize_step s) as [| |x b s'] eqn:St; try discriminate.
    destruct (maximize_step_next all s s' x b vs O E St) as [O' [E' [V' _]]].
    assert (L' : length (vs ++ [x]) = length (ts ++ [b]))
      by (rewrite !length_app; simpl; lia).
    destruct (IH s' _ _ O' E' L' H) as [Ok [Ek [Lk Vk]]].
    split; [exact Ok|]. split; [exact Ek|]. split; [exact Lk|].
    rewrite Vk. exact V'.
Qed.

(** Every run of the loop is some rounds followed by the end of the loop. *)
Lemma maximize_loop_rounds (fuel : nat) (s : model_based_opt) (vs ts : list nat)
    (r : inf_eps) (s' : model_based_opt) :
  maximize_loop fuel s vs ts = Some (r, s') ->
  exists n sk vk tk,
    rounds n s vs ts = Some (sk, vk, tk)
    /\ s' = update_values vk tk sk
    /\ ((maximize_step sk = Done /\ r = result_of s')
        \/ (maximize_step sk = Unbounded /\ r = infinity)).
Proof.
  revert s vs ts. induction fuel as [|fuel IH]; intros s vs ts H; simpl in H;
    [discriminate|].
  destruct (maximize_step s) as [| |x b s1] eqn:St.
  - inversion H; subst. exists 0%nat, s, vs, ts. simpl. tauto.
  - inversion H; subst. exists 0%nat, s, vs, ts. simpl. tauto.
  - destruct (IH _ _ _ H) as [n [sk [vk [tk [R K]]]]].
    exists (S n), sk, vk, tk. simpl. rewrite St. tauto.
Qed.

Lemma firstn_same_length (l1 l2 : list nat) :
  length l1 = length l2 -> firstn (length l2) l1 = l1.
Proof. intros <-. apply firstn_all. Qed.

(** [maximize] keeps the tableau in order. *)
Lemma maximize_ok (all : bool) (s s' : model_based_opt) (r : inf_eps) :
  ok all s -> maximize s = Some (r, s') -> ok all s'.
Proof.
  intros O H. unfold maximize in H.
  destruct (maximize_loop_rounds _ _ _ _ _ _ H) as [n [sk [vk [tk [R [-> _]]]]]].
  assert (E0 : eliminated all s []) by (intros y k []).
  destruct (rounds_ok all n s sk [] [] vk tk O E0 eq_refl R) as [Ok [Ek [Lk _]]].
  apply update_values_ok; trivial. rewrite firstn_same_length; trivial.
Qed.

(** ** The selection loop of [project] *)

Lemma is_lt_true (t : ineq_type) : is_lt t = true <-> t = t_lt.
Proof. destruct t; simpl; split; congruence. Qed.

Lemma is_eq_true (t : ineq_type) : is_eq t = true <-> t = t_eq.
Proof. destruct t; simpl; split; congruence. Qed.

Lemma side_step (s : model_based_opt) (x : nat) (pos : bool) (rows : list nat)
    (index : option nat) (val : Qc) (strict : bool) (r : nat) :
  side_inv s x pos rows index val strict -> ~ In r rows ->
  let value := bound_value s x r in
  let better := if pos then rat_lt value val else rat_lt val value in
  if is_nil rows || better
     || (rat_eq value val && is_lt (m_type (get_row s r)) && negb strict)
  then side_inv s x pos (rows ++ [r]) (Some r) value
                (is_lt (m_type (get_row s r)))
  else side_inv s x pos (rows ++ [r]) index val strict.
Proof.
  intros [Nd I] Fresh value better.
  assert (Nd' : NoDup (rows ++ [r])) by (apply NoDup_snoc; trivial).
  destruct (is_nil rows || better
            || (rat_eq value val && is_lt (m_type (get_row s r)) && negb strict))
    eqn:Cond.
  - (* the row becomes the representative *)
    split; trivial. split; [apply in_app_iff; right; left; reflexivity|].
    split; trivial. split; trivial.
    intros i Hi. apply in_app_iff in Hi. destruct Hi as [Hi|[<-|[]]];
      [|split; [apply tighter_refl | intros _ K; exact K]].
    destruct index as [l|]; [|subst rows; destruct Hi].
    destruct I as [Hl [Ev [Es Ht]]]. destruct (Ht i Hi) as [T1 T2].
    assert (Nn : is_nil rows = false) by (destruct rows; [destruct Hi|reflexivity]).
    rewrite Nn in Cond. simpl in Cond.
    apply orb_true_iff in Cond. destruct Cond as [B|B].
    + (* strictly better than the old representative *)
      assert (Lt' : if pos then value < val else val < value)
        by (unfold better in B; destruct pos; apply rat_lt_true; exact B).
      subst val. unfold tighter, strict_kept in *. fold value.
      destruct pos; split.
      * apply Qclt_le_weak. eapply Qclt_le_trans; eauto.
      * intros E. exfalso. rewrite E in T1. apply (Qcle_not_lt _ _ T1 Lt').
      * apply Qclt_le_weak. eapply Qcle_lt_trans; eauto.
      * intros E. exfalso. rewrite E in T1. apply (Qcle_not_lt _ _ T1 Lt').
    + (* a strict row on a tie *)
      apply andb_true_iff in B. destruct B as [B _].
      apply andb_true_iff in B. destruct B as [B1 B2].
      apply rat_eq_true in B1. apply is_lt_true in B2.
      subst val. unfold tighter, strict_kept in *. fold value. rewrite B1.
      split; trivial.
  - (* the representative stays *)
    apply orb_false_iff in Cond. destruct Cond as [Cond C3].
    apply orb_false_iff in Cond. destruct Cond as [C1 C2].
    destruct index as [l|]; [|subst rows; discriminate].
    destruct I as [Hl [Ev [Es Ht]]].
    split; trivial. split; [apply in_app_iff; left; exact Hl|].
    split; trivial. split; trivial.
    intros i Hi. apply in_app_iff in Hi. destruct Hi as [Hi|[<-|[]]]; [apply Ht; exact Hi|].
    subst val. unfold tighter, strict_kept. fold value. split.
    + unfold better in C2. destruct pos; apply rat_lt_false; exact C2.
    + intros E Lt'. rewrite E, Lt' in C3.
      assert (K : rat_eq (bound_value s x l) (bound_value s x l) = true)
        by (apply rat_eq_true; reflexivity).
      rewrite K in C3. simpl in C3. apply negb_false_iff in C3.
      subst strict. apply is_lt_true. exact C3.
Qed.

(** The state of the selection loop after the row ids [done], none of
    which was a live equality. *)
Record sel_inv (s : model_based_opt) (x : nat) (done : list nat)
    (st : selection) : Prop := {
  si_visited : forall i, In i (sel_visited st) <-> In i done;
  si_lub : forall i, In i (lub_rows st)
                     <-> In i done /\ live_on s x i = true
                         /\ is_pos (get_coefficient s i x) = true;
  si_glb : forall i, In i (glb_rows st)
                     <-> In i done /\ live_on s x i = true
                         /\ is_pos (get_coefficient s i x) = false;
  si_no_eq : forall i, In i done -> live_equality s x i = false;
  si_lub_side : side_inv s x true (lub_rows st) (lub_index st) (lub_val st)
                         (lub_strict st);
  si_glb_side : side_inv s x false (glb_rows st) (glb_index st) (glb_val st)
                         (glb_strict st)
}.

Lemma sel_inv_init (s : model_based_opt) (x : nat) : sel_inv s x [] sel_init.
Proof.
  constructor; simpl; try (intros i; split; intros H; tauto).
  - intros i [].
  - split; [constructor|reflexivity].
  - split; [constructor|reflexivity].
Qed.

Lemma sel_inv_skip (s : model_based_opt) (x : nat) (done : list nat)
    (st : selection) (r : nat) :
  sel_inv s x done st -> live_on s x r = false ->
  sel_inv s x (done ++ [r])
    (mk_sel (r :: sel_visited st) (lub_rows st) (glb_rows st) (lub_index st)
            (glb_index st) (lub_strict st) (glb_strict st) (lub_val st)
            (glb_val st)).
Proof.
  intros [I1 I2 I3 I4 I5 I6] Z. constructor; simpl; trivial.
  - intros i. rewrite in_app_iff, I1. simpl. intuition.
  - intros i. rewrite I2, in_app_iff. simpl. intuition. subst. congruence.
  - intros i. rewrite I3, in_app_iff. simpl. intuition. subst. congruence.
  - intros i Hi. apply in_app_iff in Hi. destruct Hi as [Hi|[<-|[]]]; auto.
    unfold live_equality. rewrite Z. reflexivity.
Qed.

Lemma select_spec (s : model_based_opt) (x : nat) (l done : list nat)
    (st : selection) :
  sel_inv s x done st ->
  match select s x l st with
  | inl e => find (live_equality s x) l = Some e
  | inr st' => find (live_equality s x) l = None /\ sel_inv s x (done ++ l) st'
  end.
Proof.
  revert done st. induction l as [|r l IH]; intros done st I.
  - simpl. rewrite app_nil_r. split; trivial.
  - replace (done ++ r :: l) with ((done ++ [r]) ++ l)
      by (rewrite <- app_assoc; reflexivity).
    cbn [select find].
    destruct (contains (sel_visited st) r) eqn:V.
    { apply contains_In in V. apply (si_visited _ _ _ _ I) in V.
      rewrite (si_no_eq _ _ _ _ I r V). apply (IH (done ++ [r])).
      destruct I as [I1 I2 I3 I4 I5 I6]. constructor; trivial.
      - intros i. rewrite I1, in_app_iff. simpl. intuition. subst. trivial.
      - intros i. rewrite I2, in_app_iff. simpl. intuition. subst. trivial.
      - intros i. rewrite I3, in_app_iff. simpl. intuition. subst. trivial.
      - intros i Hi. apply in_app_iff in Hi. destruct Hi as [Hi|[<-|[]]]; auto. }
    apply contains_not_In in V.
    assert (Fresh : ~ In r done)
      by (intros K; apply V; apply (si_visited _ _ _ _ I); exact K).
    destruct (m_alive (get_row s r)) eqn:Al; cbn [negb].
    2:{ assert (Lv : live_on s x r = false) by (unfold live_on; rewrite Al; reflexivity).
        assert (Ne : live_equality s x r = false)
          by (unfold live_equality; rewrite Lv; reflexivity).
        rewrite Ne. apply (IH (done ++ [r])), sel_inv_skip; trivial. }
    destruct (is_zero (get_coefficient s r x)) eqn:Z.
    { assert (Lv : live_on s x r = false)
        by (unfold live_on; rewrite Al, Z; reflexivity).
      assert (Ne : live_equality s x r = false)
        by (unfold live_equality; rewrite Lv; reflexivity).
      rewrite Ne. apply (IH (done ++ [r])), sel_inv_skip; trivial. }
    assert (Lv : live_on s x r = true) by (unfold live_on; rewrite Al, Z; reflexivity).
    assert (Le : live_equality s x r = is_eq (m_type (get_row s r)))
      by (unfold live_equality; rewrite Lv; reflexivity).
    rewrite Le.
    destruct (is_eq (m_type (get_row s r))) eqn:Eq; [reflexivity|].
    rename Le into Ne.
    fold (bound_value s x r).
    destruct I as [I1 I2 I3 I4 I5 I6].
    destruct (is_pos (get_coefficient s r x)) eqn:P.
    + (* an upper bound *)
      assert (Nl : ~ In r (lub_rows st)) by (rewrite I2; tauto).
      pose proof (side_step s x true _ _ _ _ r I5 Nl) as Sd. cbv zeta in Sd.
      match goal with |- context [select s x l ?t] => set (st1 := t) end.
      apply (IH (done ++ [r])). unfold st1. clear st1.
      destruct (is_nil (lub_rows st) || _ || _); constructor; simpl; trivial.
      all: try (intros i; rewrite in_app_iff, I1; simpl; intuition).
      all: try (intros i; rewrite !in_app_iff, I2; simpl; intuition; subst; tauto).
      all: try (intros i; rewrite in_app_iff, I3; simpl; intuition; subst; congruence).
      all: intros i Hi; apply in_app_iff in Hi; destruct Hi as [Hi|[<-|[]]]; auto.
    + (* a lower bound *)
      assert (Ng : ~ In r (glb_rows st)) by (rewrite I3; tauto).
      pose proof (side_step s x false _ _ _ _ r I6 Ng) as Sd. cbv zeta in Sd.
      match goal with |- context [select s x l ?t] => set (st1 := t) end.
      apply (IH (done ++ [r])). unfold st1. clear st1.
      destruct (is_nil (glb_rows st) || _ || _); constructor; simpl; trivial.
      all: try (intros i; rewrite in_app_iff, I1; simpl; intuition).
      all: try (intros i; rewrite in_app_iff, I2; simpl; intuition; subst; congruence).
      all: try (intros i; rewrite !in_app_iff, I3; simpl; intuition; subst; tauto).
      all: intros i Hi; apply in_app_iff in Hi; destruct Hi as [Hi|[<-|[]]]; auto.
Qed.

(** ** [solve_for] and [project] *)

Lemma resolved_satisfied_eq (s : model_based_opt) (x e i : nat) (a : Qc) :
  m_type (get_row s e) = t_eq -> satisfied (get_row s e) = true ->
  satisfied (get_row s i) = true ->
  satisfied (resolved s e a i x) = true.
Proof.
  intros Te Se Si. unfold resolved, resolve_row.
  destruct (m_alive (get_row s i)); trivial.
  destruct (is_zero _); trivial.
  apply satisfied_holds. apply satisfied_holds in Si.
  pose proof (satisfied_eq _ Te Se) as V0. simpl. rewrite Te, V0.
  replace (combine_type _ (m_type (get_row s i)) t_eq) with (m_type (get_row s i)).
  - replace (m_value (get_row s i) + _ * 0) with (m_value (get_row s i)) by ring.
    exact Si.
  - unfold combine_type. simpl. rewrite !andb_false_r. reflexivity.
Qed.

Lemma fresh_ids_In (l visited : list nat) (i : nat) :
  In i (fresh_ids visited l) <-> In i l /\ ~ In i visited.
Proof.
  revert visited. induction l as [|r l IH]; intros visited; simpl; [tauto|].
  destruct (contains visited r) eqn:C.
  - apply contains_In in C. rewrite IH. intuition. subst. contradiction.
  - apply contains_not_In in C. simpl. rewrite IH. simpl.
    destruct (Nat.eq_dec r i) as [->|Ne]; intuition.
Qed.

Lemma fresh_ids_NoDup (l visited : list nat) : NoDup (fresh_ids visited l).
Proof.
  revert visited. induction l as [|r l IH]; intros visited; simpl; [constructor|].
  destruct (contains visited r); [apply IH|].
  constructor; [|apply IH]. rewrite fresh_ids_In. simpl. tauto.
Qed.

Lemma solve_for_loop (e x : nat) (a : Qc) (l visited : list nat) (s : model_based_opt) :
  fst (fold_left
         (fun (acc : model_based_opt * list nat) row_id2 =>
            if contains (snd acc) row_id2 then acc
            else (resolve e a row_id2 x (fst acc), row_id2 :: snd acc))
         l (s, visited))
  = resolve_all e a x (fresh_ids visited l) s.
Proof.
  revert s visited. induction l as [|r l IH]; intros s visited; simpl; trivial.
  destruct (contains visited r); simpl; apply IH.
Qed.

Lemma solve_for_unfold (e x : nat) (s : model_based_opt) :
  solve_for e x s =
  kill e (resolve_all e (get_coefficient s e x) x (fresh_ids [e] (row_ids_of s x)) s).
Proof. unfold solve_for. rewrite solve_for_loop. reflexivity. Qed.

Lemma resolve_others_filter (p x : nat) (c : Qc) (rows : list nat) (s : model_based_opt) :
  resolve_others p c x rows s =
  resolve_all p c x (filter (fun i => negb (i =? p)) rows) s.
Proof.
  revert s. induction rows as [|r rows IH]; intros s; simpl; trivial.
  unfold resolve_others in *. simpl.
  destruct (r =? p); simpl; apply IH.
Qed.

Lemma kill_all_get_row (l : list nat) (s : model_based_opt) (k : nat) :
  get_row (kill_all l s) k =
  if contains l k then set_alive (get_row s k) false else get_row s k.
Proof.
  revert s. induction l as [|r l IH]; intros s; simpl; trivial.
  unfold kill_all in *. simpl. rewrite IH, kill_get_row.
  destruct (Nat.eqb_spec k r) as [->|Ne]; simpl.
  - rewrite Nat.eqb_refl. destruct (contains l r); reflexivity.
  - apply not_eq_sym, Nat.eqb_neq in Ne. rewrite Ne. reflexivity.
Qed.

Lemma kill_all_ok (all : bool) (l : list nat) (s : model_based_opt) :
  ok all s -> ok all (kill_all l s).
Proof.
  revert s. induction l as [|r l IH]; intros s O; simpl; trivial.
  unfold kill_all in *. simpl. apply IH. apply kill_ok. exact O.
Qed.

Lemma kill_all_rows_length (l : list nat) (s : model_based_opt) :
  length (m_rows (kill_all l s)) = length (m_rows s).
Proof.
  revert s. induction l as [|r l IH]; intros s; simpl; trivial.
  unfold kill_all in *. simpl. rewrite IH. apply kill_rows_length.
Qed.

Lemma kill_all_vals (l : list nat) (s : model_based_opt) :
  m_var2value (kill_all l s) = m_var2value s.
Proof.
  revert s. induction l as [|r l IH]; intros s; simpl; trivial.
  unfold kill_all in *. simpl. rewrite IH. reflexivity.
Qed.

(** What the selection loop finds when there is no live equality. *)
Lemma select_no_equality (s : model_based_opt) (x : nat) :
  find (live_equality s x) (row_ids_of s x) = None ->
  exists st, select s x (row_ids_of s x) sel_init = inr st
             /\ sel_inv s x (row_ids_of s x) st.
Proof.
  intros H. pose proof (select_spec s x (row_ids_of s x) [] sel_init
                          (sel_inv_init s x)) as K.
  destruct (select s x (row_ids_of s x) sel_init) as [e|st].
  - congruence.
  - exists st. simpl in K. tauto.
Qed.

Lemma select_equality (s : model_based_opt) (x e : nat) :
  find (live_equality s x) (row_ids_of s x) = Some e ->
  select s x (row_ids_of s x) sel_init = inl e.
Proof.
  intros H. pose proof (select_spec s x (row_ids_of s x) [] sel_init
                          (sel_inv_init s x)) as K.
  destruct (select s x (row_ids_of s x) sel_init) as [e'|st].
  - congruence.
  - destruct K as [K _]. congruence.
Qed.

Lemma filter_neq_In (p : nat) (l : list nat) (i : nat) :
  In i (filter (fun i => negb (i =? p)) l) <-> In i l /\ i <> p.
Proof.
  rewrite filter_In, negb_true_iff, Nat.eqb_neq. tauto.
Qed.

(** With a pivot on one side, the rows of both sides but the pivot can be
    resolved against it. *)
Lemma selection_resolvable (all : bool) (s : model_based_opt) (x : nat)
    (st : selection) (p : nat) :
  ok all s -> sel_inv s x (row_ids_of s x) st -> pivot_of st = Some p ->
  resolvable s x p (filter (fun i => negb (i =? p)) (glb_rows st ++ lub_rows st)).
Proof.
  intros O [I1 I2 I3 I4 [Nl Sl] [Ng Sg]] Hp.
  assert (NotEq : forall i, In i (row_ids_of s x) -> live_on s x i = true ->
                            is_eq (m_type (get_row s i)) = false).
  { intros i Hi Li. specialize (I4 i Hi). unfold live_equality in I4.
    rewrite Li in I4. exact I4. }
  assert (Nd : NoDup (filter (fun i => negb (i =? p)) (glb_rows st ++ lub_rows st))).
  { apply NoDup_filter. apply NoDup_app; trivial.
    intros i Hg Hl. apply I3 in Hg. apply I2 in Hl.
    destruct Hg as [_ [_ Hg]], Hl as [_ [_ Hl]]. congruence. }
  assert (Cand : forall pos i, In i (row_ids_of s x) -> live_on s x i = true ->
            candidate s x pos i = Bool.eqb (is_pos (get_coefficient s i x)) pos).
  { intros pos i Hi Li. unfold candidate. rewrite Li, (NotEq i Hi Li).
    simpl. apply orb_false_r. }
  unfold pivot_of in Hp.
  destruct (length (lub_rows st) <=? length (glb_rows st)).
  - (* the pivot is the least upper bound *)
    rewrite Hp in Sl. destruct Sl as [Hl [_ [_ Ht]]].
    apply (pivot_resolvable all s x true p
             (filter (fun i => negb (i =? p)) (lub_rows st)) (glb_rows st)); trivial.
    + assert (Pl := Hl). apply I2 in Pl. destruct Pl as [P1 [P2 P3]].
      constructor.
      * split; trivial. rewrite Cand; trivial. rewrite P3. reflexivity.
      * split.
        -- apply NoDup_app; trivial; [apply NoDup_filter; trivial|].
           intros i Hi Hg. apply filter_neq_In in Hi. destruct Hi as [Hi _].
           apply I2 in Hi. apply I3 in Hg.
           destruct Hg as [_ [_ Hg]], Hi as [_ [_ Hi]]. congruence.
        -- rewrite in_app_iff, filter_neq_In. intros [[_ K]|K]; [congruence|].
           apply I3 in K. destruct K as [_ [_ K]]. congruence.
      * intros i Hi. apply filter_neq_In in Hi. destruct Hi as [Hi _].
        destruct (Ht i Hi) as [T1 T2]. apply I2 in Hi. destruct Hi as [K1 [K2 K3]].
        repeat split; trivial. rewrite Cand; trivial. rewrite K3. reflexivity.
      * intros i Hi. apply I3 in Hi. destruct Hi as [K1 [K2 K3]].
        repeat split; trivial. rewrite Cand; trivial. rewrite K3. reflexivity.
      * intros i Hi Li. destruct (Nat.eq_dec i p) as [E|E]; [left; exact E|right].
        rewrite in_app_iff, filter_neq_In.
        destruct (is_pos (get_coefficient s i x)) eqn:P.
        -- left. split; trivial. apply I2. tauto.
        -- right. apply I3. tauto.
    + intros i. rewrite filter_neq_In, !in_app_iff, filter_neq_In.
      split.
      * intros [[K|K] Ne]; tauto.
      * intros [[K Ne]|K]; [tauto|]. split; [tauto|].
        intros ->. apply I3 in K. apply I2 in Hl. 
        destruct K as [_ [_ K]], Hl as [_ [_ Hl]]. congruence.
  - (* the pivot is the greatest lower bound *)
    rewrite Hp in Sg. destruct Sg as [Hg [_ [_ Ht]]].
    apply (pivot_resolvable all s x false p
             (filter (fun i => negb (i =? p)) (glb_rows st)) (lub_rows st)); trivial.
    + assert (Pg := Hg). apply I3 in Pg. destruct Pg as [P1 [P2 P3]].
      constructor.
      * split; trivial. rewrite Cand; trivial. rewrite P3. reflexivity.
      * split.
        -- apply NoDup_app; trivial; [apply NoDup_filter; trivial|].
           intros i Hi Hl. apply filter_neq_In in Hi. destruct Hi as [Hi _].
           apply I3 in Hi. apply I2 in Hl.
           destruct Hl as [_ [_ Hl]], Hi as [_ [_ Hi]]. congruence.
        -- rewrite in_app_iff, filter_neq_In. intros [[_ K]|K]; [congruence|].
           apply I2 in K. destruct K as [_ [_ K]]. congruence.
      * intros i Hi. apply filter_neq_In in Hi. destruct Hi as [Hi _].
        destruct (Ht i Hi) as [T1 T2]. apply I3 in Hi. destruct Hi as [K1 [K2 K3]].
        repeat split; trivial. rewrite Cand; trivial. rewrite K3. reflexivity.
      * intros i Hi. apply I2 in Hi. destruct Hi as [K1 [K2 K3]].
        repeat split; trivial. rewrite Cand; trivial. rewrite K3. reflexivity.
      * intros i Hi Li. destruct (Nat.eq_dec i p) as [E|E]; [left; exact E|right].
        rewrite in_app_iff, filter_neq_In.
        destruct (is_pos (get_coefficient s i x)) eqn:P.
        -- right. apply I2. tauto.
        -- left. split; trivial. apply I3. tauto.
    + intros i. rewrite filter_neq_In, !in_app_iff, filter_neq_In.
      split.
      * intros [[K|K] Ne]; tauto.
      * intros [[K Ne]|K]; [tauto|]. split; [tauto|].
        intros ->. apply I2 in K. apply I3 in Hg.
        destruct K as [_ [_ K]], Hg as [_ [_ Hg]]. congruence.
Qed.

Lemma equality_resolvable (all : bool) (s : model_based_opt) (x e : nat) :
  ok all s -> find (live_equality s x) (row_ids_of s x) = Some e ->
  resolvable s x e (fresh_ids [e] (row_ids_of s x)).
Proof.
  intros O H. apply find_some in H. destruct H as [He Le].
  unfold live_equality in Le. apply andb_true_iff in Le. destruct Le as [Le Te].
  apply is_eq_true in Te. destruct (live_on_parts _ _ _ Le) as [Ae _].
  pose proof (wf_range _ (ok_wf _ _ O) _ _ He) as [Epos _].
  assert (Se : satisfied (get_row s e) = true)
    by (apply (ok_sat _ _ O); trivial; unfold m_objective_id; lia).
  constructor.
  - split; trivial.
  - split; [apply fresh_ids_NoDup|]. rewrite fresh_ids_In. simpl. tauto.
  - intros i Hi. apply fresh_ids_In in Hi. destruct Hi as [Hi _]. split; trivial.
    intros Ai. pose proof (wf_range _ (ok_wf _ _ O) _ _ Hi) as [Ipos _].
    apply resolved_satisfied_eq; trivial.
    apply (ok_sat _ _ O); trivial. unfold m_objective_id. lia.
  - intros i Hi Li. destruct (Nat.eq_dec i e) as [E|E]; [left; exact E|right].
    apply fresh_ids_In. simpl. split; trivial. intros [K|[]]. congruence.
Qed.

(** Resolution against a pivot followed by its retirement. *)
Lemma pivot_phase (all : bool) (s : model_based_opt) (x p : nat) (l : list nat) :
  ok all s -> resolvable s x p l ->
  let s' := kill p (resolve_all p (get_coefficient s p x) x l s) in
  ok all s'
  /\ (forall k, k <> m_objective_id -> m_alive (get_row s' k) = true ->
                ~ In x (ids (m_vars (get_row s' k))))
  /\ get_row s' m_objective_id = get_row s m_objective_id
  /\ m_var2value s' = m_var2value s
  /\ (forall k, m_alive (get_row s' k) =
                if p =? k then false else m_alive (get_row s k))
  /\ (forall k, get_row s' k =
                if p =? k then set_alive (get_row s p) false
                else if contains l k then resolved s p (get_coefficient s p x) k x
                else get_row s k).
Proof.
  intros O Rs. cbv zeta.
  assert (E0 : eliminated all s []) by (intros y k []).
  destruct (resolve_phase all s x p l [] O E0 Rs) as [O2 [_ [R [Al [V X]]]]].
  destruct Rs as [[Pp Lp] [Nl Npl] Pr Pall].
  pose proof (wf_range _ (ok_wf _ _ O) _ _ Pp) as [Ppos _].
  assert (N0 : contains l m_objective_id = false).
  { apply contains_not_In. intros K. destruct (Pr _ K) as [K' _].
    apply (wf_range _ (ok_wf _ _ O)) in K'. unfold m_objective_id in K'. lia. }
  split; [apply kill_ok; exact O2|].
  split; [|split; [|split; [|split]]].
  - intros k Hk Ak. rewrite kill_alive in Ak. rewrite kill_vars.
    destruct (Nat.eqb_spec p k) as [->|Ne]; [discriminate|].
    apply X; trivial. congruence.
  - rewrite kill_get_row.
    destruct (Nat.eqb_spec p m_objective_id) as [E|_];
      [unfold m_objective_id in E; lia|].
    rewrite R, N0. reflexivity.
  - exact V.
  - intros k. rewrite kill_alive, Al. reflexivity.
  - intros k. rewrite kill_get_row.
    destruct (Nat.eqb_spec p k) as [->|Ne]; [|apply R].
    rewrite R. apply contains_not_In in Npl. rewrite Npl. reflexivity.
Qed.

(** [project] keeps the tableau in order, removes [x] from every live
    constraint row, and leaves the objective and the model alone. *)
Lemma project_ok (all : bool) (x : nat) (s : model_based_opt) :
  ok all s ->
  ok all (project x s)
  /\ (forall k, k <> m_objective_id -> m_alive (get_row (project x s) k) = true ->
                ~ In x (ids (m_vars (get_row (project x s) k))))
  /\ get_row (project x s) m_objective_id = get_row s m_objective_id
  /\ m_var2value (project x s) = m_var2value s.
Proof.
  intros O. unfold project.
  destruct (find (live_equality s x) (row_ids_of s x)) as [e|] eqn:F.
  - rewrite (select_equality _ _ _ F), solve_for_unfold.
    destruct (pivot_phase all s x e _ O (equality_resolvable all s x e O F))
      as [A [B [C [D _]]]].
    auto.
  - destruct (select_no_equality _ _ F) as [st [Es I]]. rewrite Es.
    destruct (pivot_of st) as [p|] eqn:Hp.
    + rewrite resolve_others_filter.
      destruct (pivot_phase all s x p _ O (selection_resolvable all s x st p O I Hp))
        as [A [B [C [D _]]]].
      auto.
    + set (l := glb_rows st ++ lub_rows st).
      assert (In_l : forall i, In i l -> In i (row_ids_of s x)).
      { intros i Hi. unfold l in Hi. apply in_app_iff in Hi.
        destruct Hi as [Hi|Hi].
        - apply (si_glb _ _ _ _ I) in Hi. tauto.
        - apply (si_lub _ _ _ _ I) in Hi. tauto. }
      split; [apply kill_all_ok; exact O|].
      split; [|split]; trivial.
      * intros k Hk Ak Hin. rewrite kill_all_get_row in *.
        destruct (contains l k) eqn:C; [discriminate|].
        destruct (mentions_live_on all s k x O Hk Ak Hin) as [K1 K2].
        apply contains_not_In in C. apply C. unfold l. apply in_app_iff.
        destruct (is_pos (get_coefficient s k x)) eqn:P.
        -- right. apply (si_lub _ _ _ _ I). tauto.
        -- left. apply (si_glb _ _ _ _ I). tauto.
      * rewrite kill_all_get_row.
        destruct (contains l m_objective_id) eqn:C; trivial.
        apply contains_In, In_l in C.
        apply (wf_range _ (ok_wf _ _ O)) in C. unfold m_objective_id in C. lia.
      * apply kill_all_vals.
Qed.

Lemma project_vars_ok (all : bool) (vars : list nat) (s : model_based_opt) :
  ok all s -> ok all (project_vars vars s).
Proof.
  revert s. induction vars as [|x vars IH]; intros s O; simpl; trivial.
  unfold project_vars in *. simpl. apply IH. apply project_ok. exact O.
Qed.

(** ** Building the tableau *)

Lemma distinct_NoDup (l : list nat) : distinct l = true <-> NoDup l.
Proof.
  induction l as [|x l IH]; simpl.
  - split; [constructor|reflexivity].
  - rewrite andb_true_iff, negb_true_iff, contains_not_In, IH. split.
    + intros [A B]. constructor; trivial.
    + intros H. inversion H; subst. tauto.
Qed.

Lemma insert_var_ids (v : var) (l : list var) (y : nat) :
  In y (ids (insert_var v l)) <-> y = m_id v \/ In y (ids l).
Proof.
  induction l as [|h t IH]; simpl.
  - intuition.
  - destruct (m_id v <? m_id h); simpl; [intuition|]. rewrite IH. intuition.
Qed.

Lemma insert_var_lower (k : nat) (v : var) (l : list var) :
  Forall (fun w => (k < m_id w)%nat) l -> (k < m_id v)%nat ->
  Forall (fun w => (k < m_id w)%nat) (insert_var v l).
Proof.
  induction l as [|h t IH]; intros F Hv; simpl.
  - constructor; trivial.
  - inversion F; subst. destruct (m_id v <? m_id h); constructor; auto.
Qed.

Lemma insert_var_sorted (v : var) (l : list var) :
  sorted_ids l = true -> ~ In (m_id v) (ids l) ->
  sorted_ids (insert_var v l) = true.
Proof.
  induction l as [|h t IH]; intros Hs Hn; [reflexivity|].
  destruct (sorted_ids_cons _ _ Hs) as [St Ft]. cbn [insert_var].
  destruct (Nat.ltb_spec (m_id v) (m_id h)) as [L|L].
  - apply sorted_ids_intro; trivial. constructor; trivial.
    eapply Forall_impl; [|exact Ft]. simpl. intros; lia.
  - assert (m_id h <> m_id v) by (intros E; apply Hn; left; exact E).
    apply sorted_ids_intro.
    + apply IH; trivial. intros K. apply Hn. right. exact K.
    + apply insert_var_lower; trivial. lia.
Qed.

Lemma insert_var_nonzero (v : var) (l : list var) :
  nonzero_coeffs (insert_var v l) = negb (is_zero (m_coeff v)) && nonzero_coeffs l.
Proof.
  induction l as [|h t IH]; simpl; trivial.
  destruct (m_id v <? m_id h); simpl; trivial.
  rewrite IH. destruct (is_zero (m_coeff v)), (is_zero (m_coeff h)); reflexivity.
Qed.

Lemma insert_var_dot (vals : list Qc) (v : var) (l : list var) :
  dot vals (insert_var v l) = m_coeff v * nth (m_id v) vals 0 + dot vals l.
Proof.
  induction l as [|h t IH]; simpl; trivial.
  destruct (m_id v <? m_id h); simpl; trivial. rewrite IH. ring.
Qed.

Lemma sort_vars_ids (l : list var) (y : nat) :
  In y (ids (sort_vars l)) <-> In y (ids l).
Proof.
  induction l as [|v l IH]; simpl; [tauto|].
  rewrite insert_var_ids, IH. intuition.
Qed.

Lemma sort_vars_sorted (l : list var) :
  NoDup (ids l) -> sorted_ids (sort_vars l) = true.
Proof.
  induction l as [|v l IH]; intros H; [reflexivity|].
  simpl in H. inversion H; subst. simpl. apply insert_var_sorted; auto.
  rewrite sort_vars_ids. assumption.
Qed.

Lemma sort_vars_nonzero (l : list var) :
  nonzero_coeffs (sort_vars l) = nonzero_coeffs l.
Proof.
  induction l as [|v l IH]; simpl; trivial.
  rewrite insert_var_nonzero, IH. reflexivity.
Qed.

Lemma sort_vars_dot (vals : list Qc) (l : list var) :
  dot vals (sort_vars l) = dot vals l.
Proof.
  induction l as [|v l IH]; simpl; trivial.
  rewrite insert_var_dot, IH. reflexivity.
Qed.

Lemma set_row_value (vals : list Qc) (coeffs : list var) (c : Qc) :
  fold_left (fun val v => val + nth (m_id v) vals 0 * m_coeff v) coeffs c
  = c + dot vals coeffs.
Proof.
  revert c. induction coeffs as [|v l IH]; intros c; simpl.
  - ring.
  - rewrite IH. ring.
Qed.

Lemma valid_terms_parts (s : model_based_opt) (coeffs : list var) :
  valid_terms s coeffs = true ->
  NoDup (ids coeffs) /\ nonzero_coeffs coeffs = true
  /\ forall y, In y (ids coeffs) -> (y < length (m_var2value s))%nat.
Proof.
  unfold valid_terms. rewrite !andb_true_iff, distinct_NoDup, forallb_forall.
  intros [[A B] C]. repeat split; trivial.
  intros y Hy. unfold ids in Hy. apply in_map_iff in Hy. destruct Hy as [v [<- Hv]].
  apply Nat.ltb_lt. apply C. exact Hv.
Qed.

(** The row that [set_row] writes on an empty row. *)
Lemma new_row_invariant (s : model_based_opt) (coeffs : list var) (c : Qc)
    (rel : ineq_type) :
  valid_terms s coeffs = true ->
  row_invariant (m_var2value s)
    (mk_row (sort_vars coeffs) c rel
       (fold_left (fun val v => val + nth (m_id v) (m_var2value s) 0 * m_coeff v)
                  coeffs c) true) = true.
Proof.
  intros H. destruct (valid_terms_parts _ _ H) as [Nd [Nz _]].
  apply row_invariant_parts. simpl. repeat split.
  - apply sort_vars_sorted. exact Nd.
  - rewrite sort_vars_nonzero. exact Nz.
  - rewrite set_row_value, row_value_dot. simpl. rewrite sort_vars_dot. reflexivity.
Qed.

Lemma satisfied_holds_b (r : row) : satisfied r = holds_b (m_type r) (m_value r).
Proof. reflexivity. Qed.

Lemma nth_app_default (idx : list (list nat)) (x : nat) :
  nth x (idx ++ [[]]) [] = nth x idx [].
Proof.
  destruct (Nat.lt_ge_cases x (length idx)) as [L|L].
  - apply app_nth1. exact L.
  - rewrite app_nth2 by exact L. rewrite (nth_overflow idx) by exact L.
    destruct (x - length idx)%nat as [|[|n]]; reflexivity.
Qed.

Lemma add_var_ok (all : bool) (value : Qc) (s : model_based_opt) :
  ok all s -> ok all (snd (add_var value s)).
Proof.
  intros [[W1 W2 W3 W4 W5] I S]. unfold add_var. simpl.
  assert (G : forall k, get_row (mk_opt (m_rows s) (m_var2row_ids s ++ [[]])
                                        (m_var2value s ++ [value])) k = get_row s k)
    by reflexivity.
  assert (Ids : forall x, row_ids_of (mk_opt (m_rows s) (m_var2row_ids s ++ [[]])
                                             (m_var2value s ++ [value])) x
                          = row_ids_of s x)
    by (intros x; apply nth_app_default).
  constructor; [constructor|..]; simpl.
  - exact W1.
  - rewrite !length_app, W2. reflexivity.
  - intros x i. rewrite Ids. apply W3.
  - intros i y. rewrite G, length_app. intros H. apply W4 in H. lia.
  - intros i y. rewrite G, Ids. apply W5.
  - intros k. rewrite G. intros Sc. specialize (I k Sc).
    apply row_invariant_parts in I. apply row_invariant_parts.
    destruct I as [A [B C]]. repeat split; trivial. rewrite C.
    rewrite !row_value_dot. f_equal. apply dot_agree.
    intros y Hy. symmetry. apply app_nth1. eapply W4. exact Hy.
  - intros k. rewrite G. apply S.
Qed.

Lemma fold_left_ids {B : Type} (f : B -> nat -> B) (coeffs : list var) (b : B) :
  fold_left f (ids coeffs) b = fold_left (fun acc v => f acc (m_id v)) coeffs b.
Proof.
  revert b. induction coeffs as [|v l IH]; intros b; simpl; trivial.
Qed.

Lemma push_ids_In (coeffs : list var) (idx : list (list nat)) (i y j : nat) :
  In j (nth y (fold_left (fun idx v => push_row_id idx (m_id v) i) coeffs idx) []) <->
  In j (nth y idx []) \/ (j = i /\ In y (ids coeffs) /\ (y < length idx)%nat).
Proof.
  rewrite <- (push_all_In (ids coeffs) idx i y j).
  rewrite fold_left_ids. reflexivity.
Qed.

Lemma push_ids_length (coeffs : list var) (idx : list (list nat)) (i : nat) :
  length (fold_left (fun idx v => push_row_id idx (m_id v) i) coeffs idx) = length idx.
Proof.
  rewrite <- (push_all_length (ids coeffs) idx i).
  rewrite fold_left_ids. reflexivity.
Qed.

Lemma upd_app_last {A : Type} (l : list A) (d x : A) :
  upd (length l) x (l ++ [d]) = l ++ [x].
Proof. induction l as [|h t IH]; simpl; [reflexivity|]. rewrite IH. reflexivity. Qed.

Lemma add_constraint_unfold (coeffs : list var) (c : Qc) (rel : ineq_type)
    (s : model_based_opt) :
  add_constraint coeffs c rel s =
  mk_opt (m_rows s ++
            [mk_row (sort_vars coeffs) c rel
               (fold_left (fun val v => val + nth (m_id v) (m_var2value s) 0 * m_coeff v)
                          coeffs c) true])
         (fold_left (fun idx v => push_row_id idx (m_id v) (length (m_rows s)))
                    coeffs (m_var2row_ids s))
         (m_var2value s).
Proof.
  unfold add_constraint, set_row, get_row. simpl.
  rewrite upd_app_last. rewrite app_nth2 by lia. rewrite Nat.sub_diag. reflexivity.
Qed.

Lemma add_constraint_ok (all : bool) (coeffs : list var) (c : Qc) (rel : ineq_type)
    (s : model_based_opt) :
  ok all s -> valid_terms s coeffs = true ->
  holds_b rel (terms_value s coeffs c) = true ->
  ok all (add_constraint coeffs c rel s).
Proof.
  intros [[W1 W2 W3 W4 W5] I S] Hv Hs. rewrite add_constraint_unfold.
  pose proof (new_row_invariant s coeffs c rel Hv) as Inew.
  destruct (valid_terms_parts _ _ Hv) as [Nd [Nz Hr]].
  set (r := mk_row (sort_vars coeffs) c rel _ true) in *.
  set (idx := fold_left _ coeffs (m_var2row_ids s)).
  assert (G : forall k, get_row (mk_opt (m_rows s ++ [r]) idx (m_var2value s)) k =
                        if k =? length (m_rows s) then r else get_row s k).
  { intros k. unfold get_row. simpl.
    destruct (Nat.eqb_spec k (length (m_rows s))) as [->|Ne].
    - rewrite app_nth2 by lia. rewrite Nat.sub_diag. reflexivity.
    - destruct (Nat.lt_ge_cases k (length (m_rows s))) as [L|L].
      + apply app_nth1. exact L.
      + rewrite !nth_overflow; trivial. rewrite length_app. simpl. lia. }
  assert (Ids : forall y j, In j (row_ids_of (mk_opt (m_rows s ++ [r]) idx
                                                     (m_var2value s)) y) <->
            In j (row_ids_of s y)
            \/ (j = length (m_rows s) /\ In y (ids coeffs)
                /\ (y < length (m_var2row_ids s))%nat))
    by (intros y j; apply push_ids_In).
  constructor; [constructor|..]; simpl.
  - rewrite length_app. simpl. lia.
  - unfold idx. rewrite push_ids_length. exact W2.
  - intros x i Hi. apply Ids in Hi. rewrite length_app. simpl.
    destruct Hi as [Hi|[-> _]]; [apply W3 in Hi|]; lia.
  - intros i y. rewrite G.
    destruct (i =? length (m_rows s)); [|apply W4].
    simpl. rewrite sort_vars_ids. apply Hr.
  - intros i y Hi. rewrite G, Ids.
    destruct (Nat.eqb_spec i (length (m_rows s))) as [->|Ne].
    + simpl. rewrite sort_vars_ids. intros Hy. right. repeat split; trivial.
      rewrite W2. apply Hr. exact Hy.
    + intros Hy. left. apply W5; trivial.
  - intros k. rewrite G. destruct (k =? length (m_rows s)); [intros _; exact Inew|].
    apply I.
  - intros k Hk. rewrite G.
    destruct (k =? length (m_rows s)); [|apply S; exact Hk].
    intros _. rewrite satisfied_holds_b. simpl. rewrite set_row_value. exact Hs.
Qed.

Lemma set_objective_ok (all : bool) (coeffs : list var) (c : Qc)
    (s : model_based_opt) :
  ok all s -> m_vars (objective s) = [] -> valid_terms s coeffs = true ->
  ok all (set_objective coeffs c s).
Proof.
  intros [[W1 W2 W3 W4 W5] I S] He Hv. unfold set_objective, set_row.
  fold (objective s). rewrite He. simpl app.
  pose proof (new_row_invariant s coeffs c t_le Hv) as Inew.
  destruct (valid_terms_parts _ _ Hv) as [Nd [Nz Hr]].
  set (r := mk_row (sort_vars coeffs) c t_le _ true) in *.
  assert (G : forall k, get_row (mk_opt (upd m_objective_id r (m_rows s))
                                        (m_var2row_ids s) (m_var2value s)) k =
                        if k =? m_objective_id then r else get_row s k).
  { intros k. rewrite get_row_upd. apply Nat.ltb_lt in W1.
    unfold m_objective_id. rewrite W1, andb_true_r, (Nat.eqb_sym 0 k). reflexivity. }
  constructor; [constructor|..]; cbn [m_rows m_var2row_ids m_var2value].
  - rewrite upd_length. exact W1.
  - exact W2.
  - intros x i Hi. rewrite upd_length. apply (W3 x i Hi).
  - intros i y. rewrite G. destruct (i =? m_objective_id); [|apply W4].
    simpl. rewrite sort_vars_ids. apply Hr.
  - intros i y Hi. rewrite G. apply Nat.eqb_neq in Hi. rewrite Hi.
    apply W5. apply Nat.eqb_neq. exact Hi.
  - intros k. rewrite G. destruct (k =? m_objective_id); [intros _; exact Inew|].
    apply I.
  - intros k Hk. rewrite G. apply Nat.eqb_neq in Hk. rewrite Hk.
    apply S. apply Nat.eqb_neq. exact Hk.
Qed.

(** * Main results *)

(** ** Maximization *)

Lemma this_zero (a : Qc) : this a = 0%Q -> a = 0.
Proof. intros H. apply Qc_is_canon. rewrite H. reflexivity. Qed.

(** C1 (as stated, refuted): on [tableau_lub], whose rows satisfy the
    invariants and whose objective [x] is bounded above by 10, [maximize]
    returns the exact value 0, although the model [y = 10], [x = 10]
    satisfies every constraint and gives the objective the value 10; the
    returned value is not the optimum of the objective over the
    constraints. *)
Lemma maximize_misses_optimum :
  tableau_ok true tableau_lub = true /\ bounded_above tableau_lub /\
  exists r s', maximize tableau_lub = Some (r, s') /\ ~ is_optimum tableau_lub r.
Proof.
  split; [vm_compute; reflexivity|]. split.
  - exists (rat 10). intros vals [_ F].
    pose proof (F 2%nat ltac:(discriminate) eq_refl) as F2.
    pose proof (F 3%nat ltac:(discriminate) eq_refl) as F3.
    unfold objective_at. change (objective tableau_lub) with (get_row tableau_lub 0).
    revert F2 F3.
    change (get_row tableau_lub 0)
      with (mk_row [mk_var 1 (rat 1)] (rat 0) t_le (rat (-2)) true).
    change (get_row tableau_lub 2)
      with (mk_row [mk_var 0 (rat (-1)); mk_var 1 (rat 1)] (rat 0) t_le (rat (-1)) true).
    change (get_row tableau_lub 3)
      with (mk_row [mk_var 0 (rat 1)] (rat (-10)) t_le (rat (-11)) true).
    rewrite !row_value_dot. cbn [holds m_type m_vars m_const dot m_id m_coeff].
    generalize (nth 0 vals 0) as y. generalize (nth 1 vals 0) as x. intros x y.
    unfold Qcle. rewrite !this_plus, !this_mult.
    change (this (rat 0)) with 0%Q. change (this (rat 1)) with 1%Q.
    change (this (rat (-1))) with (-1 # 1)%Q. change (this (rat (-10))) with (-10 # 1)%Q.
    change (this (rat 10)) with (10 # 1)%Q. change (this 0) with 0%Q.
    intros. lra.
  - assert (Obs : observe (maximize tableau_lub) = Some (Some (0%Q, 0%Q)))
      by (vm_compute; reflexivity).
    destruct (maximize tableau_lub) as [[[|v eps] s']|]; try discriminate Obs.
    exists (finite v eps), s'. split; trivial.
    simpl in Obs. injection Obs as Hv He.
    apply this_zero in Hv, He. subst v eps. simpl.
    intros [_ U].
    assert (Fe : feasible tableau_lub [rat 10; rat 10]).
    { split; [reflexivity|]. intros i Hi Al.
      destruct i as [|[|[|[|i]]]]; [elim Hi; reflexivity| | | |].
      - vm_compute. discriminate.
      - vm_compute. discriminate.
      - vm_compute. discriminate.
      - destruct i; discriminate Al. }
    specialize (U _ Fe). revert U. vm_compute. intros U. apply U. reflexivity.
Qed.

Lemma maximize_total (s : model_based_opt) : exists r, maximize s = Some r.
Proof. unfold maximize. apply maximize_loop_total. lia. Qed.

Lemma step_done_vars (s : model_based_opt) :
  maximize_step s = Done -> m_vars (objective s) = [].
Proof.
  unfold maximize_step. destruct (m_vars (objective s)); trivial.
  destruct (bs_index _); discriminate.
Qed.

Lemma step_unbounded (s : model_based_opt) :
  m_vars (objective s) <> [] ->
  (forall i, In i (row_ids_of s (m_id (last (m_vars (objective s)) dummy_var))) ->
     candidate s (m_id (last (m_vars (objective s)) dummy_var))
               (is_pos (m_coeff (last (m_vars (objective s)) dummy_var))) i = false) ->
  maximize_step s = Unbounded.
Proof.
  intros Hne Hc. unfold maximize_step.
  destruct (m_vars (objective s)) as [|v0 rest] eqn:Ev; [congruence|].
  rewrite <- Ev in *.
  destruct (bs_index _) as [b|] eqn:Eb; trivial.
  destruct (find_bound_facts _ _ _ _ Eb) as [_ F].
  destruct (pf_pivot _ _ _ _ _ _ F) as [Pb Cb].
  rewrite (Hc b Pb) in Cb. discriminate.
Qed.

(** C3 (defect of the code): on the path that returns positive infinity,
    [update_values] over the partial trail can leave a model that breaks a
    constraint of the call.  [tableau_strict_unbounded] meets the
    invariants, and its model satisfies its constraints.  [maximize]
    eliminates [w] (id 2) against the strict row 1, [u - w < 0], then [u]
    (id 1) against row 2; the variable left at the back of the objective,
    [z] (id 0), is listed for no row, so no row bounds it, and [maximize]
    returns positive infinity after [update_values] over the trail of the
    two rounds.  Back-substitution fixes [u = 1] first; for [w] the value
    computed from row 1 is 1, the value [w] already has, so the perturbation
    is zero and [w] stays 1.  In the model left behind, [z = 0], [u = 1],
    [w = 1], the cached value of every row is still the value of the row,
    but the strict row 1 has the value 0: the model does not satisfy the
    constraints of the tableau [maximize] was called on, and [invariant],
    which the source asserts at the end of [update_values], is false. *)
Theorem maximize_unbounded_breaks_strict_row :
  tableau_ok true tableau_strict_unbounded = true
  /\ invariant tableau_strict_unbounded = true
  /\ feasible tableau_strict_unbounded (m_var2value tableau_strict_unbounded)
  /\ rounds 2 tableau_strict_unbounded [] []
     = Some (after_rounds 2 tableau_strict_unbounded,
             [2%nat; 1%nat], [1%nat; 2%nat])
  /\ objective_ids (after_rounds 2 tableau_strict_unbounded) = [0%nat]
  /\ row_ids_of (after_rounds 2 tableau_strict_unbounded) 0 = []
  /\ maximize_step (after_rounds 2 tableau_strict_unbounded) = Unbounded
  /\ maximize tableau_strict_unbounded
     = Some (infinity,
             update_values [2%nat; 1%nat] [1%nat; 2%nat]
                           (after_rounds 2 tableau_strict_unbounded))
  /\ (let s3 := fix_value (after_rounds 2 tableau_strict_unbounded)
                          (1%nat, 2%nat) in
      let r := get_row s3 1 in
      let new_x_val := - fst (residual (m_var2value s3) 2 r)
                       / snd (residual (m_var2value s3) 2 r) in
      m_type r = t_lt
      /\ this (get_value s3 2) = (1 # 1)%Q
      /\ this new_x_val = (1 # 1)%Q
      /\ is_zero (strict_eps (get_value s3 2) new_x_val) = true)
  /\ (let s' := state_after_maximize tableau_strict_unbounded in
      map this (m_var2value s') = [(0 # 1)%Q; (1 # 1)%Q; (1 # 1)%Q]
      /\ (forall i, row_invariant (m_var2value s') (get_row s' i) = true)
      /\ get_row s' 1
         = set_alive (set_value (get_row tableau_strict_unbounded 1) 0) false
      /\ m_type (get_row s' 1) = t_lt
      /\ this (row_value (m_var2value s') (get_row s' 1)) = (0 # 1)%Q
      /\ satisfied (get_row s' 1) = false
      /\ ~ feasible tableau_strict_unbounded (m_var2value s')
      /\ invariant s' = false).
Proof.
  split; [vm_compute; reflexivity|].
  split; [vm_compute; reflexivity|].
  split.
  { split; [reflexivity|]. intros i Hi Al.
    destruct i as [|[|[|i]]]; [elim Hi; reflexivity| | |].
    - vm_compute. reflexivity.
    - vm_compute. discriminate.
    - destruct i; discriminate Al. }
  split; [vm_compute; reflexivity|].
  split; [vm_compute; reflexivity|].
  split; [vm_compute; reflexivity|].
  split; [vm_compute; reflexivity|].
  split; [vm_compute; reflexivity|].
  split; [cbv zeta; repeat split; vm_compute; reflexivity|].
  cbv zeta.
  split; [vm_compute; reflexivity|].
  split.
  { intros i. destruct i as [|[|[|i]]]; try (vm_compute; reflexivity).
    destruct i; vm_compute; reflexivity. }
  split; [vm_compute; reflexivity|].
  split; [vm_compute; reflexivity|].
  split; [vm_compute; reflexivity|].
  split; [vm_compute; reflexivity|].
  split; [|vm_compute; reflexivity].
  intros [_ F].
  pose proof (F 1%nat ltac:(discriminate) eq_refl) as F1.
  vm_compute in F1. discriminate F1.
Qed.

(** ** The invariants *)

(** C2: every public operation keeps the invariants.  [tableau_ok false]
    says that every live row satisfies the row invariant (sorted ids, no
    zero coefficient, cached value = constant + coefficients times model
    values) and every live row but the objective the satisfaction
    invariant, on a tableau whose variable index is in order.  [add_var],
    [maximize], [project] (one variable or several) and [solve_for] (as
    [project] calls it, on the first live equality listed for [x]) keep it
    as they are; [add_constraint] and [set_objective] keep it for terms the
    caller owes (variables that exist, no id twice, no zero coefficient), a
    constraint that holds under the model, and an objective row that is
    still empty, which is what [set_row] asserts. *)
Theorem operations_preserve_invariants (s : model_based_opt) :
  tableau_ok false s = true ->
  (forall value, tableau_ok false (snd (add_var value s)) = true)
  /\ (forall coeffs c rel,
        valid_terms s coeffs = true ->
        holds_b rel (terms_value s coeffs c) = true ->
        tableau_ok false (add_constraint coeffs c rel s) = true)
  /\ (forall coeffs c,
        is_nil (m_vars (objective s)) = true -> valid_terms s coeffs = true ->
        tableau_ok false (set_objective coeffs c s) = true)
  /\ (forall r s', maximize s = Some (r, s') -> tableau_ok false s' = true)
  /\ (forall x, tableau_ok false (project x s) = true)
  /\ (forall vars, tableau_ok false (project_vars vars s) = true)
  /\ (forall x e, find (live_equality s x) (row_ids_of s x) = Some e ->
                  tableau_ok false (solve_for e x s) = true).
Proof.
  intros H. apply tableau_ok_ok in H.
  split; [|split; [|split; [|split; [|split; [|split]]]]].
  - intros value. apply tableau_ok_ok. apply add_var_ok. exact H.
  - intros coeffs c rel Hv Hs. apply tableau_ok_ok.
    apply add_constraint_ok; trivial.
  - intros coeffs c He Hv. apply tableau_ok_ok.
    apply set_objective_ok; trivial.
    destruct (m_vars (objective s)); [reflexivity|discriminate].
  - intros r s' E. apply tableau_ok_ok. apply (maximize_ok false s s' r H E).
  - intros x. apply tableau_ok_ok. apply project_ok. exact H.
  - intros vars. apply tableau_ok_ok. apply project_vars_ok. exact H.
  - intros x e F. apply tableau_ok_ok. rewrite solve_for_unfold.
    apply (pivot_phase false s x e). exact H.
    apply (equality_resolvable false). exact H. exact F.
Qed.

Lemma operations_preserve_invariants_witness :
  tableau_ok false tableau_lub = true
  /\ tableau_ok false (snd (add_var (rat 7) tableau_lub)) = true
  /\ tableau_ok false
       (add_constraint [mk_var 1 (rat 1)] (rat 0) t_le tableau_lub) = true
  /\ (forall r s', maximize tableau_lub = Some (r, s') -> tableau_ok false s' = true)
  /\ tableau_ok false (project 1 tableau_lub) = true.
Proof.
  assert (H : tableau_ok false tableau_lub = true) by (vm_compute; reflexivity).
  destruct (operations_preserve_invariants tableau_lub H)
    as [A [B [_ [D [E _]]]]].
  split; [exact H|]. split; [apply A|]. split; [|split; [exact D|apply E]].
  apply B; vm_compute; reflexivity.
Defined.

(** ** [find_bound] *)

(** C6: [find_bound] sorts the rows listed for [x], each once, into the
    pivot and [m_above] (the live rows with a coefficient that is not zero
    and has the wanted sign, or that are equalities) and [m_below] (the
    other live rows with a coefficient that is not zero).  It finds no pivot
    exactly when no listed row is such a candidate.  The pivot it returns
    is a candidate, comes with its coefficient and its bound value
    [x_val - m_value / a], has the least bound value of all candidates when
    [pos] and the greatest when not, and is a strict row whenever a strict
    candidate has the same bound value. *)
Theorem find_bound_spec (s : model_based_opt) (x : nat) (pos : bool) :
  NoDup (pivot_list (bs_index (find_bound s x pos))
         ++ bs_above (find_bound s x pos) ++ bs_below (find_bound s x pos))
  /\ (forall i, In i (pivot_list (bs_index (find_bound s x pos))
                      ++ bs_above (find_bound s x pos))
                <-> In i (row_ids_of s x) /\ candidate s x pos i = true)
  /\ (forall i, In i (bs_below (find_bound s x pos))
                <-> In i (row_ids_of s x) /\ live_on s x i = true
                    /\ candidate s x pos i = false)
  /\ (bs_index (find_bound s x pos) = None
      <-> forall i, In i (row_ids_of s x) -> candidate s x pos i = false)
  /\ (forall b, bs_index (find_bound s x pos) = Some b ->
        bs_coeff (find_bound s x pos) = get_coefficient s b x
        /\ bs_lub_val (find_bound s x pos)
           = get_value s x - m_value (get_row s b) / get_coefficient s b x
        /\ forall i, In i (row_ids_of s x) -> candidate s x pos i = true ->
             (if pos then bound_value s x b <= bound_value s x i
              else bound_value s x i <= bound_value s x b)
             /\ (bound_value s x i = bound_value s x b ->
                 m_type (get_row s i) = t_lt -> m_type (get_row s b) = t_lt)).
Proof.
  destruct (find_bound_inv s x pos) as [I1 I2 I3 I4 I5 I6 I7].
  set (fb := find_bound s x pos) in *.
  split; [|split; [exact I4|split; [exact I5|split; [|exact I7]]]].
  - rewrite app_assoc. apply NoDup_app; trivial.
    intros i Ha Hb. apply I4 in Ha. apply I5 in Hb.
    destruct Ha as [_ Ha], Hb as [_ [_ Hb]]. congruence.
  - split.
    + intros En i Hi. destruct (candidate s x pos i) eqn:C; trivial.
      assert (K : In i (pivot_list (bs_index fb) ++ bs_above fb))
        by (apply I4; split; trivial).
      rewrite En, (I6 En) in K. destruct K.
    + intros Hn. destruct (bs_index fb) as [b|] eqn:Eb; trivial.
      assert (K : In b (pivot_list (Some b) ++ bs_above fb)) by (left; reflexivity).
      apply I4 in K. destruct K as [K1 K2]. rewrite (Hn b K1) in K2. discriminate.
Qed.

(** ** [mul_add] *)

(** C8: [mul_add] with a zero scalar changes nothing.  Otherwise, on rows
    whose variable lists are sorted without zero coefficients, row1 keeps
    such a list, in which the coefficient of every variable is its
    coefficient in row1 plus [c] times its coefficient in row2 (so a
    variable whose sum is zero is not stored); the constant and the cached
    value are combined in the same way; and the relation becomes [t_lt]
    when [same_sign] is false and row2 is strict, [t_le] when [same_sign]
    is true and both rows are strict, and stays what it was otherwise. *)
Theorem mul_add_spec (same_sign : bool) (row_id1 row_id2 : nat) (c : Qc)
    (s : model_based_opt) :
  (row_id1 < length (m_rows s))%nat ->
  sorted_ids (m_vars (get_row s row_id1)) = true ->
  nonzero_coeffs (m_vars (get_row s row_id1)) = true ->
  sorted_ids (m_vars (get_row s row_id2)) = true ->
  nonzero_coeffs (m_vars (get_row s row_id2)) = true ->
  if is_zero c then mul_add same_sign row_id1 c row_id2 s = s
  else
    let r1 := get_row s row_id1 in
    let r2 := get_row s row_id2 in
    let r1' := get_row (mul_add same_sign row_id1 c row_id2 s) row_id1 in
    sorted_ids (m_vars r1') = true
    /\ nonzero_coeffs (m_vars r1') = true
    /\ (forall x, get_coefficient (mul_add same_sign row_id1 c row_id2 s) row_id1 x
                  = get_coefficient s row_id1 x + c * get_coefficient s row_id2 x)
    /\ (forall x, In x (ids (m_vars r1'))
                  <-> get_coefficient s row_id1 x + c * get_coefficient s row_id2 x <> 0)
    /\ m_const r1' = m_const r1 + c * m_const r2
    /\ m_value r1' = m_value r1 + c * m_value r2
    /\ (same_sign = false -> m_type r2 = t_lt -> m_type r1' = t_lt)
    /\ (same_sign = true -> m_type r1 = t_lt -> m_type r2 = t_lt -> m_type r1' = t_le)
    /\ (~ (same_sign = false /\ m_type r2 = t_lt) ->
        ~ (same_sign = true /\ m_type r1 = t_lt /\ m_type r2 = t_lt) ->
        m_type r1' = m_type r1)
    /\ m_alive r1' = m_alive r1.
Proof.
  intros L S1 N1 S2 N2. destruct (is_zero c) eqn:Z.
  - apply mul_add_zero. exact Z.
  - cbv zeta. unfold get_coefficient.
    rewrite mul_add_get_row, Nat.eqb_refl; trivial.
    assert (Hc : c <> 0) by (apply is_zero_false; exact Z).
    assert (S' : sorted_ids (m_vars (mul_add_row same_sign c (get_row s row_id1)
                                                 (get_row s row_id2))) = true)
      by (apply merge_sorted; trivial).
    assert (N' : nonzero_coeffs (m_vars (mul_add_row same_sign c (get_row s row_id1)
                                                     (get_row s row_id2))) = true)
      by (apply merge_nonzero; trivial).
    assert (Co : forall x,
      coefficient_in (m_vars (mul_add_row same_sign c (get_row s row_id1)
                                          (get_row s row_id2))) x
      = coefficient_in (m_vars (get_row s row_id1)) x
        + c * coefficient_in (m_vars (get_row s row_id2)) x).
    { intros x. rewrite !coefficient_in_sorted; trivial.
      apply coeff_of_merge; trivial. }
    split; [exact S'|]. split; [exact N'|]. split; [exact Co|].
    split; [|split; [reflexivity|split; [reflexivity|]]].
    + intros x. rewrite <- Co, coefficient_in_sorted; trivial. split.
      * apply in_nonzero; trivial.
      * intros Hx. destruct (in_dec Nat.eq_dec x
            (ids (m_vars (mul_add_row same_sign c (get_row s row_id1)
                                      (get_row s row_id2))))) as [K|K]; trivial.
        elim Hx. apply coeff_of_not_in. exact K.
    + simpl. unfold combine_type.
      destruct same_sign, (m_type (get_row s row_id1)), (m_type (get_row s row_id2));
        simpl; repeat split; try congruence; try reflexivity;
        intros A B; try reflexivity;
        first [elim A; split; reflexivity | elim B; repeat split; reflexivity].
Qed.

Lemma mul_add_spec_witness :
  let s := tableau_lub in
  let r1' := get_row (mul_add true 2 (rat (-1)) 1 s) 2 in
  sorted_ids (m_vars r1') = true
  /\ nonzero_coeffs (m_vars r1') = true
  /\ (forall x, get_coefficient (mul_add true 2 (rat (-1)) 1 s) 2 x
                = get_coefficient s 2 x + rat (-1) * get_coefficient s 1 x)
  /\ (forall x, In x (ids (m_vars r1'))
                <-> get_coefficient s 2 x + rat (-1) * get_coefficient s 1 x <> 0)
  /\ m_const r1' = m_const (get_row s 2) + rat (-1) * m_const (get_row s 1)
  /\ m_value r1' = m_value (get_row s 2) + rat (-1) * m_value (get_row s 1)
  /\ (true = false -> m_type (get_row s 1) = t_lt -> m_type r1' = t_lt)
  /\ (true = true -> m_type (get_row s 2) = t_lt -> m_type (get_row s 1) = t_lt ->
      m_type r1' = t_le)
  /\ (~ (true = false /\ m_type (get_row s 1) = t_lt) ->
      ~ (true = true /\ m_type (get_row s 2) = t_lt /\ m_type (get_row s 1) = t_lt) ->
      m_type r1' = m_type (get_row s 2))
  /\ m_alive r1' = m_alive (get_row s 2).
Proof.
  exact (mul_add_spec true 2 1 (rat (-1)) tableau_lub
           ltac:(vm_compute; lia) ltac:(vm_compute; reflexivity)
           ltac:(vm_compute; reflexivity) ltac:(vm_compute; reflexivity)
           ltac:(vm_compute; reflexivity)).
Defined.

(** ** [project] *)

(** The coefficients of a live row resolved against a live row that
    mentions [x]. *)
Lemma resolved_coefficients (all : bool) (s : model_based_opt) (x p i : nat) :
  ok all s -> live_on s x p = true -> m_alive (get_row s i) = true ->
  coefficient_in (m_vars (resolved s p (get_coefficient s p x) i x)) x = 0
  /\ forall y,
       coefficient_in (m_vars (resolved s p (get_coefficient s p x) i x)) y
       = get_coefficient s i y
         + (- get_coefficient s i x / get_coefficient s p x) * get_coefficient s p y.
Proof.
  intros O Lp Ai. destruct (live_on_parts _ _ _ Lp) as [Ap Np].
  pose proof (live_row_invariant _ _ _ O Ap) as Ip.
  pose proof (live_row_invariant _ _ _ O Ai) as Ii.
  assert (Ir : row_invariant (m_var2value s)
                 (resolved s p (get_coefficient s p x) i x) = true)
    by (apply resolve_row_invariant; trivial).
  apply row_invariant_parts in Ip, Ii, Ir.
  destruct Ip as [Sp _], Ii as [Si _], Ir as [Sr _].
  assert (Ep : forall y, get_coefficient s p y = coeff_of (m_vars (get_row s p)) y)
    by (intros y; apply coefficient_in_sorted; exact Sp).
  assert (Ei : forall y, get_coefficient s i y = coeff_of (m_vars (get_row s i)) y)
    by (intros y; apply coefficient_in_sorted; exact Si).
  split.
  - rewrite coefficient_in_sorted by exact Sr.
    apply resolve_row_cancel; trivial.
  - intros y. rewrite coefficient_in_sorted by exact Sr.
    rewrite !Ei, !Ep. apply resolve_row_coeff; trivial.
Qed.

(** C7: when the first live row listed for [x] that is an equality with a
    coefficient on [x] that is not zero is [e], [project] is [solve_for] on
    [e] (the selection of a least upper or greatest lower bound plays no
    part); afterwards [e] is dead, every other live row listed for [x] is
    still alive and is its resolvent against [e], in which [x] has
    coefficient zero and every other coefficient is the row's own plus
    [- a_i / a_e] times that of [e], and the rows not listed for [x] are as
    before. *)
Theorem project_equality (s : model_based_opt) (x e : nat) :
  tableau_ok false s = true ->
  find (live_equality s x) (row_ids_of s x) = Some e ->
  project x s = solve_for e x s
  /\ m_alive (get_row (project x s) e) = false
  /\ (forall i, i <> e -> In i (row_ids_of s x) -> m_alive (get_row s i) = true ->
        m_alive (get_row (project x s) i) = true
        /\ get_row (project x s) i = resolved s e (get_coefficient s e x) i x
        /\ get_coefficient (project x s) i x = 0
        /\ forall y, get_coefficient (project x s) i y
                     = get_coefficient s i y
                       + (- get_coefficient s i x / get_coefficient s e x)
                         * get_coefficient s e y)
  /\ (forall i, ~ In i (row_ids_of s x) -> get_row (project x s) i = get_row s i).
Proof.
  intros H F. apply tableau_ok_ok in H.
  assert (P : project x s = solve_for e x s)
    by (unfold project; rewrite (select_equality _ _ _ F); reflexivity).
  rewrite P, solve_for_unfold.
  pose proof (equality_resolvable false s x e H F) as Rs.
  destruct (pivot_phase false s x e _ H Rs) as [_ [_ [_ [_ [Al R]]]]].
  destruct Rs as [[Pe Le] _ _ _].
  split; [reflexivity|]. split; [rewrite Al, Nat.eqb_refl; reflexivity|]. split.
  - intros i Ne Hi Ai.
    assert (Ri : get_row (kill e (resolve_all e (get_coefficient s e x) x
                                   (fresh_ids [e] (row_ids_of s x)) s)) i
                 = resolved s e (get_coefficient s e x) i x).
    { rewrite R. apply not_eq_sym, Nat.eqb_neq in Ne. rewrite Ne.
      assert (K : contains (fresh_ids [e] (row_ids_of s x)) i = true).
      { apply contains_In, fresh_ids_In. split; trivial. simpl.
        apply Nat.eqb_neq in Ne. intros [K|[]]. congruence. }
      rewrite K. reflexivity. }
    destruct (resolved_coefficients false s x e i H Le Ai) as [C0 Cy].
    split; [|split; [exact Ri|]].
    + rewrite Al. apply not_eq_sym, Nat.eqb_neq in Ne. rewrite Ne. exact Ai.
    + assert (G : forall y,
        get_coefficient (kill e (resolve_all e (get_coefficient s e x) x
                                   (fresh_ids [e] (row_ids_of s x)) s)) i y
        = coefficient_in (m_vars (resolved s e (get_coefficient s e x) i x)) y)
        by (intros y; unfold get_coefficient at 1; rewrite Ri; reflexivity).
      split; [rewrite G; exact C0|intros y; rewrite G; apply Cy].
  - intros i Hi. rewrite R.
    destruct (Nat.eqb_spec e i) as [<-|Ne]; [contradiction|].
    assert (K : contains (fresh_ids [e] (row_ids_of s x)) i = false).
    { apply contains_not_In. rewrite fresh_ids_In. tauto. }
    rewrite K. reflexivity.
Qed.

Lemma project_equality_witness :
  project 0 tableau_equality = solve_for 2 0 tableau_equality
  /\ m_alive (get_row (project 0 tableau_equality) 2) = false
  /\ (forall i, i <> 2%nat -> In i (row_ids_of tableau_equality 0) ->
        m_alive (get_row tableau_equality i) = true ->
        m_alive (get_row (project 0 tableau_equality) i) = true
        /\ get_row (project 0 tableau_equality) i
           = resolved tableau_equality 2 (get_coefficient tableau_equality 2 0) i 0
        /\ get_coefficient (project 0 tableau_equality) i 0 = 0
        /\ forall y, get_coefficient (project 0 tableau_equality) i y
                     = get_coefficient tableau_equality i y
                       + (- get_coefficient tableau_equality i 0
                          / get_coefficient tableau_equality 2 0)
                         * get_coefficient tableau_equality 2 y)
  /\ (forall i, ~ In i (row_ids_of tableau_equality 0) ->
        get_row (project 0 tableau_equality) i = get_row tableau_equality i).
Proof.
  apply project_equality; vm_compute; reflexivity.
Defined.

(** C10: after [project x] on a tableau that satisfies the invariants, no
    live row but the objective mentions [x]: its coefficient on [x] is zero
    and [x] is not in its variable list.  The objective row is left as it
    was, with whatever coefficient it has on [x], because no variable lists
    row 0 in its index, before or after. *)
Theorem project_eliminates (s : model_based_opt) (x : nat) :
  tableau_ok false s = true ->
  (forall i, i <> m_objective_id -> m_alive (get_row (project x s) i) = true ->
     get_coefficient (project x s) i x = 0
     /\ ~ In x (ids (m_vars (get_row (project x s) i))))
  /\ objective (project x s) = objective s
  /\ (forall y, ~ In m_objective_id (row_ids_of s y)
                /\ ~ In m_objective_id (row_ids_of (project x s) y)).
Proof.
  intros H. apply tableau_ok_ok in H.
  destruct (project_ok false x s H) as [O' [X [R0 _]]].
  split; [|split; [exact R0|]].
  - intros i Hi Ai. split; [|apply X; trivial].
    rewrite (get_coefficient_sorted false (project x s) i x O'
               (in_scope_alive false _ Ai)).
    apply coeff_of_not_in. apply X; trivial.
  - intros y. split; intros K.
    + apply (wf_range _ (ok_wf _ _ H)) in K. unfold m_objective_id in K. lia.
    + apply (wf_range _ (ok_wf _ _ O')) in K. unfold m_objective_id in K. lia.
Qed.

Lemma project_eliminates_witness :
  (forall i, i <> m_objective_id ->
     m_alive (get_row (project 1 tableau_lub) i) = true ->
     get_coefficient (project 1 tableau_lub) i 1 = 0
     /\ ~ In 1%nat (ids (m_vars (get_row (project 1 tableau_lub) i))))
  /\ objective (project 1 tableau_lub) = objective tableau_lub
  /\ (forall y, ~ In m_objective_id (row_ids_of tableau_lub y)
                /\ ~ In m_objective_id (row_ids_of (project 1 tableau_lub) y)).
Proof.
  apply project_eliminates. vm_compute. reflexivity.
Defined.

(** C4 (as stated, refuted): on [tableau_two_sided] the rows listed for [x]
    are the upper bounds 1 and 2 and the lower bounds 3 and 4, none an
    equality; the pivot is row 1, the least upper bound.  Row 2, [x - 2 <= 0],
    on the pivot's own side, is not dropped by [project]: it is resolved
    against the pivot [x - 1 <= 0] like the rows of the other side, and is
    still alive afterwards, as [-1 <= 0] without a variable. *)
Lemma project_keeps_pivot_side :
  find (live_equality tableau_two_sided 0) (row_ids_of tableau_two_sided 0) = None
  /\ lub_rows (selection_of tableau_two_sided 0) = [1%nat; 2%nat]
  /\ glb_rows (selection_of tableau_two_sided 0) = [3%nat; 4%nat]
  /\ pivot_of (selection_of tableau_two_sided 0) = Some 1%nat
  /\ m_alive (get_row tableau_two_sided 2) = true
  /\ ids (m_vars (get_row tableau_two_sided 2)) = [0%nat]
  /\ this (m_const (get_row tableau_two_sided 2)) = (-2 # 1)%Q
  /\ m_alive (get_row (project 0 tableau_two_sided) 2) = true
  /\ ids (m_vars (get_row (project 0 tableau_two_sided) 2)) = []
  /\ this (m_const (get_row (project 0 tableau_two_sided) 2)) = (-1 # 1)%Q
  /\ map m_alive (m_rows (project 0 tableau_two_sided))
     = [false; false; true; true; true].
Proof. vm_compute. repeat split; reflexivity. Qed.

Lemma selection_of_inv (s : model_based_opt) (x : nat) :
  find (live_equality s x) (row_ids_of s x) = None ->
  select s x (row_ids_of s x) sel_init = inr (selection_of s x)
  /\ sel_inv s x (row_ids_of s x) (selection_of s x).
Proof.
  intros F. destruct (select_no_equality _ _ F) as [st [Es I]].
  unfold selection_of. rewrite Es. split; trivial.
Qed.

(** C4 (amended): when no live row listed for [x] is an equality on [x],
    [project] collects the live rows with a positive coefficient on [x]
    (upper bounds) and those with a negative one (lower bounds).  If both
    sides have rows, the pivot is the representative of the side with fewer
    rows, the upper side on a tie: a row of that side whose bound value is
    the least (upper side) or greatest (lower side) of its side, strict
    when a strict row of the side has the same bound value.  Every other
    row of both sides, the pivot's own side included, is resolved against
    the pivot and stays alive with coefficient zero on [x]; the pivot is
    marked dead.  If one side has no row, there is no pivot and every live
    row listed for [x] with a coefficient that is not zero is marked dead. *)
Theorem project_pivot (s : model_based_opt) (x : nat) :
  tableau_ok false s = true ->
  find (live_equality s x) (row_ids_of s x) = None ->
  (forall i, In i (lub_rows (selection_of s x))
             <-> In i (row_ids_of s x) /\ live_on s x i = true
                 /\ is_pos (get_coefficient s i x) = true)
  /\ (forall i, In i (glb_rows (selection_of s x))
                <-> In i (row_ids_of s x) /\ live_on s x i = true
                    /\ is_pos (get_coefficient s i x) = false)
  /\ match pivot_of (selection_of s x) with
     | Some p =>
         lub_rows (selection_of s x) <> [] /\ glb_rows (selection_of s x) <> []
         /\ (if length (lub_rows (selection_of s x))
                <=? length (glb_rows (selection_of s x))
             then In p (lub_rows (selection_of s x))
                  /\ forall i, In i (lub_rows (selection_of s x)) ->
                       tighter s x true p i /\ strict_kept s x p i
             else In p (glb_rows (selection_of s x))
                  /\ forall i, In i (glb_rows (selection_of s x)) ->
                       tighter s x false p i /\ strict_kept s x p i)
         /\ m_alive (get_row (project x s) p) = false
         /\ forall i, In i (lub_rows (selection_of s x)
                            ++ glb_rows (selection_of s x)) -> i <> p ->
              m_alive (get_row (project x s) i) = true
              /\ get_row (project x s) i = resolved s p (get_coefficient s p x) i x
              /\ get_coefficient (project x s) i x = 0
     | None =>
         (lub_rows (selection_of s x) = [] \/ glb_rows (selection_of s x) = [])
         /\ forall i, In i (row_ids_of s x) -> live_on s x i = true ->
              m_alive (get_row (project x s) i) = false
     end.
Proof.
  intros H F. apply tableau_ok_ok in H.
  destruct (selection_of_inv s x F) as [Es I].
  set (st := selection_of s x) in *.
  split; [exact (si_lub _ _ _ _ I)|]. split; [exact (si_glb _ _ _ _ I)|].
  assert (P : project x s =
              match pivot_of st with
              | None => kill_all (glb_rows st ++ lub_rows st) s
              | Some p => kill p (resolve_others p (get_coefficient s p x) x
                                    (glb_rows st ++ lub_rows st) s)
              end) by (unfold project; rewrite Es; reflexivity).
  destruct (pivot_of st) as [p|] eqn:Hp.
  - pose proof (selection_resolvable false s x st p H I Hp) as Rs.
    rewrite resolve_others_filter in P.
    destruct (pivot_phase false s x p _ H Rs) as [_ [_ [_ [_ [Al R]]]]].
    destruct Rs as [[Pp Lp] _ _ _].
    destruct (si_lub_side _ _ _ _ I) as [_ Sl].
    destruct (si_glb_side _ _ _ _ I) as [_ Sg].
    unfold pivot_of in Hp.
    assert (Side :
      if length (lub_rows st) <=? length (glb_rows st)
      then In p (lub_rows st)
           /\ forall i, In i (lub_rows st) -> tighter s x true p i /\ strict_kept s x p i
      else In p (glb_rows st)
           /\ forall i, In i (glb_rows st) -> tighter s x false p i /\ strict_kept s x p i).
    { destruct (length (lub_rows st) <=? length (glb_rows st)).
      - rewrite Hp in Sl. tauto.
      - rewrite Hp in Sg. tauto. }
    split; [|split; [|split; [exact Side|split]]].
    + destruct (Nat.leb_spec (length (lub_rows st)) (length (glb_rows st))) as [L|L];
        destruct Side as [Hin _]; intros E; rewrite E in *; simpl in *; try lia;
        destruct Hin.
    + destruct (Nat.leb_spec (length (lub_rows st)) (length (glb_rows st))) as [L|L];
        destruct Side as [Hin _]; intros E; rewrite E in *; simpl in *;
        try (destruct Hin); destruct (lub_rows st); simpl in *; try lia; destruct Hin.
    + rewrite P, Al, Nat.eqb_refl. reflexivity.
    + intros i Hi Ne.
      assert (Li : In i (row_ids_of s x) /\ live_on s x i = true).
      { apply in_app_iff in Hi. destruct Hi as [Hi|Hi].
        - apply (si_lub _ _ _ _ I) in Hi. tauto.
        - apply (si_glb _ _ _ _ I) in Hi. tauto. }
      destruct (live_on_parts _ _ _ (proj2 Li)) as [Ai _].
      assert (Ri : get_row (project x s) i = resolved s p (get_coefficient s p x) i x).
      { rewrite P, R. apply not_eq_sym, Nat.eqb_neq in Ne. rewrite Ne.
        assert (K : contains (filter (fun i => negb (i =? p))
                                (glb_rows st ++ lub_rows st)) i = true).
        { apply contains_In, filter_neq_In. apply Nat.eqb_neq in Ne.
          split; [|congruence]. apply in_app_iff. apply in_app_iff in Hi. tauto. }
        rewrite K. reflexivity. }
      split; [|split; [exact Ri|]].
      * rewrite P, Al. apply not_eq_sym, Nat.eqb_neq in Ne. rewrite Ne. exact Ai.
      * unfold get_coefficient at 1. rewrite Ri.
        apply (resolved_coefficients false s x p i H Lp Ai).
  - split.
    + destruct (si_lub_side _ _ _ _ I) as [_ Sl].
      destruct (si_glb_side _ _ _ _ I) as [_ Sg].
      unfold pivot_of in Hp.
      destruct (length (lub_rows st) <=? length (glb_rows st)).
      * rewrite Hp in Sl. left. exact Sl.
      * rewrite Hp in Sg. right. exact Sg.
    + intros i Hi Li. rewrite P, kill_all_get_row.
      assert (K : contains (glb_rows st ++ lub_rows st) i = true).
      { apply contains_In, in_app_iff.
        destruct (is_pos (get_coefficient s i x)) eqn:Ps.
        - right. apply (si_lub _ _ _ _ I). tauto.
        - left. apply (si_glb _ _ _ _ I). tauto. }
      rewrite K. reflexivity.
Qed.

Lemma project_pivot_witness :
  (forall i, In i (lub_rows (selection_of tableau_two_sided 0))
             <-> In i (row_ids_of tableau_two_sided 0)
                 /\ live_on tableau_two_sided 0 i = true
                 /\ is_pos (get_coefficient tableau_two_sided i 0) = true)
  /\ (forall i, In i (glb_rows (selection_of tableau_two_sided 0))
                <-> In i (row_ids_of tableau_two_sided 0)
                    /\ live_on tableau_two_sided 0 i = true
                    /\ is_pos (get_coefficient tableau_two_sided i 0) = false)
  /\ match pivot_of (selection_of tableau_two_sided 0) with
     | Some p =>
         lub_rows (selection_of tableau_two_sided 0) <> []
         /\ glb_rows (selection_of tableau_two_sided 0) <> []
         /\ (if length (lub_rows (selection_of tableau_two_sided 0))
                <=? length (glb_rows (selection_of tableau_two_sided 0))
             then In p (lub_rows (selection_of tableau_two_sided 0))
                  /\ forall i, In i (lub_rows (selection_of tableau_two_sided 0)) ->
                       tighter tableau_two_sided 0 true p i
                       /\ strict_kept tableau_two_sided 0 p i
             else In p (glb_rows (selection_of tableau_two_sided 0))
                  /\ forall i, In i (glb_rows (selection_of tableau_two_sided 0)) ->
                       tighter tableau_two_sided 0 false p i
                       /\ strict_kept tableau_two_sided 0 p i)
         /\ m_alive (get_row (project 0 tableau_two_sided) p) = false
         /\ forall i, In i (lub_rows (selection_of tableau_two_sided 0)
                            ++ glb_rows (selection_of tableau_two_sided 0)) ->
              i <> p ->
              m_alive (get_row (project 0 tableau_two_sided) i) = true
              /\ get_row (project 0 tableau_two_sided) i
                 = resolved tableau_two_sided p
                            (get_coefficient tableau_two_sided p 0) i 0
              /\ get_coefficient (project 0 tableau_two_sided) i 0 = 0
     | None =>
         (lub_rows (selection_of tableau_two_sided 0) = []
          \/ glb_rows (selection_of tableau_two_sided 0) = [])
         /\ forall i, In i (row_ids_of tableau_two_sided 0) ->
              live_on tableau_two_sided 0 i = true ->
              m_alive (get_row (project 0 tableau_two_sided) i) = false
     end.
Proof.
  apply project_pivot; vm_compute; reflexivity.
Defined.

(** ** Termination *)

(** [project] revives no row, and retires a live row as soon as a live row
    listed for [x] has a coefficient on [x] that is not zero. *)
Lemma project_kills (s : model_based_opt) (x : nat) :
  length (m_rows (project x s)) = length (m_rows s)
  /\ (forall k, m_alive (get_row (project x s) k) = true ->
                m_alive (get_row s k) = true)
  /\ (forall i, In i (row_ids_of s x) -> live_on s x i = true ->
        exists b, m_alive (get_row s b) = true
                  /\ m_alive (get_row (project x s) b) = false).
Proof.
  destruct (find (live_equality s x) (row_ids_of s x)) as [e|] eqn:F.
  - assert (P : project x s = solve_for e x s)
      by (unfold project; rewrite (select_equality _ _ _ F); reflexivity).
    rewrite P, solve_for_unfold.
    split; [|split].
    + rewrite kill_rows_length, resolve_all_rows_length. reflexivity.
    + intros k. rewrite kill_alive, resolve_all_alive.
      destruct (e =? k); [discriminate|trivial].
    + intros _ _ _. exists e. apply find_some in F. destruct F as [_ Le].
      unfold live_equality in Le. apply andb_true_iff in Le.
      destruct (live_on_parts _ _ _ (proj1 Le)) as [Ae _].
      split; [exact Ae|].
      rewrite kill_alive, Nat.eqb_refl. reflexivity.
  - destruct (selection_of_inv s x F) as [Es I].
    set (st := selection_of s x) in *.
    assert (P : project x s =
                match pivot_of st with
                | None => kill_all (glb_rows st ++ lub_rows st) s
                | Some p => kill p (resolve_others p (get_coefficient s p x) x
                                      (glb_rows st ++ lub_rows st) s)
                end) by (unfold project; rewrite Es; reflexivity).
    assert (Side : forall i, In i (glb_rows st ++ lub_rows st) <->
                             In i (row_ids_of s x) /\ live_on s x i = true).
    { intros i. rewrite in_app_iff, (si_lub _ _ _ _ I), (si_glb _ _ _ _ I).
      destruct (is_pos (get_coefficient s i x)); intuition discriminate. }
    destruct (pivot_of st) as [p|] eqn:Hp.
    + rewrite P, resolve_others_filter.
      assert (Ap : m_alive (get_row s p) = true).
      { apply (live_on_parts s x p). apply Side.
        destruct (si_lub_side _ _ _ _ I) as [_ Sl].
        destruct (si_glb_side _ _ _ _ I) as [_ Sg].
        unfold pivot_of in Hp. apply in_app_iff.
        destruct (length (lub_rows st) <=? length (glb_rows st)).
        - rewrite Hp in Sl. right. apply Sl.
        - rewrite Hp in Sg. left. apply Sg. }
      split; [|split].
      * rewrite kill_rows_length, resolve_all_rows_length. reflexivity.
      * intros k. rewrite kill_alive, resolve_all_alive.
        destruct (p =? k); [discriminate|trivial].
      * intros _ _ _. exists p. split; [exact Ap|].
        rewrite kill_alive, Nat.eqb_refl. reflexivity.
    + rewrite P. split; [|split].
      * apply kill_all_rows_length.
      * intros k. rewrite kill_all_get_row.
        destruct (contains (glb_rows st ++ lub_rows st) k); [discriminate|trivial].
      * intros i Hi Li. exists i. split; [apply (live_on_parts s x i Li)|].
        rewrite kill_all_get_row.
        assert (K : contains (glb_rows st ++ lub_rows st) i = true)
          by (apply contains_In, Side; split; trivial).
        rewrite K. reflexivity.
Qed.

(** When no live row listed for [x] has a coefficient on [x] that is not
    zero, [project] leaves the tableau as it is. *)
Lemma project_idle (s : model_based_opt) (x : nat) :
  (forall i, In i (row_ids_of s x) -> live_on s x i = false) ->
  project x s = s.
Proof.
  intros H.
  assert (F : find (live_equality s x) (row_ids_of s x) = None).
  { destruct (find (live_equality s x) (row_ids_of s x)) as [e|] eqn:F; trivial.
    apply find_some in F. destruct F as [He Le].
    unfold live_equality in Le. rewrite (H e He) in Le. discriminate. }
  destruct (selection_of_inv s x F) as [Es I].
  set (st := selection_of s x) in *.
  assert (Ll : lub_rows st = []).
  { destruct (lub_rows st) as [|i l] eqn:E; trivial.
    assert (K : In i (lub_rows st)) by (rewrite E; left; reflexivity).
    apply (si_lub _ _ _ _ I) in K. destruct K as [Hi [Li _]].
    rewrite (H i Hi) in Li. discriminate. }
  assert (Lg : glb_rows st = []).
  { destruct (glb_rows st) as [|i l] eqn:E; trivial.
    assert (K : In i (glb_rows st)) by (rewrite E; left; reflexivity).
    apply (si_glb _ _ _ _ I) in K. destruct K as [Hi [Li _]].
    rewrite (H i Hi) in Li. discriminate. }
  unfold project. rewrite Es. cbv zeta. rewrite Ll, Lg.
  destruct (pivot_of st) as [p|] eqn:Hp; [|reflexivity].
  exfalso. unfold pivot_of in Hp. rewrite Ll, Lg in Hp. simpl in Hp.
  destruct (si_lub_side _ _ _ _ I) as [_ Sl]. rewrite Hp, Ll in Sl.
  destruct Sl as [[] _].
Qed.

(** C5 (as stated, refuted): a round of [maximize] need not shrink the
    variable set of the objective, and a call of [project] need not mark a
    row dead.  On [tableau_chain] the objective mentions variable 1 alone
    before the first round and variables 0 and 2 after it; on
    [tableau_two_sided] no row mentions variable 1 and [project 1] leaves
    every row as alive as it was. *)
Lemma round_grows_objective :
  objective_ids tableau_chain = [1%nat]
  /\ (exists x b s', maximize_step tableau_chain = Next x b s'
                     /\ objective_ids s' = [0%nat; 2%nat])
  /\ map m_alive (m_rows (project 1 tableau_two_sided))
     = map m_alive (m_rows tableau_two_sided)
  /\ live_rows (project 1 tableau_two_sided) = live_rows tableau_two_sided.
Proof.
  split; [vm_compute; reflexivity|]. split.
  - destruct (maximize_step tableau_chain) as [| |x b s'] eqn:E;
      [vm_compute in E; discriminate | vm_compute in E; discriminate |].
    exists x, b, s'. split; [reflexivity|].
    assert (K : match maximize_step tableau_chain with
                | Next _ _ t => objective_ids t
                | _ => []
                end = [0%nat; 2%nat]) by (vm_compute; reflexivity).
    rewrite E in K. exact K.
  - split; vm_compute; reflexivity.
Qed.

(** C5 (amended): [maximize] returns on every tableau: each round of its
    loop that goes on marks dead a row that was alive, so the number of
    live rows strictly decreases from round to round (the variable set of
    the objective may grow).  [project], a bounded pass over the rows
    listed for [x], revives no row; it strictly decreases the number of
    live rows when a live row listed for [x] has a coefficient on [x] that
    is not zero, and leaves the tableau unchanged when there is none. *)
Theorem maximize_project_terminate (s : model_based_opt) :
  (exists r, maximize s = Some r)
  /\ (forall x b s', maximize_step s = Next x b s' ->
        m_alive (get_row s b) = true /\ m_alive (get_row s' b) = false
        /\ (live_rows s' < live_rows s)%nat)
  /\ (forall x, (live_rows (project x s) <= live_rows s)%nat)
  /\ (forall x i, In i (row_ids_of s x) -> live_on s x i = true ->
        (live_rows (project x s) < live_rows s)%nat)
  /\ (forall x, (forall i, In i (row_ids_of s x) -> live_on s x i = false) ->
        project x s = s).
Proof.
  split; [|split; [|split; [|split]]].
  - unfold maximize. apply maximize_loop_total. lia.
  - intros x b s' H. destruct (maximize_step_kills _ _ _ _ H) as [A [L K]].
    split; [exact A|]. split.
    + rewrite K, Nat.eqb_refl. reflexivity.
    + apply (maximize_step_fewer _ _ _ _ H).
  - intros x. destruct (project_kills s x) as [L [M _]].
    unfold live_rows. apply live_le; trivial.
  - intros x i Hi Li. destruct (project_kills s x) as [L [M K]].
    destruct (K i Hi Li) as [b [Ab Db]].
    apply (fewer_live s (project x s) b); trivial.
  - intros x. apply project_idle.
Qed.

(** ** Back-substitution on a strict bound row *)

(** C9 (defect of the code): [update_values] does not always leave a strict
    bound row strictly satisfied.  On [tableau_strict], which meets the
    invariants, [maximize] eliminates [w] (id 1) against the strict row 1,
    [u - w < 0], then [u] (id 0) against row 2.  Back-substitution fixes
    [u = 1] first; for [w] the value computed from row 1 is 1, the value
    [w] already has, so the perturbation [min(1, |old - new| / 2)] is zero
    (the source asserts it is not) and [w] stays 1.  In the model returned,
    [u = 1] and [w = 1], the strict row 1 has the value 0: it is not
    satisfied, and [invariant], which the source asserts at the end of
    [update_values], is false. *)
Theorem update_values_zero_eps :
  tableau_ok true tableau_strict = true
  /\ invariant tableau_strict = true
  /\ option_map (fun t => (snd (fst t), snd t)) (rounds 2 tableau_strict [] [])
     = Some ([1%nat; 0%nat], [1%nat; 2%nat])
  /\ m_vars (objective (after_rounds 2 tableau_strict)) = []
  /\ (let s3 := fix_value (after_rounds 2 tableau_strict) (0%nat, 2%nat) in
      let r := get_row s3 1 in
      let new_x_val := - fst (residual (m_var2value s3) 1 r)
                       / snd (residual (m_var2value s3) 1 r) in
      m_type r = t_lt
      /\ this (get_value s3 1) = (1 # 1)%Q
      /\ this new_x_val = (1 # 1)%Q
      /\ is_zero (strict_eps (get_value s3 1) new_x_val) = true)
  /\ observe (maximize tableau_strict) = Some (Some ((1 # 1)%Q, (-1 # 1)%Q))
  /\ (let s' := state_after_maximize tableau_strict in
      map this (m_var2value s') = [(1 # 1)%Q; (1 # 1)%Q]
      /\ m_type (get_row s' 1) = t_lt
      /\ this (row_value (m_var2value s') (get_row s' 1)) = (0 # 1)%Q
      /\ this (m_value (get_row s' 1)) = (0 # 1)%Q
      /\ satisfied (get_row s' 1) = false
      /\ invariant s' = false).
Proof.
  split; [vm_compute; reflexivity|].
  split; [vm_compute; reflexivity|].
  split; [vm_compute; reflexivity|].
  split; [vm_compute; reflexivity|].
  split; [cbv zeta; repeat split; vm_compute; reflexivity|].
  split; [vm_compute; reflexivity|].
  cbv zeta; repeat split; vm_compute; reflexivity.
Qed.

(** * The interface, operation by operation *)

(** ** Coefficient lookup *)

Lemma coeff_of_In (vars : list var) (v : var) :
  sorted_ids vars = true -> In v vars -> coeff_of vars (m_id v) = m_coeff v.
Proof.
  intros S H. destruct (In_nth _ _ dummy_var H) as [p [Hp E]].
  rewrite <- E. apply coeff_of_nth; trivial.
Qed.

(** X1: on a row whose variable list is sorted by id, the binary search of
    [get_coefficient] finds every variable the row stores and returns its
    coefficient, and returns zero for a variable the row does not store (in
    particular for every variable when the row is empty). *)
Theorem get_coefficient_lookup (s : model_based_opt) (row_id : nat) :
  sorted_ids (m_vars (get_row s row_id)) = true ->
  (forall v, In v (m_vars (get_row s row_id)) ->
             get_coefficient s row_id (m_id v) = m_coeff v)
  /\ (forall x, ~ In x (ids (m_vars (get_row s row_id))) ->
                get_coefficient s row_id x = 0).
Proof.
  intros S. unfold get_coefficient. split.
  - intros v Hv. rewrite coefficient_in_sorted by exact S.
    apply coeff_of_In; trivial.
  - intros x Hx. rewrite coefficient_in_sorted by exact S.
    apply coeff_of_not_in. exact Hx.
Qed.

Lemma get_coefficient_lookup_witness :
  (forall v, In v (m_vars (get_row tableau_lub 1)) ->
             get_coefficient tableau_lub 1 (m_id v) = m_coeff v)
  /\ (forall x, ~ In x (ids (m_vars (get_row tableau_lub 1))) ->
                get_coefficient tableau_lub 1 x = 0).
Proof.
  apply get_coefficient_lookup. vm_compute. reflexivity.
Defined.

(** ** The value of a row when one variable moves *)

Lemma dot_upd (vals : list Qc) (vars : list var) (x : nat) (v : Qc) :
  sorted_ids vars = true -> (x < length vals)%nat ->
  dot (upd x v vals) vars = dot vals vars + coeff_of vars x * (v - nth x vals 0).
Proof.
  intros S Hx. induction vars as [|w rest IH]; simpl; [ring|].
  destruct (sorted_ids_cons _ _ S) as [Sr Lo].
  rewrite nth_upd. destruct (Nat.eqb_spec (m_id w) x) as [E|Ne].
  - subst x. rewrite Nat.eqb_refl.
    apply Nat.ltb_lt in Hx. rewrite Hx. simpl.
    assert (D : dot (upd (m_id w) v vals) rest = dot vals rest).
    { apply dot_agree. intros y Hy. apply nth_upd_neq.
      unfold ids in Hy. apply in_map_iff in Hy. destruct Hy as [u [Eu Hu]].
      rewrite Forall_forall in Lo. specialize (Lo u Hu). lia. }
    rewrite D. ring.
  - assert (E : (x =? m_id w) = false) by (apply Nat.eqb_neq; congruence).
    rewrite E. simpl. rewrite (IH Sr). ring.
Qed.

Lemma row_value_upd (vals : list Qc) (r : row) (x : nat) (v : Qc) :
  sorted_ids (m_vars r) = true -> (x < length vals)%nat ->
  row_value (upd x v vals) r
  = row_value vals r + coeff_of (m_vars r) x * (v - nth x vals 0).
Proof.
  intros S Hx. rewrite !row_value_dot, dot_upd by trivial. ring.
Qed.

(** ** [update_value] *)

(** The loop of [update_value] over a list of row ids without repetition:
    the rows of the list that exist and have a coefficient on [x] get the
    increment, the others are left alone. *)
Lemma update_value_loop (x : nat) (val old_val : Qc) (l : list nat)
    (s1 : model_based_opt) :
  NoDup l ->
  let s2 :=
    fold_left
      (fun s' row_id =>
         let coeff := get_coefficient s' row_id x in
         if is_zero coeff then s'
         else
           let r := get_row s' row_id in
           mk_opt (upd row_id (set_value r (m_value r + coeff * (val - old_val)))
                       (m_rows s'))
                  (m_var2row_ids s') (m_var2value s'))
      l s1 in
  m_var2value s2 = m_var2value s1
  /\ m_var2row_ids s2 = m_var2row_ids s1
  /\ forall k,
       get_row s2 k =
       if contains l k && negb (is_zero (get_coefficient s1 k x))
          && (k <? length (m_rows s1))
       then set_value (get_row s1 k)
                      (m_value (get_row s1 k)
                       + get_coefficient s1 k x * (val - old_val))
       else get_row s1 k.
Proof.
  revert s1. induction l as [|r l IH]; intros s1 N; cbv zeta.
  - simpl. repeat split; trivial.
  - inversion N as [|r' l' Nr Nl]; subst. simpl fold_left.
    destruct (is_zero (get_coefficient s1 r x)) eqn:Z.
    + destruct (IH s1 Nl) as [A [B C]]. split; [exact A|]. split; [exact B|].
      intros k. rewrite C. simpl contains.
      destruct (Nat.eqb_spec k r) as [->|Ne]; simpl; trivial.
      rewrite Z. simpl. rewrite andb_false_r. reflexivity.
    + set (s1' := mk_opt (upd r (set_value (get_row s1 r)
                                   (m_value (get_row s1 r)
                                    + get_coefficient s1 r x * (val - old_val)))
                              (m_rows s1))
                         (m_var2row_ids s1) (m_var2value s1)).
      destruct (IH s1' Nl) as [A [B C]]. split; [exact A|]. split; [exact B|].
      assert (G : forall k, get_row s1' k =
                            if (r =? k) && (r <? length (m_rows s1))
                            then set_value (get_row s1 r)
                                   (m_value (get_row s1 r)
                                    + get_coefficient s1 r x * (val - old_val))
                            else get_row s1 k)
        by (intros k; apply get_row_upd).
      assert (Co : forall k, get_coefficient s1' k x = get_coefficient s1 k x).
      { intros k. unfold get_coefficient. rewrite G.
        destruct ((r =? k) && (r <? length (m_rows s1))) eqn:E; trivial.
        apply andb_true_iff in E. destruct E as [E _].
        apply Nat.eqb_eq in E. subst k. reflexivity. }
      assert (Len : length (m_rows s1') = length (m_rows s1))
        by (apply upd_length).
      intros k. rewrite C, Co, Len, G. simpl contains.
      destruct (Nat.eqb_spec k r) as [->|Ne].
      * rewrite Nat.eqb_refl. simpl.
        assert (Cr : contains l r = false) by (apply contains_not_In; exact Nr).
        rewrite Cr, Z. simpl. reflexivity.
      * assert (E : (r =? k) = false) by (apply Nat.eqb_neq; congruence).
        rewrite E. simpl. reflexivity.
Qed.

(** X2: [update_value x val] on a tableau that satisfies the invariants,
    for a variable that exists and whose index lists no row twice: the
    model becomes the old one with [val] at [x]; index, variables,
    constants, relations and liveness of the rows are untouched; every
    constraint row in scope again satisfies the row invariant (its cached
    value is its value under the new model).  The objective row is not
    listed in the index, so its cached value is left as it was: it is off
    by its coefficient on [x] times the change of [x]. *)
Theorem update_value_spec (all : bool) (s : model_based_opt) (x : nat) (val : Qc) :
  tableau_ok all s = true ->
  (x < length (m_var2value s))%nat ->
  NoDup (row_ids_of s x) ->
  m_var2value (update_value x val s) = upd x val (m_var2value s)
  /\ m_var2row_ids (update_value x val s) = m_var2row_ids s
  /\ (forall k, same_shape (get_row s k) (get_row (update_value x val s) k))
  /\ (forall k, k <> m_objective_id -> in_scope all (get_row s k) = true ->
        row_invariant (m_var2value (update_value x val s))
                      (get_row (update_value x val s) k) = true)
  /\ m_value (objective (update_value x val s)) = m_value (objective s)
  /\ (in_scope all (objective s) = true ->
      row_value (m_var2value (update_value x val s))
                (objective (update_value x val s))
      = m_value (objective (update_value x val s))
        + get_coefficient s m_objective_id x * (val - get_value s x)).
Proof.
  intros H Hx N. apply tableau_ok_ok in H.
  set (s0 := mk_opt (m_rows s) (m_var2row_ids s) (upd x val (m_var2value s))).
  assert (R0 : forall k, get_row s0 k = get_row s k) by reflexivity.
  assert (C0 : forall k, get_coefficient s0 k x = get_coefficient s k x)
    by reflexivity.
  destruct (update_value_loop x val (get_value s x) (row_ids_of s x) s0 N)
    as [A [B C]].
  change (fold_left _ (row_ids_of s x) s0) with (update_value x val s) in A, B, C.
  assert (Sh : forall k, same_shape (get_row s k) (get_row (update_value x val s) k)).
  { intros k. rewrite C, R0. destruct (_ && _ && _).
    - apply same_shape_set_value.
    - apply same_shape_refl. }
  assert (Obj : get_row (update_value x val s) m_objective_id
                = get_row s m_objective_id).
  { rewrite C.
    destruct (contains (row_ids_of s x) m_objective_id) eqn:K; trivial.
    apply contains_In in K. apply (wf_range _ (ok_wf _ _ H)) in K.
    unfold m_objective_id in K. lia. }
  split; [exact A|]. split; [exact B|]. split; [exact Sh|]. split; [|split].
  - intros k Hk Sc. pose proof (ok_inv _ _ H k Sc) as I.
    apply row_invariant_parts in I. destruct I as [I1 [I2 I3]].
    destruct (Sh k) as [Ev _].
    apply row_invariant_parts. rewrite Ev. split; [exact I1|]. split; [exact I2|].
    rewrite (row_value_shape _ _ _ (Sh k)), A.
    change (m_var2value s0) with (upd x val (m_var2value s)).
    rewrite row_value_upd by trivial. rewrite <- I3.
    rewrite C, R0, C0.
    rewrite (get_coefficient_sorted all s k x H Sc).
    fold (get_value s x).
    destruct (is_zero (coeff_of (m_vars (get_row s k)) x)) eqn:Z.
    + rewrite andb_false_r. simpl. apply is_zero_true in Z. rewrite Z. ring.
    + assert (In_k : In k (row_ids_of s x)).
      { apply (wf_index _ (ok_wf _ _ H)); trivial.
        destruct (in_dec Nat.eq_dec x (ids (m_vars (get_row s k)))) as [K|K];
          trivial.
        apply coeff_of_not_in in K. apply is_zero_false in Z. contradiction. }
      apply contains_In in In_k. rewrite In_k. simpl.
      assert (Lk : (k <? length (m_rows s)) = true).
      { apply Nat.ltb_lt. apply contains_In in In_k.
        apply (wf_range _ (ok_wf _ _ H)) in In_k. apply In_k. }
      change (m_rows s0) with (m_rows s). rewrite Lk. reflexivity.
  - unfold objective. rewrite Obj. reflexivity.
  - intros Sc. unfold objective in *. rewrite Obj.
    pose proof (ok_inv _ _ H _ Sc) as I.
    apply row_invariant_parts in I. destruct I as [I1 [I2 I3]].
    rewrite A. change (m_var2value s0) with (upd x val (m_var2value s)).
    rewrite row_value_upd by trivial. rewrite <- I3.
    rewrite (get_coefficient_sorted all s _ x H Sc). reflexivity.
Qed.

Lemma update_value_spec_witness :
  m_var2value (update_value 1 (rat (-3)) tableau_lub)
  = upd 1 (rat (-3)) (m_var2value tableau_lub)
  /\ m_var2row_ids (update_value 1 (rat (-3)) tableau_lub)
     = m_var2row_ids tableau_lub
  /\ (forall k, same_shape (get_row tableau_lub k)
                           (get_row (update_value 1 (rat (-3)) tableau_lub) k))
  /\ (forall k, k <> m_objective_id ->
        in_scope false (get_row tableau_lub k) = true ->
        row_invariant (m_var2value (update_value 1 (rat (-3)) tableau_lub))
                      (get_row (update_value 1 (rat (-3)) tableau_lub) k) = true)
  /\ m_value (objective (update_value 1 (rat (-3)) tableau_lub))
     = m_value (objective tableau_lub)
  /\ (in_scope false (objective tableau_lub) = true ->
      row_value (m_var2value (update_value 1 (rat (-3)) tableau_lub))
                (objective (update_value 1 (rat (-3)) tableau_lub))
      = m_value (objective (update_value 1 (rat (-3)) tableau_lub))
        + get_coefficient tableau_lub m_objective_id 1
          * (rat (-3) - get_value tableau_lub 1)).
Proof.
  apply update_value_spec.
  - vm_compute. reflexivity.
  - vm_compute. lia.
  - apply distinct_NoDup. vm_compute. reflexivity.
Defined.

(** ** [add_var], [add_constraint], [set_objective] *)

(** X3: [add_var] returns the number of variables there were as the id of
    the new one; [get_value] of the new variable is the value given and the
    other values are as before; on a well-formed tableau the new variable
    has no row in its index and occurs in no row, the index of the other
    variables and the rows are unchanged. *)
Theorem add_var_fresh (value : Qc) (s : model_based_opt) :
  well_formed s = true ->
  fst (add_var value s) = length (m_var2value s)
  /\ get_value (snd (add_var value s)) (fst (add_var value s)) = value
  /\ (forall x, x <> fst (add_var value s) ->
                get_value (snd (add_var value s)) x = get_value s x)
  /\ row_ids_of (snd (add_var value s)) (fst (add_var value s)) = []
  /\ (forall x, row_ids_of (snd (add_var value s)) x = row_ids_of s x)
  /\ m_rows (snd (add_var value s)) = m_rows s
  /\ (forall i, ~ In (fst (add_var value s))
                     (ids (m_vars (get_row (snd (add_var value s)) i)))).
Proof.
  intros H. apply well_formed_wf in H. destruct H as [W1 W2 W3 W4 W5].
  unfold add_var, get_value, row_ids_of. simpl.
  split; [reflexivity|]. split; [|split; [|split; [|split; [|split]]]].
  - rewrite app_nth2 by lia. rewrite Nat.sub_diag. reflexivity.
  - intros x Hx. destruct (Nat.lt_ge_cases x (length (m_var2value s))) as [L|L].
    + apply app_nth1. exact L.
    + rewrite !nth_overflow; trivial. rewrite length_app. simpl. lia.
  - rewrite nth_app_default. apply nth_overflow. lia.
  - intros x. apply nth_app_default.
  - reflexivity.
  - intros i Hi.
    change (get_row (mk_opt (m_rows s) (m_var2row_ids s ++ [[]])
                            (m_var2value s ++ [value])) i)
      with (get_row s i) in Hi.
    apply W4 in Hi. lia.
Qed.

Lemma add_var_fresh_witness :
  fst (add_var (rat 7) tableau_lub) = length (m_var2value tableau_lub)
  /\ get_value (snd (add_var (rat 7) tableau_lub))
               (fst (add_var (rat 7) tableau_lub)) = rat 7
  /\ (forall x, x <> fst (add_var (rat 7) tableau_lub) ->
                get_value (snd (add_var (rat 7) tableau_lub)) x
                = get_value tableau_lub x)
  /\ row_ids_of (snd (add_var (rat 7) tableau_lub))
                (fst (add_var (rat 7) tableau_lub)) = []
  /\ (forall x, row_ids_of (snd (add_var (rat 7) tableau_lub)) x
                = row_ids_of tableau_lub x)
  /\ m_rows (snd (add_var (rat 7) tableau_lub)) = m_rows tableau_lub
  /\ (forall i, ~ In (fst (add_var (rat 7) tableau_lub))
                     (ids (m_vars (get_row (snd (add_var (rat 7) tableau_lub)) i)))).
Proof.
  apply add_var_fresh. vm_compute. reflexivity.
Defined.

Lemma coeff_of_insert (v : var) (l : list var) (x : nat) :
  ~ In (m_id v) (ids l) ->
  coeff_of (insert_var v l) x = if m_id v =? x then m_coeff v else coeff_of l x.
Proof.
  induction l as [|h t IH]; intros N; simpl; trivial.
  destruct (m_id v <? m_id h); simpl; trivial.
  rewrite IH by (intros K; apply N; right; exact K).
  destruct (Nat.eqb_spec (m_id h) x) as [Eh|Nh];
    destruct (Nat.eqb_spec (m_id v) x) as [Ev|Nv]; trivial.
  elim N. left. congruence.
Qed.

Lemma coeff_of_sort (l : list var) (x : nat) :
  NoDup (ids l) -> coeff_of (sort_vars l) x = coeff_of l x.
Proof.
  induction l as [|v l IH]; intros N; simpl; trivial.
  inversion N as [|? ? Nv Nl]; subst.
  change (sort_vars (v :: l)) with (insert_var v (sort_vars l)).
  rewrite coeff_of_insert by (rewrite sort_vars_ids; exact Nv).
  rewrite IH by exact Nl. reflexivity.
Qed.

Lemma nth_snoc {A : Type} (l : list A) (x d : A) : nth (length l) (l ++ [x]) d = x.
Proof. rewrite app_nth2 by lia. rewrite Nat.sub_diag. reflexivity. Qed.

(** X4: [add_constraint] with terms that name each variable once, all of
    them variables of the index, appends one row and changes no other: the
    new row has the id [m_rows.size()] had before, is alive, carries the
    constant and the relation given, caches the value of the terms under
    the model, and [get_coefficient] reads back from it the coefficient
    given for each variable (zero for the others); the new row id is pushed
    on the index of exactly the variables of the terms; the model is
    unchanged. *)
Theorem add_constraint_lookup (coeffs : list var) (c : Qc) (rel : ineq_type)
    (s : model_based_opt) :
  distinct (ids coeffs) = true ->
  forallb (fun v => m_id v <? length (m_var2row_ids s)) coeffs = true ->
  length (m_rows (add_constraint coeffs c rel s)) = S (length (m_rows s))
  /\ (forall k, (k < length (m_rows s))%nat ->
                get_row (add_constraint coeffs c rel s) k = get_row s k)
  /\ m_alive (get_row (add_constraint coeffs c rel s) (length (m_rows s))) = true
  /\ m_const (get_row (add_constraint coeffs c rel s) (length (m_rows s))) = c
  /\ m_type (get_row (add_constraint coeffs c rel s) (length (m_rows s))) = rel
  /\ m_value (get_row (add_constraint coeffs c rel s) (length (m_rows s)))
     = terms_value s coeffs c
  /\ (forall x, get_coefficient (add_constraint coeffs c rel s)
                                (length (m_rows s)) x = coeff_of coeffs x)
  /\ (forall y j, In j (row_ids_of (add_constraint coeffs c rel s) y)
                  <-> In j (row_ids_of s y)
                      \/ (j = length (m_rows s) /\ In y (ids coeffs)))
  /\ m_var2value (add_constraint coeffs c rel s) = m_var2value s.
Proof.
  intros D R. apply distinct_NoDup in D. rewrite add_constraint_unfold.
  set (r := mk_row (sort_vars coeffs) c rel _ true).
  assert (G : get_row (mk_opt (m_rows s ++ [r])
                (fold_left (fun idx v => push_row_id idx (m_id v) (length (m_rows s)))
                           coeffs (m_var2row_ids s))
                (m_var2value s)) (length (m_rows s)) = r)
    by (unfold get_row; simpl; apply nth_snoc).
  unfold get_coefficient. rewrite G.
  split; [simpl; rewrite length_app; simpl; lia|].
  split; [intros k Hk; unfold get_row; simpl; apply app_nth1; exact Hk|].
  split; [reflexivity|]. split; [reflexivity|]. split; [reflexivity|].
  split; [apply set_row_value|]. split; [|split; [|reflexivity]].
  - intros x. simpl. rewrite coefficient_in_sorted by (apply sort_vars_sorted; exact D).
    apply coeff_of_sort. exact D.
  - intros y j. unfold row_ids_of. simpl. rewrite push_ids_In.
    split; intros [K|[K1 K2]]; auto.
    + right. tauto.
    + right. split; [exact K1|]. split; [exact K2|].
      rewrite forallb_forall in R. unfold ids in K2. apply in_map_iff in K2.
      destruct K2 as [v [Ev Hv]]. specialize (R v Hv). apply Nat.ltb_lt in R.
      congruence.
Qed.

Lemma add_constraint_lookup_witness :
  length (m_rows (add_constraint [mk_var 1 (rat 2); mk_var 0 (rat 3)] (rat 5)
                                 t_lt tableau_lub))
  = S (length (m_rows tableau_lub))
  /\ (forall x,
        get_coefficient
          (add_constraint [mk_var 1 (rat 2); mk_var 0 (rat 3)] (rat 5) t_lt
                          tableau_lub)
          (length (m_rows tableau_lub)) x
        = coeff_of [mk_var 1 (rat 2); mk_var 0 (rat 3)] x).
Proof.
  destruct (add_constraint_lookup [mk_var 1 (rat 2); mk_var 0 (rat 3)] (rat 5)
              t_lt tableau_lub)
    as [A [_ [_ [_ [_ [_ [B _]]]]]]].
  - vm_compute. reflexivity.
  - vm_compute. reflexivity.
  - split; [exact A|exact B].
Defined.

(** X5: [set_objective] on a tableau whose objective row is still empty,
    with terms that name each variable once, fills row 0 and nothing else:
    the objective row becomes alive with relation [t_le], the constant
    given and the value of the terms under the model as cached value, and
    [get_coefficient] reads back from it the coefficients given; the
    constraint rows, the variable index (which never lists row 0) and the
    model are unchanged. *)
Theorem set_objective_lookup (coeffs : list var) (c : Qc) (s : model_based_opt) :
  (0 < length (m_rows s))%nat ->
  is_nil (m_vars (objective s)) = true ->
  distinct (ids coeffs) = true ->
  m_alive (objective (set_objective coeffs c s)) = true
  /\ m_type (objective (set_objective coeffs c s)) = t_le
  /\ m_const (objective (set_objective coeffs c s)) = c
  /\ m_value (objective (set_objective coeffs c s)) = terms_value s coeffs c
  /\ (forall x, get_coefficient (set_objective coeffs c s) m_objective_id x
                = coeff_of coeffs x)
  /\ (forall k, k <> m_objective_id ->
                get_row (set_objective coeffs c s) k = get_row s k)
  /\ m_var2row_ids (set_objective coeffs c s) = m_var2row_ids s
  /\ m_var2value (set_objective coeffs c s) = m_var2value s.
Proof.
  intros L E D. apply distinct_NoDup in D.
  assert (Ev : m_vars (get_row s m_objective_id) = [])
    by (unfold objective in E; destruct (m_vars (get_row s m_objective_id));
        [reflexivity|discriminate]).
  unfold set_objective, set_row, objective, get_coefficient.
  rewrite Ev. simpl app.
  assert (G : forall r k, get_row (mk_opt (upd m_objective_id r (m_rows s))
                                         (m_var2row_ids s) (m_var2value s)) k
                          = if m_objective_id =? k then r else get_row s k).
  { intros r k. rewrite get_row_upd.
    assert (L' : (m_objective_id <? length (m_rows s)) = true)
      by (apply Nat.ltb_lt; exact L).
    rewrite L', andb_true_r. reflexivity. }
  split; [rewrite G; reflexivity|]. split; [rewrite G; reflexivity|].
  split; [rewrite G; reflexivity|].
  split; [rewrite G; apply set_row_value|].
  split; [|split; [|split; reflexivity]].
  - intros x. rewrite G. cbn [Nat.eqb m_objective_id m_vars].
    rewrite coefficient_in_sorted by (apply sort_vars_sorted; exact D).
    apply coeff_of_sort. exact D.
  - intros k Hk. rewrite G.
    destruct (Nat.eqb_spec m_objective_id k) as [K|K]; [congruence|reflexivity].
Qed.

Lemma set_objective_lookup_witness :
  m_alive (objective (set_objective [mk_var 0 (rat 2)] (rat 1) tableau_two_sided))
  = true
  /\ (forall x, get_coefficient
                  (set_objective [mk_var 0 (rat 2)] (rat 1) tableau_two_sided)
                  m_objective_id x
                = coeff_of [mk_var 0 (rat 2)] x).
Proof.
  destruct (set_objective_lookup [mk_var 0 (rat 2)] (rat 1) tableau_two_sided)
    as [A [_ [_ [_ [B _]]]]].
  - vm_compute. lia.
  - vm_compute. reflexivity.
  - vm_compute. reflexivity.
  - split; [exact A|exact B].
Defined.

(** ** The three ways of [project] *)

(** [project x] either resolves a list of rows against a pivot and retires
    the pivot (the pivot is an equality, or no row that counts for [x] is),
    or finds the rows that count for [x] all on one side, none an
    equality, and retires them. *)
Lemma project_cases (all : bool) (s : model_based_opt) (x : nat) :
  ok all s ->
  (exists p l,
      resolvable s x p l
      /\ project x s = kill p (resolve_all p (get_coefficient s p x) x l s)
      /\ (m_type (get_row s p) = t_eq
          \/ forall i, In i (row_ids_of s x) -> live_on s x i = true ->
                       m_type (get_row s i) <> t_eq))
  \/ (exists l,
      project x s = kill_all l s
      /\ (forall i, In i l <-> In i (row_ids_of s x) /\ live_on s x i = true)
      /\ (forall i, In i l -> m_type (get_row s i) <> t_eq)
      /\ ((forall i, In i l -> is_pos (get_coefficient s i x) = true)
          \/ (forall i, In i l -> is_pos (get_coefficient s i x) = false))).
Proof.
  intros O.
  destruct (find (live_equality s x) (row_ids_of s x)) as [e|] eqn:F.
  - left. exists e, (fresh_ids [e] (row_ids_of s x)).
    split; [apply (equality_resolvable all); trivial|]. split.
    + unfold project. rewrite (select_equality _ _ _ F). apply solve_for_unfold.
    + left. apply find_some in F. destruct F as [_ F].
      unfold live_equality in F. apply andb_true_iff in F.
      apply is_eq_true. apply F.
  - assert (NoEq : forall i, In i (row_ids_of s x) -> live_on s x i = true ->
                             m_type (get_row s i) <> t_eq).
    { intros i Hi Li E. pose proof (find_none _ _ F i Hi) as K.
      unfold live_equality in K. rewrite Li, E in K. discriminate. }
    destruct (select_no_equality _ _ F) as [st [Es I]].
    assert (Side : forall i, In i (glb_rows st ++ lub_rows st) <->
                             In i (row_ids_of s x) /\ live_on s x i = true).
    { intros i. rewrite in_app_iff, (si_lub _ _ _ _ I), (si_glb _ _ _ _ I).
      destruct (is_pos (get_coefficient s i x)); intuition discriminate. }
    destruct (pivot_of st) as [p|] eqn:Hp.
    + left. exists p, (filter (fun i => negb (i =? p)) (glb_rows st ++ lub_rows st)).
      split; [apply (selection_resolvable all s x st p); trivial|]. split.
      * unfold project. rewrite Es. cbv zeta. rewrite Hp.
        apply f_equal. apply resolve_others_filter.
      * right. exact NoEq.
    + right. exists (glb_rows st ++ lub_rows st).
      split; [unfold project; rewrite Es; cbv zeta; rewrite Hp; reflexivity|].
      split; [exact Side|]. split.
      * intros i Hi. apply Side in Hi. apply NoEq; tauto.
      * destruct (si_lub_side _ _ _ _ I) as [_ Sl].
        destruct (si_glb_side _ _ _ _ I) as [_ Sg].
        unfold pivot_of in Hp.
        destruct (length (lub_rows st) <=? length (glb_rows st)).
        -- rewrite Hp in Sl. right. intros i Hi. rewrite Sl, app_nil_r in Hi.
           apply (si_glb _ _ _ _ I) in Hi. tauto.
        -- rewrite Hp in Sg. left. intros i Hi. rewrite Sg in Hi. simpl in Hi.
           apply (si_lub _ _ _ _ I) in Hi. tauto.
Qed.

(** A variable that no live constraint row mentions is not brought back by
    [project]. *)
Lemma project_keeps_out (all : bool) (s : model_based_opt) (x y : nat) :
  ok all s ->
  (forall k, k <> m_objective_id -> m_alive (get_row s k) = true ->
             ~ In y (ids (m_vars (get_row s k)))) ->
  forall k, k <> m_objective_id -> m_alive (get_row (project x s) k) = true ->
            ~ In y (ids (m_vars (get_row (project x s) k))).
Proof.
  intros O Out k Hk.
  destruct (project_cases all s x O) as [[p [l [Rs [P _]]]]|[l [P _]]]; rewrite P.
  - destruct (pivot_phase all s x p l O Rs) as [_ [_ [_ [_ [Al R]]]]].
    cbv zeta in Al, R. rewrite Al, R.
    destruct (p =? k) eqn:Epk; [discriminate|].
    intros Ak. destruct (contains l k) eqn:C; [|apply Out; trivial].
    intros Hy. unfold resolved in Hy. apply resolve_row_ids in Hy.
    destruct Rs as [[Pp Lp] _ _ _].
    destruct Hy as [Hy|Hy]; revert Hy.
    + apply Out; trivial.
    + apply Out.
      * apply (wf_range _ (ok_wf _ _ O)) in Pp. unfold m_objective_id. lia.
      * apply (live_on_parts s x p Lp).
  - rewrite kill_all_get_row. destruct (contains l k); [discriminate|].
    apply Out; trivial.
Qed.

Lemma In_live_rows (s : model_based_opt) (r : row) :
  In r (get_live_rows s) <->
  exists k, (k < length (m_rows s))%nat /\ get_row s k = r /\ m_alive r = true.
Proof.
  unfold get_live_rows. rewrite filter_In. split.
  - intros [H A]. destruct (In_nth _ _ default_row H) as [k [Hk E]].
    exists k. auto.
  - intros [k [Hk [E A]]]. split; trivial. rewrite <- E. apply nth_In. exact Hk.
Qed.

Lemma project_vars_snoc (vars : list nat) (x : nat) (s : model_based_opt) :
  project_vars (vars ++ [x]) s = project x (project_vars vars s).
Proof. unfold project_vars. rewrite fold_left_app. reflexivity. Qed.

(** X6: [project(num_vars, vars)] on a tableau that satisfies the
    invariants eliminates every variable of the list: afterwards no live
    constraint row mentions any of them (a later projection does not bring
    an earlier variable back), so the only row [get_live_rows] can return
    that mentions one is the objective row, which is left as it was; the
    model is unchanged and there are no more live rows than before. *)
Theorem project_vars_eliminates (s : model_based_opt) (vars : list nat) :
  tableau_ok false s = true ->
  (forall x k, In x vars -> k <> m_objective_id ->
     m_alive (get_row (project_vars vars s) k) = true ->
     ~ In x (ids (m_vars (get_row (project_vars vars s) k))))
  /\ (forall x r, In x vars -> In r (get_live_rows (project_vars vars s)) ->
        In x (ids (m_vars r)) -> r = objective s)
  /\ objective (project_vars vars s) = objective s
  /\ m_var2value (project_vars vars s) = m_var2value s
  /\ (live_rows (project_vars vars s) <= live_rows s)%nat.
Proof.
  intros H. apply tableau_ok_ok in H.
  assert (K : ok false (project_vars vars s)
              /\ (forall x k, In x vars -> k <> m_objective_id ->
                    m_alive (get_row (project_vars vars s) k) = true ->
                    ~ In x (ids (m_vars (get_row (project_vars vars s) k))))
              /\ objective (project_vars vars s) = objective s
              /\ m_var2value (project_vars vars s) = m_var2value s
              /\ (live_rows (project_vars vars s) <= live_rows s)%nat).
  { induction vars as [|x vars IH] using rev_ind.
    - split; [exact H|]. split; [intros x k []|]. auto.
    - destruct IH as [O [E [Ob [Va Li]]]]. rewrite project_vars_snoc.
      destruct (project_ok false x _ O) as [O' [X [R0 V0]]].
      split; [exact O'|]. split; [|split; [|split]].
      + intros y k Hy Hk Ak. apply in_app_iff in Hy. destruct Hy as [Hy|[<-|[]]].
        * apply (project_keeps_out false); trivial. intros k'. apply E. exact Hy.
        * apply X; trivial.
      + unfold objective in *. rewrite R0. exact Ob.
      + rewrite V0. exact Va.
      + destruct (project_kills (project_vars vars s) x) as [L [M _]].
        assert (live_rows (project x (project_vars vars s))
                <= live_rows (project_vars vars s))%nat; [|lia].
        unfold live_rows. apply live_le; trivial. }
  destruct K as [O [E [Ob [Va Li]]]].
  split; [exact E|]. split; [|auto].
  intros x r Hx Hr Hin. apply In_live_rows in Hr.
  destruct Hr as [k [_ [Ek Ak]]]. subst r.
  destruct (Nat.eq_dec k m_objective_id) as [->|Nk]; [exact Ob|].
  elim (E x k Hx Nk Ak Hin).
Qed.

Lemma project_vars_eliminates_witness :
  (forall x k, In x [1%nat; 0%nat] -> k <> m_objective_id ->
     m_alive (get_row (project_vars [1%nat; 0%nat] tableau_lub) k) = true ->
     ~ In x (ids (m_vars (get_row (project_vars [1%nat; 0%nat] tableau_lub) k))))
  /\ (forall x r, In x [1%nat; 0%nat] ->
        In r (get_live_rows (project_vars [1%nat; 0%nat] tableau_lub)) ->
        In x (ids (m_vars r)) -> r = objective tableau_lub)
  /\ objective (project_vars [1%nat; 0%nat] tableau_lub) = objective tableau_lub
  /\ m_var2value (project_vars [1%nat; 0%nat] tableau_lub)
     = m_var2value tableau_lub
  /\ (live_rows (project_vars [1%nat; 0%nat] tableau_lub)
      <= live_rows tableau_lub)%nat.
Proof.
  apply project_vars_eliminates. vm_compute. reflexivity.
Defined.

(** * What the eliminations mean for the constraints *)

(** ** Choosing a value for the eliminated variable *)

Lemma ratio_neg (a1 a2 : Qc) :
  a1 <> 0 -> a2 <> 0 -> is_pos a1 = is_pos a2 -> - a2 / a1 < 0.
Proof.
  intros H1 H2 Hs.
  assert (E : (- a2 / a1) * a1 = - a2) by (field; assumption).
  revert E. generalize (- a2 / a1). intros d E.
  assert (E' : (this d * this a1 == - this a2)%Q)
    by (rewrite <- this_mult, <- this_opp, E; reflexivity).
  destruct (is_pos a1) eqn:P1, (is_pos a2) eqn:P2; try congruence.
  - apply is_pos_true in P1, P2. unfold Qclt in *. simpl (this 0) in *. nra.
  - apply is_pos_false in P1, P2.
    apply Qc_neq_lt in P1; trivial. apply Qc_neq_lt in P2; trivial.
    unfold Qclt in *. simpl (this 0) in *. nra.
Qed.

Lemma two_nonzero : 1 + 1 <> (0 : Qc).
Proof. intros H. apply (f_equal this) in H. vm_compute in H. discriminate. Qed.

Lemma halve (d : Qc) : 0 < d -> exists h, 0 < h /\ h < d.
Proof.
  intros Hd. exists (d / (1 + 1)).
  assert (E : d / (1 + 1) + d / (1 + 1) = d) by (field; exact two_nonzero).
  revert E. generalize (d / (1 + 1)). intros h E.
  assert (E' : (this h + this h == this d)%Q)
    by (rewrite <- this_plus, E; reflexivity).
  unfold Qclt in *. simpl (this 0) in *. split; lra.
Qed.

Lemma lower_of (a b : Qc) :
  0 < a -> 0 < b -> exists c, 0 < c /\ c <= a /\ c <= b.
Proof.
  intros Ha Hb. destruct (Qclt_le_dec a b) as [L|L].
  - exists a. split; trivial. split; [apply Qcle_refl|apply Qclt_le_weak; exact L].
  - exists b. split; trivial. split; [exact L|apply Qcle_refl].
Qed.

(** A small positive step keeps every strictly negative value [R + k * w]
    negative, whatever the slopes [k]. *)
Lemma small_steps (pairs : list (Qc * Qc)) (d : Qc) :
  0 < d ->
  exists w0, 0 < w0 /\
    forall w, 0 < w -> w <= w0 ->
      w < d /\ forall p, In p pairs -> fst p < 0 -> fst p + snd p * w < 0.
Proof.
  intros Hd. induction pairs as [|[R k] pairs IH].
  - destruct (halve d Hd) as [h [H0 H1]]. exists h. split; trivial.
    intros w Hw Le. split; [|intros p []].
    apply Qcle_lt_trans with h; trivial.
  - destruct IH as [w0 [H0 IH]].
    destruct (Qclt_le_dec R 0) as [RN|RN]; [destruct (Qclt_le_dec 0 k) as [KP|KP]|].
    + assert (Kn : k + k <> 0).
      { intros E. apply (f_equal this) in E. revert E KP. to_Q.
        intros E KP. assert (E' : (this k + this k == 0)%Q).
        { rewrite <- this_plus. rewrite E. reflexivity. }
        lra. }
      assert (E : (- R / (k + k)) * (k + k) = - R) by (field; exact Kn).
      revert E. generalize (- R / (k + k)). intros b E.
      assert (E' : (this b * (this k + this k) == - this R)%Q)
        by (rewrite <- this_plus, <- this_mult, <- this_opp, E; reflexivity).
      assert (Hb : 0 < b) by (revert RN KP; to_Q; intros; nra).
      destruct (lower_of w0 b H0 Hb) as [c [Hc [C1 C2]]].
      exists c. split; trivial. intros w Hw Le.
      destruct (IH w Hw (Qcle_trans _ _ _ Le C1)) as [A B].
      split; trivial. intros p [<-|Hp] Neg; [|apply B; trivial].
      simpl. pose proof (Qcle_trans _ _ _ Le C2) as Lb.
      revert RN KP Hw Lb. to_Q. intros. nra.
    + exists w0. split; trivial. intros w Hw Le.
      destruct (IH w Hw Le) as [A B]. split; trivial.
      intros p [<-|Hp] Neg; [|apply B; trivial].
      simpl. revert RN KP Hw. to_Q. intros. nra.
    + exists w0. split; trivial. intros w Hw Le.
      destruct (IH w Hw Le) as [A B]. split; trivial.
      intros p [<-|Hp] Neg; [|apply B; trivial].
      simpl in Neg. exfalso. revert RN Neg. to_Q. intros. lra.
Qed.

(** Far enough down, every value [V + c * t] with a positive slope [c] is
    negative. *)
Lemma far_steps (pairs : list (Qc * Qc)) :
  (forall p, In p pairs -> 0 < snd p) ->
  exists t0, forall t, t <= t0 ->
    forall p, In p pairs -> fst p + snd p * t < 0.
Proof.
  induction pairs as [|[V c] pairs IH]; intros Pos.
  - exists 0. intros t _ p [].
  - destruct IH as [t0 IH]; [intros p Hp; apply Pos; right; exact Hp|].
    assert (Cp : 0 < c) by (apply (Pos (V, c)); left; reflexivity).
    assert (Cn : c <> 0).
    { intros E. rewrite E in Cp. revert Cp. to_Q. intros. lra. }
    assert (E : V + c * (- (V + 1) / c) = - (1)) by (field; exact Cn).
    revert E. generalize (- (V + 1) / c). intros b E.
    assert (E' : (this V + this c * this b == - (1))%Q).
    { rewrite <- this_mult, <- this_plus, E. reflexivity. }
    destruct (Qclt_le_dec t0 b) as [L|L].
    + exists t0. intros t Le p [<-|Hp]; [|apply IH; trivial].
      simpl. revert Cp Le L. to_Q. intros. nra.
    + exists b. intros t Le p [<-|Hp].
      * simpl. revert Cp Le. to_Q. intros. nra.
      * apply IH; trivial. apply Qcle_trans with b; trivial.
Qed.

(** ** The value and the relation of a resolvent *)

Lemma mul_add_row_value (m : list Qc) (same_sign : bool) (c : Qc) (r1 r2 : row) :
  row_value m (mul_add_row same_sign c r1 r2)
  = row_value m r1 + c * row_value m r2.
Proof.
  rewrite !row_value_dot. unfold mul_add_row. simpl. rewrite dot_merge. ring.
Qed.

Lemma resolved_value (s : model_based_opt) (p i x : nat) (a : Qc) (m : list Qc) :
  m_alive (get_row s i) = true ->
  row_value m (resolved s p a i x)
  = row_value m (get_row s i)
    + (- get_coefficient s i x / a) * row_value m (get_row s p).
Proof.
  intros A. unfold resolved, resolve_row, get_coefficient. rewrite A.
  destruct (is_zero _) eqn:Z.
  - apply is_zero_true in Z. rewrite Z. ring.
  - apply mul_add_row_value.
Qed.

Lemma resolved_type (s : model_based_opt) (p i x : nat) (a : Qc) :
  m_alive (get_row s i) = true ->
  m_type (resolved s p a i x)
  = if is_zero (- get_coefficient s i x / a) then m_type (get_row s i)
    else combine_type (negb (i =? m_objective_id)
                       && Bool.eqb (is_pos a) (is_pos (get_coefficient s i x)))
                      (m_type (get_row s i)) (m_type (get_row s p)).
Proof.
  intros A. unfold resolved, resolve_row, get_coefficient. rewrite A.
  destruct (is_zero _); reflexivity.
Qed.

Lemma resolved_alive (s : model_based_opt) (p i x : nat) (a : Qc) :
  m_alive (resolved s p a i x) = m_alive (get_row s i).
Proof. apply resolve_row_alive. Qed.

Lemma holds_zero (t : ineq_type) : t <> t_lt -> holds t 0.
Proof.
  destruct t; simpl; intros H; [reflexivity|congruence|apply Qcle_refl].
Qed.

Lemma holds_neg (t : ineq_type) (v : Qc) : t <> t_eq -> v < 0 -> holds t v.
Proof.
  destruct t; simpl; intros H L; [congruence|exact L|apply Qclt_le_weak; exact L].
Qed.

(** A live constraint row that is neither the pivot nor one of the rows
    resolved against it has no coefficient on [x]. *)
Lemma off_pivot_coefficient (all : bool) (s : model_based_opt) (x p : nat)
    (l : list nat) (k : nat) :
  ok all s -> resolvable s x p l ->
  k <> m_objective_id -> m_alive (get_row s k) = true -> k <> p -> ~ In k l ->
  coeff_of (m_vars (get_row s k)) x = 0.
Proof.
  intros O Rs Hk Ak Np Nl.
  destruct (in_dec Nat.eq_dec x (ids (m_vars (get_row s k)))) as [K|K];
    [|apply coeff_of_not_in; exact K].
  destruct (mentions_live_on all s k x O Hk Ak K) as [K1 K2].
  destruct (rs_all _ _ _ _ Rs k K1 K2); contradiction.
Qed.

(** ** Extending a model of the resolvents to the eliminated variable *)

(** The rows of [s'] are those of [s] after the rows of [l] were resolved
    against the pivot [p] of [x] and the pivot was retired.  Every model of
    the live constraint rows of [s'] becomes a model of those of [s] by a
    suitable value for [x]: one that makes the pivot tight when the pivot
    is not strict, and as close to tight as wanted when it is. *)
Lemma extend_model (all : bool) (s s' : model_based_opt) (x p : nat)
    (l : list nat) (m : list Qc) (d : Qc) :
  ok all s -> resolvable s x p l ->
  (m_type (get_row s p) = t_lt ->
   forall i, In i l -> live_on s x i = true -> m_type (get_row s i) <> t_eq) ->
  (forall k, k <> m_objective_id ->
     get_row s' k =
     if p =? k then set_alive (get_row s p) false
     else if contains l k then resolved s p (get_coefficient s p x) k x
     else get_row s k) ->
  length (m_var2value s') = length (m_var2value s) ->
  (x < length (m_var2value s))%nat ->
  feasible s' m -> 0 < d ->
  exists v, feasible s (upd x v m)
            /\ - d < row_value (upd x v m) (get_row s p)
            /\ (m_type (get_row s p) <> t_lt ->
                row_value (upd x v m) (get_row s p) = 0)
            /\ (m_type (get_row s p) <> t_lt ->
                v = nth x m 0 - row_value m (get_row s p) / get_coefficient s p x).
Proof.
  intros O Rs NoEq Rows Len Hx [Lm F] Hd.
  pose proof Rs as [[Pp Lp] [Nl Npl] Rr Ra].
  destruct (live_on_parts _ _ _ Lp) as [Ap Na].
  assert (P0 : p <> m_objective_id).
  { apply (wf_range _ (ok_wf _ _ O)) in Pp. unfold m_objective_id. lia. }
  assert (Sorted : forall k, m_alive (get_row s k) = true ->
                             sorted_ids (m_vars (get_row s k)) = true).
  { intros k Ak. pose proof (live_row_invariant all s k O Ak) as I.
    apply row_invariant_parts in I. apply I. }
  assert (Co : forall k, m_alive (get_row s k) = true ->
                get_coefficient s k x = coeff_of (m_vars (get_row s k)) x).
  { intros k Ak. apply (get_coefficient_sorted all); trivial.
    apply in_scope_alive. exact Ak. }
  assert (Hxm : (x < length m)%nat) by (rewrite Lm, Len; exact Hx).
  set (a := get_coefficient s p x) in *.
  set (pairs := map (fun i => (row_value m (resolved s p a i x),
                               - get_coefficient s i x / a)) l).
  assert (W : exists w, 0 <= w /\ w < d
                /\ (m_type (get_row s p) <> t_lt -> w = 0)
                /\ (m_type (get_row s p) = t_lt ->
                    0 < w /\ forall q, In q pairs -> fst q < 0 ->
                                       fst q + snd q * w < 0)).
  { destruct (m_type (get_row s p)) eqn:Tp.
    - exists 0. split; [apply Qcle_refl|]. split; [exact Hd|].
      split; [reflexivity|discriminate].
    - destruct (small_steps pairs d Hd) as [w0 [H0 Hw]].
      destruct (Hw w0 H0 (Qcle_refl _)) as [A B].
      exists w0. split; [apply Qclt_le_weak; exact H0|]. split; [exact A|].
      split; [congruence|]. intros _. split; trivial.
    - exists 0. split; [apply Qcle_refl|]. split; [exact Hd|].
      split; [reflexivity|discriminate]. }
  destruct W as [w [W0 [Wd [Wz Ws]]]].
  set (v := nth x m 0 + (- w - row_value m (get_row s p)) / a).
  assert (Val : forall k, m_alive (get_row s k) = true ->
                  row_value (upd x v m) (get_row s k)
                  = row_value m (get_row s k)
                    + (- get_coefficient s k x / a) * row_value m (get_row s p)
                    + (- get_coefficient s k x / a) * w).
  { intros k Ak. rewrite row_value_upd by (trivial; apply Sorted; exact Ak).
    rewrite <- (Co k Ak). unfold v. field. exact Na. }
  assert (Vp : row_value (upd x v m) (get_row s p) = - w).
  { rewrite (Val p Ap). fold a. field. exact Na. }
  exists v. split; [|split; [|split]].
  - split; [rewrite upd_length, Lm; exact Len|].
    intros k Hk Ak.
    destruct (Nat.eq_dec k p) as [->|Np].
    { rewrite Vp. destruct (m_type (get_row s p)) eqn:Tp.
      - rewrite Wz by discriminate. simpl. ring.
      - simpl. destruct (Ws eq_refl) as [Wp _]. revert Wp. to_Q. intros. lra.
      - rewrite Wz by discriminate. simpl. apply Qcle_refl. }
    assert (Epk : (p =? k) = false) by (apply Nat.eqb_neq; congruence).
    pose proof (Rows k Hk) as Rk. rewrite Epk in Rk.
    destruct (contains l k) eqn:C.
    + apply contains_In in C.
      assert (Fk := F k Hk). rewrite Rk, resolved_alive in Fk. specialize (Fk Ak).
      rewrite resolved_type in Fk by exact Ak.
      rewrite (resolved_value s p k x a m Ak) in Fk.
      rewrite (Val k Ak).
      set (c := get_coefficient s k x) in *.
      set (R := row_value m (get_row s k) + - c / a * row_value m (get_row s p)) in *.
      destruct (is_zero (- c / a)) eqn:Z.
      { apply is_zero_true in Z. rewrite Z.
        replace (R + 0 * w) with R by ring. exact Fk. }
      assert (Nc : c <> 0).
      { intros E. apply is_zero_false in Z. apply Z. rewrite E. field. exact Na. }
      assert (Lk : live_on s x k = true).
      { unfold live_on. rewrite Ak. fold c.
        apply is_zero_false in Nc. rewrite Nc. reflexivity. }
      assert (E0 : (k =? m_objective_id) = false) by (apply Nat.eqb_neq; exact Hk).
      rewrite E0 in Fk. simpl negb in Fk. rewrite andb_true_l in Fk.
      destruct (is_lt (m_type (get_row s p))) eqn:Tp.
      * apply is_lt_true in Tp. destruct (Ws Tp) as [Wp Wq].
        pose proof (NoEq Tp k C Lk) as Ne.
        rewrite Tp in Fk.
        destruct (Bool.eqb (is_pos a) (is_pos c)) eqn:Sg.
        -- apply eqb_prop in Sg. pose proof (ratio_neg a c Na Nc Sg) as Kn.
           assert (Rn : R <= 0).
           { apply (holds_nonpos _ _ Fk). }
           apply holds_neg; trivial.
           revert Kn Rn Wp. generalize (- c / a). intros kk. to_Q. intros. nra.
        -- simpl in Fk. apply holds_neg; trivial.
           apply (Wq (R, - c / a)); trivial.
           unfold pairs. apply in_map_iff. exists k. split; trivial.
           rewrite (resolved_value s p k x a m Ak). reflexivity.
      * assert (Tp' : m_type (get_row s p) <> t_lt)
          by (intros E; rewrite E in Tp; discriminate).
        rewrite (Wz Tp'). replace (R + - c / a * 0) with R by ring.
        unfold combine_type in Fk. rewrite Tp in Fk.
        rewrite !andb_false_r in Fk. exact Fk.
    + apply contains_not_In in C.
      assert (Fk := F k Hk). rewrite Rk in Fk. specialize (Fk Ak).
      rewrite (Val k Ak).
      assert (Ck : get_coefficient s k x = 0).
      { rewrite (Co k Ak). apply (off_pivot_coefficient all s x p l k); trivial. }
      rewrite Ck.
      replace (row_value m (get_row s k) + - 0 / a * row_value m (get_row s p)
               + - 0 / a * w)
        with (row_value m (get_row s k)) by (field; exact Na).
      exact Fk.
  - rewrite Vp. revert Wd. to_Q. intros. lra.
  - intros Tp. rewrite Vp, (Wz Tp). ring.
  - intros Tp. unfold v. rewrite (Wz Tp). field. exact Na.
Qed.

Lemma ok_feasible (all : bool) (s : model_based_opt) :
  ok all s -> feasible s (m_var2value s).
Proof.
  intros O. split; trivial. intros i Hi Ai.
  pose proof (live_row_invariant all s i O Ai) as I.
  apply row_invariant_parts in I. destruct I as [_ [_ I]]. rewrite <- I.
  apply satisfied_holds. apply (ok_sat _ _ O); trivial.
Qed.

(** When the rows that count for [x] are all on one side and none is an
    equality, a value far enough on the free side satisfies them all. *)
Lemma extend_one_sided (all : bool) (s : model_based_opt) (x : nat)
    (l : list nat) (m : list Qc) :
  ok all s ->
  (forall i, In i l <-> In i (row_ids_of s x) /\ live_on s x i = true) ->
  (forall i, In i l -> m_type (get_row s i) <> t_eq) ->
  (forall i, In i l -> is_pos (get_coefficient s i x) = true)
  \/ (forall i, In i l -> is_pos (get_coefficient s i x) = false) ->
  (x < length (m_var2value s))%nat ->
  feasible (kill_all l s) m ->
  exists v, feasible s (upd x v m).
Proof.
  intros O Hl NoEq Side Hx [Lm F]. rewrite kill_all_vals in Lm.
  assert (Hxm : (x < length m)%nat) by (rewrite Lm; exact Hx).
  assert (Sorted : forall k, m_alive (get_row s k) = true ->
                             sorted_ids (m_vars (get_row s k)) = true).
  { intros k Ak. pose proof (live_row_invariant all s k O Ak) as I.
    apply row_invariant_parts in I. apply I. }
  assert (Co : forall k, m_alive (get_row s k) = true ->
                get_coefficient s k x = coeff_of (m_vars (get_row s k)) x).
  { intros k Ak. apply (get_coefficient_sorted all); trivial.
    apply in_scope_alive. exact Ak. }
  assert (Other : forall v k, k <> m_objective_id -> m_alive (get_row s k) = true ->
                    ~ In k l ->
                    holds (m_type (get_row s k))
                          (row_value (upd x v m) (get_row s k))).
  { intros v k Hk Ak Nk.
    assert (Fk := F k Hk). rewrite kill_all_get_row in Fk.
    apply contains_not_In in Nk. rewrite Nk in Fk. specialize (Fk Ak).
    rewrite row_value_upd by (trivial; apply Sorted; exact Ak).
    assert (Ck : coeff_of (m_vars (get_row s k)) x = 0).
    { destruct (in_dec Nat.eq_dec x (ids (m_vars (get_row s k)))) as [K|K];
        [|apply coeff_of_not_in; exact K].
      destruct (mentions_live_on all s k x O Hk Ak K) as [K1 K2].
      apply contains_not_In in Nk. elim Nk. apply Hl. split; trivial. }
    rewrite Ck. replace (row_value m (get_row s k) + 0 * (v - nth x m 0))
      with (row_value m (get_row s k)) by ring.
    exact Fk. }
  assert (Alive : forall i, In i l -> m_alive (get_row s i) = true
                                      /\ get_coefficient s i x <> 0).
  { intros i Hi. apply Hl in Hi. apply live_on_parts. apply Hi. }
  destruct Side as [Pos|Neg].
  - destruct (far_steps (map (fun i => (row_value m (get_row s i),
                                        get_coefficient s i x)) l)) as [t0 Ht].
    { intros q Hq. apply in_map_iff in Hq. destruct Hq as [i [<- Hi]]. simpl.
      apply sign_pos; [apply Alive|apply Pos]; exact Hi. }
    exists (nth x m 0 + t0). split; [rewrite upd_length; exact Lm|].
    intros k Hk Ak. destruct (in_dec Nat.eq_dec k l) as [K|K]; [|apply Other; trivial].
    apply holds_neg; [apply NoEq; exact K|].
    rewrite row_value_upd by (trivial; apply Sorted; exact Ak).
    rewrite <- (Co k Ak).
    replace (nth x m 0 + t0 - nth x m 0) with t0 by ring.
    apply (Ht t0 (Qcle_refl _) (row_value m (get_row s k), get_coefficient s k x)).
    apply in_map_iff. exists k. split; trivial.
  - destruct (far_steps (map (fun i => (row_value m (get_row s i),
                                        - get_coefficient s i x)) l)) as [t0 Ht].
    { intros q Hq. apply in_map_iff in Hq. destruct Hq as [i [<- Hi]]. simpl.
      pose proof (sign_neg _ (proj2 (Alive i Hi)) (Neg i Hi)) as K.
      revert K. to_Q. intros. lra. }
    exists (nth x m 0 - t0). split; [rewrite upd_length; exact Lm|].
    intros k Hk Ak. destruct (in_dec Nat.eq_dec k l) as [K|K]; [|apply Other; trivial].
    apply holds_neg; [apply NoEq; exact K|].
    rewrite row_value_upd by (trivial; apply Sorted; exact Ak).
    rewrite <- (Co k Ak).
    replace (get_coefficient s k x * (nth x m 0 - t0 - nth x m 0))
      with (- get_coefficient s k x * t0) by ring.
    apply (Ht t0 (Qcle_refl _) (row_value m (get_row s k), - get_coefficient s k x)).
    apply in_map_iff. exists k. split; trivial.
Qed.

(** ** [project] and the models of the constraints *)

(** X7: model-based projection is sound.  On a tableau that satisfies the
    invariants, the live constraint rows left by [project x] are satisfied
    by the current model, and every model of them becomes a model of the
    live constraint rows there were before by a suitable value for [x]
    alone: what [project x] leaves implies that the constraints have a
    solution in [x]. *)
Theorem project_sound (s : model_based_opt) (x : nat) :
  tableau_ok false s = true ->
  (x < length (m_var2value s))%nat ->
  feasible (project x s) (m_var2value s)
  /\ forall vals, feasible (project x s) vals ->
                  exists v, feasible s (upd x v vals).
Proof.
  intros H Hx. apply tableau_ok_ok in H.
  destruct (project_ok false x s H) as [O' [_ [_ V']]].
  split; [rewrite <- V'; apply (ok_feasible false); exact O'|].
  intros vals Fe.
  destruct (project_cases false s x H)
    as [[p [l [Rs [P Ty]]]]|[l [P [Hl [NoEq Side]]]]].
  - destruct (pivot_phase false s x p l H Rs) as [_ [_ [_ [Va [_ R]]]]].
    cbv zeta in Va, R. rewrite <- P in Va, R.
    assert (NoEq : m_type (get_row s p) = t_lt ->
              forall i, In i l -> live_on s x i = true ->
                        m_type (get_row s i) <> t_eq).
    { intros Tp i Hi Li. destruct Ty as [Ty|Ty]; [congruence|].
      apply Ty; trivial. apply (rs_rows _ _ _ _ Rs). exact Hi. }
    assert (One : 0 < 1) by reflexivity.
    destruct (extend_model false s (project x s) x p l vals 1 H Rs NoEq
                (fun k _ => R k) (f_equal (@length Qc) Va) Hx Fe One)
      as [v [Fv _]].
    exists v. exact Fv.
  - rewrite P in Fe. apply (extend_one_sided false s x l vals); trivial.
Qed.

Lemma project_sound_witness :
  feasible (project 1 tableau_lub) (m_var2value tableau_lub)
  /\ forall vals, feasible (project 1 tableau_lub) vals ->
                  exists v, feasible tableau_lub (upd 1 v vals).
Proof.
  apply project_sound; vm_compute; [reflexivity|lia].
Defined.

(** X8: when [project x] finds a live equality on [x], it loses nothing:
    every model of the live constraint rows before is a model of the live
    constraint rows after (with X7: the rows after have a model exactly
    when the rows before have one with the same values off [x]). *)
Theorem project_equality_exact (s : model_based_opt) (x e : nat) :
  tableau_ok false s = true ->
  find (live_equality s x) (row_ids_of s x) = Some e ->
  forall vals, feasible s vals -> feasible (project x s) vals.
Proof.
  intros H F vals [Lm Fe]. apply tableau_ok_ok in H.
  assert (P : project x s = solve_for e x s)
    by (unfold project; rewrite (select_equality _ _ _ F); reflexivity).
  rewrite P, solve_for_unfold.
  pose proof (equality_resolvable false s x e H F) as Rs.
  destruct (pivot_phase false s x e _ H Rs) as [_ [_ [_ [Va [Al R]]]]].
  cbv zeta in Va, Al, R.
  destruct Rs as [[Pe Le] _ _ _].
  destruct (live_on_parts _ _ _ Le) as [Ae Na].
  assert (E0 : e <> m_objective_id).
  { apply (wf_range _ (ok_wf _ _ H)) in Pe. unfold m_objective_id. lia. }
  assert (Te : m_type (get_row s e) = t_eq).
  { apply find_some in F. destruct F as [_ F]. unfold live_equality in F.
    apply andb_true_iff in F. apply is_eq_true. apply F. }
  assert (Ve : row_value vals (get_row s e) = 0).
  { pose proof (Fe e E0 Ae) as K. rewrite Te in K. exact K. }
  split; [rewrite Va; exact Lm|].
  intros k Hk. rewrite Al, R.
  destruct (e =? k) eqn:Eek; [discriminate|]. intros Ak.
  destruct (contains _ k); [|apply Fe; trivial].
  rewrite resolved_type, resolved_value, Ve, Te by exact Ak.
  replace (row_value vals (get_row s k)
           + - get_coefficient s k x / get_coefficient s e x * 0)
    with (row_value vals (get_row s k)) by ring.
  assert (Ty : (if is_zero (- get_coefficient s k x / get_coefficient s e x)
                then m_type (get_row s k)
                else combine_type
                       (negb (k =? m_objective_id)
                        && Bool.eqb (is_pos (get_coefficient s e x))
                                    (is_pos (get_coefficient s k x)))
                       (m_type (get_row s k)) t_eq) = m_type (get_row s k)).
  { destruct (is_zero _); trivial. unfold combine_type. simpl.
    rewrite !andb_false_r. reflexivity. }
  rewrite Ty. apply Fe; trivial.
Qed.

Lemma project_equality_exact_witness :
  find (live_equality tableau_equality 0) (row_ids_of tableau_equality 0)
  = Some 2%nat
  /\ forall vals, feasible tableau_equality vals ->
                  feasible (project 0 tableau_equality) vals.
Proof.
  split; [vm_compute; reflexivity|].
  apply (project_equality_exact tableau_equality 0 2); vm_compute; reflexivity.
Defined.

(** ** A round of [maximize] and the models of the constraints *)

(** The rows after a round of [maximize] that finds the bound row [b] for
    [x]: the constraint rows are those of a pivot step, and the objective
    is the old one plus a multiple of the bound row, negative unless the
    bound row is an equality. *)
Lemma maximize_step_rows (all : bool) (s s' : model_based_opt) (x b : nat) :
  ok all s -> in_scope all (objective s) = true ->
  maximize_step s = Next x b s' ->
  exists l,
    resolvable s x b l
    /\ (forall k, k <> m_objective_id ->
          get_row s' k =
          if b =? k then set_alive (get_row s b) false
          else if contains l k then resolved s b (get_coefficient s b x) k x
          else get_row s k)
    /\ (m_type (get_row s b) = t_lt ->
        forall i, In i l -> live_on s x i = true -> m_type (get_row s i) <> t_eq)
    /\ objective s'
       = mul_add_row false
           (- m_coeff (last (m_vars (objective s)) dummy_var)
            / get_coefficient s b x)
           (objective s) (get_row s b)
    /\ (m_type (get_row s b) <> t_eq ->
        - m_coeff (last (m_vars (objective s)) dummy_var)
        / get_coefficient s b x < 0)
    /\ (x < length (m_var2value s))%nat.
Proof.
  intros O Sc. unfold maximize_step.
  destruct (m_vars (objective s)) as [|v0 rest] eqn:Ev; [discriminate|].
  rewrite <- Ev. set (v := last (m_vars (objective s)) dummy_var).
  destruct (bs_index (find_bound s (m_id v) (is_pos (m_coeff v)))) as [b'|] eqn:Eb;
    [|discriminate].
  intros H. inversion H; subst x b' s'. clear H.
  destruct (find_bound_facts _ _ _ _ Eb) as [Ec F].
  set (fb := find_bound s (m_id v) (is_pos (m_coeff v))) in *.
  set (l := bs_above fb ++ bs_below fb).
  assert (Rs : resolvable s (m_id v) b l).
  { apply (pivot_resolvable all s (m_id v) (is_pos (m_coeff v)) b
             (bs_above fb) (bs_below fb)); trivial.
    - exact (proj1 (pf_nodup _ _ _ _ _ _ F)).
    - intros i. apply iff_refl. }
  destruct (pf_pivot _ _ _ _ _ _ F) as [Pb Cb].
  destruct (candidate_parts _ _ _ _ Cb) as [Ab [Na Sg]].
  pose proof (wf_range _ (ok_wf _ _ O) _ _ Pb) as [Bpos _].
  destruct (pf_nodup _ _ _ _ _ _ F) as [Nd Nbl].
  assert (Hb0 : b <> m_objective_id) by (unfold m_objective_id; lia).
  assert (Hne : m_vars (objective s) <> []) by (rewrite Ev; discriminate).
  pose proof (ok_inv _ _ O _ Sc) as I0. apply row_invariant_parts in I0.
  destruct I0 as [S0 [N0 _]].
  assert (Hc : m_coeff v <> 0) by (apply last_nonzero; trivial).
  set (a := get_coefficient s b (m_id v)) in *.
  set (c := - m_coeff v / a).
  assert (Z : is_zero c = false) by (apply is_zero_false, ratio_nonzero; trivial).
  set (s2 := resolve_all b a (m_id v) l s).
  assert (Fr : forall k, get_row s2 k =
                         if contains l k then resolved s b a k (m_id v)
                         else get_row s k)
    by (intros k; apply resolve_all_get_row; trivial).
  assert (N0l : ~ In m_objective_id l).
  { intros K. apply (rs_rows _ _ _ _ Rs) in K. destruct K as [K _].
    apply (wf_range _ (ok_wf _ _ O)) in K. unfold m_objective_id in K. lia. }
  assert (Rb : get_row s2 b = get_row s b).
  { rewrite Fr. apply contains_not_In in Nbl. fold l in Nbl. rewrite Nbl.
    reflexivity. }
  assert (R0 : get_row s2 m_objective_id = get_row s m_objective_id).
  { rewrite Fr. apply contains_not_In in N0l. rewrite N0l. reflexivity. }
  assert (Es : eliminate (m_id v) (m_coeff v) fb b s
               = kill b (mul_add false m_objective_id c b s2)).
  { unfold eliminate. rewrite Ec, resolve_all_app. reflexivity. }
  rewrite Es. exists l. split; [exact Rs|]. split; [|split; [|split; [|split]]].
  - intros k Hk. rewrite kill_get_row.
    rewrite !mul_add_get_row_other by congruence.
    rewrite Rb, Fr. reflexivity.
  - intros Tb i Hi Li Ti. unfold l in Hi. apply in_app_iff in Hi.
    destruct Hi as [Hi|Hi].
    + destruct (pf_above _ _ _ _ _ _ F _ Hi) as [Pi [Ci [Tg _]]].
      assert (Hi0 : i <> m_objective_id).
      { apply (wf_range _ (ok_wf _ _ O)) in Pi. unfold m_objective_id. lia. }
      destruct (candidate_parts _ _ _ _ Ci) as [Ai _].
      pose proof (satisfied_lt _ Tb (ok_sat _ _ O b Hb0 Ab)) as Vb.
      pose proof (satisfied_eq _ Ti (ok_sat _ _ O i Hi0 Ai)) as Vi.
      destruct Sg as [Sg|Sg]; [|congruence].
      assert (K : m_value (get_row s b) = 0).
      { apply (tight_against_equality (is_pos (m_coeff v)) a _
                 (get_value s (m_id v))); trivial.
        - apply Qclt_le_weak. exact Vb.
        - unfold tighter, bound_value in Tg. rewrite Vi, div_zero in Tg.
          fold a in Tg.
          replace (get_value s (m_id v) - 0) with (get_value s (m_id v)) in Tg
            by ring.
          exact Tg. }
      rewrite K in Vb. revert Vb. to_Q. intros. lra.
    + destruct (pf_below _ _ _ _ _ _ F _ Hi) as [_ [Lo Ci]].
      destruct (below_parts _ _ _ _ Lo Ci) as [_ [_ [_ Ne]]]. contradiction.
  - unfold objective. rewrite kill_get_row.
    destruct (Nat.eqb_spec b m_objective_id) as [K|_]; [contradiction|].
    rewrite mul_add_get_row; trivial.
    + simpl (_ =? _). cbv iota. rewrite R0, Rb. reflexivity.
    + unfold s2. rewrite resolve_all_rows_length. apply (wf_rows _ (ok_wf _ _ O)).
  - intros Tb. destruct Sg as [Sg|Sg]; [|contradiction].
    apply ratio_neg; trivial.
  - apply (wf_vars _ (ok_wf _ _ O) m_objective_id).
    fold (objective s). unfold v.
    rewrite last_nth. unfold ids. apply in_map. apply nth_In.
    destruct (m_vars (objective s)); [contradiction|simpl; lia].
Qed.

Lemma holds_decrease (t : ineq_type) (v v' : Qc) :
  t <> t_eq -> holds t v -> v' <= v -> holds t v'.
Proof.
  destruct t; simpl; intros H Hv L; [congruence| |].
  - apply Qcle_lt_trans with v; trivial.
  - apply Qcle_trans with v; trivial.
Qed.

Lemma row_value_off (m : list Qc) (r : row) (x : nat) (v : Qc) :
  ~ In x (ids (m_vars r)) -> row_value (upd x v m) r = row_value m r.
Proof.
  intros N. rewrite !row_value_dot. f_equal. apply dot_agree.
  intros y Hy. apply nth_upd_neq. congruence.
Qed.

Lemma scale_down (c d : Qc) :
  c < 0 -> 0 < d -> exists d', 0 < d' /\ (- c) * d' = d.
Proof.
  intros K Hd.
  assert (Nc : - c <> 0).
  { intros E. apply (f_equal this) in E.
    assert (E' : (- this c == 0)%Q) by (rewrite <- this_opp, E; reflexivity).
    revert K. to_Q. intros. lra. }
  exists (d / - c).
  assert (E : (- c) * (d / - c) = d) by (field; exact Nc).
  split; [|exact E].
  revert E. generalize (d / - c). intros q E.
  assert (E' : (- this c * this q == this d)%Q)
    by (rewrite <- this_opp, <- this_mult, E; reflexivity).
  revert K Hd. to_Q. intros. nra.
Qed.

(** A round of [maximize] loses nothing that the round after it can reach:
    a model of the constraint rows after the round extends, by a value for
    the eliminated variable, to a model of the rows before it on which the
    old objective is as close as wanted to the new one, and equal to it
    when the new objective is not strict. *)
Lemma round_extends (all : bool) (s s' : model_based_opt) (x b : nat) :
  ok all s -> in_scope all (objective s) = true ->
  maximize_step s = Next x b s' ->
  (is_lt (m_type (objective s')) = false -> is_lt (m_type (objective s)) = false)
  /\ forall m, feasible s' m -> forall d, 0 < d ->
       exists v, feasible s (upd x v m)
                 /\ objective_at s' m - d < objective_at s (upd x v m)
                 /\ (is_lt (m_type (objective s')) = false ->
                     objective_at s (upd x v m) = objective_at s' m)
                 /\ (is_lt (m_type (objective s')) = false ->
                     v = nth x m 0
                         - row_value m (get_row s b) / get_coefficient s b x).
Proof.
  intros O Sc St.
  destruct (maximize_step_rows all s s' x b O Sc St)
    as [l [Rs [Rows [NoEq [Ob [Cn Hx]]]]]].
  assert (E0 : eliminated all s []) by (intros y k []).
  destruct (maximize_step_next all s s' x b [] O E0 St) as [O' [E' [Va [Ab Al]]]].
  set (c := - m_coeff (last (m_vars (objective s)) dummy_var)
            / get_coefficient s b x) in *.
  assert (Ty : m_type (objective s')
               = if is_lt (m_type (get_row s b)) then t_lt
                 else m_type (objective s)).
  { rewrite Ob. simpl. unfold combine_type. simpl.
    destruct (is_lt (m_type (get_row s b))); reflexivity. }
  assert (Strict : is_lt (m_type (objective s')) = false ->
                   m_type (get_row s b) <> t_lt
                   /\ is_lt (m_type (objective s)) = false).
  { rewrite Ty. destruct (m_type (get_row s b)); simpl; intros K;
      (split; [congruence|exact K]) || discriminate. }
  split; [intros K; apply Strict; exact K|].
  assert (Out : ~ In x (ids (m_vars (objective s')))).
  { apply (E' x m_objective_id); [simpl; auto|]. right. split; trivial.
    unfold in_scope in *. rewrite Al.
    destruct (b =? m_objective_id) eqn:K.
    - apply Nat.eqb_eq in K. destruct Rs as [[Pb _] _ _ _].
      apply (wf_range _ (ok_wf _ _ O)) in Pb. unfold m_objective_id in K. lia.
    - exact Sc. }
  intros m Fe d Hd.
  assert (D' : exists d', 0 < d'
                 /\ (m_type (get_row s b) <> t_eq -> (- c) * d' = d)).
  { destruct (m_type (get_row s b)) eqn:Tb.
    - exists 1. split; [reflexivity|congruence].
    - destruct (scale_down c d (Cn ltac:(discriminate)) Hd) as [d' [A B]].
      exists d'. auto.
    - destruct (scale_down c d (Cn ltac:(discriminate)) Hd) as [d' [A B]].
      exists d'. auto. }
  destruct D' as [d' [Hd' Ed']].
  destruct (extend_model all s s' x b l m d' O Rs NoEq Rows
              (f_equal (@length Qc) Va) Hx Fe Hd') as [v [Fv [Lo [Tight Vt]]]].
  exists v. split; [exact Fv|].
  assert (Hb0 : b <> m_objective_id).
  { destruct Rs as [[Pb _] _ _ _].
    apply (wf_range _ (ok_wf _ _ O)) in Pb. unfold m_objective_id. lia. }
  assert (Vb : holds (m_type (get_row s b)) (row_value (upd x v m) (get_row s b))).
  { destruct Fv as [_ Fv]. apply Fv; trivial. }
  assert (Eo : objective_at s' m
               = objective_at s (upd x v m)
                 + c * row_value (upd x v m) (get_row s b)).
  { unfold objective_at. rewrite <- (row_value_off m (objective s') x v Out).
    rewrite Ob. apply mul_add_row_value. }
  rewrite Eo. split; [|split].
  - destruct (m_type (get_row s b)) eqn:Tb.
    + simpl in Vb. rewrite Vb.
      revert Hd. generalize (objective_at s (upd x v m)). intros o. to_Q.
      intros. lra.
    + assert (K : c < 0) by (apply Cn; discriminate).
      assert (E : (- c) * d' = d) by (apply Ed'; discriminate).
      simpl in Vb. revert Lo Vb K E Hd'.
      generalize (row_value (upd x v m) (get_row s b)) as u.
      generalize (objective_at s (upd x v m)) as o. intros o u Lo Vb K E Hd'.
      subst d. to_Q. nra.
    + assert (K : c < 0) by (apply Cn; discriminate).
      assert (E : (- c) * d' = d) by (apply Ed'; discriminate).
      simpl in Vb. revert Lo Vb K E Hd'.
      generalize (row_value (upd x v m) (get_row s b)) as u.
      generalize (objective_at s (upd x v m)) as o. intros o u Lo Vb K E Hd'.
      subst d. to_Q. nra.
  - intros K. destruct (Strict K) as [Tb _]. rewrite (Tight Tb). ring.
  - intros K. destruct (Strict K) as [Tb _]. apply Vt. exact Tb.
Qed.

Lemma split_pos (d : Qc) : 0 < d -> exists h, 0 < h /\ 0 < d - h.
Proof.
  intros Hd. destruct (halve d Hd) as [h [H0 H1]]. exists h. split; trivial.
  revert H1. to_Q. intros. lra.
Qed.

(** Several rounds: what the last tableau can reach, the first can. *)
Lemma rounds_extend (all : bool) (n : nat) (s sk : model_based_opt)
    (vs ts vk tk : list nat) :
  ok all s -> in_scope all (objective s) = true ->
  rounds n s vs ts = Some (sk, vk, tk) ->
  ok all sk /\ in_scope all (objective sk) = true
  /\ (is_lt (m_type (objective sk)) = false -> is_lt (m_type (objective s)) = false)
  /\ forall m, feasible sk m ->
       (forall d, 0 < d ->
          exists m', feasible s m' /\ objective_at sk m - d < objective_at s m')
       /\ (is_lt (m_type (objective sk)) = false ->
           exists m', feasible s m' /\ objective_at s m' = objective_at sk m).
Proof.
  revert s vs ts. induction n as [|n IH]; intros s vs ts O Sc R.
  - simpl in R. inversion R; subst sk vk tk. clear R.
    split; [exact O|]. split; [exact Sc|]. split; [auto|].
    intros m Fe. split.
    + intros d Hd. exists m. split; trivial.
      revert Hd. generalize (objective_at s m). intros o. to_Q. intros. lra.
    + intros _. exists m. auto.
  - cbn [rounds] in R.
    destruct (maximize_step s) as [| |x b s1] eqn:St; try discriminate.
    assert (E0 : eliminated all s []) by (intros y k []).
    destruct (maximize_step_next all s s1 x b [] O E0 St) as [O1 [_ [_ [_ Al]]]].
    destruct (round_extends all s s1 x b O Sc St) as [Mono Ext].
    assert (Sc1 : in_scope all (objective s1) = true).
    { unfold in_scope, objective in *. rewrite Al.
      destruct (b =? m_objective_id) eqn:K; trivial.
      apply Nat.eqb_eq in K.
      destruct (maximize_step_kills s s1 x b St) as [Ab _].
      destruct (maximize_step_rows all s s1 x b O Sc St) as [l [Rs _]].
      destruct Rs as [[Pb _] _ _ _].
      apply (wf_range _ (ok_wf _ _ O)) in Pb. unfold m_objective_id in K. lia. }
    destruct (IH s1 _ _ O1 Sc1 R) as [Ok [Sck [Monok Extk]]].
    split; [exact Ok|]. split; [exact Sck|]. split; [auto|].
    intros m Fe. destruct (Extk m Fe) as [Near Exact]. split.
    + intros d Hd. destruct (split_pos d Hd) as [h [H0 H1]].
      destruct (Near h H0) as [m1 [F1 L1]].
      destruct (Ext m1 F1 (d - h) H1) as [v [Fv [Lv _]]].
      exists (upd x v m1). split; trivial.
      revert L1 Lv. generalize (objective_at sk m) as o.
      generalize (objective_at s1 m1) as o1.
      generalize (objective_at s (upd x v m1)) as o0. intros o0 o1 o.
      to_Q. intros. lra.
    + intros K. destruct (Exact K) as [m1 [F1 E1]].
      destruct (Ext m1 F1 1 eq_refl) as [v [Fv [_ [Ev _]]]].
      exists (upd x v m1). split; trivial. rewrite <- E1. apply Ev. auto.
Qed.

(** When no row bounds the variable at the back of the objective in the
    direction that improves it, the objective is unbounded over the
    constraint rows. *)
Lemma unbounded_step (all : bool) (s : model_based_opt) :
  ok all s -> in_scope all (objective s) = true ->
  maximize_step s = Unbounded ->
  forall u, exists m, feasible s m /\ u < objective_at s m.
Proof.
  intros O Sc. unfold maximize_step.
  destruct (m_vars (objective s)) as [|v0 rest] eqn:Ev; [discriminate|].
  rewrite <- Ev. set (v := last (m_vars (objective s)) dummy_var).
  destruct (bs_index (find_bound s (m_id v) (is_pos (m_coeff v)))) as [b'|] eqn:Eb;
    [discriminate|].
  intros _ u.
  pose proof (find_bound_inv s (m_id v) (is_pos (m_coeff v))) as I.
  assert (NoCand : forall i, In i (row_ids_of s (m_id v)) ->
                     candidate s (m_id v) (is_pos (m_coeff v)) i = false).
  { intros i Hi.
    destruct (candidate s (m_id v) (is_pos (m_coeff v)) i) eqn:C; trivial.
    assert (K : In i (pivot_list (bs_index (find_bound s (m_id v)
                                              (is_pos (m_coeff v))))
                      ++ bs_above (find_bound s (m_id v) (is_pos (m_coeff v)))))
      by (apply (bi_above _ _ _ _ _ I); split; trivial).
    rewrite Eb, (bi_none _ _ _ _ _ I Eb) in K. destruct K. }
  assert (Hne : m_vars (objective s) <> []) by (rewrite Ev; discriminate).
  pose proof (ok_inv _ _ O _ Sc) as I0. apply row_invariant_parts in I0.
  destruct I0 as [S0 [N0 _]].
  assert (Hc : m_coeff v <> 0) by (apply last_nonzero; trivial).
  assert (Hx : (m_id v < length (m_var2value s))%nat).
  { apply (wf_vars _ (ok_wf _ _ O) m_objective_id).
    fold (objective s). unfold v.
    rewrite last_nth. unfold ids. apply in_map. apply nth_In.
    destruct (m_vars (objective s)); [contradiction|simpl; lia]. }
  set (x := m_id v) in *. set (vals := m_var2value s).
  set (o := objective_at s vals).
  assert (T : exists tau, 0 < tau /\ u < o + tau).
  { clearbody o. destruct (Qclt_le_dec u o) as [L|L].
    - exists 1. split; [reflexivity|]. revert L. to_Q.
      change (this 1) with 1%Q. intros. lra.
    - exists (u - o + 1).
      split; revert L; to_Q; change (this 1) with 1%Q; intros; lra. }
  destruct T as [tau [Tp Tu]].
  exists (upd x (nth x vals 0 + tau / m_coeff v) vals). split.
  - split; [apply upd_length|]. intros k Hk Ak.
    pose proof (live_row_invariant all s k O Ak) as Ik.
    apply row_invariant_parts in Ik. destruct Ik as [Sk [_ Vk]].
    rewrite row_value_upd by trivial.
    pose proof (ok_sat _ _ O k Hk Ak) as Sat. apply satisfied_holds in Sat.
    rewrite Vk in Sat. fold vals in Sat.
    destruct (in_dec Nat.eq_dec x (ids (m_vars (get_row s k)))) as [K|K].
    + destruct (mentions_live_on all s k x O Hk Ak K) as [K1 K2].
      destruct (below_parts _ _ _ _ K2 (NoCand k K1)) as [_ [Nc [Sg Ne]]].
      rewrite (get_coefficient_sorted all s k x O (in_scope_alive all _ Ak))
        in Nc, Sg.
      apply (holds_decrease _ _ _ Ne Sat).
      assert (Rp : 0 < - coeff_of (m_vars (get_row s k)) x / m_coeff v)
        by (apply ratio_pos; trivial; congruence).
      replace (coeff_of (m_vars (get_row s k)) x
               * (nth x vals 0 + tau / m_coeff v - nth x vals 0))
        with (- (- coeff_of (m_vars (get_row s k)) x / m_coeff v * tau))
        by (field; exact Hc).
      revert Rp Tp. generalize (- coeff_of (m_vars (get_row s k)) x / m_coeff v).
      generalize (row_value vals (get_row s k)). intros rv q. to_Q. intros. nra.
    + rewrite (coeff_of_not_in _ _ K).
      replace (row_value vals (get_row s k)
               + 0 * (nth x vals 0 + tau / m_coeff v - nth x vals 0))
        with (row_value vals (get_row s k)) by ring.
      exact Sat.
  - unfold objective_at. rewrite row_value_upd by trivial.
    unfold x at 1, v at 1. rewrite coeff_of_last by trivial. fold v.
    replace (m_coeff v * (nth x vals 0 + tau / m_coeff v - nth x vals 0))
      with tau by (field; exact Hc).
    exact Tu.
Qed.

(** ** What the result of [maximize] says about the constraints *)

(** X9: a finite result of [maximize] is a value the constraints allow.  On
    a tableau that satisfies the invariants, when [maximize] returns the
    value [v], the objective the call started with comes as close to [v] as
    wanted on models of the live constraint rows the call started with;
    when the infinitesimal returned is zero, some such model gives the
    objective the value [v] exactly. *)
Theorem maximize_reachable (s : model_based_opt) (v eps : Qc)
    (s' : model_based_opt) :
  tableau_ok true s = true ->
  maximize s = Some (finite v eps, s') ->
  (forall d, 0 < d ->
     exists vals, feasible s vals /\ v - d < objective_at s vals)
  /\ (eps = 0 -> exists vals, feasible s vals /\ objective_at s vals = v).
Proof.
  intros H E. apply tableau_ok_ok in H. unfold maximize in E.
  destruct (maximize_loop_rounds _ _ _ _ _ _ E)
    as [n [sk [vk [tk [R [Es [[St Er]|[_ Er]]]]]]]]; [|discriminate].
  destruct (rounds_extend true n s sk [] [] vk tk H eq_refl R)
    as [Ok [_ [_ Ext]]].
  assert (E0 : eliminated true s []) by (intros y k []).
  destruct (rounds_ok true n s sk [] [] vk tk H E0 eq_refl R) as [_ [Ek [Lk _]]].
  assert (Ek' : eliminated true sk (firstn (length tk) vk))
    by (rewrite firstn_same_length; trivial).
  destruct (update_values_ok true vk tk sk Ok Ek') as [O' Sh].
  rewrite <- Es in O', Sh.
  destruct (Sh m_objective_id) as [Ev [Ec [Et _]]].
  fold (objective s') in Ev, Ec, Et. fold (objective sk) in Ev, Ec, Et.
  pose proof (step_done_vars _ St) as V0.
  assert (Val : m_value (objective s') = m_const (objective sk)).
  { pose proof (ok_inv _ _ O' m_objective_id eq_refl) as I.
    apply row_invariant_parts in I. destruct I as [_ [_ I]].
    fold (objective s') in I. rewrite I, row_value_dot, Ev, V0, Ec. simpl. ring. }
  assert (At : forall m, objective_at sk m = m_const (objective sk)).
  { intros m. unfold objective_at. rewrite row_value_dot, V0. simpl. ring. }
  unfold result_of in Er. rewrite Val, Et in Er.
  destruct (Ext (m_var2value sk) (ok_feasible true sk Ok)) as [Near Exact].
  rewrite At in Near, Exact.
  assert (Ev' : v = m_const (objective sk))
    by (destruct (is_lt (m_type (objective sk))); inversion Er; reflexivity).
  rewrite Ev'. split; [exact Near|].
  intros Z. apply Exact.
  destruct (is_lt (m_type (objective sk))); trivial.
  inversion Er as [[A B]]. rewrite Z in B.
  apply (f_equal this) in B. vm_compute in B. discriminate.
Qed.

Lemma maximize_reachable_witness :
  exists v eps s',
    maximize tableau_lub = Some (finite v eps, s')
    /\ (forall d, 0 < d ->
          exists vals, feasible tableau_lub vals
                       /\ v - d < objective_at tableau_lub vals)
    /\ (eps = 0 ->
        exists vals, feasible tableau_lub vals /\ objective_at tableau_lub vals = v).
Proof.
  destruct (maximize tableau_lub) as [[[|v eps] s']|] eqn:E;
    [vm_compute in E; discriminate| |vm_compute in E; discriminate].
  exists v, eps, s'. split; [reflexivity|].
  apply (maximize_reachable tableau_lub v eps s'); [vm_compute; reflexivity|exact E].
Defined.

(** X10: [maximize] returns infinity only when the objective is unbounded.
    On a tableau that satisfies the invariants, when [maximize] returns
    positive infinity, the objective the call started with exceeds every
    bound on models of the live constraint rows the call started with. *)
Theorem maximize_infinity_unbounded (s s' : model_based_opt) :
  tableau_ok true s = true ->
  maximize s = Some (infinity, s') ->
  forall u, exists vals, feasible s vals /\ u < objective_at s vals.
Proof.
  intros H E u. apply tableau_ok_ok in H. unfold maximize in E.
  destruct (maximize_loop_rounds _ _ _ _ _ _ E)
    as [n [sk [vk [tk [R [Es [[_ Er]|[St _]]]]]]]].
  { unfold result_of in Er. destruct (is_lt _); discriminate. }
  destruct (rounds_extend true n s sk [] [] vk tk H eq_refl R)
    as [Ok [Sck [_ Ext]]].
  destruct (unbounded_step true sk Ok Sck St (u + 1)) as [m [Fm Lm]].
  destruct (Ext m Fm) as [Near _].
  destruct (Near 1 eq_refl) as [m' [Fm' Lm']].
  exists m'. split; trivial.
  revert Lm Lm'. generalize (objective_at sk m) as o.
  generalize (objective_at s m') as o'. intros o' o. to_Q.
  change (this 1) with 1%Q. intros. lra.
Qed.

Lemma maximize_infinity_unbounded_witness :
  exists s',
    maximize tableau_chain = Some (infinity, s')
    /\ forall u, exists vals, feasible tableau_chain vals
                              /\ u < objective_at tableau_chain vals.
Proof.
  destruct (maximize tableau_chain) as [[[|v eps] s']|] eqn:E;
    [|vm_compute in E; discriminate|vm_compute in E; discriminate].
  exists s'. split; [reflexivity|].
  apply (maximize_infinity_unbounded tableau_chain s');
    [vm_compute; reflexivity|exact E].
Defined.

(** ** Back-substitution, entry by entry *)

(** The inner loop of [update_values] on a sorted row: the residual leaves
    out the term of [x], and the coefficient found is that of [x]. *)
Lemma residual_fold (vals : list Qc) (x : nat) (vars : list var) (c0 a0 : Qc) :
  sorted_ids vars = true ->
  fold_left
    (fun (acc : Qc * Qc) v =>
       if x =? m_id v then (fst acc, m_coeff v)
       else (fst acc + nth (m_id v) vals 0 * m_coeff v, snd acc))
    vars (c0, a0)
  = (c0 + dot vals vars - coeff_of vars x * nth x vals 0,
     if contains (ids vars) x then coeff_of vars x else a0).
Proof.
  revert c0 a0. induction vars as [|w rest IH]; intros c0 a0 S.
  - simpl. f_equal. ring.
  - destruct (sorted_ids_cons _ _ S) as [Sr Lo].
    simpl fold_left. simpl dot. simpl coeff_of. simpl ids. simpl contains.
    destruct (Nat.eqb_spec x (m_id w)) as [E|Ne].
    + subst x. rewrite Nat.eqb_refl. simpl fst. simpl snd. rewrite (IH _ _ Sr).
      assert (C0 : coeff_of rest (m_id w) = 0)
        by (apply (coeff_of_lower (m_id w)); trivial).
      assert (Cn : contains (ids rest) (m_id w) = false).
      { apply contains_not_In. intros K. unfold ids in K. apply in_map_iff in K.
        destruct K as [u [Eu Hu]]. rewrite Forall_forall in Lo.
        specialize (Lo u Hu). lia. }
      rewrite C0, Cn. simpl. f_equal. ring.
    + assert (E : (m_id w =? x) = false) by (apply Nat.eqb_neq; congruence).
      rewrite E. simpl fst. simpl snd. rewrite (IH _ _ Sr). simpl.
      f_equal. ring.
Qed.

Lemma residual_sorted (vals : list Qc) (x : nat) (r : row) :
  sorted_ids (m_vars r) = true ->
  residual vals x r
  = (row_value vals r - coeff_of (m_vars r) x * nth x vals 0,
     coeff_of (m_vars r) x).
Proof.
  intros S. unfold residual. rewrite residual_fold by exact S.
  rewrite row_value_dot. f_equal.
  destruct (contains (ids (m_vars r)) x) eqn:C; trivial.
  apply contains_not_In in C. symmetry. apply coeff_of_not_in. exact C.
Qed.

Lemma this_two : this (Q2Qc 2) = 2%Q.
Proof. reflexivity. Qed.

Lemma strict_eps_nonneg (old_x_val new_x_val : Qc) :
  0 <= strict_eps old_x_val new_x_val
  /\ (strict_eps old_x_val new_x_val = 0 <-> old_x_val = new_x_val).
Proof.
  unfold strict_eps, rat_min, rat_abs.
  set (d := old_x_val - new_x_val).
  assert (Ed : old_x_val = new_x_val <-> d = 0).
  { unfold d. split; intros E.
    - rewrite E. ring.
    - replace old_x_val with (old_x_val - new_x_val + new_x_val) by ring.
      rewrite E. ring. }
  rewrite Ed. clearbody d.
  assert (N2 : Q2Qc 2 <> 0).
  { intros E. apply (f_equal this) in E. vm_compute in E. discriminate. }
  assert (H : forall e, (e / Q2Qc 2) * Q2Qc 2 = e) by (intros e; field; exact N2).
  assert (Half : forall e, (this (e / Q2Qc 2) * 2 == this e)%Q).
  { intros e. rewrite <- this_two, <- this_mult, H. reflexivity. }
  destruct (is_neg d) eqn:Nd.
  - apply is_neg_true in Nd. pose proof (Half (- d)) as Hh.
    revert Hh. generalize (- d / Q2Qc 2). intros h Hh.
    rewrite this_opp in Hh.
    destruct (rat_lt h 1) eqn:L.
    + split.
      * revert Nd. to_Q. intros. lra.
      * split; intros E.
        -- exfalso. rewrite E in Hh. revert Nd Hh. to_Q. intros. lra.
        -- exfalso. rewrite E in Nd. revert Nd. to_Q. intros. lra.
    + split; [unfold Qcle; simpl; lra|]. split; intros E.
      * apply (f_equal this) in E. vm_compute in E. discriminate.
      * exfalso. rewrite E in Nd. revert Nd. to_Q. intros. lra.
  - apply is_neg_false in Nd. pose proof (Half d) as Hh.
    revert Hh. generalize (d / Q2Qc 2). intros h Hh.
    destruct (rat_lt h 1) eqn:L.
    + split.
      * revert Nd. to_Q. intros. lra.
      * split; intros E.
        -- apply Qc_is_canon. rewrite E in Hh. simpl (this 0) in *. lra.
        -- apply Qc_is_canon. rewrite E in Hh. simpl (this 0) in *. lra.
    + apply rat_lt_false in L. split; [unfold Qcle; simpl; lra|]. split; intros E.
      * apply (f_equal this) in E. vm_compute in E. discriminate.
      * exfalso. rewrite E in Hh. revert L. to_Q. change (this 1) with 1%Q.
        simpl (this 0) in Hh. intros. lra.
Qed.

(** The value [update_values] gives to [x] from its bound row, seen from
    the row: with that value the row is tight, or, when the row is strict,
    off by the perturbation times the coefficient of [x], on the side that
    satisfies it. *)
Lemma new_value_row (vals : list Qc) (x : nat) (r : row) :
  sorted_ids (m_vars r) = true -> coeff_of (m_vars r) x <> 0 ->
  (x < length vals)%nat ->
  let a := coeff_of (m_vars r) x in
  let tight := nth x vals 0 - row_value vals r / a in
  (m_type r <> t_lt ->
   new_value vals x r = tight /\ row_value (upd x (new_value vals x r) vals) r = 0)
  /\ (m_type r = t_lt ->
      row_value (upd x (new_value vals x r) vals) r <= 0
      /\ (row_value (upd x (new_value vals x r) vals) r = 0
          <-> row_value vals r = 0)).
Proof.
  intros S Na Hx a tight. fold a in Na.
  assert (Up : forall v, row_value (upd x v vals) r = a * (v - tight)).
  { intros v. rewrite row_value_upd by trivial. unfold tight. fold a.
    field. exact Na. }
  assert (Nv : - fst (residual vals x r) / snd (residual vals x r) = tight).
  { rewrite residual_sorted by exact S. simpl. fold a. unfold tight.
    field. exact Na. }
  assert (Sn : snd (residual vals x r) = a)
    by (rewrite residual_sorted by exact S; reflexivity).
  unfold new_value. destruct (residual vals x r) as [val x_coeff] eqn:Er.
  simpl in Nv, Sn. subst x_coeff. rewrite Nv.
  split.
  - intros T. assert (L : is_lt (m_type r) = false)
      by (destruct (m_type r); trivial; congruence).
    rewrite L. split; trivial. rewrite Up. ring.
  - intros T. rewrite T. simpl is_lt. cbv iota.
    destruct (strict_eps_nonneg (nth x vals 0) tight) as [E0 Ez].
    assert (Tz : nth x vals 0 = tight <-> row_value vals r = 0).
    { split; intros E.
      - assert (K : row_value vals r = a * (nth x vals 0 - tight))
          by (unfold tight; field; exact Na).
        rewrite K, <- E. ring.
      - unfold tight. rewrite E. field. exact Na. }
    rewrite <- Tz, <- Ez. clear Tz Ez.
    revert E0. generalize (strict_eps (nth x vals 0) tight). intros e E0.
    destruct (is_pos a) eqn:P.
    + rewrite Up. replace (a * (tight - e - tight)) with (- (a * e)) by ring.
      pose proof (sign_pos a Na P) as Pa. split.
      * revert Pa E0. to_Q. intros. nra.
      * split; intros E.
        -- apply Qc_is_canon. apply (f_equal this) in E.
           assert (E' : (- (this a * this e) == 0)%Q)
             by (rewrite <- this_mult, <- this_opp, E; reflexivity).
           revert Pa E0. to_Q. intros. simpl (this 0). nra.
        -- rewrite E. ring.
    + rewrite Up. replace (a * (tight + e - tight)) with (a * e) by ring.
      pose proof (sign_neg a Na P) as Pa. split.
      * revert Pa E0. to_Q. intros. nra.
      * split; intros E.
        -- apply Qc_is_canon. apply (f_equal this) in E.
           assert (E' : (this a * this e == 0)%Q)
             by (rewrite <- this_mult, E; reflexivity).
           revert Pa E0. to_Q. intros. simpl (this 0). nra.
        -- rewrite E. ring.
Qed.

(** X11: one entry [(x, bound_row)] of the back-substitution of
    [update_values], on a bound row that is sorted and has a coefficient on
    [x]: only the value of [x] changes; the cached value of the bound row
    becomes its value under the new model; that value is zero when the row
    is not strict; when the row is strict it is never positive, and it is
    zero, so that the strict row is not satisfied, exactly when the row
    already had the value zero under the model before the entry (then the
    perturbation is zero). *)
Theorem fix_value_bound_row (s : model_based_opt) (x row_id : nat) :
  sorted_ids (m_vars (get_row s row_id)) = true ->
  get_coefficient s row_id x <> 0 ->
  (x < length (m_var2value s))%nat ->
  (row_id < length (m_rows s))%nat ->
  (forall y, y <> x -> get_value (fix_value s (x, row_id)) y = get_value s y)
  /\ same_shape (get_row s row_id) (get_row (fix_value s (x, row_id)) row_id)
  /\ m_value (get_row (fix_value s (x, row_id)) row_id)
     = row_value (m_var2value (fix_value s (x, row_id)))
                 (get_row (fix_value s (x, row_id)) row_id)
  /\ (m_type (get_row s row_id) <> t_lt ->
      m_value (get_row (fix_value s (x, row_id)) row_id) = 0)
  /\ (m_type (get_row s row_id) = t_lt ->
      m_value (get_row (fix_value s (x, row_id)) row_id) <= 0
      /\ (m_value (get_row (fix_value s (x, row_id)) row_id) = 0
          <-> row_value (m_var2value s) (get_row s row_id) = 0)).
Proof.
  intros S Na Hx Hr.
  unfold get_coefficient in Na. rewrite coefficient_in_sorted in Na by exact S.
  destruct (new_value_row (m_var2value s) x (get_row s row_id) S Na Hx) as [A B].
  unfold fix_value.
  set (r := get_row s row_id) in *.
  set (vals := upd x (new_value (m_var2value s) x r) (m_var2value s)) in *.
  assert (G : get_row (mk_opt (upd row_id (set_value r (row_value vals r)) (m_rows s))
                              (m_var2row_ids s) vals) row_id
              = set_value r (row_value vals r)).
  { rewrite get_row_upd, Nat.eqb_refl. apply Nat.ltb_lt in Hr. rewrite Hr.
    reflexivity. }
  rewrite G. split; [|split; [|split; [|split]]].
  - intros y Hy. unfold get_value. simpl. unfold vals. apply nth_upd_neq.
    congruence.
  - apply same_shape_set_value.
  - simpl. apply eq_sym. apply row_value_shape. apply same_shape_set_value.
  - intros T. simpl. apply A. exact T.
  - intros T. simpl. apply B. exact T.
Qed.

Lemma fix_value_bound_row_witness :
  m_type (get_row tableau_strict 1) = t_lt
  /\ m_value (get_row (fix_value tableau_strict (1%nat, 1%nat)) 1) <= 0
  /\ (m_value (get_row (fix_value tableau_strict (1%nat, 1%nat)) 1) = 0
      <-> row_value (m_var2value tableau_strict) (get_row tableau_strict 1) = 0).
Proof.
  destruct (fix_value_bound_row tableau_strict 1 1) as [_ [_ [_ [_ B]]]].
  - vm_compute. reflexivity.
  - intros E. apply (f_equal this) in E. vm_compute in E. discriminate.
  - vm_compute. lia.
  - vm_compute. lia.
  - split; [reflexivity|]. apply B. reflexivity.
Defined.

(** ** The model [maximize] leaves behind *)

Lemma new_value_same (vals : list Qc) (x : nat) (r r' : row) :
  m_vars r' = m_vars r -> m_const r' = m_const r -> m_type r' = m_type r ->
  new_value vals x r' = new_value vals x r.
Proof.
  intros Ev Ec Et. unfold new_value, residual. rewrite Ev, Ec, Et. reflexivity.
Qed.

Lemma round_not_strict (all : bool) (s s' : model_based_opt) (x b : nat) :
  ok all s -> in_scope all (objective s) = true ->
  maximize_step s = Next x b s' ->
  is_lt (m_type (objective s')) = false ->
  m_type (get_row s b) <> t_lt.
Proof.
  intros O Sc St Lt.
  destruct (maximize_step_rows all s s' x b O Sc St) as [l [_ [_ [_ [Ob _]]]]].
  rewrite Ob in Lt. simpl in Lt. unfold combine_type in Lt. simpl in Lt.
  intros E. rewrite E in Lt. simpl in Lt. discriminate.
Qed.

(** A round of [maximize] retires the bound row as it is and leaves the
    rows that were dead alone. *)
Lemma round_dead (all : bool) (s s' : model_based_opt) (x b : nat) :
  ok all s -> in_scope all (objective s) = true ->
  maximize_step s = Next x b s' ->
  b <> m_objective_id /\ m_alive (get_row s b) = true
  /\ get_row s' b = set_alive (get_row s b) false
  /\ forall k, k <> m_objective_id -> m_alive (get_row s k) = false ->
               get_row s' k = get_row s k.
Proof.
  intros O Sc St.
  destruct (maximize_step_rows all s s' x b O Sc St) as [l [Rs [Rows _]]].
  destruct (maximize_step_kills s s' x b St) as [Ab _].
  assert (Hb0 : b <> m_objective_id).
  { destruct Rs as [[Pb _] _ _ _].
    apply (wf_range _ (ok_wf _ _ O)) in Pb. unfold m_objective_id. lia. }
  split; [exact Hb0|]. split; [exact Ab|]. split.
  - rewrite (Rows b Hb0), Nat.eqb_refl. reflexivity.
  - intros k Hk Dk. rewrite (Rows k Hk).
    destruct (Nat.eqb_spec b k) as [<-|Ne]; [congruence|].
    destruct (contains l k); trivial.
    unfold resolved, resolve_row. rewrite Dk. reflexivity.
Qed.

Lemma fix_value_shape (s : model_based_opt) (x row_id : nat) (k : nat) :
  same_shape (get_row s k) (get_row (fix_value s (x, row_id)) k).
Proof.
  unfold fix_value. rewrite get_row_upd.
  destruct ((row_id =? k) && (row_id <? length (m_rows s))) eqn:E.
  - apply andb_true_iff in E. destruct E as [E _]. apply Nat.eqb_eq in E.
    subst k. apply same_shape_set_value.
  - apply same_shape_refl.
Qed.

(** The first loop of [update_values] over the trail of some rounds, none
    of which used a strict bound row, turns a model of the last tableau
    into a model of the first on which the first objective has the value
    the last objective has. *)
Lemma rounds_witness (all : bool) (n : nat) (s sk : model_based_opt)
    (vs ts vk tk : list nat) :
  ok all s -> in_scope all (objective s) = true ->
  rounds n s vs ts = Some (sk, vk, tk) ->
  is_lt (m_type (objective sk)) = false ->
  exists vs' ts',
    vk = vs ++ vs' /\ tk = ts ++ ts'
    /\ (forall k, k <> m_objective_id -> m_alive (get_row s k) = false ->
                  get_row sk k = get_row s k)
    /\ forall S, (forall k, same_shape (get_row sk k) (get_row S k)) ->
         feasible sk (m_var2value S) ->
         feasible s (m_var2value (fold_left fix_value (rev (combine vs' ts')) S))
         /\ objective_at s (m_var2value (fold_left fix_value
                                           (rev (combine vs' ts')) S))
            = objective_at sk (m_var2value S)
         /\ (forall k, same_shape (get_row sk k)
                         (get_row (fold_left fix_value (rev (combine vs' ts')) S) k)).
Proof.
  revert s vs ts. induction n as [|n IH]; intros s vs ts O Sc R Lt.
  - simpl in R. inversion R; subst sk vk tk. clear R.
    exists [], []. rewrite !app_nil_r. split; trivial. split; trivial.
    split; [auto|]. intros S Sh Fe. simpl. auto.
  - cbn [rounds] in R.
    destruct (maximize_step s) as [| |x b s1] eqn:St; try discriminate.
    assert (E0 : eliminated all s []) by (intros y k []).
    destruct (maximize_step_next all s s1 x b [] O E0 St) as [O1 [_ [_ [_ Al]]]].
    destruct (round_extends all s s1 x b O Sc St) as [_ Ext].
    destruct (round_dead all s s1 x b O Sc St) as [Hb0 [Ab [Rb Dead]]].
    assert (Sc1 : in_scope all (objective s1) = true).
    { unfold in_scope, objective in *. rewrite Al.
      destruct (b =? m_objective_id) eqn:K; trivial.
      apply Nat.eqb_eq in K. contradiction. }
    destruct (rounds_extend all n s1 sk _ _ vk tk O1 Sc1 R) as [_ [_ [Mono _]]].
    pose proof (Mono Lt) as Lt1.
    destruct (IH s1 _ _ O1 Sc1 R Lt) as [vs' [ts' [Ev [Et [Dk Wk]]]]].
    exists (x :: vs'), (b :: ts').
    split; [rewrite Ev, <- app_assoc; reflexivity|].
    split; [rewrite Et, <- app_assoc; reflexivity|].
    assert (Rkb : get_row sk b = set_alive (get_row s b) false).
    { rewrite Dk; trivial. rewrite Rb. reflexivity. }
    split.
    + intros k Hk Ak. rewrite Dk; trivial; [apply Dead; trivial|].
      rewrite Al, Ak. destruct (b =? k); reflexivity.
    + intros S Sh Fe.
      destruct (Wk S Sh Fe) as [F1 [Ob1 Sh1]].
      cbn [combine rev]. rewrite fold_left_app. cbn [fold_left].
      set (S1 := fold_left fix_value (rev (combine vs' ts')) S) in *.
      destruct (Ext (m_var2value S1) F1 1 eq_refl) as [v [Fv [_ [Eo Evv]]]].
      specialize (Eo Lt1). specialize (Evv Lt1).
      pose proof (round_not_strict all s s1 x b O Sc St Lt1) as Tb.
      destruct (maximize_step_rows all s s1 x b O Sc St) as [l [Rs _]].
      destruct Rs as [[_ Lb] _ _ _].
      destruct (live_on_parts _ _ _ Lb) as [_ Na].
      pose proof (live_row_invariant all s b O Ab) as Ib.
      apply row_invariant_parts in Ib. destruct Ib as [Sb _].
      rewrite (get_coefficient_sorted all s b x O (in_scope_alive all _ Ab))
        in Na, Evv.
      assert (Hx : (x < length (m_var2value S1))%nat).
      { destruct F1 as [L1 _]. rewrite L1.
        destruct (maximize_step_rows all s s1 x b O Sc St)
          as [_ [_ [_ [_ [_ [_ Hx]]]]]].
        destruct (maximize_step_next all s s1 x b [] O E0 St)
          as [_ [_ [Va _]]].
        rewrite Va. exact Hx. }
      assert (Nv : new_value (m_var2value S1) x (get_row S1 b) = v).
      { destruct (Sh1 b) as [A1 [A2 [A3 _]]]. rewrite Rkb in A1, A2, A3.
        simpl in A1, A2, A3.
        rewrite (new_value_same _ _ (get_row s b) (get_row S1 b) A1 A2 A3).
        destruct (new_value_row (m_var2value S1) x (get_row s b) Sb Na Hx)
          as [K _].
        destruct (K Tb) as [K1 _]. rewrite K1, Evv. reflexivity. }
      assert (Vs : m_var2value (fix_value S1 (x, b)) = upd x v (m_var2value S1)).
      { unfold fix_value. simpl. rewrite Nv. reflexivity. }
      rewrite Vs. split; [exact Fv|]. split; [rewrite Eo; exact Ob1|].
      intros k. eapply same_shape_trans; [apply Sh1|apply fix_value_shape].
Qed.

(** X12: when [maximize] returns an exact value (infinitesimal zero) on a
    tableau that satisfies the invariants, the model it leaves in the
    tableau is a witness for it: that model satisfies every live constraint
    row the call started with, and the objective the call started with has
    the returned value on it. *)
Theorem maximize_model_attains (s : model_based_opt) (v : Qc)
    (s' : model_based_opt) :
  tableau_ok true s = true ->
  maximize s = Some (finite v 0, s') ->
  feasible s (m_var2value s') /\ objective_at s (m_var2value s') = v.
Proof.
  intros H E. apply tableau_ok_ok in H. unfold maximize in E.
  destruct (maximize_loop_rounds _ _ _ _ _ _ E)
    as [n [sk [vk [tk [R [Es [[St Er]|[_ Er]]]]]]]]; [|discriminate].
  destruct (rounds_extend true n s sk [] [] vk tk H eq_refl R) as [Ok _].
  assert (E0 : eliminated true s []) by (intros y k []).
  destruct (rounds_ok true n s sk [] [] vk tk H E0 eq_refl R) as [_ [Ek [Lk _]]].
  assert (Ek' : eliminated true sk (firstn (length tk) vk))
    by (rewrite firstn_same_length; trivial).
  destruct (update_values_ok true vk tk sk Ok Ek') as [O' Sh].
  rewrite <- Es in O', Sh.
  destruct (Sh m_objective_id) as [Ev [Ec [Et _]]].
  fold (objective s') in Ev, Ec, Et. fold (objective sk) in Ev, Ec, Et.
  pose proof (step_done_vars _ St) as V0.
  assert (Val : m_value (objective s') = m_const (objective sk)).
  { pose proof (ok_inv _ _ O' m_objective_id eq_refl) as I.
    apply row_invariant_parts in I. destruct I as [_ [_ I]].
    fold (objective s') in I. rewrite I, row_value_dot, Ev, V0, Ec. simpl. ring. }
  assert (At : forall m, objective_at sk m = m_const (objective sk)).
  { intros m. unfold objective_at. rewrite row_value_dot, V0. simpl. ring. }
  unfold result_of in Er. rewrite Val, Et in Er.
  assert (Lt : is_lt (m_type (objective sk)) = false).
  { destruct (is_lt (m_type (objective sk))); trivial.
    inversion Er as [[A B]];
      try (apply (f_equal this) in B; vm_compute in B; discriminate). }
  rewrite Lt in Er. inversion Er as [Ev']. clear Er.
  destruct (rounds_witness true n s sk [] [] vk tk H eq_refl R Lt)
    as [vs' [ts' [Evs [Ets [_ W]]]]].
  simpl in Evs, Ets. subst vs' ts'.
  destruct (W sk (fun k => same_shape_refl _) (ok_feasible true sk Ok))
    as [Fe [Ob _]].
  assert (Vs : m_var2value s'
               = m_var2value (fold_left fix_value (rev (combine vk tk)) sk)).
  { rewrite Es. unfold update_values.
    destruct (recompute_vars (fold_left fix_value (rev (combine vk tk)) sk)
                (rev (firstn (length tk) vk))) as [Rc _].
    apply (rc_vals _ _ Rc). }
  rewrite Vs. split; [exact Fe|]. rewrite Ob. apply At.
Qed.

Lemma maximize_model_attains_witness :
  exists v s',
    maximize tableau_lub = Some (finite v 0, s')
    /\ feasible tableau_lub (m_var2value s')
    /\ objective_at tableau_lub (m_var2value s') = v.
Proof.
  destruct (maximize tableau_lub) as [[[|v eps] s']|] eqn:E;
    [vm_compute in E; discriminate| |vm_compute in E; discriminate].
  assert (Z : eps = 0).
  { assert (K : match maximize tableau_lub with
                | Some (finite _ e, _) => this e
                | _ => 1%Q
                end = 0%Q) by (vm_compute; reflexivity).
    rewrite E in K. apply Qc_is_canon. rewrite K. reflexivity. }
  subst eps. exists v, s'. split; [reflexivity|].
  apply (maximize_model_attains tableau_lub v s'); [vm_compute; reflexivity|exact E].
Defined.

(** ** Calling an operation again *)

(** X13: [project] is idempotent.  On a tableau that satisfies the
    invariants, a second [project x] changes nothing: no live row listed
    for [x] has a coefficient on [x] left. *)
Theorem project_idempotent (s : model_based_opt) (x : nat) :
  tableau_ok false s = true ->
  project x (project x s) = project x s.
Proof.
  intros H. apply tableau_ok_ok in H.
  destruct (project_ok false x s H) as [O' [X _]].
  apply project_idle. intros i Hi.
  unfold live_on. destruct (m_alive (get_row (project x s) i)) eqn:Ai; trivial.
  assert (Hi0 : i <> m_objective_id).
  { apply (wf_range _ (ok_wf _ _ O')) in Hi. unfold m_objective_id. lia. }
  rewrite (get_coefficient_sorted false (project x s) i x O'
             (in_scope_alive false _ Ai)).
  rewrite (coeff_of_not_in _ _ (X i Hi0 Ai)). reflexivity.
Qed.

Lemma project_idempotent_witness :
  project 0 (project 0 tableau_two_sided) = project 0 tableau_two_sided
  /\ project 1 (project 1 tableau_lub) = project 1 tableau_lub.
Proof.
  split; apply project_idempotent; vm_compute; reflexivity.
Defined.

Lemma unbounded_inv (s : model_based_opt) :
  maximize_step s = Unbounded ->
  m_vars (objective s) <> []
  /\ forall i, In i (row_ids_of s (m_id (last (m_vars (objective s)) dummy_var))) ->
       candidate s (m_id (last (m_vars (objective s)) dummy_var))
                 (is_pos (m_coeff (last (m_vars (objective s)) dummy_var))) i
       = false.
Proof.
  unfold maximize_step.
  destruct (m_vars (objective s)) as [|v0 rest] eqn:Ev; [discriminate|].
  rewrite <- Ev. set (v := last (m_vars (objective s)) dummy_var).
  destruct (bs_index (find_bound s (m_id v) (is_pos (m_coeff v)))) as [b'|] eqn:Eb;
    [discriminate|].
  intros _. split; [rewrite Ev; discriminate|].
  pose proof (find_bound_inv s (m_id v) (is_pos (m_coeff v))) as I.
  intros i Hi.
  destruct (candidate s (m_id v) (is_pos (m_coeff v)) i) eqn:C; trivial.
  assert (K : In i (pivot_list (bs_index (find_bound s (m_id v)
                                            (is_pos (m_coeff v))))
                    ++ bs_above (find_bound s (m_id v) (is_pos (m_coeff v)))))
    by (apply (bi_above _ _ _ _ _ I); split; trivial).
  rewrite Eb, (bi_none _ _ _ _ _ I Eb) in K. destruct K.
Qed.

Lemma candidate_shape (s s' : model_based_opt) (x : nat) (pos : bool) (i : nat) :
  same_shape (get_row s i) (get_row s' i) ->
  candidate s' x pos i = candidate s x pos i.
Proof.
  intros [Ev [_ [Et Ea]]].
  unfold candidate, live_on, get_coefficient. rewrite Ev, Et, Ea. reflexivity.
Qed.

Lemma update_values_index (bound_vars bound_trail : list nat) (s : model_based_opt) :
  m_var2row_ids (update_values bound_vars bound_trail s) = m_var2row_ids s.
Proof.
  unfold update_values.
  set (U := firstn (length bound_trail) bound_vars).
  set (s1 := fold_left fix_value (rev (combine bound_vars bound_trail)) s).
  assert (F : fixed U s s1).
  { apply fix_values_fixed; [|apply fixed_refl].
    intros p Hp. apply in_rev in Hp. unfold U. rewrite <- map_fst_combine.
    apply in_map. exact Hp. }
  destruct (recompute_vars s1 (rev U)) as [R _].
  rewrite (rc_index _ _ R). apply (fx_index _ _ _ F).
Qed.

(** X14: [maximize] is idempotent.  On a tableau that satisfies the
    invariants, calling [maximize] again on the tableau it left returns the
    same result and leaves that tableau as it is. *)
Theorem maximize_again (s s' : model_based_opt) (r : inf_eps) :
  tableau_ok true s = true ->
  maximize s = Some (r, s') ->
  maximize s' = Some (r, s').
Proof.
  intros H E. apply tableau_ok_ok in H. unfold maximize in E.
  destruct (maximize_loop_rounds _ _ _ _ _ _ E)
    as [n [sk [vk [tk [R [Es Cases]]]]]].
  assert (E0 : eliminated true s []) by (intros y k []).
  destruct (rounds_ok true n s sk [] [] vk tk H E0 eq_refl R) as [Ok [Ek [Lk _]]].
  assert (Ek' : eliminated true sk (firstn (length tk) vk))
    by (rewrite firstn_same_length; trivial).
  destruct (update_values_ok true vk tk sk Ok Ek') as [_ Sh].
  rewrite <- Es in Sh.
  destruct (Sh m_objective_id) as [Ev _].
  fold (objective s') in Ev. fold (objective sk) in Ev.
  unfold maximize. cbn [maximize_loop].
  destruct Cases as [[St Er]|[St Er]].
  - assert (St' : maximize_step s' = Done).
    { unfold maximize_step. rewrite Ev, (step_done_vars _ St). reflexivity. }
    rewrite St'. cbv zeta.
    change (update_values [] [] s') with s'. rewrite Er. reflexivity.
  - destruct (unbounded_inv sk St) as [Hne NoCand].
    assert (St' : maximize_step s' = Unbounded).
    { apply step_unbounded; rewrite Ev; trivial.
      intros i Hi. rewrite (candidate_shape sk s' _ _ i (Sh i)).
      apply NoCand. unfold row_ids_of in *.
      rewrite Es, update_values_index in Hi. exact Hi. }
    rewrite St'. change (update_values [] [] s') with s'. rewrite Er. reflexivity.
Qed.

Lemma maximize_again_witness :
  exists r s',
    maximize tableau_strict = Some (r, s') /\ maximize s' = Some (r, s').
Proof.
  destruct (maximize tableau_strict) as [[r s']|] eqn:E;
    [|vm_compute in E; discriminate].
  exists r, s'. split; [reflexivity|].
  apply (maximize_again tableau_strict s' r); [vm_compute; reflexivity|exact E].
Defined.

(** ** [invariant] *)

Lemma invariant_iff (s : model_based_opt) :
  invariant s = true <->
  forall i, (i < length (m_rows s))%nat ->
    row_invariant (m_var2value s) (get_row s i) = true
    /\ (m_type (get_row s i) = t_eq -> m_value (get_row s i) = 0)
    /\ (i <> m_objective_id -> satisfied (get_row s i) = true).
Proof.
  unfold invariant. rewrite forallb_seq.
  assert (K : forall i, invariant_row s i (get_row s i) = true <->
    row_invariant (m_var2value s) (get_row s i) = true
    /\ (m_type (get_row s i) = t_eq -> m_value (get_row s i) = 0)
    /\ (i <> m_objective_id -> satisfied (get_row s i) = true)).
  { intros i. unfold invariant_row, satisfied, m_objective_id.
    rewrite !andb_true_iff.
    destruct (m_type (get_row s i)) eqn:T; simpl;
      destruct (Nat.eqb_spec i 0) as [E|E]; simpl;
      rewrite ?is_zero_true; intuition (try congruence). }
  split; intros H i Hi; apply K; apply H; exact Hi.
Qed.

Lemma invariant_ok (s : model_based_opt) :
  well_formed s = true -> invariant s = true -> ok true s.
Proof.
  intros W I. apply well_formed_wf in W.
  pose proof (proj1 (invariant_iff s) I) as K.
  constructor; trivial.
  - intros i _. destruct (Nat.lt_ge_cases i (length (m_rows s))) as [L|L].
    + apply K. exact L.
    + rewrite get_row_out by exact L. apply default_row_invariant.
  - intros i Hi Ai. apply K; trivial. apply alive_in_range. exact Ai.
Qed.

Lemma eq_zero_of_satisfied (r : row) :
  satisfied r = true -> m_type r = t_eq -> m_value r = 0.
Proof. intros S T. apply satisfied_eq; trivial. Qed.

(** The rows [project] leaves dead keep their relation and cached value. *)
Lemma project_dead_rows (all : bool) (s : model_based_opt) (x k : nat) :
  ok all s -> m_alive (get_row (project x s) k) = false ->
  m_type (get_row (project x s) k) = m_type (get_row s k)
  /\ m_value (get_row (project x s) k) = m_value (get_row s k).
Proof.
  intros O.
  destruct (project_cases all s x O) as [[p [l [Rs [P _]]]]|[l [P _]]]; rewrite P.
  - destruct (pivot_phase all s x p l O Rs) as [_ [_ [_ [_ [Al R]]]]].
    cbv zeta in Al, R. rewrite Al, R.
    destruct (Nat.eqb_spec p k) as [->|Ne]; [intros _; split; reflexivity|].
    intros Dk. destruct (contains l k); [|split; reflexivity].
    unfold resolved, resolve_row. rewrite Dk. split; reflexivity.
  - rewrite kill_all_get_row. destruct (contains l k); intros _; split; reflexivity.
Qed.

(** X15: the operations that build and project a tableau keep
    [invariant()] true.  On a well-formed tableau on which [invariant()]
    holds (every row, dead or alive and the objective included, is sorted
    without zero coefficients and caches its value; every row but the
    objective satisfies its relation; an equality caches zero), it holds
    again after [add_var], after [add_constraint] with valid terms and a
    constraint that holds under the model, after [set_objective] with valid
    terms on an objective row that is still empty, and after [project]. *)
Theorem invariant_kept (s : model_based_opt) :
  well_formed s = true -> invariant s = true ->
  (forall value, invariant (snd (add_var value s)) = true)
  /\ (forall coeffs c rel,
        valid_terms s coeffs = true ->
        holds_b rel (terms_value s coeffs c) = true ->
        invariant (add_constraint coeffs c rel s) = true)
  /\ (forall coeffs c,
        is_nil (m_vars (objective s)) = true -> valid_terms s coeffs = true ->
        invariant (set_objective coeffs c s) = true)
  /\ (forall x, invariant (project x s) = true).
Proof.
  intros W I. pose proof (invariant_ok s W I) as O.
  pose proof (proj1 (invariant_iff s) I) as K.
  split; [|split; [|split]].
  - intros value. apply invariant_iff. intros i Hi.
    pose proof (add_var_ok true value s O) as O'.
    split; [apply (ok_inv _ _ O'); reflexivity|].
    change (get_row (snd (add_var value s)) i) with (get_row s i).
    apply K. exact Hi.
  - intros coeffs c rel Hv Hs. apply invariant_iff. intros i Hi.
    pose proof (add_constraint_ok true coeffs c rel s O Hv Hs) as O'.
    split; [apply (ok_inv _ _ O'); reflexivity|].
    clear O'. rewrite add_constraint_unfold in *.
    set (r := mk_row (sort_vars coeffs) c rel
                (fold_left (fun val v => val + nth (m_id v) (m_var2value s) 0
                                               * m_coeff v) coeffs c) true) in *.
    assert (Vr : m_value r = terms_value s coeffs c) by (apply set_row_value).
    unfold get_row. cbn [m_rows] in *.
    rewrite length_app in Hi. cbn [length] in Hi.
    destruct (Nat.lt_ge_cases i (length (m_rows s))) as [L|L].
    + rewrite app_nth1 by exact L. apply K. exact L.
    + assert (E : i = length (m_rows s)) by lia. subst i.
      rewrite nth_snoc. split.
      * intros T. rewrite Vr. change (m_type r) with rel in T.
        rewrite T in Hs. apply is_zero_true. exact Hs.
      * intros _. rewrite satisfied_holds_b, Vr. exact Hs.
  - intros coeffs c E Hv. apply invariant_iff. intros i Hi.
    assert (Ev : m_vars (objective s) = [])
      by (destruct (m_vars (objective s)); [reflexivity|discriminate]).
    pose proof (set_objective_ok true coeffs c s O Ev Hv) as O'.
    split; [apply (ok_inv _ _ O'); reflexivity|].
    assert (L : length (m_rows (set_objective coeffs c s)) = length (m_rows s))
      by (unfold set_objective, set_row; cbn [m_rows]; apply upd_length).
    rewrite L in Hi.
    unfold set_objective, set_row. rewrite get_row_upd.
    destruct (Nat.eqb_spec m_objective_id i) as [<-|Ne]; simpl.
    + assert (L0 : (m_objective_id <? length (m_rows s)) = true)
        by (apply Nat.ltb_lt; exact Hi).
      rewrite L0. simpl. split; [discriminate|]. intros Q. elim Q. reflexivity.
    + apply K. exact Hi.
  - intros x. apply invariant_iff. intros i Hi.
    destruct (project_ok true x s O) as [O' [_ [R0 _]]].
    split; [apply (ok_inv _ _ O'); reflexivity|].
    destruct (project_kills s x) as [L _]. rewrite L in Hi.
    destruct (m_alive (get_row (project x s) i)) eqn:Ai.
    + destruct (Nat.eq_dec i m_objective_id) as [->|Ne].
      * rewrite R0. split; [apply K; exact Hi|]. intros Q. elim Q. reflexivity.
      * pose proof (ok_sat _ _ O' i Ne Ai) as S.
        split; [apply eq_zero_of_satisfied; exact S|]. intros _. exact S.
    + destruct (project_dead_rows true s x i O Ai) as [Et Ev].
      rewrite (satisfied_ext (get_row s i)), Et, Ev; trivial.
      apply K. exact Hi.
Qed.

Lemma invariant_kept_witness :
  invariant (snd (add_var (rat 7) tableau_lub)) = true
  /\ invariant (add_constraint [mk_var 1 (rat 1)] (rat 0) t_le tableau_lub) = true
  /\ invariant (project 1 tableau_lub) = true.
Proof.
  destruct (invariant_kept tableau_lub) as [A [B [_ D]]].
  - vm_compute. reflexivity.
  - vm_compute. reflexivity.
  - split; [apply A|]. split; [|apply D].
    apply B; vm_compute; reflexivity.
Defined.

(** ** Tableaux without strict rows *)

Lemma round_keeps_nonstrict (all : bool) (s s' : model_based_opt) (x b : nat) :
  ok all s -> in_scope all (objective s) = true ->
  maximize_step s = Next x b s' ->
  (forall i, i <> m_objective_id -> m_alive (get_row s i) = true ->
             m_type (get_row s i) <> t_lt) ->
  (forall i, i <> m_objective_id -> m_alive (get_row s' i) = true ->
             m_type (get_row s' i) <> t_lt)
  /\ (is_lt (m_type (objective s)) = false ->
      is_lt (m_type (objective s')) = false).
Proof.
  intros O Sc St NoLt.
  destruct (maximize_step_rows all s s' x b O Sc St)
    as [l [Rs [Rows [_ [Ob _]]]]].
  destruct (round_dead all s s' x b O Sc St) as [Hb0 [Ab _]].
  pose proof (NoLt b Hb0 Ab) as Tb.
  assert (Lb : is_lt (m_type (get_row s b)) = false)
    by (destruct (m_type (get_row s b)); trivial; congruence).
  split.
  - intros i Hi. rewrite (Rows i Hi).
    destruct (b =? i); [discriminate|].
    destruct (contains l i); [|apply NoLt; trivial].
    rewrite resolved_alive. intros Ai. rewrite resolved_type by exact Ai.
    destruct (is_zero _); [apply NoLt; trivial|].
    unfold combine_type. rewrite Lb, !andb_false_r. apply NoLt; trivial.
  - intros Lo. rewrite Ob. simpl. unfold combine_type. rewrite Lb. simpl.
    exact Lo.
Qed.

Lemma rounds_keep_nonstrict (all : bool) (n : nat) (s sk : model_based_opt)
    (vs ts vk tk : list nat) :
  ok all s -> in_scope all (objective s) = true ->
  rounds n s vs ts = Some (sk, vk, tk) ->
  (forall i, i <> m_objective_id -> m_alive (get_row s i) = true ->
             m_type (get_row s i) <> t_lt) ->
  is_lt (m_type (objective s)) = false ->
  is_lt (m_type (objective sk)) = false.
Proof.
  revert s vs ts. induction n as [|n IH]; intros s vs ts O Sc R NoLt Lo.
  - simpl in R. inversion R; subst. exact Lo.
  - cbn [rounds] in R.
    destruct (maximize_step s) as [| |x b s1] eqn:St; try discriminate.
    assert (E0 : eliminated all s []) by (intros y k []).
    destruct (maximize_step_next all s s1 x b [] O E0 St) as [O1 [_ [_ [_ Al]]]].
    destruct (round_dead all s s1 x b O Sc St) as [Hb0 _].
    assert (Sc1 : in_scope all (objective s1) = true).
    { unfold in_scope, objective in *. rewrite Al.
      destruct (b =? m_objective_id) eqn:K; trivial.
      apply Nat.eqb_eq in K. contradiction. }
    destruct (round_keeps_nonstrict all s s1 x b O Sc St NoLt) as [N1 L1].
    apply (IH s1 _ _ O1 Sc1 R N1 (L1 Lo)).
Qed.

(** X16: on a tableau that satisfies the invariants and has no strict
    row (no live constraint row and not the objective has relation
    [t_lt]), a finite result of [maximize] is exact: the infinitesimal
    returned is zero. *)
Theorem maximize_exact_without_strict (s : model_based_opt) (v eps : Qc)
    (s' : model_based_opt) :
  tableau_ok true s = true ->
  (forall i, i <> m_objective_id -> m_alive (get_row s i) = true ->
             m_type (get_row s i) <> t_lt) ->
  m_type (objective s) <> t_lt ->
  maximize s = Some (finite v eps, s') ->
  eps = 0.
Proof.
  intros H NoLt To E. apply tableau_ok_ok in H. unfold maximize in E.
  destruct (maximize_loop_rounds _ _ _ _ _ _ E)
    as [n [sk [vk [tk [R [Es [[St Er]|[_ Er]]]]]]]]; [|discriminate].
  assert (Lo : is_lt (m_type (objective s)) = false)
    by (destruct (m_type (objective s)); trivial; congruence).
  pose proof (rounds_keep_nonstrict true n s sk [] [] vk tk H eq_refl R NoLt Lo)
    as Lk.
  assert (E0 : eliminated true s []) by (intros y k []).
  destruct (rounds_ok true n s sk [] [] vk tk H E0 eq_refl R) as [Ok [Ek [Le _]]].
  assert (Ek' : eliminated true sk (firstn (length tk) vk))
    by (rewrite firstn_same_length; trivial).
  destruct (update_values_ok true vk tk sk Ok Ek') as [_ Sh].
  rewrite <- Es in Sh. destruct (Sh m_objective_id) as [_ [_ [Et _]]].
  fold (objective s') in Et. fold (objective sk) in Et.
  unfold result_of in Er. rewrite Et, Lk in Er. inversion Er. reflexivity.
Qed.

Lemma tableau_lub_no_strict (i : nat) :
  i <> m_objective_id -> m_alive (get_row tableau_lub i) = true ->
  m_type (get_row tableau_lub i) <> t_lt.
Proof.
  intros Hi Ai. destruct i as [|[|[|[|i]]]].
  - elim Hi. reflexivity.
  - vm_compute. discriminate.
  - vm_compute. discriminate.
  - vm_compute. discriminate.
  - destruct i; discriminate Ai.
Qed.

Lemma maximize_exact_without_strict_witness :
  exists v eps s',
    maximize tableau_lub = Some (finite v eps, s') /\ eps = 0.
Proof.
  assert (H : tableau_ok true tableau_lub = true) by (vm_compute; reflexivity).
  assert (To : m_type (objective tableau_lub) <> t_lt)
    by (vm_compute; discriminate).
  destruct (maximize tableau_lub) as [[[|v eps] s']|] eqn:E;
    [vm_compute in E; discriminate E| |vm_compute in E; discriminate E].
  exists v, eps, s'. split; [reflexivity|].
  exact (maximize_exact_without_strict tableau_lub v eps s' H
           tableau_lub_no_strict To E).
Defined.

(** ** The variable index under [mul_add] *)

Lemma sorted_above (v : var) (l : list var) (y : nat) :
  sorted_ids (v :: l) = true -> In y (ids l) -> (m_id v < y)%nat.
Proof.
  intros S H. destruct (sorted_ids_cons _ _ S) as [_ Lo].
  unfold ids in H. apply in_map_iff in H. destruct H as [u [<- Hu]].
  rewrite Forall_forall in Lo. apply Lo. exact Hu.
Qed.

Lemma sorted_tail (v : var) (l : list var) :
  sorted_ids (v :: l) = true -> sorted_ids l = true.
Proof. intros S. apply (sorted_ids_cons _ _ S). Qed.

(** The ids for which the merge loop pushes row1 on the index are those of
    row2 that row1 does not have. *)
Lemma merge_added_iff (c : Qc) (l1 l2 : list var) :
  sorted_ids l1 = true -> sorted_ids l2 = true ->
  forall y, In y (snd (merge c l1 l2)) <-> In y (ids l2) /\ ~ In y (ids l1).
Proof.
  merge_induction c l1 l2.
  - rewrite merge_nil_r. simpl. tauto.
  - rewrite merge_nil_l. simpl.
    rewrite (H H0 (sorted_tail _ _ H1) y). simpl. tauto.
  - rewrite merge_cons.
    pose proof (sorted_tail _ _ H2) as S1. pose proof (sorted_tail _ _ H3) as S2.
    destruct (Nat.eqb_spec (m_id v1) (m_id v2)) as [E|Ne].
    + assert (K : snd (if is_zero (m_coeff v1 + c * m_coeff v2)
                       then merge c l1 l2
                       else (mk_var (m_id v1) (m_coeff v1 + c * m_coeff v2)
                               :: fst (merge c l1 l2), snd (merge c l1 l2)))
                  = snd (merge c l1 l2))
        by (destruct (is_zero _); reflexivity).
      rewrite K, (H E S1 S2 y). simpl. split.
      * intros [A B]. pose proof (sorted_above _ _ _ H3 A) as L.
        split; [right; exact A|]. intros [Q|Q]; [lia|contradiction].
      * intros [[A|A] B]; [elim B; left; congruence|].
        split; trivial. intros Q. apply B. right. exact Q.
    + destruct (Nat.ltb_spec (m_id v1) (m_id v2)) as [L|L].
      * simpl snd. rewrite (H0 L S1 H3 y). simpl. split.
        -- intros [A B]. split; trivial. intros [Q|Q]; [|contradiction].
           destruct A as [A|A]; [lia|].
           pose proof (sorted_above _ _ _ H3 A). lia.
        -- intros [A B]. split; trivial. intros Q. apply B. right. exact Q.
      * assert (L' : (m_id v2 < m_id v1)%nat) by lia.
        simpl snd. simpl In at 1. rewrite (H1 L' H2 S2 y). simpl. split.
        -- intros [A|[A B]].
           ++ split; [left; exact A|]. intros [Q|Q]; [lia|].
              pose proof (sorted_above _ _ _ H2 Q). lia.
           ++ split; [right; exact A|exact B].
        -- intros [[A|A] B]; [left; exact A|right; split; trivial].
Qed.

(** X17: what [mul_add] does to the variable index, on rows whose variable
    lists are sorted: it never removes an entry; it pushes [row_id1] on the
    entry of a variable exactly when the scalar is not zero, row1 is not
    the objective, and row2 has the variable while row1 does not (variables
    that cancel keep their entry, so an entry can list a row that no longer
    has the variable). *)
Theorem mul_add_index_spec (same_sign : bool) (row_id1 row_id2 : nat) (c : Qc)
    (s : model_based_opt) :
  sorted_ids (m_vars (get_row s row_id1)) = true ->
  sorted_ids (m_vars (get_row s row_id2)) = true ->
  forall y k,
    In k (row_ids_of (mul_add same_sign row_id1 c row_id2 s) y)
    <-> In k (row_ids_of s y)
        \/ (k = row_id1 /\ row_id1 <> m_objective_id /\ c <> 0
            /\ In y (ids (m_vars (get_row s row_id2)))
            /\ ~ In y (ids (m_vars (get_row s row_id1)))
            /\ (y < length (m_var2row_ids s))%nat).
Proof.
  intros S1 S2 y k. rewrite mul_add_index.
  rewrite (merge_added_iff c _ _ S1 S2 y), is_zero_false. tauto.
Qed.

Lemma mul_add_index_spec_witness :
  sorted_ids (m_vars (get_row tableau_lub 3)) = true
  /\ forall y k,
    In k (row_ids_of (mul_add true 3 (rat 2) 1 tableau_lub) y)
    <-> In k (row_ids_of tableau_lub y)
        \/ (k = 3%nat /\ 3%nat <> m_objective_id /\ rat 2 <> 0
            /\ In y (ids (m_vars (get_row tableau_lub 1)))
            /\ ~ In y (ids (m_vars (get_row tableau_lub 3)))
            /\ (y < length (m_var2row_ids tableau_lub))%nat).
Proof.
  split; [vm_compute; reflexivity|].
  apply mul_add_index_spec; vm_compute; reflexivity.
Defined.

(** ** What [maximize] and [project] never do *)

Lemma resolve_index_length (b i x : nat) (a : Qc) (s : model_based_opt) :
  length (m_var2row_ids (resolve b a i x s)) = length (m_var2row_ids s).
Proof.
  unfold resolve. destruct (m_alive (get_row s i)); trivial.
  apply mul_add_index_length.
Qed.

Lemma resolve_all_index_length (b x : nat) (a : Qc) (l : list nat)
    (s : model_based_opt) :
  length (m_var2row_ids (resolve_all b a x l s)) = length (m_var2row_ids s).
Proof.
  revert s. induction l as [|r l IH]; intros s; simpl; trivial.
  unfold resolve_all in *. simpl. rewrite IH. apply resolve_index_length.
Qed.

Lemma kill_all_alive (l : list nat) (s : model_based_opt) (k : nat) :
  m_alive (get_row (kill_all l s) k) = true -> m_alive (get_row s k) = true.
Proof.
  rewrite kill_all_get_row. destruct (contains l k); [discriminate|trivial].
Qed.

Lemma kill_all_index (l : list nat) (s : model_based_opt) :
  m_var2row_ids (kill_all l s) = m_var2row_ids s.
Proof.
  revert s. induction l as [|r l IH]; intros s; simpl; trivial.
  unfold kill_all in *. simpl. rewrite IH. reflexivity.
Qed.

(** Sizes and liveness after a pivot step. *)
Lemma pivot_frame (p x : nat) (a : Qc) (l : list nat) (s : model_based_opt) :
  length (m_var2value (kill p (resolve_all p a x l s))) = length (m_var2value s)
  /\ length (m_var2row_ids (kill p (resolve_all p a x l s)))
     = length (m_var2row_ids s).
Proof.
  split.
  - simpl. rewrite resolve_all_vals. reflexivity.
  - simpl. apply resolve_all_index_length.
Qed.

Lemma project_frame (s : model_based_opt) (x : nat) :
  length (m_var2value (project x s)) = length (m_var2value s)
  /\ length (m_var2row_ids (project x s)) = length (m_var2row_ids s).
Proof.
  unfold project. destruct (select s x (row_ids_of s x) sel_init) as [e|st].
  - rewrite solve_for_unfold. apply pivot_frame.
  - cbv zeta. destruct (pivot_of st) as [p|].
    + rewrite resolve_others_filter. apply pivot_frame.
    + rewrite kill_all_vals, kill_all_index. split; reflexivity.
Qed.

Lemma round_frame (s s' : model_based_opt) (x b : nat) :
  maximize_step s = Next x b s' ->
  length (m_var2value s') = length (m_var2value s)
  /\ length (m_var2row_ids s') = length (m_var2row_ids s).
Proof.
  unfold maximize_step.
  destruct (m_vars (objective s)) as [|v0 rest]; [discriminate|].
  destruct (bs_index _) as [b'|]; [|discriminate].
  intros H. inversion H; subst. unfold eliminate. simpl. split.
  - rewrite mul_add_vals, !resolve_all_vals. reflexivity.
  - rewrite mul_add_index_length, !resolve_all_index_length. reflexivity.
Qed.

Lemma rounds_frame (n : nat) (s sk : model_based_opt) (vs ts vk tk : list nat) :
  rounds n s vs ts = Some (sk, vk, tk) ->
  length (m_rows sk) = length (m_rows s)
  /\ length (m_var2value sk) = length (m_var2value s)
  /\ length (m_var2row_ids sk) = length (m_var2row_ids s)
  /\ forall k, m_alive (get_row sk k) = true -> m_alive (get_row s k) = true.
Proof.
  revert s vs ts. induction n as [|n IH]; intros s vs ts R.
  - simpl in R. inversion R; subst. auto.
  - cbn [rounds] in R.
    destruct (maximize_step s) as [| |x b s1] eqn:St; try discriminate.
    destruct (maximize_step_kills s s1 x b St) as [_ [L A]].
    destruct (round_frame s s1 x b St) as [V I].
    destruct (IH s1 _ _ R) as [L' [V' [I' A']]].
    split; [congruence|]. split; [congruence|]. split; [congruence|].
    intros k Ak. apply A' in Ak. rewrite A in Ak.
    destruct (b =? k); [discriminate|exact Ak].
Qed.

Lemma update_values_frame (bound_vars bound_trail : list nat) (s : model_based_opt) :
  length (m_rows (update_values bound_vars bound_trail s)) = length (m_rows s)
  /\ length (m_var2value (update_values bound_vars bound_trail s))
     = length (m_var2value s)
  /\ forall k, same_shape (get_row s k)
                          (get_row (update_values bound_vars bound_trail s) k).
Proof.
  unfold update_values.
  set (U := firstn (length bound_trail) bound_vars).
  set (s1 := fold_left fix_value (rev (combine bound_vars bound_trail)) s).
  assert (F : fixed U s s1).
  { apply fix_values_fixed; [|apply fixed_refl].
    intros p Hp. apply in_rev in Hp. unfold U. rewrite <- map_fst_combine.
    apply in_map. exact Hp. }
  destruct (recompute_vars s1 (rev U)) as [R _].
  destruct F as [F1 F2 F3 F4 F5 F6]. destruct R as [R1 R2 R3 R4 R5 R6].
  split; [congruence|]. split; [congruence|].
  intros k. eapply same_shape_trans; [apply F1|apply R1].
Qed.

(** X18: [maximize] and [project] never add a row or a variable and never
    bring a dead row back: after either, the number of rows, the number of
    variables and the number of index entries are what they were, and every
    row that is alive was alive before. *)
Theorem no_growth (s : model_based_opt) :
  (forall r s', maximize s = Some (r, s') ->
     length (m_rows s') = length (m_rows s)
     /\ length (m_var2value s') = length (m_var2value s)
     /\ length (m_var2row_ids s') = length (m_var2row_ids s)
     /\ forall k, m_alive (get_row s' k) = true -> m_alive (get_row s k) = true)
  /\ (forall x,
        length (m_rows (project x s)) = length (m_rows s)
        /\ length (m_var2value (project x s)) = length (m_var2value s)
        /\ length (m_var2row_ids (project x s)) = length (m_var2row_ids s)
        /\ forall k, m_alive (get_row (project x s) k) = true ->
                     m_alive (get_row s k) = true).
Proof.
  split.
  - intros r s' E. unfold maximize in E.
    destruct (maximize_loop_rounds _ _ _ _ _ _ E)
      as [n [sk [vk [tk [R [Es _]]]]]].
    destruct (rounds_frame n s sk [] [] vk tk R) as [L [V [I A]]].
    destruct (update_values_frame vk tk sk) as [L' [V' Sh]].
    rewrite <- Es in L', V', Sh.
    split; [congruence|]. split; [congruence|]. split.
    + rewrite Es, update_values_index. exact I.
    + intros k Ak. apply A. destruct (Sh k) as [_ [_ [_ Ea]]]. congruence.
  - intros x. destruct (project_kills s x) as [L [A _]].
    destruct (project_frame s x) as [V I]. auto.
Qed.

(** ** The loop of [get_coefficient] on any row *)

Lemma half_lt (lo hi : nat) :
  (lo < hi)%nat -> ((hi - lo) / 2 < hi - lo)%nat.
Proof. intros H. apply Nat.div_lt; lia. Qed.

Lemma search_bounds (fuel : nat) (vars : list var) (x lo hi : nat) :
  (lo <= hi)%nat ->
  (lo <= search fuel vars x lo hi)%nat /\ (search fuel vars x lo hi <= hi)%nat.
Proof.
  revert lo hi. induction fuel as [|fuel IH]; intros lo hi H; cbn [search]; [lia|].
  destruct (Nat.ltb_spec lo hi) as [L|L]; [|lia].
  pose proof (half_lt lo hi L) as D.
  destruct (_ =? x); [lia|].
  destruct (_ <? x).
  - destruct (IH (lo + (hi - lo) / 2 + 1)%nat hi); lia.
  - destruct (IH lo (lo + (hi - lo) / 2)%nat); lia.
Qed.

(** More rounds than the width of the interval change nothing: the loop
    has ended by then. *)
Lemma search_fuel (fuel k : nat) (vars : list var) (x lo hi : nat) :
  (hi - lo <= fuel)%nat ->
  search (fuel + k) vars x lo hi = search fuel vars x lo hi.
Proof.
  revert lo hi. induction fuel as [|fuel IH]; intros lo hi H.
  - cbn [Nat.add]. destruct k; cbn [search]; trivial.
    destruct (Nat.ltb_spec lo hi) as [L|L]; [lia|reflexivity].
  - cbn [Nat.add search]. destruct (Nat.ltb_spec lo hi) as [L|L]; trivial.
    pose proof (half_lt lo hi L) as D.
    destruct (_ =? x); trivial.
    destruct (_ <? x); apply IH; lia.
Qed.

(** X19: the binary search of [get_coefficient], on any row, sorted or not:
    it has ended after [m_vars.size()] rounds (more rounds change nothing),
    the index it ends with is at most [m_vars.size()], so that the read of
    [m_vars[lo]] behind the size check is in bounds, and what
    [get_coefficient] returns is zero or the coefficient of an entry of the
    row for the variable asked, never that of another variable. *)
Theorem get_coefficient_safe (s : model_based_opt) (row_id var_id : nat) :
  (forall k,
     search (length (m_vars (get_row s row_id)) + k)
            (m_vars (get_row s row_id)) var_id 0
            (length (m_vars (get_row s row_id)))
     = search (length (m_vars (get_row s row_id)))
              (m_vars (get_row s row_id)) var_id 0
              (length (m_vars (get_row s row_id))))
  /\ (search (length (m_vars (get_row s row_id)))
             (m_vars (get_row s row_id)) var_id 0
             (length (m_vars (get_row s row_id)))
      <= length (m_vars (get_row s row_id)))%nat
  /\ (get_coefficient s row_id var_id = 0
      \/ In (mk_var var_id (get_coefficient s row_id var_id))
            (m_vars (get_row s row_id))).
Proof.
  set (vars := m_vars (get_row s row_id)).
  split; [intros k; apply search_fuel; lia|].
  split; [apply search_bounds; lia|].
  unfold get_coefficient. fold vars. unfold coefficient_in.
  destruct vars as [|v0 rest] eqn:Ev; [left; reflexivity|].
  rewrite <- Ev. set (lo := search (length vars) vars var_id 0 (length vars)).
  destruct (Nat.eqb_spec lo (length vars)) as [E|Ne]; [left; reflexivity|].
  destruct (Nat.eqb_spec (m_id (nth lo vars dummy_var)) var_id) as [Ei|Ni];
    [|left; reflexivity].
  right. rewrite <- Ei.
  assert (Hlo : (lo < length vars)%nat).
  { destruct (search_bounds (length vars) vars var_id 0 (length vars)) as [_ B];
      [lia|]. fold lo in B. lia. }
  pose proof (nth_In vars dummy_var Hlo) as K.
  destruct (nth lo vars dummy_var) as [i c]. exact K.
Qed.

(** ** The result of [maximize] and the model it starts from *)

(** A round of [maximize] does not lower the cached value of the
    objective: the multiple of the bound row that is added is not negative
    under the model. *)
Lemma round_improves (all : bool) (s s' : model_based_opt) (x b : nat) :
  ok all s -> in_scope all (objective s) = true ->
  maximize_step s = Next x b s' ->
  m_value (objective s) <= m_value (objective s').
Proof.
  intros O Sc St.
  destruct (maximize_step_rows all s s' x b O Sc St)
    as [l [_ [_ [_ [Ob [Cn _]]]]]].
  destruct (round_dead all s s' x b O Sc St) as [Hb0 [Ab _]].
  pose proof (ok_sat _ _ O b Hb0 Ab) as Sat.
  rewrite Ob. simpl m_value.
  revert Cn. generalize (- m_coeff (last (m_vars (objective s)) dummy_var)
                         / get_coefficient s b x). intros c Cn.
  destruct (m_type (get_row s b)) eqn:Tb.
  - rewrite (satisfied_eq _ Tb Sat).
    replace (m_value (objective s) + c * 0) with (m_value (objective s)) by ring.
    apply Qcle_refl.
  - pose proof (satisfied_nonpos _ Sat) as V.
    assert (K : c < 0) by (apply Cn; discriminate).
    revert V K. generalize (m_value (get_row s b)) (m_value (objective s)).
    intros u o. to_Q. intros. nra.
  - pose proof (satisfied_nonpos _ Sat) as V.
    assert (K : c < 0) by (apply Cn; discriminate).
    revert V K. generalize (m_value (get_row s b)) (m_value (objective s)).
    intros u o. to_Q. intros. nra.
Qed.

Lemma rounds_improve (all : bool) (n : nat) (s sk : model_based_opt)
    (vs ts vk tk : list nat) :
  ok all s -> in_scope all (objective s) = true ->
  rounds n s vs ts = Some (sk, vk, tk) ->
  m_value (objective s) <= m_value (objective sk).
Proof.
  revert s vs ts. induction n as [|n IH]; intros s vs ts O Sc R.
  - simpl in R. inversion R; subst. apply Qcle_refl.
  - cbn [rounds] in R.
    destruct (maximize_step s) as [| |x b s1] eqn:St; try discriminate.
    assert (E0 : eliminated all s []) by (intros y k []).
    destruct (maximize_step_next all s s1 x b [] O E0 St) as [O1 [_ [_ [_ Al]]]].
    destruct (round_dead all s s1 x b O Sc St) as [Hb0 _].
    assert (Sc1 : in_scope all (objective s1) = true).
    { unfold in_scope, objective in *. rewrite Al.
      destruct (b =? m_objective_id) eqn:K; trivial.
      apply Nat.eqb_eq in K. contradiction. }
    apply Qcle_trans with (m_value (objective s1)).
    + apply (round_improves all s s1 x b); trivial.
    + apply (IH s1 _ _ O1 Sc1 R).
Qed.

(** X20: [maximize] never returns less than what it starts from.  On a
    tableau that satisfies the invariants, a finite value returned by
    [maximize] is at least the value of the objective under the model the
    call started with. *)
Theorem maximize_improves (s : model_based_opt) (v eps : Qc)
    (s' : model_based_opt) :
  tableau_ok true s = true ->
  maximize s = Some (finite v eps, s') ->
  objective_at s (m_var2value s) <= v.
Proof.
  intros H E. apply tableau_ok_ok in H. unfold maximize in E.
  destruct (maximize_loop_rounds _ _ _ _ _ _ E)
    as [n [sk [vk [tk [R [Es [[St Er]|[_ Er]]]]]]]]; [|discriminate].
  pose proof (rounds_improve true n s sk [] [] vk tk H eq_refl R) as Imp.
  assert (E0 : eliminated true s []) by (intros y k []).
  destruct (rounds_ok true n s sk [] [] vk tk H E0 eq_refl R) as [Ok [Ek [Lk _]]].
  assert (Ek' : eliminated true sk (firstn (length tk) vk))
    by (rewrite firstn_same_length; trivial).
  destruct (update_values_ok true vk tk sk Ok Ek') as [O' Sh].
  rewrite <- Es in O', Sh.
  destruct (Sh m_objective_id) as [Ev [Ec _]].
  fold (objective s') in Ev, Ec. fold (objective sk) in Ev, Ec.
  pose proof (step_done_vars _ St) as V0.
  assert (Val : m_value (objective s') = m_const (objective sk)).
  { pose proof (ok_inv _ _ O' m_objective_id eq_refl) as I.
    apply row_invariant_parts in I. destruct I as [_ [_ I]].
    fold (objective s') in I. rewrite I, row_value_dot, Ev, V0, Ec. simpl. ring. }
  assert (Vk : m_value (objective sk) = m_const (objective sk)).
  { pose proof (ok_inv _ _ Ok m_objective_id eq_refl) as I.
    apply row_invariant_parts in I. destruct I as [_ [_ I]].
    fold (objective sk) in I. rewrite I, row_value_dot, V0. simpl. ring. }
  assert (V0s : objective_at s (m_var2value s) = m_value (objective s)).
  { pose proof (ok_inv _ _ H m_objective_id eq_refl) as I.
    apply row_invariant_parts in I. destruct I as [_ [_ I]].
    symmetry. exact I. }
  assert (Ev' : v = m_const (objective sk)).
  { unfold result_of in Er. rewrite Val in Er.
    destruct (is_lt (m_type (objective s'))); inversion Er; reflexivity. }
  rewrite V0s, Ev', <- Vk. exact Imp.
Qed.

Lemma maximize_improves_witness :
  exists v eps s',
    maximize tableau_strict = Some (finite v eps, s')
    /\ objective_at tableau_strict (m_var2value tableau_strict) <= v.
Proof.
  assert (H : tableau_ok true tableau_strict = true) by (vm_compute; reflexivity).
  destruct (maximize tableau_strict) as [[[|v eps] s']|] eqn:E;
    [vm_compute in E; discriminate E| |vm_compute in E; discriminate E].
  exists v, eps, s'. split; [reflexivity|].
  exact (maximize_improves tableau_strict v eps s' H E).
Defined.

(** * The result of [maximize], in full *)

Lemma unbounded_not_bounded (s : model_based_opt) :
  (forall u, exists vals, feasible s vals /\ u < objective_at s vals) ->
  ~ bounded_above s.
Proof.
  intros U [u B]. destruct (U u) as [vals [Fe L]].
  specialize (B vals Fe). revert L B.
  generalize (objective_at s vals). intros o. to_Q. intros. lra.
Qed.

(** C1 (amended): on every tableau in which every row satisfies the row
    invariant and every live constraint row the satisfaction invariant,
    [maximize] returns after some rounds of its loop, each of which
    eliminates the variable at the back of the objective against the bound
    row found by [find_bound], followed by [update_values] over the trail,
    and leaves a tableau in the same condition (nothing is said of the
    satisfaction of the rows it marked dead).  If the objective is bounded above by the constraints the
    result is finite.  A result of positive infinity means that the last
    variable has no bound row and that the objective is unbounded over the
    constraints.  A finite result is the residual constant of the objective
    row after all its variables are eliminated: the constant the rounds of
    the loop leave in it, which is also its cached value, exact when the
    terminal relation is not strict and paired with the infinitesimal [-1]
    when it is [t_lt].  That value is a lower bound of the supremum of the
    objective over the constraints, not always the supremum: it is at least
    the value of the objective under the model the call started with, the
    objective comes as close to it as wanted on models of the constraints,
    and when it is exact the model left in the tableau satisfies the
    constraints and attains it. *)
Theorem maximize_returns_residual (s : model_based_opt) :
  tableau_ok true s = true ->
  exists r s' n sk bound_vars bound_trail,
    maximize s = Some (r, s')
    /\ rounds n s [] [] = Some (sk, bound_vars, bound_trail)
    /\ s' = update_values bound_vars bound_trail sk
    /\ tableau_ok true s' = true
    /\ (bounded_above s -> exists v eps, r = finite v eps)
    /\ match r with
       | infinity =>
           maximize_step sk = Unbounded
           /\ forall u, exists vals, feasible s vals /\ u < objective_at s vals
       | finite v eps =>
           maximize_step sk = Done
           /\ m_vars (objective s') = []
           /\ v = m_const (objective s')
           /\ v = m_const (objective sk)
           /\ v = m_value (objective s')
           /\ eps = (if is_lt (m_type (objective s')) then - (1) else 0)
           /\ objective_at s (m_var2value s) <= v
           /\ (forall d, 0 < d ->
                 exists vals, feasible s vals /\ v - d < objective_at s vals)
           /\ (eps = 0 ->
               feasible s (m_var2value s')
               /\ objective_at s (m_var2value s') = v)
       end.
Proof.
  intros H. apply tableau_ok_ok in H.
  destruct (maximize_total s) as [[r s'] E].
  pose proof (maximize_ok true s s' r H E) as O'.
  pose proof E as E1. unfold maximize in E1.
  destruct (maximize_loop_rounds _ _ _ _ _ _ E1)
    as [n [sk [vk [tk [R [Es Cases]]]]]].
  exists r, s', n, sk, vk, tk.
  split; [exact E|]. split; [exact R|]. split; [exact Es|].
  split; [apply tableau_ok_ok; exact O'|].
  destruct (rounds_extend true n s sk [] [] vk tk H eq_refl R)
    as [Ok [Sck [_ Ext]]].
  assert (Cases' :
    match r with
    | infinity =>
        maximize_step sk = Unbounded
        /\ forall u, exists vals, feasible s vals /\ u < objective_at s vals
    | finite v eps =>
        maximize_step sk = Done
        /\ m_vars (objective s') = []
        /\ v = m_const (objective s')
        /\ v = m_const (objective sk)
        /\ v = m_value (objective s')
        /\ eps = (if is_lt (m_type (objective s')) then - (1) else 0)
        /\ objective_at s (m_var2value s) <= v
        /\ (forall d, 0 < d ->
              exists vals, feasible s vals /\ v - d < objective_at s vals)
        /\ (eps = 0 ->
            feasible s (m_var2value s')
            /\ objective_at s (m_var2value s') = v)
    end).
  { destruct Cases as [[St Er]|[St Er]].
    - assert (E0 : eliminated true s []) by (intros y k []).
      destruct (rounds_ok true n s sk [] [] vk tk H E0 eq_refl R)
        as [_ [Ek [Lk _]]].
      assert (Ek' : eliminated true sk (firstn (length tk) vk))
        by (rewrite firstn_same_length; trivial).
      destruct (update_values_ok true vk tk sk Ok Ek') as [_ Sh].
      rewrite <- Es in Sh.
      destruct (Sh m_objective_id) as [Ev [Ec [Et _]]].
      fold (objective s') in Ev, Ec, Et. fold (objective sk) in Ev, Ec, Et.
      pose proof (step_done_vars _ St) as V0.
      assert (Ev0 : m_vars (objective s') = []) by (rewrite Ev; exact V0).
      assert (Val : m_value (objective s') = m_const (objective s')).
      { pose proof (ok_inv _ _ O' m_objective_id eq_refl) as I.
        apply row_invariant_parts in I. destruct I as [_ [_ I]].
        fold (objective s') in I. rewrite I, row_value_dot, Ev0. simpl. ring. }
      assert (Vk : m_value (objective sk) = m_const (objective sk)).
      { pose proof (ok_inv _ _ Ok m_objective_id eq_refl) as I.
        apply row_invariant_parts in I. destruct I as [_ [_ I]].
        fold (objective sk) in I. rewrite I, row_value_dot, V0. simpl. ring. }
      assert (At : forall m, objective_at sk m = m_const (objective s')).
      { intros m. unfold objective_at. rewrite row_value_dot, V0, Ec.
        simpl. ring. }
      assert (V0s : objective_at s (m_var2value s) = m_value (objective s)).
      { pose proof (ok_inv _ _ H m_objective_id eq_refl) as I.
        apply row_invariant_parts in I. destruct I as [_ [_ I]].
        symmetry. exact I. }
      pose proof (rounds_improve true n s sk [] [] vk tk H eq_refl R) as Imp.
      destruct (Ext (m_var2value sk) (ok_feasible true sk Ok)) as [Near _].
      rewrite At in Near.
      assert (Er' : r = finite (m_const (objective s'))
                             (if is_lt (m_type (objective s')) then - (1) else 0)).
      { rewrite Er. unfold result_of. rewrite Val.
        destruct (is_lt (m_type (objective s'))); reflexivity. }
      rewrite Er'.
      split; [exact St|]. split; [exact Ev0|]. split; [reflexivity|].
      split; [exact Ec|].
      split; [symmetry; exact Val|]. split; [reflexivity|].
      split; [rewrite V0s, Ec, <- Vk; exact Imp|]. split; [exact Near|].
      intros Z.
      assert (Lt : is_lt (m_type (objective sk)) = false).
      { rewrite <- Et. destruct (is_lt (m_type (objective s'))); trivial.
        apply (f_equal this) in Z. vm_compute in Z. discriminate Z. }
      destruct (rounds_witness true n s sk [] [] vk tk H eq_refl R Lt)
        as [vs' [ts' [Evs [Ets [_ W]]]]].
      simpl in Evs, Ets. subst vs' ts'.
      destruct (W sk (fun k => same_shape_refl _) (ok_feasible true sk Ok))
        as [Fe [Ob _]].
      assert (Vs : m_var2value s'
                   = m_var2value (fold_left fix_value (rev (combine vk tk)) sk)).
      { rewrite Es. unfold update_values.
        destruct (recompute_vars (fold_left fix_value (rev (combine vk tk)) sk)
                    (rev (firstn (length tk) vk))) as [Rc _].
        apply (rc_vals _ _ Rc). }
      rewrite Vs. split; [exact Fe|]. rewrite Ob. apply At.
    - rewrite Er. split; [exact St|]. intros u.
      destruct (unbounded_step true sk Ok Sck St (u + 1)) as [m [Fm Lm]].
      destruct (Ext m Fm) as [Near _].
      destruct (Near 1 eq_refl) as [m' [Fm' Lm']].
      exists m'. split; trivial.
      revert Lm Lm'. generalize (objective_at sk m) as o.
      generalize (objective_at s m') as o'. intros o' o. to_Q.
      change (this 1) with 1%Q. intros. lra. }
  split; [|exact Cases'].
  intros B. destruct r as [|v eps]; [|exists v, eps; reflexivity].
  exfalso. apply (unbounded_not_bounded s); trivial. apply Cases'.
Qed.

Lemma maximize_returns_residual_witness :
  tableau_ok true tableau_lub = true
  /\ exists r s' n sk bound_vars bound_trail,
       maximize tableau_lub = Some (r, s')
       /\ rounds n tableau_lub [] [] = Some (sk, bound_vars, bound_trail)
       /\ s' = update_values bound_vars bound_trail sk
       /\ tableau_ok true s' = true
       /\ (bounded_above tableau_lub -> exists v eps, r = finite v eps)
       /\ match r with
          | infinity =>
              maximize_step sk = Unbounded
              /\ forall u, exists vals, feasible tableau_lub vals
                                        /\ u < objective_at tableau_lub vals
          | finite v eps =>
              maximize_step sk = Done
              /\ m_vars (objective s') = []
              /\ v = m_const (objective s')
              /\ v = m_const (objective sk)
              /\ v = m_value (objective s')
              /\ eps = (if is_lt (m_type (objective s')) then - (1) else 0)
              /\ objective_at tableau_lub (m_var2value tableau_lub) <= v
              /\ (forall d, 0 < d ->
                    exists vals, feasible tableau_lub vals
                                 /\ v - d < objective_at tableau_lub vals)
              /\ (eps = 0 ->
                  feasible tableau_lub (m_var2value s')
                  /\ objective_at tableau_lub (m_var2value s') = v)
          end.
Proof.
  split; [vm_compute; reflexivity|].
  apply maximize_returns_residual. vm_compute. reflexivity.
Defined.
